(** * GraphApp: the graph computation engine

    A shallow embedding of [analyze_graph]
    (server/functions/final_perform_analysis/lambda_function.py) and of
    [validate_parameters] / [make_random_graph]
    (server/functions/final_generate_random/lambda_function.py) and of the
    request validator of
    server/functions/final_start_analysis/lambda_function.py, followed by
    the properties of the engine stated in the specification (Part III) and
    by further properties read off the code (Parts IV and V).

    Modelling conventions.
    - Python integers are [Z].  A description carries integer weights;
      the source converts them with [float(...)] and adds them as doubles.
      That conversion (rounding above 2^53, [OverflowError] beyond the
      range) and that addition (rounded, overflowing to an infinity) are
      modelled on the integers the doubles denote, see "Doubles" below.
      Descriptions with fractional weights are outside the embedded input
      type.
    - A Python [dict] is an association list kept in insertion order with
      unique keys: iteration order of [graph_AL[cur]] is observable (it fixes
      which cycle, predecessor or tree edge is found first).
    - A Python [set] that is only tested for membership is a list.
    - A [heapq] of tuples is a bag with extract-minimum under the
      lexicographic order of the tuples; that order is total and
      antisymmetric, so the popped tuple is determined.
    - [while] loops take fuel; running out of fuel is the outcome [Fuel],
      distinct from every Python exception.  Wherever a property below
      states a result the fuel passed by the entry point is shown to
      suffice, and [make_random_graph] never has the outcome [Fuel].
    - The recursive [dfs] is limited by the interpreter: [analyze_graph]
      takes the number [frames] of nested calls of [dfs] that the
      interpreter still allows when the first one is made (the recursion
      limit, 1000 unless changed, less the frames already in use), and a
      call beyond it raises [RecursionError].  Memory is not modelled.
    - [random.randint] reads an oracle [nat -> Z] at a moving position;
      quantifying over the oracle covers every outcome of the randomness
      source. *)

From Stdlib Require Import String DecimalString ZArith List Bool Lia Arith PeanoNat FinFun
  Permutation.
Import ListNotations.
Local Open Scope Z_scope.

(* ================================================================== *)
(** * Part I.  The embedding                                            *)
(* ================================================================== *)

(** ** Python runtime *)

Inductive exn : Type :=
| KeyError
| IndexError
| ValueError
| OverflowError
| RecursionError
| Exception (msg : string).

Inductive result (A : Type) : Type :=
| Ok (a : A)
| Raise (e : exn)
| Fuel.

Arguments Ok {A} a.
Arguments Raise {A} e.
Arguments Fuel {A}.

Definition bind {A B : Type} (m : result A) (k : A -> result B) : result B :=
  match m with
  | Ok a => k a
  | Raise e => Raise e
  | Fuel => Fuel
  end.

Notation "x <- m ;; k" := (bind m (fun x => k))
  (at level 61, m at next level, right associativity).
Notation "' p <- m ;; k" := (bind m (fun p => k))
  (at level 61, p pattern, m at next level, right associativity).

(** [for x in xs: body] over a state [S] with failure. *)
Fixpoint for_each {A S : Type} (body : S -> A -> result S) (xs : list A) (s : S)
  : result S :=
  match xs with
  | [] => Ok s
  | x :: xs' => s' <- body s x ;; for_each body xs' s'
  end.

(** [x in l] for a list or set of integers. *)
Fixpoint mem (x : Z) (l : list Z) : bool :=
  match l with
  | [] => false
  | y :: l' => (x =? y) || mem x l'
  end.

(** [l.index(x)]; only called under [x in l]. *)
Fixpoint index (x : Z) (l : list Z) : nat :=
  match l with
  | [] => O
  | y :: l' => if x =? y then O else S (index x l')
  end.

(** [range(a, b)]. *)
Definition range (a b : Z) : list Z :=
  map (fun i => a + Z.of_nat i) (seq 0 (Z.to_nat (b - a))).

(** ** Doubles

    [float(edge[2])] makes every stored weight a binary64 value, and the
    only arithmetic of the engine on such values is the sum of two of them
    (a stored weight plus a distance).  A description carries integer
    weights; a double converted from an integer is integral, and so is the
    sum of two integral doubles.  The doubles the engine can hold are
    therefore integers and the two infinities: a double is kept as the
    integer it denotes, the infinities as [float_inf] and [- float_inf],
    the first integers beyond the range, so that [<] on doubles is [<] on
    [Z]. *)

Definition float_inf : Z := 2 ^ 1024.

(** The integer of at most 53 significant bits nearest to [x], ties to the
    even significand. *)
Definition round53 (x : Z) : Z :=
  let a := Z.abs x in
  let e := Z.log2 a in
  if e <? 53 then x
  else
    let s := e - 52 in
    let q := a / 2 ^ s in
    let rem := a mod 2 ^ s in
    let half := 2 ^ (s - 1) in
    let q' := if (half <? rem) || ((rem =? half) && Z.odd q)
              then q + 1 else q in
    Z.sgn x * (q' * 2 ^ s).

(** [float(n)] for a Python integer: [OverflowError] when the nearest
    double would be out of range. *)
Definition float_of_int (n : Z) : result Z :=
  let f := round53 n in
  if float_inf <=? Z.abs f then Raise OverflowError else Ok f.

(** [a + b] for two doubles that are not opposite infinities: the exact
    sum rounded, an infinity when that is out of range. *)
Definition fadd (a b : Z) : Z :=
  if float_inf <=? Z.abs a then a
  else if float_inf <=? Z.abs b then b
  else
    let f := round53 (a + b) in
    if float_inf <=? f then float_inf
    else if f <=? - float_inf then - float_inf
    else f.

(** ** Dictionaries in insertion order *)

Definition dict (V : Type) : Type := list (Z * V).

Fixpoint dict_get {V : Type} (d : dict V) (k : Z) : option V :=
  match d with
  | [] => None
  | (k', v) :: d' => if k =? k' then Some v else dict_get d' k
  end.

(** [d[k] = v]: an existing key keeps its position. *)
Fixpoint dict_set {V : Type} (d : dict V) (k : Z) (v : V) : dict V :=
  match d with
  | [] => [(k, v)]
  | (k', v') :: d' => if k =? k' then (k, v) :: d' else (k', v') :: dict_set d' k v
  end.

Definition dict_keys {V : Type} (d : dict V) : list Z := map fst d.

Definition dict_mem {V : Type} (d : dict V) (k : Z) : bool :=
  match dict_get d k with Some _ => true | None => false end.

(** [d[k]] as an expression: [KeyError] on a missing key. *)
Definition dict_at {V : Type} (d : dict V) (k : Z) : result V :=
  match dict_get d k with
  | Some v => Ok v
  | None => Raise KeyError
  end.

(** ** Priority queues ([heapq]) *)

Module Heap.

Section Bag.
Variable T : Type.
Variable leb : T -> T -> bool.

(** The least element of [x :: l] and the rest of the bag. *)
Fixpoint pop_from (x : T) (l : list T) : T * list T :=
  match l with
  | [] => (x, [])
  | y :: l' =>
      if leb x y
      then let '(m, r) := pop_from x l' in (m, y :: r)
      else let '(m, r) := pop_from y l' in (m, x :: r)
  end.

Definition heappush (h : list T) (x : T) : list T := x :: h.

Definition heappop (h : list T) : option (T * list T) :=
  match h with
  | [] => None
  | x :: l => Some (pop_from x l)
  end.
End Bag.

Arguments pop_from {T}.
Arguments heappush {T}.
Arguments heappop {T}.

(** Tuple order of [(dist, vertex)]. *)
Definition leb2 (a b : Z * Z) : bool :=
  let '(a1, a2) := a in
  let '(b1, b2) := b in
  (a1 <? b1) || ((a1 =? b1) && (a2 <=? b2)).

(** Tuple order of [(weight, start, end)]. *)
Definition leb3 (a b : Z * Z * Z) : bool :=
  let '(a1, a2, a3) := a in
  let '(b1, b2, b3) := b in
  (a1 <? b1) || ((a1 =? b1) && ((a2 <? b2) || ((a2 =? b2) && (a3 <=? b3)))).

End Heap.

(** ** Graph descriptions and analysis results *)

Definition edge : Type := (Z * Z * Z)%type.

Record graph_data : Type := {
  vertices : list Z;
  edges : list edge
}.

Definition adjacency : Type := dict (dict Z).

(** A value of the [shortest_paths] dictionary: first the backtraced list,
    then the pair [[distance, path]] (or [[-1, None]]) that replaces it. *)
Inductive path_entry : Type :=
| Path (p : list Z)
| PyNone
| Entry (distance : Z) (path : path_entry).

Inductive analysis_data : Type :=
| DBool (b : bool)
| DCycle (cycle : list Z)
| DPaths (root : Z) (paths : dict path_entry)
| DReachable (root : Z) (reachable : list Z)
| DEdges (true_edges : list edge).

Record analysis_result : Type := {
  type : string;
  data : analysis_data
}.

Module Analysis.

(** [graph_AL[int(vertex)] = {}] for each vertex, then both directions of
    each edge; [weight = float(edge[2])] comes before the two lookups. *)
Definition add_vertex (al : adjacency) (vertex : Z) : result adjacency :=
  Ok (dict_set al vertex []).

(** [graph_AL[node_A][node_B] = weight; graph_AL[node_B][node_A] = weight]. *)
Definition store_edge (al : adjacency) (e : edge) : result adjacency :=
  let '(node_A, node_B, weight) := e in
  row_A <- dict_at al node_A ;;
  let al1 := dict_set al node_A (dict_set row_A node_B weight) in
  row_B <- dict_at al1 node_B ;;
  Ok (dict_set al1 node_B (dict_set row_B node_A weight)).

Definition add_edge (al : adjacency) (e : edge) : result adjacency :=
  let '(node_A, node_B, w) := e in
  weight <- float_of_int w ;;
  store_edge al (node_A, node_B, weight).

Definition build_AL (graph : graph_data) : result adjacency :=
  al <- for_each add_vertex (vertices graph) [] ;;
  for_each add_edge (edges graph) al.

(** *** Breadth-first search (is_connected, reachable_nodes, mst) *)

Definition bfs_visit (st : list Z * list Z) (nb : Z * Z) : result (list Z * list Z) :=
  let '(reachable, queue) := st in
  let destination := fst nb in
  if mem destination reachable then Ok (reachable, queue)
  else Ok (destination :: reachable, queue ++ [destination]).

Fixpoint bfs (fuel : nat) (graph_AL : adjacency) (reachable queue : list Z)
  : result (list Z) :=
  match queue with
  | [] => Ok reachable
  | cur :: queue' =>
      match fuel with
      | O => Fuel
      | S fuel' =>
          row <- dict_at graph_AL cur ;;
          '(reachable', queue'') <- for_each bfs_visit row (reachable, queue') ;;
          bfs fuel' graph_AL reachable' queue''
      end
  end.

Definition bfs_fuel (graph_AL : adjacency) : nat := S (length graph_AL).

(** [for vertex in vertices: if vertex not in reachable: return False]. *)
Definition all_reached (vs reachable : list Z) : bool :=
  forallb (fun vertex => mem vertex reachable) vs.

Definition first_vertex (graph : graph_data) : result Z :=
  match vertices graph with
  | [] => Raise IndexError
  | v :: _ => Ok v
  end.

Definition is_connected (graph : graph_data) (graph_AL : adjacency)
  : result analysis_result :=
  root <- first_vertex graph ;;
  reachable <- bfs (bfs_fuel graph_AL) graph_AL [root] [root] ;;
  Ok {| type := "is_connected";
        data := DBool (all_reached (vertices graph) reachable) |}.

Definition reachable_nodes (root : Z) (graph_AL : adjacency)
  : result analysis_result :=
  reachable <- bfs (bfs_fuel graph_AL) graph_AL [root] [root] ;;
  Ok {| type := "reachable_nodes"; data := DReachable root reachable |}.

(** *** Depth-first cycle detection (has_cycle) *)

(** The parent test [len(ancestry) == 0 or destination != ancestry[0]]. *)
Definition not_parent (destination : Z) (ancestry : list Z) : bool :=
  match ancestry with
  | [] => true
  | parent :: _ => negb (destination =? parent)
  end.

(** The loop over the neighbours of [cur]; [rec] is the recursive call
    [dfs(destination, copy)]. *)
Fixpoint dfs_neighbors
    (rec : list Z -> Z -> result (list Z * option (list Z)))
    (ancestry : list Z) (row : dict Z) (seen : list Z)
  : result (list Z * option (list Z)) :=
  match row with
  | [] => Ok (seen, None)
  | (destination, _) :: row' =>
      if not_parent destination ancestry then
        '(seen', res) <- rec seen destination ;;
        match res with
        | Some cycle => Ok (seen', Some cycle)
        | None => dfs_neighbors rec ancestry row' seen'
        end
      else dfs_neighbors rec ancestry row' seen
  end.

(** [dfs(cur, ancestry)]; [frames] is the number of nested calls the
    interpreter still allows, this one included. *)
Fixpoint dfs (frames : nat) (graph_AL : adjacency) (seen : list Z)
    (cur : Z) (ancestry : list Z) : result (list Z * option (list Z)) :=
  match frames with
  | O => Raise RecursionError
  | S frames' =>
      let seen := cur :: seen in
      if mem cur ancestry then
        Ok (seen, Some (cur :: firstn (index cur ancestry + 1) ancestry))
      else
        row <- dict_at graph_AL cur ;;
        dfs_neighbors
          (fun seen' destination =>
             dfs frames' graph_AL seen' destination (cur :: ancestry))
          ancestry row seen
  end.

(** The loop over the declared vertices as roots. *)
Fixpoint has_cycle_roots (frames : nat) (graph_AL : adjacency)
    (roots seen : list Z) : result analysis_data :=
  match roots with
  | [] => Ok (DBool false)
  | root :: roots' =>
      if mem root seen then has_cycle_roots frames graph_AL roots' seen
      else
        '(seen', res) <- dfs frames graph_AL seen root [] ;;
        match res with
        | Some cycle => Ok (DCycle cycle)
        | None => has_cycle_roots frames graph_AL roots' seen'
        end
  end.

Definition has_cycle (frames : nat) (graph : graph_data)
    (graph_AL : adjacency) : result analysis_result :=
  d <- has_cycle_roots frames graph_AL (vertices graph) [] ;;
  Ok {| type := "has_cycle"; data := d |}.

(** *** Dijkstra (shortest_paths) *)

Record dijkstra_state : Type := {
  pred : dict (option Z);
  dist : dict Z;
  visited : list Z;
  pq : list (Z * Z)
}.

(** The assignment block of the relaxation:
    [dist[destination] = graph_AL[cur][destination] + dist[cur]],
    [pred[destination] = cur], [heappush(pq, (dist[destination], destination))]. *)
Definition relax_update (cur destination weight : Z) (st : dijkstra_state)
  : result dijkstra_state :=
  dist_cur <- dict_at (dist st) cur ;;
  let d := fadd weight dist_cur in
  Ok {| pred := dict_set (pred st) destination (Some cur);
        dist := dict_set (dist st) destination d;
        visited := visited st;
        pq := Heap.heappush (pq st) (d, destination) |}.

(** One neighbour of [cur]; [weight] is [graph_AL[cur][destination]]. *)
Definition relax (cur : Z) (st : dijkstra_state) (nb : Z * Z)
  : result dijkstra_state :=
  let '(destination, weight) := nb in
  match dict_get (dist st) destination with
  | None => relax_update cur destination weight st
  | Some dist_destination =>
      dist_cur <- dict_at (dist st) cur ;;
      if fadd weight dist_cur <? dist_destination
      then relax_update cur destination weight st
      else Ok st
  end.

Fixpoint dijkstra (fuel : nat) (graph_AL : adjacency) (st : dijkstra_state)
  : result dijkstra_state :=
  match Heap.heappop Heap.leb2 (pq st) with
  | None => Ok st
  | Some ((_, cur), pq') =>
      match fuel with
      | O => Fuel
      | S fuel' =>
          if mem cur (visited st) then
            dijkstra fuel' graph_AL
              {| pred := pred st; dist := dist st;
                 visited := visited st; pq := pq' |}
          else
            row <- dict_at graph_AL cur ;;
            st' <- for_each (relax cur) row
                     {| pred := pred st; dist := dist st;
                        visited := cur :: visited st; pq := pq' |} ;;
            dijkstra fuel' graph_AL st'
      end
  end.

Definition degree_sum (graph_AL : adjacency) : nat :=
  fold_right (fun row n => (length (snd row) + n)%nat) O graph_AL.

Definition dijkstra_fuel (graph_AL : adjacency) : nat := S (degree_sum graph_AL).

(** [while cur != None: path.insert(0, cur); cur = pred[cur]]. *)
Fixpoint backtrace (fuel : nat) (pred : dict (option Z)) (cur : option Z)
    (path : list Z) : result (list Z) :=
  match cur with
  | None => Ok path
  | Some c =>
      match fuel with
      | O => Fuel
      | S fuel' =>
          next <- dict_at pred c ;;
          backtrace fuel' pred next (c :: path)
      end
  end.

Definition collect_path (pred : dict (option Z))
    (shortest_paths : dict path_entry) (vertex : Z) : result (dict path_entry) :=
  if dict_mem pred vertex then
    p <- backtrace (S (length pred)) pred (Some vertex) [] ;;
    Ok (dict_set shortest_paths vertex (Path p))
  else Ok (dict_set shortest_paths vertex (Path [])).

Definition collect_distance (dist : dict Z)
    (shortest_paths : dict path_entry) (vertex : Z) : result (dict path_entry) :=
  match dict_get dist vertex with
  | Some d =>
      p <- dict_at shortest_paths vertex ;;
      Ok (dict_set shortest_paths vertex (Entry d p))
  | None => Ok (dict_set shortest_paths vertex (Entry (-1) PyNone))
  end.

Definition shortest_paths (root : Z) (graph : graph_data) (graph_AL : adjacency)
  : result analysis_result :=
  st <- dijkstra (dijkstra_fuel graph_AL) graph_AL
          {| pred := [(root, None)]; dist := [(root, 0)];
             visited := []; pq := [(0, root)] |} ;;
  sp <- for_each (collect_path (pred st)) (vertices graph) [] ;;
  sp' <- for_each (collect_distance (dist st)) (vertices graph) sp ;;
  Ok {| type := "shortest_paths"; data := DPaths root sp' |}.

(** *** Prim (mst) *)

(** [heappush(pq, (graph_AL[root][destination], root, destination))]. *)
Definition push_root (root : Z) (pq : list (Z * Z * Z)) (nb : Z * Z)
  : result (list (Z * Z * Z)) :=
  let '(destination, weight) := nb in
  Ok (Heap.heappush pq (weight, root, destination)).

(** [if destination not in mst_vertices: heappush(pq, (w, from, destination))]. *)
Definition push_fringe (from : Z) (mst_vertices : list Z)
    (pq : list (Z * Z * Z)) (nb : Z * Z) : result (list (Z * Z * Z)) :=
  let '(destination, weight) := nb in
  if mem destination mst_vertices then Ok pq
  else Ok (Heap.heappush pq (weight, from, destination)).

Fixpoint prim (fuel : nat) (graph_AL : adjacency)
    (mst_edges : list (Z * Z * Z)) (mst_vertices : list Z)
    (pq : list (Z * Z * Z)) : result (list (Z * Z * Z)) :=
  match Heap.heappop Heap.leb3 pq with
  | None => Ok mst_edges
  | Some (cur, pq') =>
      match fuel with
      | O => Fuel
      | S fuel' =>
          let '(_, cur1, cur2) := cur in
          if mem cur1 mst_vertices && mem cur2 mst_vertices then
            prim fuel' graph_AL mst_edges mst_vertices pq'
          else
            let mst_edges := mst_edges ++ [cur] in
            if mem cur1 mst_vertices then
              let mst_vertices := mst_vertices ++ [cur2] in
              row <- dict_at graph_AL cur2 ;;
              pq'' <- for_each (push_fringe cur2 mst_vertices) row pq' ;;
              prim fuel' graph_AL mst_edges mst_vertices pq''
            else
              let mst_vertices := mst_vertices ++ [cur1] in
              row <- dict_at graph_AL cur1 ;;
              pq'' <- for_each (push_fringe cur1 mst_vertices) row pq' ;;
              prim fuel' graph_AL mst_edges mst_vertices pq''
      end
  end.

Definition prim_fuel (graph_AL : adjacency) : nat := S (degree_sum graph_AL).

Definition mst (graph : graph_data) (graph_AL : adjacency)
  : result analysis_result :=
  root <- first_vertex graph ;;
  reachable <- bfs (bfs_fuel graph_AL) graph_AL [root] [root] ;;
  if negb (all_reached (vertices graph) reachable) then
    Ok {| type := "mst"; data := DBool false |}
  else
    row <- dict_at graph_AL root ;;
    pq <- for_each (push_root root) row [] ;;
    mst_edges <- prim (prim_fuel graph_AL) graph_AL [] [root] pq ;;
    Ok {| type := "mst";
          data := DEdges (map (fun e : Z * Z * Z =>
                                 let '(w, s, t) := e in (s, t, w)) mst_edges) |}.

(** *** The entry point *)

Definition analyze_graph (frames : nat) (type : string) (root : option Z)
    (graph : graph_data) : result analysis_result :=
  graph_AL <- build_AL graph ;;
  if String.eqb type "is_connected" then is_connected graph graph_AL
  else if String.eqb type "has_cycle" then has_cycle frames graph graph_AL
  else if String.eqb type "shortest_paths" then
    match root with
    | Some r => shortest_paths r graph graph_AL
    | None => Raise KeyError
    end
  else if String.eqb type "reachable_nodes" then
    match root with
    | Some r => reachable_nodes r graph_AL
    | None => Raise KeyError
    end
  else if String.eqb type "mst" then mst graph graph_AL
  else Raise (Exception ("analysis type " ++ type ++ " is invalid")).

End Analysis.

(** ** The random graph generator *)

Inductive generation_result : Type :=
| Graph (g : graph_data)
| ErrorRecord (message : string).

(** The [statusCode] / [message] of a rejected request. *)
Record rejection : Type := {
  statusCode : Z;
  message : string
}.

Module Generator.

(** The randomness source: an oracle of raw draws and the number of
    draws consumed so far. *)
Record rng : Type := {
  draws : nat -> Z;
  pos : nat
}.

Definition gen (A : Type) : Type := rng -> result (A * rng).

Definition ret {A : Type} (a : A) : gen A := fun r => Ok (a, r).

Definition gbind {A B : Type} (m : gen A) (k : A -> gen B) : gen B :=
  fun r =>
    match m r with
    | Ok (a, r') => k a r'
    | Raise e => Raise e
    | Fuel => Fuel
    end.

Definition raise {A : Type} (e : exn) : gen A := fun _ => Raise e.

Definition out_of_fuel {A : Type} : gen A := fun _ => Fuel.

Notation "x <~ m ;; k" := (gbind m (fun x => k))
  (at level 61, m at next level, right associativity).

(** [random.randint(a, b)]: an integer of [a..b]; [ValueError] on an
    empty range. *)
Definition randint (a b : Z) : gen Z :=
  fun r =>
    if b <? a then Raise ValueError
    else Ok (a + (draws r (pos r)) mod (b - a + 1),
             {| draws := draws r; pos := S (pos r) |}).

Fixpoint gen_for {A S : Type} (body : S -> A -> gen S) (xs : list A) (s : S)
  : gen S :=
  match xs with
  | [] => ret s
  | x :: xs' => s' <~ body s x ;; gen_for body xs' s'
  end.

Definition str (z : Z) : string :=
  DecimalString.NilZero.string_of_int (Z.to_int z).

Definition graph_types : list string :=
  ["any"; "complete"; "connected"; "acyclic"; "tree"; "bipartite"]%string.

Definition validate_parameters (type : string) (vertices edges : Z)
  : option rejection :=
  if negb (existsb (String.eqb type) graph_types) then
    Some {| statusCode := 400;
            message := "graph type " ++ type ++ " is invalid" |}
  else if negb (vertices =? -1) && (vertices <=? 0) then
    Some {| statusCode := 400;
            message := "vertex count " ++ str vertices ++ " is not positive" |}
  else if negb (edges =? -1) && (edges <? 0) then
    Some {| statusCode := 400;
            message := "edge count " ++ str edges ++ " is not non-negative" |}
  else if negb (edges =? -1) && (vertices =? -1) then
    Some {| statusCode := 400;
            message := "cannot specify number of edges but not number of vertices" |}
  else None.

Definition illegal : generation_result :=
  ErrorRecord "number of vertices and edges is illegal".

(** [l.pop(i)] for an index in range. *)
Definition pop_at {A : Type} (i : Z) (l : list A) : list A :=
  firstn (Z.to_nat i) l ++ skipn (S (Z.to_nat i)) l.

Definition len {A : Type} (l : list A) : Z := Z.of_nat (length l).

(** [for end in range(start + 1, num_vertices): edges.append([start, end, randint(1, 100)])]
    inside [for start in range(num_vertices)]. *)
Definition pairs_from (num_vertices : Z) (edges : list edge) (start : Z)
  : gen (list edge) :=
  gen_for (fun edges end_ =>
             w <~ randint 1 100 ;; ret (edges ++ [(start, end_, w)]))
          (range (start + 1) num_vertices) edges.

Definition all_pairs (num_vertices : Z) : gen (list edge) :=
  gen_for (pairs_from num_vertices) (range 0 num_vertices) [].

(** [while len(edges) > num_edges: edges.pop(random.randint(0, len(edges) - 1))]. *)
Fixpoint delete_down (fuel : nat) (num_edges : Z) (edges : list edge)
  : gen (list edge) :=
  if len edges >? num_edges then
    match fuel with
    | O => out_of_fuel
    | S fuel' =>
        rand_edge <~ randint 0 (len edges - 1) ;;
        delete_down fuel' num_edges (pop_at rand_edge edges)
    end
  else ret edges.

Definition edge_eqb (e1 e2 : edge) : bool :=
  let '(a1, b1, w1) := e1 in
  let '(a2, b2, w2) := e2 in
  (a1 =? a2) && (b1 =? b2) && (w1 =? w2).

(** [l.remove(x)]: drops the first element equal to [x]. *)
Fixpoint remove_first (x : edge) (l : list edge) : list edge :=
  match l with
  | [] => []
  | y :: l' => if edge_eqb y x then l' else y :: remove_first x l'
  end.

(** The search loop with [break]. *)
Definition find_edge (other i : Z) (remaining_edges : list edge) : option edge :=
  find (fun e : edge => let '(a, b, _) := e in (a =? other) && (b =? i))
       remaining_edges.

(** One step of the spanning tree of a connected graph; the state is
    [(edges, remaining_edges)]. *)
Definition attach (st : list edge * list edge) (i : Z)
  : gen (list edge * list edge) :=
  let '(edges, remaining_edges) := st in
  other <~ randint 0 (i - 1) ;;
  match find_edge other i remaining_edges with
  | None =>
      raise (Exception "could not find selected edge when building connected graph")
  | Some selected_edge =>
      ret (edges ++ [selected_edge], remove_first selected_edge remaining_edges)
  end.

(** [while len(edges) < num_edges: ...] *)
Fixpoint add_remaining (fuel : nat) (num_edges : Z)
    (edges remaining_edges : list edge) : gen (list edge) :=
  if len edges <? num_edges then
    match fuel with
    | O => out_of_fuel
    | S fuel' =>
        rand_edge <~ randint 0 (len remaining_edges - 1) ;;
        match nth_error remaining_edges (Z.to_nat rand_edge) with
        | None => raise IndexError
        | Some selected_edge =>
            add_remaining fuel' num_edges (edges ++ [selected_edge])
              (remove_first selected_edge remaining_edges)
        end
    end
  else ret edges.

(** One spore of an acyclic graph; the state is [(edges, offset)]. *)
Definition grow_spore (num_vertices spore_count : Z) (st : list edge * Z)
    (spore : Z) : gen (list edge * Z) :=
  let '(edges, offset) := st in
  let num_spore_vertices :=
    if spore <? num_vertices mod spore_count
    then num_vertices / spore_count + 1
    else num_vertices / spore_count in
  edges' <~ gen_for (fun edges i =>
                       p <~ randint offset (i - 1) ;;
                       w <~ randint 1 100 ;;
                       ret (edges ++ [(p, i, w)]))
                    (range (offset + 1) (offset + num_spore_vertices)) edges ;;
  ret (edges', offset + num_spore_vertices).

(** [for A in group_A: for B in group_B: edges.append([A, B, randint(1, 100)])]. *)
Definition cross_pairs (group_A group_B : list Z) : gen (list edge) :=
  gen_for (fun edges A =>
             gen_for (fun edges B =>
                        w <~ randint 1 100 ;; ret (edges ++ [(A, B, w)]))
                     group_B edges)
          group_A [].

(** Resolution of an unspecified count. *)
Definition default (n : Z) (d : gen Z) : gen Z :=
  if n =? -1 then d else ret n.

(** The bodies of the six [case] branches of [make_random_graph]. *)

Definition case_any (num_vertices num_edges : Z) : gen generation_result :=
  num_vertices <~ default num_vertices (randint 5 10) ;;
  num_edges <~ default num_edges
                 (randint 5 (num_vertices * (num_vertices - 1) / 2)) ;;
  if num_edges >? num_vertices * (num_vertices - 1) / 2 then ret illegal
  else
    let vertices := range 0 num_vertices in
    edges <~ all_pairs num_vertices ;;
    edges <~ delete_down (S (length edges)) num_edges edges ;;
    ret (Graph {| vertices := vertices; edges := edges |}).

Definition case_complete (num_vertices num_edges : Z) : gen generation_result :=
  num_vertices <~ default num_vertices (randint 5 10) ;;
  num_edges <~ default num_edges (ret (num_vertices * (num_vertices - 1) / 2)) ;;
  if negb (num_edges =? num_vertices * (num_vertices - 1) / 2) then ret illegal
  else
    let vertices := range 0 num_vertices in
    edges <~ all_pairs num_vertices ;;
    ret (Graph {| vertices := vertices; edges := edges |}).

Definition case_connected (num_vertices num_edges : Z) : gen generation_result :=
  num_vertices <~ default num_vertices (randint 5 10) ;;
  num_edges <~ default num_edges
                 (randint (num_vertices - 1)
                          (num_vertices * (num_vertices - 1) / 2)) ;;
  if (num_edges >? num_vertices * (num_vertices - 1) / 2)
     || (num_edges <? num_vertices - 1) then ret illegal
  else
    let vertices := range 0 num_vertices in
    remaining_edges <~ all_pairs num_vertices ;;
    st <~ gen_for attach (range 1 num_vertices) ([], remaining_edges) ;;
    edges <~ add_remaining (S (length (snd st))) num_edges (fst st) (snd st) ;;
    ret (Graph {| vertices := vertices; edges := edges |}).

Definition case_acyclic (num_vertices num_edges : Z) : gen generation_result :=
  num_vertices <~ default num_vertices (randint 5 10) ;;
  num_edges <~ default num_edges (randint 4 (num_vertices - 1)) ;;
  if num_edges >? num_vertices - 1 then ret illegal
  else
    let vertices := range 0 num_vertices in
    let spore_count := num_vertices - num_edges in
    st <~ gen_for (grow_spore num_vertices spore_count)
                  (range 0 spore_count) ([], 0) ;;
    ret (Graph {| vertices := vertices; edges := fst st |}).

Definition case_tree (num_vertices num_edges : Z) : gen generation_result :=
  num_vertices <~ default num_vertices (randint 5 10) ;;
  num_edges <~ default num_edges (ret (num_vertices - 1)) ;;
  if negb (num_edges =? num_vertices - 1) then ret illegal
  else
    let vertices := range 0 num_vertices in
    edges <~ gen_for (fun edges i =>
                        p <~ randint 0 (i - 1) ;;
                        w <~ randint 1 100 ;;
                        ret (edges ++ [(p, i, w)]))
                     (range 1 num_vertices) [] ;;
    ret (Graph {| vertices := vertices; edges := edges |}).

Definition case_bipartite (num_vertices num_edges : Z) : gen generation_result :=
  num_vertices <~ default num_vertices (randint 5 10) ;;
  num_edges <~ default num_edges
                 (randint 4 (num_vertices * num_vertices / 4)) ;;
  if num_edges >? num_vertices * num_vertices / 4 then ret illegal
  else
    let vertices := range 0 num_vertices in
    let group_A := filter (fun i => i <? num_vertices / 2) vertices in
    let group_B := filter (fun i => negb (i <? num_vertices / 2)) vertices in
    edges <~ cross_pairs group_A group_B ;;
    edges <~ delete_down (S (length edges)) num_edges edges ;;
    ret (Graph {| vertices := vertices; edges := edges |}).

Definition make_random_graph (type : string) (num_vertices num_edges : Z)
  : gen generation_result :=
  if String.eqb type "any" then case_any num_vertices num_edges
  else if String.eqb type "complete" then case_complete num_vertices num_edges
  else if String.eqb type "connected" then case_connected num_vertices num_edges
  else if String.eqb type "acyclic" then case_acyclic num_vertices num_edges
  else if String.eqb type "tree" then case_tree num_vertices num_edges
  else if String.eqb type "bipartite" then case_bipartite num_vertices num_edges
  else ret (ErrorRecord ("graph type " ++ type ++ " is invalid")).

(** The entry contract [generate]: validation, then generation. *)
Definition generate (type : string) (vertices edges : Z)
  : gen (generation_result + rejection) :=
  match validate_parameters type vertices edges with
  | Some rej => ret (inr rej)
  | None => g <~ make_random_graph type vertices edges ;; ret (inl g)
  end.

End Generator.

(** ** The validator of analysis requests
    (server/functions/final_start_analysis/lambda_function.py).
    A rejection is recorded by its status code and its message; the
    constant [jobid] -1 of the response body is left out. *)

Module StartAnalysis.

Definition analysis_types : list string :=
  ["is_connected"; "has_cycle"; "shortest_paths"; "reachable_nodes"; "mst"]%string.

Definition rooted_types : list string :=
  ["shortest_paths"; "reachable_nodes"]%string.

Definition validate_parameters (type : string) (root : option Z)
    (graph_data : graph_data) : option rejection :=
  if negb (existsb (String.eqb type) analysis_types) then
    Some {| statusCode := 400;
            message := "analysis type " ++ type ++ " is invalid" |}
  else if existsb (String.eqb type) rooted_types then
    match root with
    | None =>
        Some {| statusCode := 400;
                message := "analysis type " ++ type
                           ++ " requires a root node identifier" |}
    | Some r =>
        if negb (mem r (vertices graph_data)) then
          Some {| statusCode := 400;
                  message := "root node " ++ Generator.str r
                             ++ " does not exist in the graph" |}
        else None
    end
  else None.

End StartAnalysis.

(* ================================================================== *)
(** * Part II.  Specification vocabulary                                *)
(* ================================================================== *)

(** A graph description is well formed when its vertex ids are unique and
    every edge joins declared vertices.  (The ids need not be non-negative
    for anything proved below.) *)
Definition well_formed (g : graph_data) : Prop :=
  NoDup (vertices g) /\
  forall a b w, In (a, b, w) (edges g) -> In a (vertices g) /\ In b (vertices g).

(** The edge [e] joins [u] and [v], in either direction. *)
Definition joins (e : edge) (u v : Z) : bool :=
  let '(a, b, _) := e in
  ((a =? u) && (b =? v)) || ((a =? v) && (b =? u)).

(** The weight of the edge between [u] and [v]: when the description lists
    several edges between them the last one counts; in a description without
    parallel edges it is the weight of the one edge. *)
Fixpoint edge_weight (es : list edge) (u v : Z) : option Z :=
  match es with
  | [] => None
  | e :: es' =>
      match edge_weight es' u v with
      | Some w => Some w
      | None => if joins e u v then Some (snd e) else None
      end
  end.

Definition adjacent (es : list edge) (u v : Z) : Prop :=
  exists e, In e es /\ joins e u v = true.

(** No self-loops and no two edges between the same two vertices. *)
Fixpoint simple (es : list edge) : Prop :=
  match es with
  | [] => True
  | (a, b, w) :: es' =>
      a <> b /\ (forall e, In e es' -> joins e a b = false) /\ simple es'
  end.

Inductive reach (adj : Z -> Z -> Prop) (r : Z) : Z -> Prop :=
| reach_here : reach adj r r
| reach_step (u v : Z) : reach adj r u -> adj u v -> reach adj r v.

(** [v] can be reached from [r] along edges of the description. *)
Definition reachable (g : graph_data) (r v : Z) : Prop :=
  reach (adjacent (edges g)) r v.

(** Entry [graph_AL[u][v]] of an adjacency model, if present. *)
Definition lookup2 (al : adjacency) (u v : Z) : option Z :=
  match dict_get al u with
  | Some row => dict_get row v
  | None => None
  end.

(** The shape of every adjacency model built from a well-formed
    description: unique keys, rows with unique keys that mention keys of
    the model only. *)
Definition closed_AL (al : adjacency) : Prop :=
  NoDup (dict_keys al) /\
  forall u row, dict_get al u = Some row ->
    NoDup (dict_keys row) /\ incl (dict_keys row) (dict_keys al).

(** Adjacency as the model holds it. *)
Definition al_adj (al : adjacency) (u v : Z) : Prop := lookup2 al u v <> None.

(** The invariant of every generated edge list: each edge runs from a
    smaller to a larger vertex id below [V]. *)
Definition ordered_below (V : Z) (e : edge) : Prop :=
  let '(a, b, _) := e in 0 <= a /\ a < b /\ b < V.

Definition edge_end (e : edge) : Z := snd (fst e).

(** The invariant of the edge lists of the "tree" and "acyclic" generators:
    every edge attaches its end to a smaller vertex, and no vertex is the end
    of two edges. *)
Definition forest_below (hi : Z) (es : list edge) : Prop :=
  NoDup (map edge_end es) /\ Forall (ordered_below hi) es.

(** Consecutive elements of [l] are related by [adj]. *)
Fixpoint chain (adj : Z -> Z -> Prop) (l : list Z) : Prop :=
  match l with
  | x :: (y :: _) as t => adj x y /\ chain adj t
  | _ => True
  end.

(** The shape of a cycle returned by [has_cycle]: a closed walk
    [c, x1, ..., xn, c] over distinct vertices [x1, ..., xn, c]. *)
Definition closed_walk (adj : Z -> Z -> Prop) (cycle : list Z) : Prop :=
  exists c mid,
    cycle = c :: mid ++ [c] /\ NoDup (mid ++ [c]) /\ chain adj cycle.

(** [dfs] was called on [x] and returned without a cycle. *)
Definition explored (al : adjacency) (x : Z) : Prop :=
  exists fuel seen ancestry seen',
    Analysis.dfs fuel al seen x ancestry = Ok (seen', None).

(** The precondition of a call [dfs(cur, ancestry)]: the ancestry is a path
    without repetition that [cur] extends, and [cur] is not its own
    grandparent. *)
Definition dfs_pre (al : adjacency) (cur : Z) (ancestry : list Z) : Prop :=
  NoDup ancestry /\
  chain (fun x y => al_adj al y x) (cur :: ancestry) /\
  forall p gp rest, ancestry = p :: gp :: rest -> cur <> gp.

(** No element of [l] equals the element two places later. *)
Fixpoint no_uturn (l : list Z) : Prop :=
  match l with
  | x :: (y :: z :: _) as t => x <> z /\ no_uturn t
  | _ => True
  end.

(** In a generated forest a vertex has at most one smaller neighbour (the
    vertex it attached to). *)
Definition one_parent (adj : Z -> Z -> Prop) : Prop :=
  forall m x y, adj m x -> adj m y -> x < m -> y < m -> x = y.

(** [walk es r p v d]: [p] is a walk of the graph from [r] to [v] whose
    edge weights add up to [d]. *)
Inductive walk (es : list edge) (r : Z) : list Z -> Z -> Z -> Prop :=
| walk_root : walk es r [r] r 0
| walk_step (p : list Z) (u d v w : Z) :
    walk es r p u d -> edge_weight es u v = Some w ->
    walk es r (p ++ [v]) v (d + w).

(** The accumulated weight of a vertex sequence, when consecutive elements
    are adjacent. *)
Fixpoint path_weight (es : list edge) (p : list Z) : option Z :=
  match p with
  | x :: (y :: _) as t =>
      match edge_weight es x y, path_weight es t with
      | Some w, Some d => Some (w + d)
      | _, _ => None
      end
  | _ => Some 0
  end.

(** [pred_path pred p v]: [p] is the chain of predecessors of [v], oldest
    first, ending in a vertex without predecessor. *)
Inductive pred_path (pred : dict (option Z)) : list Z -> Z -> Prop :=
| pp_root (r : Z) : dict_get pred r = Some None -> pred_path pred [r] r
| pp_step (p : list Z) (u v : Z) :
    pred_path pred p u -> dict_get pred v = Some (Some u) ->
    pred_path pred (p ++ [v]) v.

Definition good_path (es : list edge) (root : Z) (st : Analysis.dijkstra_state)
    (p : list Z) (v d : Z) : Prop :=
  pred_path (Analysis.pred st) p v /\
  walk es root p v d /\
  NoDup p /\
  forall x, In x p -> x = v \/ In x (Analysis.visited st).

(** The loop invariant of Dijkstra's algorithm; [done] are the vertices
    whose neighbours have all been relaxed. *)
Record dijkstra_inv (al : adjacency) (es : list edge) (root : Z)
    (done : list Z) (st : Analysis.dijkstra_state) : Prop := {
  inv_root : dict_get (Analysis.dist st) root = Some 0;
  inv_keys : forall v, dict_get (Analysis.pred st) v = None <->
                       dict_get (Analysis.dist st) v = None;
  inv_path : forall v d, dict_get (Analysis.dist st) v = Some d ->
               0 <= d /\ In v (dict_keys al) /\
               exists p, good_path es root st p v d;
  inv_visited : forall u, In u (Analysis.visited st) ->
                  dict_get (Analysis.dist st) u <> None;
  inv_settled : forall u du k x,
      In u (Analysis.visited st) ->
      dict_get (Analysis.dist st) u = Some du ->
      In (k, x) (Analysis.pq st) -> du <= k;
  inv_queue : forall k x, In (k, x) (Analysis.pq st) ->
                exists dx, dict_get (Analysis.dist st) x = Some dx /\ dx <= k;
  inv_fringe : forall v d, dict_get (Analysis.dist st) v = Some d ->
                 ~ In v (Analysis.visited st) -> In (d, v) (Analysis.pq st);
  inv_done : forall u v, In u done -> al_adj al u v ->
               dict_get (Analysis.dist st) v <> None
}.

(** While the neighbours of [cur] are relaxed: [cur] is visited with final
    distance [dc], the largest distance of a visited vertex. *)
Definition relaxing (cur dc : Z) (st : Analysis.dijkstra_state) : Prop :=
  dict_get (Analysis.dist st) cur = Some dc /\
  In cur (Analysis.visited st) /\
  forall u du, In u (Analysis.visited st) ->
               dict_get (Analysis.dist st) u = Some du -> du <= dc.

(** The number of adjacency entries of the vertices not yet in [done]. *)
Definition pending_degree (al : adjacency) (done : list Z) : nat :=
  fold_right (fun row n => if mem (fst row) done then n
                           else (length (snd row) + n)%nat) O al.

(** [route adj u l v]: stepping along [adj] from [u] through the vertices
    [l] one arrives at [v], the last element of [l] (or [u] itself). *)
Inductive route (adj : Z -> Z -> Prop) : Z -> list Z -> Z -> Prop :=
| route_nil (u : Z) : route adj u [] u
| route_cons (u x : Z) (l : list Z) (v : Z) :
    adj u x -> route adj x l v -> route adj u (x :: l) v.

(** The tuple [(weight, start, end)] of the priority queue as an edge
    [(start, end, weight)] of the result. *)
Definition to_edge (t : Z * Z * Z) : edge :=
  let '(w, u, v) := t in (u, v, w).

Definition total_weight (T : list edge) : Z :=
  fold_right (fun e s => snd e + s) 0 T.

(** The two endpoints of an edge, smaller first. *)
Definition endpoints (e : edge) : Z * Z :=
  let '(u, v, _) := e in (Z.min u v, Z.max u v).

(** Every two declared vertices are joined by a walk. *)
Definition connected (g : graph_data) : Prop :=
  forall u v, In u (vertices g) -> In v (vertices g) -> reachable g u v.

Definition spans (T : list edge) (vs : list Z) : Prop :=
  forall u v, In u vs -> In v vs -> reach (adjacent T) u v.

(** A spanning tree of the graph: a set of V-1 edges of the graph (each with
    the weight the graph gives it, see [edge_weight]) that joins every two
    declared vertices. *)
Definition spanning_tree (g : graph_data) (T : list edge) : Prop :=
  (forall u v w, In (u, v, w) T -> edge_weight (edges g) u v = Some w) /\
  NoDup (map endpoints T) /\
  spans T (vertices g) /\
  S (length T) = length (vertices g).

(** [T] without its edge between [x] and [y]. *)
Definition remove_edge (x y : Z) (T : list edge) : list edge :=
  filter (fun e => negb (joins e x y)) T.

Definition sumZ (l : list Z) : Z := fold_right Z.add 0 l.

(** The weight the graph gives to a pair of endpoints. *)
Definition pair_weight (es : list edge) (p : Z * Z) : Z :=
  match edge_weight es (fst p) (snd p) with
  | Some w => w
  | None => 0
  end.

(** The loop invariant of Prim's algorithm.  The last field is the heart
    of its correctness: the edges chosen so far can be completed to a
    spanning tree at least as light as any given one. *)
Record prim_inv (g : graph_data) (al : adjacency) (root : Z)
    (mst_edges : list (Z * Z * Z)) (mst_vertices : list Z)
    (pq : list (Z * Z * Z)) : Prop := {
  pv_nodup : NoDup mst_vertices;
  pv_keys : incl mst_vertices (dict_keys al);
  pv_root : In root mst_vertices;
  pv_joined : forall x, In x mst_vertices ->
                reach (adjacent (map to_edge mst_edges)) root x;
  pe_graph : forall w u v, In (w, u, v) mst_edges ->
               edge_weight (edges g) u v = Some w /\
               In u mst_vertices /\ In v mst_vertices;
  pe_nodup : NoDup (map endpoints (map to_edge mst_edges));
  pe_len : S (length mst_edges) = length mst_vertices;
  pq_graph : forall w u v, In (w, u, v) pq ->
               lookup2 al u v = Some w /\ In u mst_vertices;
  pq_fringe : forall u v w, In u mst_vertices -> ~ In v mst_vertices ->
                lookup2 al u v = Some w -> In (w, u, v) pq;
  p_promising : forall T, spanning_tree g T ->
                  exists T', spanning_tree g T' /\
                    total_weight T' <= total_weight T /\
                    forall w u v, In (w, u, v) mst_edges -> adjacent T' u v
}.

(** Every edge that leaves a vertex of [done] has been relaxed: the
    distance of its far end is at most the distance of the vertex plus the
    weight of the edge. *)
Definition relaxed_edges (al : adjacency) (done : list Z) (dist : dict Z)
  : Prop :=
  forall u v w du,
    In u done -> lookup2 al u v = Some w -> dict_get dist u = Some du ->
    exists dv, dict_get dist v = Some dv /\ dv <= w + du.

(** Distances are only ever lowered. *)
Definition lowers (dist dist' : dict Z) : Prop :=
  forall v dv, dict_get dist v = Some dv ->
    exists dv', dict_get dist' v = Some dv' /\ dv' <= dv.


(** A weight drawn by [random.randint(1, 100)]. *)
Definition weight_ok (e : edge) : Prop := 1 <= snd e <= 100.

(** An edge that runs from its smaller to its larger end. *)
Definition ascending (e : edge) : Prop := fst (fst e) < snd (fst e).

(** The pairs [(start, end)] in the order of the two nested loops
    [for start in range(V): for end in range(start + 1, V)]. *)
Definition pairs_of (V : Z) : list (Z * Z) :=
  flat_map (fun s => map (pair s) (range (s + 1) V)) (range 0 V).

(** The pairs in the order of [for A in group_A: for B in group_B]. *)
Definition cross_of (gA gB : list Z) : list (Z * Z) :=
  flat_map (fun a => map (pair a) gB) gA.

(** Every vertex from 1 on is the larger end of an edge: the way the "tree"
    and "connected" generators attach each vertex to an earlier one. *)
Definition attached_below (V : Z) (es : list edge) : Prop :=
  forall i, 1 <= i < V -> exists p w, 0 <= p < i /\ In (p, i, w) es.


(** What every branch of [make_random_graph] establishes for the graph it
    returns; [V] and [E] are the vertex and edge counts after the
    unspecified ones were drawn. *)
Definition generated_as (nv ne V E : Z) (g : graph_data) : Prop :=
  vertices g = range 0 V /\
  (nv <> -1 -> V = nv) /\ (nv = -1 -> 5 <= V <= 10) /\
  (ne <> -1 -> E = ne) /\
  Forall weight_ok (edges g) /\
  NoDup (map fst (edges g)) /\
  (1 <= V -> 0 <= E -> Z.of_nat (length (edges g)) = E).


(** [float(w)] does not overflow for any listed weight. *)
Definition finite_weights (g : graph_data) : Prop :=
  forall a b w, In (a, b, w) (edges g) -> float_of_int w = Ok (round53 w).

(** Every listed weight is a double: [float(w)] is [w] itself. *)
Definition exact_weights (g : graph_data) : Prop :=
  forall a b w, In (a, b, w) (edges g) -> float_of_int w = Ok w.

(** The description as the adjacency model holds it: every weight replaced
    by the double nearest to it. *)
Definition stored_edge (e : edge) : edge :=
  let '(a, b, w) := e in (a, b, round53 w).

Definition stored (g : graph_data) : graph_data :=
  {| vertices := vertices g; edges := map stored_edge (edges g) |}.


(* ================================================================== *)
(** * Part III.  Properties                                             *)
(* ================================================================== *)

(** ** Lists, membership and dictionaries *)

Lemma mem_In (x : Z) (l : list Z) : mem x l = true <-> In x l.
Proof.
  induction l as [|y l IH]; simpl.
  - split; [discriminate | tauto].
  - rewrite orb_true_iff, IH, Z.eqb_eq. intuition congruence.
Qed.

Lemma mem_not_In (x : Z) (l : list Z) : mem x l = false <-> ~ In x l.
Proof.
  rewrite <- mem_In. destruct (mem x l); intuition congruence.
Qed.

Lemma In_range (a b x : Z) : In x (range a b) <-> a <= x < b.
Proof.
  unfold range. rewrite in_map_iff. split.
  - intros [i [<- Hi]]. apply in_seq in Hi. lia.
  - intros H. exists (Z.to_nat (x - a)). split; [lia|].
    apply in_seq. lia.
Qed.

Lemma range_empty (a b : Z) : b <= a -> range a b = [].
Proof.
  intros H. unfold range. replace (Z.to_nat (b - a)) with O by lia. reflexivity.
Qed.

Lemma range_cons (a b : Z) : a < b -> range a b = a :: range (a + 1) b.
Proof.
  intros H. unfold range.
  replace (Z.to_nat (b - a)) with (S (Z.to_nat (b - (a + 1)))) by lia.
  simpl. f_equal; [lia|].
  rewrite <- seq_shift, map_map. apply map_ext. intros i. lia.
Qed.

Lemma NoDup_range (a b : Z) : NoDup (range a b).
Proof.
  unfold range. apply Injective_map_NoDup; [|apply seq_NoDup].
  intros i j. lia.
Qed.

Lemma length_range (a b : Z) : length (range a b) = Z.to_nat (b - a).
Proof. unfold range. now rewrite length_map, length_seq. Qed.

Lemma dict_get_set_eq {V : Type} (d : dict V) (k : Z) (v : V) :
  dict_get (dict_set d k v) k = Some v.
Proof.
  induction d as [|[k' v'] d IH]; simpl.
  - now rewrite Z.eqb_refl.
  - destruct (k =? k') eqn:E; simpl; [now rewrite Z.eqb_refl | now rewrite E].
Qed.

Lemma dict_get_set_neq {V : Type} (d : dict V) (k k0 : Z) (v : V) :
  k0 <> k -> dict_get (dict_set d k v) k0 = dict_get d k0.
Proof.
  intros Hne. induction d as [|[k' v'] d IH]; simpl.
  - destruct (k0 =? k) eqn:E; [apply Z.eqb_eq in E; congruence | reflexivity].
  - destruct (k =? k') eqn:E; simpl.
    + apply Z.eqb_eq in E. subst k'.
      destruct (k0 =? k) eqn:E'; [apply Z.eqb_eq in E'; congruence | reflexivity].
    + now rewrite IH.
Qed.

Lemma dict_get_set {V : Type} (d : dict V) (k k0 : Z) (v : V) :
  dict_get (dict_set d k v) k0 = if k0 =? k then Some v else dict_get d k0.
Proof.
  destruct (k0 =? k) eqn:E.
  - apply Z.eqb_eq in E. subst. apply dict_get_set_eq.
  - apply Z.eqb_neq in E. now apply dict_get_set_neq.
Qed.

Lemma dict_get_In {V : Type} (d : dict V) (k : Z) (v : V) :
  dict_get d k = Some v -> In (k, v) d.
Proof.
  induction d as [|[k' v'] d IH]; simpl; [discriminate|].
  destruct (k =? k') eqn:E.
  - apply Z.eqb_eq in E. intros [= ->]. left. congruence.
  - auto.
Qed.

Lemma dict_get_keys {V : Type} (d : dict V) (k : Z) :
  In k (dict_keys d) <-> dict_get d k <> None.
Proof.
  induction d as [|[k' v'] d IH]; simpl; [intuition congruence|].
  destruct (k =? k') eqn:E.
  - apply Z.eqb_eq in E. intuition congruence.
  - apply Z.eqb_neq in E. rewrite <- IH. intuition congruence.
Qed.

Lemma dict_get_Some_keys {V : Type} (d : dict V) (k : Z) (v : V) :
  dict_get d k = Some v -> In k (dict_keys d).
Proof. intros H. apply dict_get_keys. congruence. Qed.

Lemma In_dict_get {V : Type} (d : dict V) (k : Z) (v : V) :
  NoDup (dict_keys d) -> In (k, v) d -> dict_get d k = Some v.
Proof.
  induction d as [|[k' v'] d IH]; simpl; [tauto|].
  intros Hnd [H|H].
  - injection H as -> ->. now rewrite Z.eqb_refl.
  - inversion Hnd; subst. destruct (k =? k') eqn:E.
    + apply Z.eqb_eq in E. subst. exfalso. apply H2.
      change (In (fst (k', v)) (map fst d)). now apply in_map.
    + auto.
Qed.

Lemma dict_set_keys_present {V : Type} (d : dict V) (k : Z) (v : V) :
  In k (dict_keys d) -> dict_keys (dict_set d k v) = dict_keys d.
Proof.
  induction d as [|[k' v'] d IH]; simpl; [tauto|].
  intros H. destruct (k =? k') eqn:E; simpl.
  - apply Z.eqb_eq in E. now subst.
  - apply Z.eqb_neq in E. f_equal. apply IH. intuition congruence.
Qed.

Lemma dict_set_keys_absent {V : Type} (d : dict V) (k : Z) (v : V) :
  ~ In k (dict_keys d) -> dict_keys (dict_set d k v) = dict_keys d ++ [k].
Proof.
  induction d as [|[k' v'] d IH]; simpl; [reflexivity|].
  intros H. destruct (k =? k') eqn:E; simpl.
  - apply Z.eqb_eq in E. subst. tauto.
  - f_equal. apply IH. tauto.
Qed.

Lemma dict_set_keys_In {V : Type} (d : dict V) (k x : Z) (v : V) :
  In x (dict_keys (dict_set d k v)) <-> x = k \/ In x (dict_keys d).
Proof.
  rewrite !dict_get_keys, dict_get_set.
  destruct (x =? k) eqn:E.
  - apply Z.eqb_eq in E. intuition congruence.
  - apply Z.eqb_neq in E. intuition congruence.
Qed.

Lemma dict_set_keys_NoDup {V : Type} (d : dict V) (k : Z) (v : V) :
  NoDup (dict_keys d) -> NoDup (dict_keys (dict_set d k v)).
Proof.
  intros H. destruct (in_dec Z.eq_dec k (dict_keys d)) as [Hin|Hout].
  - now rewrite dict_set_keys_present.
  - rewrite dict_set_keys_absent by assumption.
    apply NoDup_app; [assumption | repeat constructor; simpl; tauto |].
    intros x Hx [<-|[]]. tauto.
Qed.

Lemma dict_at_Ok {V : Type} (d : dict V) (k : Z) (v : V) :
  dict_at d k = Ok v <-> dict_get d k = Some v.
Proof.
  unfold dict_at. destruct (dict_get d k); split; congruence.
Qed.

Lemma bind_Ok {A B : Type} (m : result A) (k : A -> result B) (b : B) :
  bind m k = Ok b <-> exists a, m = Ok a /\ k a = Ok b.
Proof.
  destruct m; simpl; split.
  - eauto.
  - intros [a' [[= ->] H]]. exact H.
  - discriminate.
  - intros [a' [H _]]. discriminate.
  - discriminate.
  - intros [a' [H _]]. discriminate.
Qed.

(** ** The adjacency model *)

Lemma add_vertices_spec (vs : list Z) (al : adjacency) :
  exists al', for_each Analysis.add_vertex vs al = Ok al' /\
    (forall k, In k (dict_keys al') <-> In k (dict_keys al) \/ In k vs) /\
    (NoDup (dict_keys al) -> NoDup (dict_keys al')) /\
    ((forall u row, dict_get al u = Some row -> row = []) ->
     forall u row, dict_get al' u = Some row -> row = []).
Proof.
  revert al. induction vs as [|v vs IH]; intros al; simpl.
  - exists al. repeat split; auto; tauto.
  - destruct (IH (dict_set al v [])) as [al' [H1 [H2 [H3 H4]]]].
    exists al'. split; [exact H1|]. repeat split.
    + intros H. apply H2 in H. rewrite dict_set_keys_In in H. intuition.
    + intros H. apply H2. rewrite dict_set_keys_In. intuition.
    + intros H. apply H3. now apply dict_set_keys_NoDup.
    + intros Hal. apply H4. intros u row. rewrite dict_get_set.
      destruct (u =? v); [congruence | apply Hal].
Qed.

Lemma store_edge_Ok (al : adjacency) (a b w : Z) :
  In a (dict_keys al) -> In b (dict_keys al) ->
  exists al', Analysis.store_edge al (a, b, w) = Ok al'.
Proof.
  intros Ha Hb. unfold Analysis.store_edge.
  apply dict_get_keys in Ha.
  destruct (dict_get al a) as [rowA|] eqn:EA; [|congruence].
  unfold dict_at at 1. rewrite EA. simpl.
  unfold dict_at. rewrite dict_get_set.
  apply dict_get_keys in Hb.
  destruct (b =? a); simpl; [eauto|].
  destruct (dict_get al b); simpl; [eauto | congruence].
Qed.

Lemma store_edge_spec (al al' : adjacency) (a b w : Z) :
  Analysis.store_edge al (a, b, w) = Ok al' ->
  In a (dict_keys al) /\ In b (dict_keys al) /\
  dict_keys al' = dict_keys al /\
  (forall u v, lookup2 al' u v =
               if joins (a, b, w) u v then Some w else lookup2 al u v) /\
  (forall u row', dict_get al' u = Some row' ->
     exists row, dict_get al u = Some row /\
       forall x, In x (dict_keys row') ->
                 In x (dict_keys row) \/ x = a \/ x = b) /\
  (forall u row' row, dict_get al' u = Some row' -> dict_get al u = Some row ->
     NoDup (dict_keys row) -> NoDup (dict_keys row')).
Proof.
  unfold Analysis.store_edge. intros H.
  apply bind_Ok in H. destruct H as [rowA [HA H]].
  apply dict_at_Ok in HA.
  apply bind_Ok in H. destruct H as [rowB [HB H]].
  apply dict_at_Ok in HB. injection H as <-.
  assert (Ha : In a (dict_keys al)) by (eapply dict_get_Some_keys; eauto).
  assert (Hb : In b (dict_keys al)).
  { rewrite dict_get_set in HB. destruct (b =? a) eqn:E.
    - apply Z.eqb_eq in E. now subst.
    - eapply dict_get_Some_keys; eauto. }
  split; [exact Ha|]. split; [exact Hb|]. split.
  { rewrite !dict_set_keys_present; auto.
    rewrite dict_set_keys_present; auto. }
  rewrite dict_get_set in HB.
  split; [|split].
  - intros u v. unfold lookup2, joins. rewrite !dict_get_set.
    destruct (u =? b) eqn:Eub.
    + apply Z.eqb_eq in Eub. subst u. rewrite dict_get_set.
      destruct (b =? a) eqn:Eba.
      * apply Z.eqb_eq in Eba. subst b. injection HB as <-.
        rewrite dict_get_set, HA. rewrite Z.eqb_refl. simpl.
        rewrite (Z.eqb_sym a v). destruct (v =? a); reflexivity.
      * rewrite HB. rewrite (Z.eqb_sym a b), Eba. simpl.
        rewrite Z.eqb_refl, andb_true_r. rewrite (Z.eqb_sym a v).
        destruct (v =? a); reflexivity.
    + destruct (u =? a) eqn:Eua.
      * apply Z.eqb_eq in Eua. subst u. rewrite dict_get_set, HA.
        rewrite Z.eqb_refl. simpl. rewrite (Z.eqb_sym b a), Eub, andb_false_r, orb_false_r.
        rewrite (Z.eqb_sym b v). destruct (v =? b); reflexivity.
      * rewrite (Z.eqb_sym a u), Eua, (Z.eqb_sym b u), Eub. simpl.
        rewrite andb_false_r. reflexivity.
  - intros u row'. rewrite !dict_get_set.
    destruct (u =? b) eqn:Eub.
    + apply Z.eqb_eq in Eub. subst u. intros [= <-].
      destruct (b =? a) eqn:Eba.
      * apply Z.eqb_eq in Eba. subst b. injection HB as <-.
        exists rowA. split; [exact HA|]. intros x.
        rewrite !dict_set_keys_In. tauto.
      * exists rowB. split; [exact HB|]. intros x.
        rewrite !dict_set_keys_In. tauto.
    + destruct (u =? a) eqn:Eua.
      * apply Z.eqb_eq in Eua. subst u. intros [= <-].
        exists rowA. split; [exact HA|]. intros x.
        rewrite !dict_set_keys_In. tauto.
      * intros Hu. exists row'. split; [exact Hu | tauto].
  - intros u row' row. rewrite !dict_get_set.
    destruct (u =? b) eqn:Eub.
    + apply Z.eqb_eq in Eub. subst u. intros [= <-] Hrow Hnd.
      apply dict_set_keys_NoDup.
      destruct (b =? a) eqn:Eba.
      * apply Z.eqb_eq in Eba. subst b. injection HB as <-.
        apply dict_set_keys_NoDup. congruence.
      * congruence.
    + destruct (u =? a) eqn:Eua.
      * apply Z.eqb_eq in Eua. subst u. intros [= <-] Hrow Hnd.
        apply dict_set_keys_NoDup. congruence.
      * congruence.
Qed.

Lemma store_edge_closed (al al' : adjacency) (e : edge) :
  Analysis.store_edge al e = Ok al' -> closed_AL al -> closed_AL al'.
Proof.
  destruct e as [[a b] w]. intros H [Hnd Hrows].
  destruct (store_edge_spec _ _ _ _ _ H) as [Ha [Hb [Hk [_ [Hr Hn]]]]].
  split; [now rewrite Hk|].
  intros u row' Hu. destruct (Hr _ _ Hu) as [row [Hrow Hsub]].
  destruct (Hrows _ _ Hrow) as [Hnd' Hincl]. split.
  - eapply Hn; eauto.
  - rewrite Hk. intros x Hx. destruct (Hsub _ Hx) as [Hx'|[->| ->]]; auto.
Qed.

Arguments Analysis.store_edge : simpl never.
Arguments Analysis.add_edge : simpl never.

Lemma store_edges_spec (es : list edge) (al al' : adjacency) :
  for_each Analysis.store_edge es al = Ok al' ->
  dict_keys al' = dict_keys al /\
  (closed_AL al -> closed_AL al') /\
  (forall a b w, In (a, b, w) es -> In a (dict_keys al) /\ In b (dict_keys al)) /\
  (forall u v, lookup2 al' u v =
               match edge_weight es u v with
               | Some w => Some w
               | None => lookup2 al u v
               end).
Proof.
  revert al. induction es as [|[[a b] w] es IH]; intros al H; simpl in H.
  - injection H as <-. split; [reflexivity|]. split; [auto|].
    split; [intros a b w []|]. reflexivity.
  - apply bind_Ok in H. destruct H as [al1 [H1 H]].
    destruct (IH _ H) as [Hk [Hc [Hin Hl]]].
    destruct (store_edge_spec _ _ _ _ _ H1) as [Ha [Hb [Hk1 [Hl1 _]]]].
    split; [congruence|]. split; [|split].
    + intros Hcl. apply Hc. exact (store_edge_closed al al1 (a, b, w) H1 Hcl).
    + intros a' b' w' [Heq|Hin'].
      * injection Heq as <- <- <-. auto.
      * rewrite <- Hk1. eauto.
    + intros u v. rewrite Hl. simpl.
      destruct (edge_weight es u v); [reflexivity|]. rewrite Hl1. simpl.
      destruct ((a =? u) && (b =? v) || (a =? v) && (b =? u)); reflexivity.
Qed.

Lemma store_edges_Ok (es : list edge) (al : adjacency) :
  (forall a b w, In (a, b, w) es -> In a (dict_keys al) /\ In b (dict_keys al)) ->
  exists al', for_each Analysis.store_edge es al = Ok al'.
Proof.
  revert al. induction es as [|[[a b] w] es IH]; intros al H; simpl.
  - eauto.
  - destruct (H a b w) as [Ha Hb]; [now left|].
    destruct (store_edge_Ok al a b w Ha Hb) as [al1 H1]. rewrite H1. simpl.
    apply IH. intros a' b' w' Hin.
    destruct (store_edge_spec _ _ _ _ _ H1) as [_ [_ [Hk _]]]. rewrite Hk.
    apply (H a' b' w'). now right.
Qed.

Lemma edge_weight_adjacent (es : list edge) (u v : Z) :
  edge_weight es u v <> None <-> adjacent es u v.
Proof.
  unfold adjacent. induction es as [|e es IH]; simpl.
  - split; [congruence | intros [e [[] _]]].
  - destruct (edge_weight es u v) eqn:E.
    + split; [|congruence]. intros _.
      destruct IH as [IH _]. destruct IH as [e' [Hin Hj]]; [congruence|].
      exists e'. auto.
    + destruct (joins e u v) eqn:J.
      * split; [|congruence]. intros _. exists e. auto.
      * split; [congruence|]. intros [e' [[->|Hin] Hj]]; [congruence|].
        exfalso. apply IH; eauto.
Qed.

Lemma edge_weight_In (es : list edge) (u v w : Z) :
  edge_weight es u v = Some w ->
  exists a b, In (a, b, w) es /\ joins (a, b, w) u v = true.
Proof.
  induction es as [|[[a b] w'] es IH]; simpl; [discriminate|].
  destruct (edge_weight es u v) eqn:E.
  - intros [= ->]. destruct IH as [a' [b' [Hin Hj]]]; [reflexivity|].
    exists a', b'. auto.
  - destruct (((a =? u) && (b =? v)) || ((a =? v) && (b =? u))) eqn:J; [|discriminate].
    intros [= ->]. exists a, b. auto.
Qed.

Lemma joins_sym (e : edge) (u v : Z) : joins e u v = joins e v u.
Proof. destruct e as [[a b] w]. simpl. apply orb_comm. Qed.

Lemma edge_weight_sym (es : list edge) (u v : Z) :
  edge_weight es u v = edge_weight es v u.
Proof.
  induction es as [|e es IH]; simpl; [reflexivity|].
  now rewrite IH, joins_sym.
Qed.

Lemma adjacent_sym (es : list edge) (u v : Z) : adjacent es u v -> adjacent es v u.
Proof. intros [e [H J]]. exists e. now rewrite joins_sym. Qed.

(** *** Doubles that are exact *)

Lemma pow53_below_inf : 2 ^ 53 < float_inf.
Proof. unfold float_inf. apply Z.pow_lt_mono_r; lia. Qed.

Lemma round53_small (x : Z) : Z.abs x < 2 ^ 53 -> round53 x = x.
Proof.
  intros H. unfold round53. cbv zeta.
  assert (Hlog : Z.log2 (Z.abs x) < 53).
  { destruct (Z.eq_dec (Z.abs x) 0) as [->|Hne]; [reflexivity|].
    apply Z.log2_lt_pow2; lia. }
  apply Z.ltb_lt in Hlog. now rewrite Hlog.
Qed.

Lemma float_of_int_small (x : Z) : Z.abs x < 2 ^ 53 -> float_of_int x = Ok x.
Proof.
  intros H. unfold float_of_int. cbv zeta. rewrite (round53_small x H).
  pose proof pow53_below_inf.
  destruct (float_inf <=? Z.abs x) eqn:E; [apply Z.leb_le in E; lia | reflexivity].
Qed.

Lemma fadd_small (a b : Z) :
  Z.abs a < 2 ^ 53 -> Z.abs b < 2 ^ 53 -> Z.abs (a + b) < 2 ^ 53 ->
  fadd a b = a + b.
Proof.
  intros Ha Hb Hab. unfold fadd. cbv zeta. pose proof pow53_below_inf.
  rewrite (round53_small (a + b) Hab).
  repeat match goal with
         | |- context [?x <=? ?y] =>
             let E := fresh "E" in
             destruct (x <=? y) eqn:E; [apply Z.leb_le in E; lia|]
         end.
  reflexivity.
Qed.

(** Rounding stays below the next power of two, so an integer of magnitude
    below 2^1023 converts to a double. *)
Lemma round53_bound (x : Z) (k : Z) :
  53 <= k -> Z.abs x < 2 ^ k -> Z.abs (round53 x) <= 2 ^ k.
Proof.
  intros Hk H. unfold round53. cbv zeta.
  destruct (Z.log2 (Z.abs x) <? 53) eqn:E; [lia|].
  apply Z.ltb_ge in E.
  assert (Hpos : 0 < Z.abs x).
  { destruct (Z.eq_dec (Z.abs x) 0) as [H0|H0]; [|lia].
    rewrite H0 in E. simpl in E. lia. }
  set (e := Z.log2 (Z.abs x)) in *. set (s := e - 52).
  assert (He : e < k) by (apply Z.log2_lt_pow2; assumption).
  assert (Hs : 0 < 2 ^ s) by (apply Z.pow_pos_nonneg; unfold s; lia).
  assert (Hq : Z.abs x / 2 ^ s < 2 ^ 53).
  { apply Z.div_lt_upper_bound; [exact Hs|].
    rewrite Z.mul_comm, <- Z.pow_add_r by (unfold s; lia).
    replace (53 + s) with (Z.succ e) by (unfold s; lia).
    apply Z.log2_spec. exact Hpos. }
  assert (Hq0 : 0 <= Z.abs x / 2 ^ s) by (apply Z.div_pos; lia).
  set (q := Z.abs x / 2 ^ s) in *.
  set (q' := if (2 ^ (s - 1) <? Z.abs x mod 2 ^ s)
                || ((Z.abs x mod 2 ^ s =? 2 ^ (s - 1)) && Z.odd q)
             then q + 1 else q).
  assert (Hq' : 0 <= q' <= 2 ^ 53).
  { unfold q'.
    destruct ((2 ^ (s - 1) <? Z.abs x mod 2 ^ s)
              || ((Z.abs x mod 2 ^ s =? 2 ^ (s - 1)) && Z.odd q)); lia. }
  assert (Hle : q' * 2 ^ s <= 2 ^ k).
  { apply Z.le_trans with (2 ^ 53 * 2 ^ s); [nia|].
    rewrite <- Z.pow_add_r by (unfold s; lia).
    apply Z.pow_le_mono_r; unfold s; lia. }
  assert (Hsgn : Z.abs (Z.sgn x) = 1).
  { destruct (Z.sgn_spec x) as [[_ ->]|[[H0 _]|[_ ->]]]; [reflexivity | | reflexivity].
    subst x. simpl in Hpos. lia. }
  rewrite Z.abs_mul, Hsgn, Z.mul_1_l, Z.abs_eq by nia. exact Hle.
Qed.

Lemma below_range_finite (g : graph_data) :
  (forall a b w, In (a, b, w) (edges g) -> Z.abs w < 2 ^ 1023) ->
  finite_weights g.
Proof.
  intros H a b w Hin. unfold float_of_int, float_inf. cbv zeta.
  pose proof (round53_bound w 1023 ltac:(lia) (H a b w Hin)) as Hb.
  assert (2 ^ 1023 < 2 ^ 1024) by (apply Z.pow_lt_mono_r; lia).
  destruct (2 ^ 1024 <=? Z.abs (round53 w)) eqn:E; [|reflexivity].
  apply Z.leb_le in E. lia.
Qed.

Lemma exact_finite (g : graph_data) : exact_weights g -> finite_weights g.
Proof.
  intros H a b w Hin. specialize (H a b w Hin).
  assert (Hr : round53 w = w).
  { unfold float_of_int in H. cbv zeta in H.
    destruct (float_inf <=? Z.abs (round53 w)); congruence. }
  now rewrite Hr.
Qed.

Lemma exact_stored (g : graph_data) :
  exact_weights g -> edges (stored g) = edges g.
Proof.
  intros H. unfold stored. cbn [edges].
  rewrite <- (map_id (edges g)) at 2. apply map_ext_in.
  intros [[a b] w] Hin. specialize (H a b w Hin). unfold stored_edge.
  unfold float_of_int in H. cbv zeta in H.
  destruct (float_inf <=? Z.abs (round53 w)); congruence.
Qed.

Lemma small_exact (g : graph_data) :
  (forall a b w, In (a, b, w) (edges g) -> Z.abs w < 2 ^ 53) ->
  exact_weights g.
Proof. intros H a b w Hin. apply float_of_int_small. eauto. Qed.

(** *** The description as stored *)

Lemma joins_stored (e : edge) (u v : Z) : joins (stored_edge e) u v = joins e u v.
Proof. now destruct e as [[a b] w]. Qed.

Lemma adjacent_stored (g : graph_data) (u v : Z) :
  adjacent (edges (stored g)) u v <-> adjacent (edges g) u v.
Proof.
  unfold adjacent, stored. cbn [edges]. split.
  - intros [e [Hin Hj]]. apply in_map_iff in Hin. destruct Hin as [e0 [<- Hin]].
    exists e0. now rewrite joins_stored in Hj.
  - intros [e [Hin Hj]]. exists (stored_edge e).
    split; [now apply in_map | now rewrite joins_stored].
Qed.

Lemma edge_weight_stored (g : graph_data) (u v : Z) :
  edge_weight (edges (stored g)) u v
  = option_map round53 (edge_weight (edges g) u v).
Proof.
  unfold stored. cbn [edges]. induction (edges g) as [|e es IH]; [reflexivity|].
  cbn [map edge_weight]. rewrite IH, joins_stored.
  destruct (edge_weight es u v); [reflexivity|].
  destruct (joins e u v); [|reflexivity]. now destruct e as [[a b] w].
Qed.

Lemma well_formed_stored (g : graph_data) : well_formed g -> well_formed (stored g).
Proof.
  intros [Hnd Hin]. split; [exact Hnd|]. unfold stored. cbn [edges vertices].
  intros a b w H. apply in_map_iff in H. destruct H as [[[a0 b0] w0] [[= <- <- <-] H]].
  eauto.
Qed.

Lemma add_edge_stored (al : adjacency) (a b w : Z) :
  float_of_int w = Ok (round53 w) ->
  Analysis.add_edge al (a, b, w) = Analysis.store_edge al (stored_edge (a, b, w)).
Proof. intros H. unfold Analysis.add_edge. now rewrite H. Qed.

Lemma add_edges_stored (es : list edge) :
  (forall a b w, In (a, b, w) es -> float_of_int w = Ok (round53 w)) ->
  forall al, for_each Analysis.add_edge es al
             = for_each Analysis.store_edge (map stored_edge es) al.
Proof.
  induction es as [|[[a b] w] es IH]; intros H al; [reflexivity|].
  cbn [for_each map]. rewrite add_edge_stored by (apply (H a b w); now left).
  destruct (Analysis.store_edge al (stored_edge (a, b, w))); cbn [bind]; auto.
  apply IH. intros a' b' w' Hin. apply (H a' b' w'). now right.
Qed.

(** What [build_AL] returns on a well-formed description whose weights
    convert: the model of the description as stored. *)
Lemma build_AL_stored_spec (g : graph_data) :
  well_formed g -> finite_weights g ->
  exists al, Analysis.build_AL g = Ok al /\
    closed_AL al /\
    (forall v, In v (dict_keys al) <-> In v (vertices g)) /\
    length al = length (vertices g) /\
    (forall u v, lookup2 al u v = edge_weight (edges (stored g)) u v).
Proof.
  intros Hwf Hfin. pose proof (well_formed_stored g Hwf) as [Hnd Hin].
  unfold Analysis.build_AL.
  destruct (add_vertices_spec (vertices g) []) as [al0 [H0 [Hk0 [Hn0 Hr0]]]].
  rewrite H0. cbn [bind]. rewrite (add_edges_stored (edges g) Hfin).
  change (map stored_edge (edges g)) with (edges (stored g)).
  assert (Hk : forall v, In v (dict_keys al0) <-> In v (vertices g)).
  { intros v. rewrite Hk0. simpl. tauto. }
  destruct (store_edges_Ok (edges (stored g)) al0) as [al H].
  { intros a b w Hab. rewrite !Hk. eauto. }
  exists al. split; [exact H|].
  destruct (store_edges_spec _ _ _ H) as [Hkeys [Hc [_ Hl]]].
  assert (Hr : forall u row, dict_get al0 u = Some row -> row = []).
  { apply Hr0. intros u row. discriminate. }
  assert (Hcl0 : closed_AL al0).
  { split; [apply Hn0; constructor|]. intros u row Hu.
    rewrite (Hr _ _ Hu). split; [constructor | intros x []]. }
  split; [auto|]. split; [intros v; now rewrite Hkeys|]. split.
  - assert (Hlen : length (dict_keys al) = length (vertices g)).
    { apply Nat.le_antisymm; apply NoDup_incl_length.
      - apply Hc, Hcl0.
      - intros x. rewrite Hkeys. apply Hk.
      - exact Hnd.
      - intros x. rewrite Hkeys. apply Hk. }
    unfold dict_keys in Hlen. now rewrite length_map in Hlen.
  - intros u v. rewrite Hl.
    destruct (edge_weight (edges (stored g)) u v); [reflexivity|].
    unfold lookup2. destruct (dict_get al0 u) as [row|] eqn:E; [|reflexivity].
    rewrite (Hr _ _ E). reflexivity.
Qed.

(** With weights that are doubles the model holds the listed weights. *)
Lemma build_AL_spec (g : graph_data) :
  well_formed g -> exact_weights g ->
  exists al, Analysis.build_AL g = Ok al /\
    closed_AL al /\
    (forall v, In v (dict_keys al) <-> In v (vertices g)) /\
    length al = length (vertices g) /\
    (forall u v, lookup2 al u v = edge_weight (edges g) u v).
Proof.
  intros Hwf Hex.
  destruct (build_AL_stored_spec g Hwf (exact_finite g Hex)) as [al H].
  rewrite (exact_stored g Hex) in H. eauto.
Qed.

(** In either case the model has the adjacency of the description. *)
Lemma build_AL_adj (g : graph_data) :
  well_formed g -> finite_weights g ->
  exists al, Analysis.build_AL g = Ok al /\
    closed_AL al /\
    (forall v, In v (dict_keys al) <-> In v (vertices g)) /\
    length al = length (vertices g) /\
    (forall u v, al_adj al u v <-> adjacent (edges g) u v).
Proof.
  intros Hwf Hfin.
  destruct (build_AL_stored_spec g Hwf Hfin) as [al [H1 [H2 [H3 [H4 H5]]]]].
  exists al. repeat (split; [assumption|]). intros u v.
  unfold al_adj. rewrite H5, edge_weight_adjacent. apply adjacent_stored.
Qed.


(** ** Breadth-first search *)

Lemma bfs_row_spec (row : dict Z) (reached queue : list Z) :
  exists news,
    for_each Analysis.bfs_visit row (reached, queue)
    = Ok (rev news ++ reached, queue ++ news) /\
    NoDup news /\
    (forall x, In x news -> ~ In x reached /\ In x (dict_keys row)) /\
    (forall d, In d (dict_keys row) -> In d reached \/ In d news).
Proof.
  revert reached queue. induction row as [|[d w] row IH]; intros reached queue.
  - exists []. simpl. rewrite app_nil_r. repeat split; try constructor; tauto.
  - simpl. destruct (mem d reached) eqn:E; simpl.
    + destruct (IH reached queue) as [news [H1 [H2 [H3 H4]]]].
      exists news. split; [exact H1|]. split; [exact H2|]. split.
      * intros x Hx. destruct (H3 x Hx). auto.
      * intros d' [<-|Hd]; [left; now apply mem_In | auto].
    + apply mem_not_In in E.
      destruct (IH (d :: reached) (queue ++ [d])) as [news [H1 [H2 [H3 H4]]]].
      exists (d :: news). split; [|split; [|split]].
      * rewrite H1. simpl. now rewrite <- !app_assoc.
      * constructor; [|exact H2]. intros Hd. destruct (H3 d Hd) as [Hn _].
        apply Hn. now left.
      * intros x [<-|Hx]; [auto|]. destruct (H3 x Hx) as [Hn Hk].
        split; [|auto]. intros Hr. apply Hn. now right.
      * intros d' [<-|Hd]; [right; now left|].
        destruct (H4 d' Hd) as [[<-|Hr]|Hn]; [right; now left | now left | right; now right].
Qed.

Lemma al_adj_keys (al : adjacency) (u v : Z) (row : dict Z) :
  dict_get al u = Some row -> (al_adj al u v <-> In v (dict_keys row)).
Proof.
  intros H. unfold al_adj, lookup2. rewrite H. symmetry. apply dict_get_keys.
Qed.

Lemma bfs_total_correct (al : adjacency) (root : Z) :
  closed_AL al ->
  forall (fuel : nat) (reached queue : list Z),
    NoDup reached ->
    incl reached (dict_keys al) ->
    incl queue reached ->
    (length queue + length al <= fuel + length reached)%nat ->
    In root reached ->
    (forall x, In x reached -> reach (al_adj al) root x) ->
    (forall u, In u reached -> ~ In u queue ->
               forall v, al_adj al u v -> In v reached) ->
    exists R, Analysis.bfs fuel al reached queue = Ok R /\
              forall v, In v R <-> reach (al_adj al) root v.
Proof.
  intros [Hnd Hrows]. induction fuel as [|fuel IH];
    intros reached queue Hr Hsub Hq Hfuel Hroot Hsound Hclosed.
  - destruct queue as [|cur queue].
    + exists reached. split; [reflexivity|]. intros v. split; [auto|].
      induction 1; eauto.
    + exfalso. assert (length reached <= length (dict_keys al))%nat
        by (now apply NoDup_incl_length).
      unfold dict_keys in H. rewrite length_map in H. simpl in Hfuel. lia.
  - destruct queue as [|cur queue].
    + exists reached. split; [reflexivity|]. intros v. split; [auto|].
      induction 1; eauto.
    + simpl. assert (Hcur : In cur reached) by (apply Hq; now left).
      assert (Hkey : In cur (dict_keys al)) by auto.
      apply dict_get_keys in Hkey.
      destruct (dict_get al cur) as [row|] eqn:Erow; [|congruence].
      unfold dict_at. rewrite Erow. simpl.
      destruct (Hrows _ _ Erow) as [Hrnd Hrincl].
      destruct (bfs_row_spec row reached queue) as [news [H1 [H2 [H3 H4]]]].
      rewrite H1. simpl. apply IH.
      * apply NoDup_app; [now apply NoDup_rev | exact Hr |].
        intros x Hx Hx'. apply in_rev in Hx. destruct (H3 x Hx). auto.
      * intros x Hx. apply in_app_or in Hx. destruct Hx as [Hx|Hx]; [|auto].
        apply in_rev in Hx. destruct (H3 x Hx). auto.
      * intros x Hx. apply in_or_app. apply in_app_or in Hx.
        destruct Hx as [Hx|Hx]; [right; apply Hq; now right | left; now apply in_rev in Hx].
      * rewrite !length_app, length_rev. simpl in Hfuel. lia.
      * apply in_or_app. now right.
      * intros x Hx. apply in_app_or in Hx. destruct Hx as [Hx|Hx]; [|auto].
        apply in_rev in Hx. destruct (H3 x Hx) as [_ Hk].
        apply reach_step with cur; [auto|]. now apply (al_adj_keys al cur x row).
      * intros u Hu Hnq v Hadj. apply in_or_app.
        assert (Hun : ~ In u news) by (intros C; apply Hnq; apply in_or_app; now right).
        assert (Huq : ~ In u queue) by (intros C; apply Hnq; apply in_or_app; now left).
        apply in_app_or in Hu. destruct Hu as [Hu|Hu]; [apply in_rev in Hu; tauto|].
        destruct (Z.eq_dec u cur) as [->|Hne].
        -- apply (al_adj_keys al cur v row Erow) in Hadj.
           destruct (H4 v Hadj); [now right | left; now apply -> in_rev].
        -- right. apply (Hclosed u Hu); [|exact Hadj].
           intros [C|C]; [congruence | tauto].
Qed.

Lemma reach_ext (adj1 adj2 : Z -> Z -> Prop) (r v : Z) :
  (forall a b, adj1 a b -> adj2 a b) -> reach adj1 r v -> reach adj2 r v.
Proof. intros H. induction 1; [constructor | econstructor; eauto]. Qed.

Lemma bfs_from_root (al : adjacency) (root : Z) :
  closed_AL al -> In root (dict_keys al) ->
  exists R, Analysis.bfs (Analysis.bfs_fuel al) al [root] [root] = Ok R /\
            forall v, In v R <-> reach (al_adj al) root v.
Proof.
  intros Hcl Hroot. apply bfs_total_correct; auto.
  - repeat constructor. simpl. tauto.
  - intros x [<-|[]]. exact Hroot.
  - apply incl_refl.
  - unfold Analysis.bfs_fuel. simpl. lia.
  - now left.
  - intros x [<-|[]]. constructor.
  - intros u [<-|[]] Hn. exfalso. apply Hn. now left.
Qed.

Lemma all_reached_spec (vs reached : list Z) :
  Analysis.all_reached vs reached = true <-> forall v, In v vs -> In v reached.
Proof.
  unfold Analysis.all_reached. rewrite forallb_forall.
  split; intros H v Hv; apply mem_In; auto.
Qed.

Lemma reachable_declared (g : graph_data) (r v : Z) :
  well_formed g -> In r (vertices g) -> reachable g r v -> In v (vertices g).
Proof.
  intros [_ Hin] Hr. induction 1 as [|u v _ IH [[[a b] w] [He Hj]]]; [exact Hr|].
  destruct (Hin a b w He) as [Ha Hb]. simpl in Hj.
  apply orb_true_iff in Hj. rewrite !andb_true_iff, !Z.eqb_eq in Hj.
  destruct Hj as [[_ <-]|[<- _]]; assumption.
Qed.

(** On a well-formed description the traversal from a declared vertex
    returns exactly the vertices reachable from it. *)
Lemma bfs_reachable (g : graph_data) (al : adjacency) (root : Z) :
  well_formed g -> finite_weights g ->
  Analysis.build_AL g = Ok al -> In root (vertices g) ->
  exists R, Analysis.bfs (Analysis.bfs_fuel al) al [root] [root] = Ok R /\
            forall v, In v R <-> reachable g root v.
Proof.
  intros Hwf Hfin Hal Hroot.
  destruct (build_AL_adj g Hwf Hfin) as [al' [Hal' [Hcl [Hk [_ Hl]]]]].
  assert (al' = al) by congruence. subst al'.
  destruct (bfs_from_root al root Hcl) as [R [HR Hiff]]; [now apply Hk|].
  exists R. split; [exact HR|]. intros v. rewrite Hiff. unfold reachable.
  split; apply reach_ext; intros a b; apply Hl.
Qed.


(** ** is_connected *)

Lemma analyze_is_connected (frames : nat) (root : option Z) (g : graph_data) :
  Analysis.analyze_graph frames "is_connected" root g
  = bind (Analysis.build_AL g) (Analysis.is_connected g).
Proof. reflexivity. Qed.

Lemma analyze_has_cycle (frames : nat) (root : option Z) (g : graph_data) :
  Analysis.analyze_graph frames "has_cycle" root g
  = bind (Analysis.build_AL g) (Analysis.has_cycle frames g).
Proof. reflexivity. Qed.

Lemma analyze_shortest_paths (frames : nat) (root : Z) (g : graph_data) :
  Analysis.analyze_graph frames "shortest_paths" (Some root) g
  = bind (Analysis.build_AL g) (Analysis.shortest_paths root g).
Proof. reflexivity. Qed.

Lemma analyze_mst (frames : nat) (root : option Z) (g : graph_data) :
  Analysis.analyze_graph frames "mst" root g
  = bind (Analysis.build_AL g) (Analysis.mst g).
Proof. reflexivity. Qed.

(** C5.  On a well-formed description with at least one declared vertex and
    weights within the range of doubles, [is_connected] returns a result
    tagged "is_connected" whose data is [true] exactly when the set of
    vertices reachable from the first declared vertex is the full declared
    vertex set; on vertices 0, 1, 2 without edges the data is [false]. *)
Theorem is_connected_iff_all_reachable :
  (forall (frames : nat) (g : graph_data) (root : option Z) (v0 : Z)
          (vs : list Z),
      well_formed g ->
      finite_weights g ->
      vertices g = v0 :: vs ->
      exists b : bool,
        Analysis.analyze_graph frames "is_connected" root g
        = Ok {| type := "is_connected"; data := DBool b |} /\
        (b = true <-> forall v, reachable g v0 v <-> In v (vertices g))) /\
  (forall (frames : nat) (root : option Z),
      Analysis.analyze_graph frames "is_connected" root
        {| vertices := [0; 1; 2]; edges := [] |}
      = Ok {| type := "is_connected"; data := DBool false |}).
Proof.
  split; [|reflexivity].
  intros frames g root v0 vs Hwf Hfin Hvs.
  destruct (build_AL_adj g Hwf Hfin) as [al [Hal _]].
  assert (H0 : In v0 (vertices g)) by (rewrite Hvs; now left).
  destruct (bfs_reachable g al v0 Hwf Hfin Hal H0) as [R [HR Hiff]].
  exists (Analysis.all_reached (vertices g) R). split.
  - rewrite analyze_is_connected, Hal. cbn [bind].
    unfold Analysis.is_connected, Analysis.first_vertex. rewrite Hvs.
    cbn [bind]. rewrite HR. reflexivity.
  - rewrite all_reached_spec. split.
    + intros H v. split.
      * now apply reachable_declared.
      * intros Hv. apply Hiff. auto.
    + intros H v Hv. apply Hiff, H, Hv.
Qed.

Lemma is_connected_iff_all_reachable_witness :
  exists b : bool,
    Analysis.analyze_graph 1000 "is_connected" None
      {| vertices := [0; 1; 2]; edges := [(0, 1, 1); (1, 2, 2); (0, 2, 10)] |}
    = Ok {| type := "is_connected"; data := DBool b |} /\
    (b = true <->
     forall v,
       reachable {| vertices := [0; 1; 2];
                    edges := [(0, 1, 1); (1, 2, 2); (0, 2, 10)] |} 0 v
       <-> In v [0; 1; 2]).
Proof.
  apply (proj1 is_connected_iff_all_reachable 1000%nat
           {| vertices := [0; 1; 2]; edges := [(0, 1, 1); (1, 2, 2); (0, 2, 10)] |}
           None 0 [1; 2]).
  - split.
    + simpl. repeat constructor; simpl; intuition lia.
    + simpl. intros a b w H.
      repeat (destruct H as [H|H]; [injection H as <- <- <-; intuition|]).
      destruct H.
  - intros a b w H. simpl in H.
    repeat (destruct H as [H|H]; [injection H as <- <- <-; reflexivity|]).
    destruct H.
  - reflexivity.
Defined.

(** C5 as stated fails: the description with vertices 0, 1 and the single
    edge (0, 1, 2^1024) is well formed and has a declared vertex, and
    [is_connected] returns no data on it: the conversion of the weight to a
    double raises [OverflowError] while the adjacency model is built. *)
Lemma is_connected_weight_overflow :
  well_formed {| vertices := [0; 1]; edges := [(0, 1, 2 ^ 1024)] |} /\
  Analysis.analyze_graph 1000 "is_connected" None
    {| vertices := [0; 1]; edges := [(0, 1, 2 ^ 1024)] |}
  = Raise OverflowError.
Proof.
  split.
  - split.
    + simpl. repeat constructor; simpl; intuition lia.
    + simpl. intros a b w [H|[]]. injection H as <- <- <-. intuition.
  - vm_compute. reflexivity.
Qed.

(** C9.  With an empty vertex sequence neither [is_connected] nor [mst]
    returns a result: the call raises.  When the description has no edges
    either (the only well-formed case) the fault is the [IndexError] of
    [vertices[0]]; otherwise the adjacency build already raises on the first
    edge: [KeyError] when its weight converts to a double, [OverflowError]
    when it does not. *)
Theorem empty_vertices_raise :
  forall (frames : nat) (root : option Z) (es : list edge),
    let g := {| vertices := []; edges := es |} in
    (forall r, Analysis.analyze_graph frames "is_connected" root g <> Ok r) /\
    (forall r, Analysis.analyze_graph frames "mst" root g <> Ok r) /\
    Analysis.analyze_graph frames "is_connected" root
      {| vertices := []; edges := [] |}
    = Raise IndexError /\
    Analysis.analyze_graph frames "mst" root {| vertices := []; edges := [] |}
    = Raise IndexError /\
    (forall a b w es', es = (a, b, w) :: es' ->
     let fault := match float_of_int w with
                  | Ok _ => KeyError
                  | _ => OverflowError
                  end in
     Analysis.analyze_graph frames "is_connected" root g = Raise fault /\
     Analysis.analyze_graph frames "mst" root g = Raise fault).
Proof.
  intros frames root es g. subst g.
  assert (H : forall a b w es',
             Analysis.build_AL {| vertices := []; edges := (a, b, w) :: es' |}
             = Raise match float_of_int w with
                     | Ok _ => KeyError
                     | _ => OverflowError
                     end).
  { intros a b w es'. unfold Analysis.build_AL. cbn [vertices edges for_each bind].
    unfold Analysis.add_edge, float_of_int. cbv zeta.
    destruct (float_inf <=? Z.abs (round53 w)); reflexivity. }
  destruct es as [|[[a b] w] es].
  - repeat split; try reflexivity; try discriminate; congruence.
  - rewrite !analyze_is_connected, !analyze_mst, H.
    repeat split; try reflexivity; try discriminate.
    all: injection H0 as <- <- <- <-; reflexivity.
Qed.

(** ** Scenarios *)

(** C8.  On the triangle with edges (0,1,1), (1,2,2), (0,2,10) and root 0,
    [shortest_paths] reports for vertex 2 the distance 3 and the path
    0, 1, 2. *)
Theorem shortest_paths_triangle :
  forall frames : nat,
  exists paths : dict path_entry,
    Analysis.analyze_graph frames "shortest_paths" (Some 0)
      {| vertices := [0; 1; 2]; edges := [(0, 1, 1); (1, 2, 2); (0, 2, 10)] |}
    = Ok {| type := "shortest_paths"; data := DPaths 0 paths |} /\
    dict_get paths 2 = Some (Entry 3 (Path [0; 1; 2])).
Proof.
  intros frames. eexists. split; [vm_compute; reflexivity | reflexivity].
Qed.

(** C3 (the code departs from it).  The request type "any" with 3 vertices
    and an unspecified edge count passes [validate_parameters], and
    [make_random_graph] then raises [ValueError] whatever the randomness
    source yields: the default edge count is drawn by [randint(5, 3)]. *)
Theorem any_three_vertices_raises :
  forall r : Generator.rng,
    Generator.validate_parameters "any" 3 (-1) = None /\
    Generator.make_random_graph "any" 3 (-1) r = Raise ValueError /\
    Generator.generate "any" 3 (-1) r = Raise ValueError.
Proof.
  intros r. repeat split.
Qed.


(** ** The generator *)

Lemma gbind_Ok {A B : Type} (m : Generator.gen A) (k : A -> Generator.gen B)
    (r r' : Generator.rng) (b : B) :
  Generator.gbind m k r = Ok (b, r') <->
  exists a r1, m r = Ok (a, r1) /\ k a r1 = Ok (b, r').
Proof.
  unfold Generator.gbind. destruct (m r) as [[a r1]| |]; split.
  - eauto.
  - intros [a' [r1' [[= -> ->] H]]]. exact H.
  - discriminate.
  - intros [a' [r1' [H _]]]. discriminate.
  - discriminate.
  - intros [a' [r1' [H _]]]. discriminate.
Qed.

Lemma ret_Ok {A : Type} (a b : A) (r r' : Generator.rng) :
  Generator.ret a r = Ok (b, r') -> b = a /\ r' = r.
Proof. unfold Generator.ret. intros [= -> ->]. auto. Qed.

Lemma randint_Ok (a b x : Z) (r r' : Generator.rng) :
  Generator.randint a b r = Ok (x, r') -> a <= x <= b.
Proof.
  unfold Generator.randint. destruct (b <? a) eqn:E; [discriminate|].
  apply Z.ltb_ge in E. intros [= <- _].
  pose proof (Z.mod_pos_bound (Generator.draws r (Generator.pos r)) (b - a + 1)).
  lia.
Qed.

Ltac gstep H :=
  let a := fresh "x" in
  let r1 := fresh "r" in
  let H1 := fresh "H" in
  apply gbind_Ok in H; destruct H as (a & r1 & H1 & H).

Lemma gen_for_inv {A S : Type} (P : S -> Prop)
    (body : S -> A -> Generator.gen S) (xs : list A) :
  (forall s x r s' r', In x xs -> P s -> body s x r = Ok (s', r') -> P s') ->
  forall s r s' r', P s -> Generator.gen_for body xs s r = Ok (s', r') -> P s'.
Proof.
  induction xs as [|x xs IH]; intros Hbody s r s' r' Hs H; simpl in H.
  - apply ret_Ok in H. destruct H as [-> _]. exact Hs.
  - gstep H. eapply IH; [| |exact H].
    + intros. eapply Hbody; eauto. now right.
    + eapply Hbody; eauto. now left.
Qed.

Lemma Forall_snoc {A : Type} (P : A -> Prop) (l : list A) (x : A) :
  Forall P l -> P x -> Forall P (l ++ [x]).
Proof. intros. apply Forall_app. split; [assumption | now constructor]. Qed.

Lemma ordered_below_mono (V V' : Z) (e : edge) :
  V <= V' -> ordered_below V e -> ordered_below V' e.
Proof. destruct e as [[a b] w]. simpl. lia. Qed.

Lemma pairs_from_spec (V start : Z) (es es' : list edge) (r r' : Generator.rng) :
  0 <= start -> Forall (ordered_below V) es ->
  Generator.pairs_from V es start r = Ok (es', r') ->
  Forall (ordered_below V) es'.
Proof.
  intros Hs Hes. unfold Generator.pairs_from.
  apply gen_for_inv with (P := Forall (ordered_below V)); [|exact Hes].
  intros s x r0 s' r0' Hx Hs0 H. gstep H. apply ret_Ok in H. destruct H as [-> _].
  apply Forall_snoc; [exact Hs0|]. apply In_range in Hx. simpl. lia.
Qed.

Lemma all_pairs_spec (V : Z) (es : list edge) (r r' : Generator.rng) :
  Generator.all_pairs V r = Ok (es, r') -> Forall (ordered_below V) es.
Proof.
  unfold Generator.all_pairs.
  apply gen_for_inv with (P := Forall (ordered_below V)); [|constructor].
  intros s x r0 s' r0' Hx Hs H. apply In_range in Hx.
  eapply pairs_from_spec; eauto. lia.
Qed.

Lemma In_pop_at {A : Type} (i : Z) (l : list A) (x : A) :
  In x (Generator.pop_at i l) -> In x l.
Proof.
  unfold Generator.pop_at. intros H. apply in_app_or in H.
  destruct H as [H|H].
  - rewrite <- (firstn_skipn (Z.to_nat i) l). apply in_or_app. now left.
  - rewrite <- (firstn_skipn (S (Z.to_nat i)) l). apply in_or_app. now right.
Qed.

Lemma delete_down_sub (fuel : nat) (n : Z) (es es' : list edge)
    (r r' : Generator.rng) :
  Generator.delete_down fuel n es r = Ok (es', r') -> incl es' es.
Proof.
  revert es r. induction fuel as [|fuel IH]; intros es r H; simpl in H.
  - destruct (Generator.len es >? n); [discriminate|].
    apply ret_Ok in H. destruct H as [-> _]. apply incl_refl.
  - destruct (Generator.len es >? n).
    + gstep H. apply IH in H. intros e He. apply H in He.
      eapply In_pop_at; eauto.
    + apply ret_Ok in H. destruct H as [-> _]. apply incl_refl.
Qed.

Lemma Forall_incl {A : Type} (P : A -> Prop) (l l' : list A) :
  incl l' l -> Forall P l -> Forall P l'.
Proof. rewrite !Forall_forall. auto. Qed.

Lemma In_remove_first (x e : edge) (l : list edge) :
  In e (Generator.remove_first x l) -> In e l.
Proof.
  induction l as [|y l IH]; simpl; [tauto|].
  destruct (Generator.edge_eqb y x); simpl; tauto.
Qed.

Lemma attach_spec (P : edge -> Prop) (st st' : list edge * list edge) (i : Z)
    (r r' : Generator.rng) :
  Forall P (fst st) -> Forall P (snd st) ->
  Generator.attach st i r = Ok (st', r') ->
  Forall P (fst st') /\ Forall P (snd st').
Proof.
  destruct st as [es rem]. simpl. intros Hes Hrem H.
  unfold Generator.attach in H. gstep H.
  destruct (Generator.find_edge x i rem) as [sel|] eqn:E; [|discriminate].
  apply ret_Ok in H. destruct H as [-> _]. simpl.
  apply find_some in E. destruct E as [Hin _]. split.
  - apply Forall_snoc; [exact Hes|]. rewrite Forall_forall in Hrem. auto.
  - eapply Forall_incl; [|exact Hrem]. intros e. apply In_remove_first.
Qed.

Lemma add_remaining_spec (P : edge -> Prop) (fuel : nat) (n : Z)
    (es rem es' : list edge) (r r' : Generator.rng) :
  Forall P es -> Forall P rem ->
  Generator.add_remaining fuel n es rem r = Ok (es', r') -> Forall P es'.
Proof.
  revert es rem r. induction fuel as [|fuel IH]; intros es rem r Hes Hrem H;
    simpl in H.
  - destruct (Generator.len es <? n); [discriminate|].
    apply ret_Ok in H. now destruct H as [-> _].
  - destruct (Generator.len es <? n).
    + gstep H.
      destruct (nth_error rem (Z.to_nat x)) as [sel|] eqn:E; [|discriminate].
      apply nth_error_In in E. eapply IH; [| |exact H].
      * apply Forall_snoc; [exact Hes|]. rewrite Forall_forall in Hrem. auto.
      * eapply Forall_incl; [|exact Hrem]. intros e. apply In_remove_first.
    + apply ret_Ok in H. now destruct H as [-> _].
Qed.

Lemma gen_for_range_inv {S : Type} (P : Z -> S -> Prop)
    (body : S -> Z -> Generator.gen S) (b : Z) :
  (forall i s r s' r', i < b -> P i s -> body s i r = Ok (s', r') -> P (i + 1) s') ->
  forall (n : nat) (a : Z) s r s' r',
    Z.to_nat (b - a) = n -> a <= b -> P a s ->
    Generator.gen_for body (range a b) s r = Ok (s', r') -> P b s'.
Proof.
  intros Hbody. induction n as [|n IH]; intros a s r s' r' Hn Hab Hs H.
  - rewrite range_empty in H by lia. apply ret_Ok in H. destruct H as [-> _].
    now replace b with a by lia.
  - rewrite range_cons in H by lia. simpl in H. gstep H.
    eapply (IH (a + 1)); [lia | lia | | exact H].
    eapply Hbody; eauto. lia.
Qed.

Lemma gen_for_range_empty {S : Type} (body : S -> Z -> Generator.gen S)
    (a b : Z) s r s' r' :
  b <= a -> Generator.gen_for body (range a b) s r = Ok (s', r') -> s' = s.
Proof.
  intros Hab H. rewrite range_empty in H by assumption.
  apply ret_Ok in H. tauto.
Qed.

Lemma forest_below_mono (hi hi' : Z) (es : list edge) :
  hi <= hi' -> forest_below hi es -> forest_below hi' es.
Proof.
  intros Hle [Hnd Hall]. split; [exact Hnd|].
  eapply Forall_impl; [|exact Hall]. intros e. now apply ordered_below_mono.
Qed.

Lemma forest_below_snoc (i p w : Z) (es : list edge) :
  forest_below i es -> 0 <= p < i -> forest_below (i + 1) (es ++ [(p, i, w)]).
Proof.
  intros [Hnd Hall] Hp. split.
  - rewrite map_app. simpl. apply NoDup_app; [exact Hnd | repeat constructor; simpl; tauto|].
    intros x Hx [<-|[]]. apply in_map_iff in Hx. destruct Hx as [[[a b] w'] [Hb He]].
    rewrite Forall_forall in Hall. apply Hall in He. unfold edge_end in Hb.
    simpl in *. lia.
  - apply Forall_snoc.
    + eapply Forall_impl; [|exact Hall]. intros e. apply ordered_below_mono. lia.
    + simpl. lia.
Qed.

(** The attach loop shared by "tree" and by each spore of "acyclic":
    vertices [lo+1 .. hi-1] each attach to a vertex of [lo .. i-1]. *)
Lemma attach_loop_spec (lo hi : Z) (es es' : list edge) (r r' : Generator.rng) :
  0 <= lo -> lo + 1 <= hi ->
  forest_below (lo + 1) es ->
  Generator.gen_for
    (fun edges i =>
       Generator.gbind (Generator.randint lo (i - 1)) (fun p =>
       Generator.gbind (Generator.randint 1 100) (fun w =>
       Generator.ret (edges ++ [(p, i, w)]))))
    (range (lo + 1) hi) es r = Ok (es', r') ->
  forest_below hi es'.
Proof.
  intros Hlo Hhi Hes H.
  eapply (gen_for_range_inv (fun i s => lo + 1 <= i /\ forest_below i s))
    with (a := lo + 1) in H; [tauto | | reflexivity | lia | split; [lia | exact Hes]].
  clear H Hes. intros i s r0 s' r0' Hi [Hli Hs] H.
  gstep H. gstep H. apply ret_Ok in H. destruct H as [-> _].
  apply randint_Ok in H0. split; [lia|]. apply forest_below_snoc; [exact Hs | lia].
Qed.

Lemma grow_spore_spec (V sc k : Z) (es es' : list edge) (off off' : Z)
    (r r' : Generator.rng) :
  0 <= V -> 0 < sc -> 0 <= k ->
  off = k * (V / sc) + Z.min k (V mod sc) ->
  forest_below off es \/ es = [] ->
  Generator.grow_spore V sc (es, off) k r = Ok ((es', off'), r') ->
  off' = (k + 1) * (V / sc) + Z.min (k + 1) (V mod sc) /\
  (forest_below off' es' \/ es' = []).
Proof.
  intros HV Hsc Hk Hoff Hes H. unfold Generator.grow_spore in H.
  gstep H. apply ret_Ok in H. destruct H as [[= -> ->] _].
  pose proof (Z.div_pos V sc HV Hsc) as Hq.
  pose proof (Z.mod_pos_bound V sc Hsc) as Hm.
  set (q := V / sc) in *. set (m := V mod sc) in *.
  set (nsv := if k <? m then q + 1 else q) in *.
  assert (Hnsv : 0 <= nsv /\ off + nsv = (k + 1) * q + Z.min (k + 1) m).
  { subst nsv. destruct (k <? m) eqn:E;
      [apply Z.ltb_lt in E | apply Z.ltb_ge in E]; lia. }
  split; [lia|].
  assert (Hoff0 : 0 <= off) by nia.
  destruct (Z.le_gt_cases nsv 1) as [Hsmall|Hbig].
  - apply gen_for_range_empty in H0; [|lia]. subst x.
    destruct Hes as [Hes|Hes]; [|now right]. left.
    eapply forest_below_mono; [|exact Hes]. lia.
  - left. eapply attach_loop_spec; [exact Hoff0 | | | exact H0]; [lia|].
    destruct Hes as [Hes| ->].
    + eapply forest_below_mono; [|exact Hes]. lia.
    + split; constructor.
Qed.

Lemma grow_spore_negative (V sc k : Z) (off off' : Z) (es' : list edge)
    (r r' : Generator.rng) :
  V < 0 -> 0 < sc ->
  Generator.grow_spore V sc ([], off) k r = Ok ((es', off'), r') -> es' = [].
Proof.
  intros HV Hsc H. unfold Generator.grow_spore in H.
  gstep H. apply ret_Ok in H. destruct H as [[= -> ->] _].
  assert (V / sc < 0) by (apply Z.div_lt_upper_bound; lia).
  apply gen_for_range_empty in H0; [exact H0|].
  destruct (k <? V mod sc); lia.
Qed.

Lemma spores_spec (V sc : Z) (st : list edge * Z) (r r' : Generator.rng) :
  0 < sc ->
  Generator.gen_for (Generator.grow_spore V sc) (range 0 sc) ([], 0) r
  = Ok (st, r') ->
  forest_below V (fst st) \/ fst st = [].
Proof.
  intros Hsc H. destruct (Z.lt_ge_cases V 0) as [Hneg|Hpos].
  - right. revert H.
    apply gen_for_inv with (P := fun s : list edge * Z => fst s = []);
      [|reflexivity].
    intros [es off] k r0 [es' off'] r0' _ Hs H. simpl in *. subst es.
    eapply grow_spore_negative; eauto.
  - eapply (gen_for_range_inv
              (fun k (s : list edge * Z) =>
                 0 <= k /\ snd s = k * (V / sc) + Z.min k (V mod sc) /\
                 (forest_below (snd s) (fst s) \/ fst s = [])))
      with (a := 0) in H.
    + destruct H as [_ [Hoff Hf]]. destruct Hf as [Hf|Hf]; [left | now right].
      pose proof (Z.mod_pos_bound V sc Hsc).
      pose proof (Z.div_mod V sc ltac:(lia)).
      replace V with (snd st) at 1; [exact Hf|]. rewrite Hoff. lia.
    + intros k [es off] r0 [es' off'] r0' Hk [Hk0 [Hoff Hf]] H1. simpl in *.
      destruct (grow_spore_spec V sc k es es' off off' r0 r0') as [H2 H3]; auto.
      split; [lia|]. split; [exact H2 | exact H3].
    + reflexivity.
    + lia.
    + pose proof (Z.mod_pos_bound V sc Hsc).
      simpl. split; [lia|]. split; [lia|]. now right.
Qed.


Lemma cross_pairs_spec (gA gB : list Z) (es : list edge) (r r' : Generator.rng) :
  Generator.cross_pairs gA gB r = Ok (es, r') ->
  forall a b w, In (a, b, w) es -> In a gA /\ In b gB.
Proof.
  intros H. unfold Generator.cross_pairs in H.
  assert (HP : Forall (fun e : edge => In (fst (fst e)) gA /\ In (snd (fst e)) gB) es).
  { revert H. apply gen_for_inv; [|constructor].
    intros s A r0 s' r0' HA Hs. apply gen_for_inv; [|exact Hs].
    intros s1 B r1 s1' r1' HB Hs1 H. gstep H. apply ret_Ok in H.
    destruct H as [-> _]. apply Forall_snoc; [exact Hs1 | simpl; auto]. }
  intros a b w Hin. rewrite Forall_forall in HP. apply (HP _ Hin).
Qed.

Ltac gfinish H :=
  apply ret_Ok in H; destruct H as [H _]; injection H as ->.

Lemma case_any_spec (nv ne : Z) (g : graph_data) (r r' : Generator.rng) :
  Generator.case_any nv ne r = Ok (Graph g, r') ->
  exists V, vertices g = range 0 V /\ Forall (ordered_below V) (edges g).
Proof.
  unfold Generator.case_any. intros H. gstep H. gstep H.
  destruct (x0 >? x * (x - 1) / 2); [apply ret_Ok in H; destruct H; discriminate|].
  gstep H. gstep H. gfinish H. exists x. split; [reflexivity|]. simpl.
  eapply Forall_incl; [eapply delete_down_sub; eauto|].
  eapply all_pairs_spec; eauto.
Qed.

Lemma case_complete_spec (nv ne : Z) (g : graph_data) (r r' : Generator.rng) :
  Generator.case_complete nv ne r = Ok (Graph g, r') ->
  exists V, vertices g = range 0 V /\ Forall (ordered_below V) (edges g).
Proof.
  unfold Generator.case_complete. intros H. gstep H. gstep H.
  destruct (negb (x0 =? x * (x - 1) / 2));
    [apply ret_Ok in H; destruct H; discriminate|].
  gstep H. gfinish H. exists x. split; [reflexivity|]. simpl.
  eapply all_pairs_spec; eauto.
Qed.

Lemma case_connected_spec (nv ne : Z) (g : graph_data) (r r' : Generator.rng) :
  Generator.case_connected nv ne r = Ok (Graph g, r') ->
  exists V, vertices g = range 0 V /\ Forall (ordered_below V) (edges g).
Proof.
  unfold Generator.case_connected. intros H. gstep H. gstep H.
  destruct ((x0 >? x * (x - 1) / 2) || (x0 <? x - 1));
    [apply ret_Ok in H; destruct H; discriminate|].
  gstep H. gstep H. gstep H. gfinish H. exists x. split; [reflexivity|]. simpl.
  apply all_pairs_spec in H2.
  assert (Hst : Forall (ordered_below x) (fst x2) /\ Forall (ordered_below x) (snd x2)).
  { revert H3.
    apply gen_for_inv with
      (P := fun st : list edge * list edge =>
              Forall (ordered_below x) (fst st) /\ Forall (ordered_below x) (snd st)).
    - intros s i ra s' rb _ [Hs1 Hs2]. now apply attach_spec.
    - simpl. split; [constructor | exact H2]. }
  destruct Hst as [Hs1 Hs2].
  exact (add_remaining_spec _ _ _ _ _ _ _ _ Hs1 Hs2 H4).
Qed.

Lemma case_tree_spec (nv ne : Z) (g : graph_data) (r r' : Generator.rng) :
  Generator.case_tree nv ne r = Ok (Graph g, r') ->
  exists V, vertices g = range 0 V /\ (forest_below V (edges g) \/ edges g = []).
Proof.
  unfold Generator.case_tree. intros H. gstep H. gstep H.
  destruct (negb (x0 =? x - 1)); [apply ret_Ok in H; destruct H; discriminate|].
  gstep H. gfinish H. exists x. split; [reflexivity|]. simpl.
  destruct (Z.lt_ge_cases x 1) as [Hs|Hb].
  - right. eapply gen_for_range_empty; [|exact H2]. lia.
  - left. eapply (attach_loop_spec 0 x []); [lia | lia | split; constructor | exact H2].
Qed.

Lemma case_acyclic_spec (nv ne : Z) (g : graph_data) (r r' : Generator.rng) :
  Generator.case_acyclic nv ne r = Ok (Graph g, r') ->
  exists V, vertices g = range 0 V /\ (forest_below V (edges g) \/ edges g = []).
Proof.
  unfold Generator.case_acyclic. intros H. gstep H. gstep H.
  destruct (x0 >? x - 1) eqn:E; [apply ret_Ok in H; destruct H; discriminate|].
  gstep H. gfinish H. exists x. split; [reflexivity|]. simpl.
  eapply spores_spec; [|exact H2]. lia.
Qed.

Lemma case_bipartite_spec (nv ne : Z) (g : graph_data) (r r' : Generator.rng) :
  Generator.case_bipartite nv ne r = Ok (Graph g, r') ->
  exists V, vertices g = range 0 V /\
    forall a b w, In (a, b, w) (edges g) -> 0 <= a < V / 2 /\ V / 2 <= b < V.
Proof.
  unfold Generator.case_bipartite. intros H. gstep H. gstep H.
  destruct (x0 >? x * x / 4); [apply ret_Ok in H; destruct H; discriminate|].
  gstep H. gstep H. gfinish H. exists x. split; [reflexivity|]. simpl.
  intros a b w Hin. apply (delete_down_sub _ _ _ _ _ _ H3) in Hin.
  destruct (cross_pairs_spec _ _ _ _ _ H2 a b w Hin) as [Ha Hb].
  apply filter_In in Ha, Hb. rewrite In_range in Ha, Hb.
  destruct Ha as [Ha Ha']. destruct Hb as [Hb Hb'].
  apply Z.ltb_lt in Ha'. apply negb_true_iff, Z.ltb_ge in Hb'. lia.
Qed.

Lemma make_random_graph_cases (ty : string) (nv ne : Z) (g : graph_data)
    (r r' : Generator.rng) :
  Generator.make_random_graph ty nv ne r = Ok (Graph g, r') ->
  (ty = "any"%string /\ Generator.case_any nv ne r = Ok (Graph g, r')) \/
  (ty = "complete"%string /\ Generator.case_complete nv ne r = Ok (Graph g, r')) \/
  (ty = "connected"%string /\ Generator.case_connected nv ne r = Ok (Graph g, r')) \/
  (ty = "acyclic"%string /\ Generator.case_acyclic nv ne r = Ok (Graph g, r')) \/
  (ty = "tree"%string /\ Generator.case_tree nv ne r = Ok (Graph g, r')) \/
  (ty = "bipartite"%string /\ Generator.case_bipartite nv ne r = Ok (Graph g, r')).
Proof.
  unfold Generator.make_random_graph.
  repeat match goal with
         | |- context [String.eqb ty ?s] =>
             destruct (String.eqb_spec ty s); [intros; tauto|]
         end.
  intros H. apply ret_Ok in H. destruct H. discriminate.
Qed.


Lemma range_from_zero (V : Z) :
  range 0 V = map Z.of_nat (seq 0 (length (range 0 V))).
Proof.
  rewrite length_range. unfold range. apply map_ext. intros i. lia.
Qed.

Lemma firstn_seq_min (n start len : nat) :
  firstn n (seq start len) = seq start (Nat.min n len).
Proof.
  revert start len. induction n as [|n IH]; intros start [|len]; simpl;
    try reflexivity.
  now rewrite IH.
Qed.

Lemma In_firstn_range (h : nat) (V x : Z) :
  In x (firstn h (range 0 V)) <-> 0 <= x < Z.of_nat h /\ x < V.
Proof.
  unfold range. rewrite firstn_map, firstn_seq_min, in_map_iff. split.
  - intros [i [<- Hi]]. apply in_seq in Hi. lia.
  - intros H. exists (Z.to_nat x). split; [lia|]. apply in_seq. lia.
Qed.

Lemma In_skipn_range (h : nat) (V x : Z) :
  In x (skipn h (range 0 V)) <-> Z.of_nat h <= x < V.
Proof.
  unfold range. rewrite skipn_map, skipn_seq, in_map_iff. split.
  - intros [i [<- Hi]]. apply in_seq in Hi. lia.
  - intros H. exists (Z.to_nat x). split; [lia|]. apply in_seq. lia.
Qed.

(** C10.  Whatever the type, the requested counts and the randomness
    source, a graph description returned by [make_random_graph] has the
    vertex sequence 0, 1, ..., V-1 in this order, and the endpoints of every
    edge lie in 0..V-1. *)
Theorem generated_vertices_consecutive :
  forall (ty : string) (nv ne : Z) (r r' : Generator.rng) (g : graph_data),
    Generator.make_random_graph ty nv ne r = Ok (Graph g, r') ->
    vertices g = map Z.of_nat (seq 0 (length (vertices g))) /\
    forall a b w, In (a, b, w) (edges g) ->
      0 <= a < Z.of_nat (length (vertices g)) /\
      0 <= b < Z.of_nat (length (vertices g)).
Proof.
  intros ty nv ne r r' g H.
  assert (HV : exists V, vertices g = range 0 V /\
                         forall a b w, In (a, b, w) (edges g) ->
                                       0 <= a < V /\ 0 <= b < V).
  { assert (Hord : forall V, Forall (ordered_below V) (edges g) ->
                     forall a b w, In (a, b, w) (edges g) ->
                                   0 <= a < V /\ 0 <= b < V).
    { intros V HF a b w Hin. rewrite Forall_forall in HF.
      apply HF in Hin. simpl in Hin. lia. }
    apply make_random_graph_cases in H.
    destruct H as [[_ H]|[[_ H]|[[_ H]|[[_ H]|[[_ H]|[_ H]]]]]].
    - apply case_any_spec in H. destruct H as [V [HV HF]]. eauto.
    - apply case_complete_spec in H. destruct H as [V [HV HF]]. eauto.
    - apply case_connected_spec in H. destruct H as [V [HV HF]]. eauto.
    - apply case_acyclic_spec in H. destruct H as [V [HV [[_ HF]|HF]]]; [eauto|].
      exists V. split; [exact HV|]. rewrite HF. intros a b w [].
    - apply case_tree_spec in H. destruct H as [V [HV [[_ HF]|HF]]]; [eauto|].
      exists V. split; [exact HV|]. rewrite HF. intros a b w [].
    - apply case_bipartite_spec in H. destruct H as [V [HV HF]].
      exists V. split; [exact HV|]. intros a b w Hin.
      specialize (HF a b w Hin). pose proof (Z.div_lt_upper_bound V 2 V).
      assert (V / 2 <= V) by (apply Z.div_le_upper_bound; lia). lia. }
  destruct HV as [V [HV HE]]. rewrite HV. split; [apply range_from_zero|].
  intros a b w Hin. specialize (HE a b w Hin). rewrite length_range. lia.
Qed.

Lemma generated_vertices_consecutive_witness :
  let g := {| vertices := [0; 1; 2]; edges := [(0, 1, 1); (0, 2, 1)] |} in
  vertices g = map Z.of_nat (seq 0 (length (vertices g))) /\
  forall a b w, In (a, b, w) (edges g) ->
    0 <= a < Z.of_nat (length (vertices g)) /\
    0 <= b < Z.of_nat (length (vertices g)).
Proof.
  apply (generated_vertices_consecutive "tree" 3 (-1)
           {| Generator.draws := fun _ => 0; Generator.pos := 0 |}
           {| Generator.draws := fun _ => 0; Generator.pos := 4 |}).
  reflexivity.
Defined.

(** C7.  In a graph description returned by the "bipartite" generator, with
    the first half the first floor(V/2) declared vertices and the second half
    the others, every edge starts in the first half and ends in the second;
    no edge has both endpoints in the same half. *)
Theorem bipartite_edges_cross_halves :
  forall (nv ne : Z) (r r' : Generator.rng) (g : graph_data),
    Generator.make_random_graph "bipartite" nv ne r = Ok (Graph g, r') ->
    let h := (length (vertices g) / 2)%nat in
    let first_half := firstn h (vertices g) in
    let second_half := skipn h (vertices g) in
    forall a b w, In (a, b, w) (edges g) ->
      (In a first_half /\ In b second_half) /\
      ~ (In a first_half /\ In b first_half) /\
      ~ (In a second_half /\ In b second_half).
Proof.
  intros nv ne r r' g H h first_half second_half a b w Hin.
  change (Generator.case_bipartite nv ne r = Ok (Graph g, r')) in H.
  apply case_bipartite_spec in H. destruct H as [V [HV HE]].
  specialize (HE a b w Hin). subst first_half second_half h.
  rewrite HV, length_range, !In_firstn_range, !In_skipn_range.
  assert (0 < V) by (assert (V / 2 <= V) by (apply Z.div_le_upper_bound; lia); lia).
  replace (V - 0) with V by lia.
  assert (Hh : Z.of_nat (Z.to_nat V / 2) = V / 2).
  { rewrite Nat2Z.inj_div. rewrite Z2Nat.id by lia. reflexivity. }
  rewrite Hh. lia.
Qed.

Lemma bipartite_edges_cross_halves_witness :
  let g := {| vertices := [0; 1; 2; 3];
              edges := [(0, 3, 1); (1, 2, 1); (1, 3, 1)] |} in
  let h := (length (vertices g) / 2)%nat in
  In (1, 2, 1) (edges g) /\
  (In 1 (firstn h (vertices g)) /\ In 2 (skipn h (vertices g))) /\
  ~ (In 1 (firstn h (vertices g)) /\ In 2 (firstn h (vertices g))) /\
  ~ (In 1 (skipn h (vertices g)) /\ In 2 (skipn h (vertices g))).
Proof.
  split; [simpl; auto|].
  apply (bipartite_edges_cross_halves 4 3
           {| Generator.draws := fun _ => 0; Generator.pos := 0 |}
           {| Generator.draws := fun _ => 0; Generator.pos := 5 |}
           {| vertices := [0; 1; 2; 3];
              edges := [(0, 3, 1); (1, 2, 1); (1, 3, 1)] |}
           eq_refl 1 2 1).
  simpl. auto.
Defined.


(** ** Depth-first cycle detection *)

Lemma dfs_neighbors_total
    (rec : list Z -> Z -> result (list Z * option (list Z)))
    (ancestry : list Z) (row : dict Z) :
  (forall d s, In d (dict_keys row) -> exists s' res, rec s d = Ok (s', res)) ->
  forall seen, exists seen' res,
    Analysis.dfs_neighbors rec ancestry row seen = Ok (seen', res).
Proof.
  induction row as [|[d w] row IH]; intros Hrec seen; simpl.
  - eauto.
  - assert (Hrow : forall d s, In d (dict_keys row) ->
                     exists s' res, rec s d = Ok (s', res)).
    { intros d' s Hd. apply Hrec. now right. }
    destruct (Analysis.not_parent d ancestry); [|now apply IH].
    destruct (Hrec d seen) as [s' [res Hd]]; [now left|].
    rewrite Hd. simpl. destruct res; [eauto | now apply IH].
Qed.

Lemma dfs_neighbors_Some
    (rec : list Z -> Z -> result (list Z * option (list Z)))
    (ancestry : list Z) (row : dict Z) (seen seen' cycle : list Z) :
  Analysis.dfs_neighbors rec ancestry row seen = Ok (seen', Some cycle) ->
  exists d s s', In d (dict_keys row) /\
                 Analysis.not_parent d ancestry = true /\
                 rec s d = Ok (s', Some cycle).
Proof.
  revert seen. induction row as [|[d w] row IH]; intros seen H; simpl in H.
  - discriminate.
  - destruct (Analysis.not_parent d ancestry) eqn:E.
    + apply bind_Ok in H. destruct H as [[s' res] [Hd H]].
      destruct res as [cyc|].
      * injection H as <- <-. exists d, seen, s'. simpl. auto.
      * destruct (IH _ H) as [d' [s1 [s2 [H1 H2]]]].
        exists d', s1, s2. simpl. tauto.
    + destruct (IH _ H) as [d' [s1 [s2 [H1 H2]]]].
      exists d', s1, s2. simpl. tauto.
Qed.

Lemma dfs_neighbors_None
    (rec : list Z -> Z -> result (list Z * option (list Z)))
    (ancestry : list Z) (row : dict Z) (seen seen' : list Z) :
  Analysis.dfs_neighbors rec ancestry row seen = Ok (seen', None) ->
  forall d, In d (dict_keys row) -> Analysis.not_parent d ancestry = true ->
            exists s s', rec s d = Ok (s', None).
Proof.
  revert seen. induction row as [|[d w] row IH]; intros seen H d' Hd Hnp;
    simpl in H.
  - destruct Hd.
  - destruct (Analysis.not_parent d ancestry) eqn:E.
    + apply bind_Ok in H. destruct H as [[s' res] [Hrec H]].
      destruct res as [cyc|]; [discriminate|].
      destruct Hd as [Hd|Hd]; [simpl in Hd; subst d'; eauto|].
      eapply IH; eauto.
    + destruct Hd as [Hd|Hd]; [simpl in Hd; congruence|].
      eapply IH; eauto.
Qed.

Lemma dfs_neighbors_seen
    (rec : list Z -> Z -> result (list Z * option (list Z)))
    (P : Z -> Prop) (ancestry : list Z) (row : dict Z) :
  (forall d s s', rec s d = Ok (s', None) ->
                  (forall x, In x s -> P x) -> forall x, In x s' -> P x) ->
  forall seen seen',
    Analysis.dfs_neighbors rec ancestry row seen = Ok (seen', None) ->
    (forall x, In x seen -> P x) -> forall x, In x seen' -> P x.
Proof.
  intros Hrec. induction row as [|[d w] row IH]; intros seen seen' H Hs;
    simpl in H.
  - injection H as <-. exact Hs.
  - destruct (Analysis.not_parent d ancestry).
    + apply bind_Ok in H. destruct H as [[s' res] [Hd H]].
      destruct res as [cyc|]; [discriminate|].
      eapply IH; [exact H|]. eapply Hrec; eauto.
    + eapply IH; eauto.
Qed.

Lemma dfs_total (al : adjacency) :
  closed_AL al ->
  forall (fuel : nat) (seen : list Z) (cur : Z) (ancestry : list Z),
    In cur (dict_keys al) ->
    NoDup ancestry -> incl ancestry (dict_keys al) ->
    (length al < fuel + length ancestry)%nat ->
    exists seen' res, Analysis.dfs fuel al seen cur ancestry = Ok (seen', res).
Proof.
  intros [Hnd Hrows]. induction fuel as [|fuel IH];
    intros seen cur ancestry Hcur Hanc Hincl Hfuel.
  - exfalso. pose proof (NoDup_incl_length Hanc Hincl) as Hlen.
    unfold dict_keys in Hlen. rewrite length_map in Hlen. simpl in Hfuel. lia.
  - simpl. destruct (mem cur ancestry) eqn:E; [eauto|].
    apply mem_not_In in E. apply dict_get_keys in Hcur.
    destruct (dict_get al cur) as [row|] eqn:Erow; [|congruence].
    unfold dict_at. rewrite Erow. simpl.
    destruct (Hrows _ _ Erow) as [_ Hsub].
    apply dfs_neighbors_total. intros d s Hd. apply IH.
    + auto.
    + now constructor.
    + intros x [<-|Hx]; [eapply dict_get_Some_keys; eauto | auto].
    + simpl. lia.
Qed.

Lemma dfs_None_inv (al : adjacency) (fuel : nat) (seen seen' : list Z)
    (cur : Z) (ancestry : list Z) :
  Analysis.dfs fuel al seen cur ancestry = Ok (seen', None) ->
  exists fuel' row,
    fuel = S fuel' /\ ~ In cur ancestry /\ dict_get al cur = Some row /\
    forall d, In d (dict_keys row) -> Analysis.not_parent d ancestry = true ->
      exists s s', Analysis.dfs fuel' al s d (cur :: ancestry) = Ok (s', None).
Proof.
  destruct fuel as [|fuel]; simpl; [discriminate|].
  destruct (mem cur ancestry) eqn:E; [discriminate|].
  apply mem_not_In in E. intros H. apply bind_Ok in H.
  destruct H as [row [Hrow H]]. apply dict_at_Ok in Hrow.
  exists fuel, row. repeat split; auto.
  intros d Hd Hnp.
  exact (dfs_neighbors_None _ _ _ _ _ H d Hd Hnp).
Qed.

Lemma dfs_seen_explored (al : adjacency) :
  forall (fuel : nat) (seen seen' : list Z) (cur : Z) (ancestry : list Z),
    Analysis.dfs fuel al seen cur ancestry = Ok (seen', None) ->
    (forall x, In x seen -> explored al x) ->
    forall x, In x seen' -> explored al x.
Proof.
  induction fuel as [|fuel IH]; intros seen seen' cur ancestry H Hs.
  - discriminate.
  - pose proof H as Hcall. simpl in H.
    destruct (mem cur ancestry); [discriminate|].
    apply bind_Ok in H. destruct H as [row [_ H]].
    intros x Hx.
    eapply (dfs_neighbors_seen _ (explored al)); [|exact H| |exact Hx].
    + intros d s s' Hd. simpl in Hd. exact (IH _ _ _ _ Hd).
    + intros y [<-|Hy]; [|auto]. now exists (S fuel), seen, ancestry, seen'.
Qed.


Lemma index_split (x : Z) (l : list Z) :
  In x l ->
  exists mid rest,
    l = mid ++ x :: rest /\
    firstn (index x l + 1) l = mid ++ [x].
Proof.
  induction l as [|y l IH]; simpl; [tauto|].
  intros H. destruct (x =? y) eqn:E.
  - apply Z.eqb_eq in E. subst y. exists [], l. simpl.
    split; [reflexivity|]. now destruct l.
  - apply Z.eqb_neq in E. destruct H as [H|H]; [congruence|].
    destruct (IH H) as [mid [rest [H1 H2]]].
    exists (y :: mid), rest. simpl. split; [now f_equal | now f_equal].
Qed.

Lemma chain_app_l (adj : Z -> Z -> Prop) (l1 l2 : list Z) :
  chain adj (l1 ++ l2) -> chain adj l1.
Proof.
  induction l1 as [|x [|y l1] IH]; simpl; auto.
  intros [H1 H2]. split; [exact H1 | apply IH; exact H2].
Qed.

Lemma not_parent_spec (d : Z) (ancestry : list Z) :
  Analysis.not_parent d ancestry = true <->
  forall p rest, ancestry = p :: rest -> d <> p.
Proof.
  destruct ancestry as [|p rest]; simpl.
  - split; [discriminate | reflexivity].
  - rewrite negb_true_iff, Z.eqb_neq. split.
    + intros H p' rest' [= <- _]. exact H.
    + intros H. eapply H. reflexivity.
Qed.

(** A cycle returned by [dfs] is a closed walk of the adjacency model; when
    the model has no self-loop it has at least four elements. *)
Lemma dfs_cycle_sound (al : adjacency) :
  forall (fuel : nat) (seen seen' : list Z) (cur : Z) (ancestry cycle : list Z),
    dfs_pre al cur ancestry ->
    Analysis.dfs fuel al seen cur ancestry = Ok (seen', Some cycle) ->
    closed_walk (fun x y => al_adj al y x) cycle /\
    ((forall u, ~ al_adj al u u) -> (4 <= length cycle)%nat).
Proof.
  induction fuel as [|fuel IH]; intros seen seen' cur ancestry cycle Hpre H.
  - discriminate.
  - simpl in H. destruct Hpre as [Hnd [Hch Hgp]].
    destruct (mem cur ancestry) eqn:E.
    + injection H as _ <-. apply mem_In in E.
      destruct (index_split cur ancestry E) as [mid [rest [Hl Hf]]].
      rewrite Hf. split.
      * exists cur, mid. split; [reflexivity|]. split.
        -- rewrite Hl in Hnd.
           replace (mid ++ cur :: rest) with ((mid ++ [cur]) ++ rest) in Hnd
             by now rewrite <- app_assoc.
           now apply NoDup_app_remove_r in Hnd.
        -- rewrite Hl in Hch.
           replace (cur :: mid ++ cur :: rest)
             with ((cur :: mid ++ [cur]) ++ rest) in Hch
             by (simpl; now rewrite <- app_assoc).
           now apply chain_app_l in Hch.
      * intros Hloop. simpl. rewrite length_app. simpl.
        destruct mid as [|p [|gp mid]]; simpl; try lia.
        -- exfalso. rewrite Hl in Hch. simpl in Hch. destruct Hch as [Hc _].
           exact (Hloop _ Hc).
        -- exfalso. simpl in Hl. exact (Hgp _ _ _ Hl eq_refl).
    + apply mem_not_In in E. apply bind_Ok in H.
      destruct H as [row [Hrow H]]. apply dict_at_Ok in Hrow.
      apply dfs_neighbors_Some in H.
      destruct H as [d [s [s' [Hd [Hnp H]]]]].
      apply (IH _ _ _ _ _ ) in H; [exact H|].
      split; [now constructor|]. split.
      * simpl. split; [|exact Hch]. now apply (al_adj_keys al cur d row).
      * intros p gp rest [= <- Hanc]. rewrite not_parent_spec in Hnp.
        eapply Hnp. exact Hanc.
Qed.

Lemma dfs_pre_root (al : adjacency) (root : Z) : dfs_pre al root [].
Proof.
  split; [constructor|]. split; [exact I|]. intros p gp rest. discriminate.
Qed.

(** With more frames than vertices the loop over the roots returns on a
    closed model: either a closed walk or [False], and in the second case
    every root has been explored without a cycle. *)
Lemma has_cycle_roots_spec (frames : nat) (al : adjacency) :
  closed_AL al ->
  (length al < frames)%nat ->
  forall (roots seen : list Z),
    incl roots (dict_keys al) ->
    (forall x, In x seen -> explored al x) ->
    exists d, Analysis.has_cycle_roots frames al roots seen = Ok d /\
      ((d = DBool false /\ forall x, In x roots -> explored al x) \/
       (exists cycle, d = DCycle cycle /\
          closed_walk (fun x y => al_adj al y x) cycle /\
          ((forall u, ~ al_adj al u u) -> (4 <= length cycle)%nat))).
Proof.
  intros Hcl Hframes. induction roots as [|root roots IH];
    intros seen Hincl Hseen; cbn [Analysis.has_cycle_roots].
  - exists (DBool false). split; [reflexivity|]. left. split; [reflexivity|].
    intros x [].
  - assert (Hroots : incl roots (dict_keys al))
      by (intros x Hx; apply Hincl; now right).
    destruct (mem root seen) eqn:E.
    + apply mem_In in E.
      destruct (IH seen Hroots Hseen) as [d [Hd Hres]].
      exists d. split; [exact Hd|].
      destruct Hres as [[-> Hall]|Hres]; [left | now right].
      split; [reflexivity|]. intros x [<-|Hx]; auto.
    + destruct (dfs_total al Hcl frames seen root [])
        as [seen' [res Hdfs]].
      * apply Hincl. now left.
      * constructor.
      * intros x [].
      * simpl. lia.
      * rewrite Hdfs. cbn [bind]. destruct res as [cycle|].
        -- exists (DCycle cycle). split; [reflexivity|]. right.
           exists cycle. split; [reflexivity|].
           eapply dfs_cycle_sound; [apply dfs_pre_root | exact Hdfs].
        -- assert (Hseen' : forall x, In x seen' -> explored al x)
             by (eapply dfs_seen_explored; eauto).
           destruct (IH seen' Hroots Hseen') as [d [Hd Hres]].
           exists d. split; [exact Hd|].
           destruct Hres as [[-> Hall]|Hres]; [left | now right].
           split; [reflexivity|]. intros x [<-|Hx]; [|auto].
           now exists frames, seen, [], seen'.
Qed.

(** An explored vertex lies on no triangle. *)
Lemma explored_no_triangle (al : adjacency) (a b c : Z) :
  explored al a ->
  al_adj al a b -> al_adj al a c -> al_adj al b c -> al_adj al c b ->
  al_adj al b a -> al_adj al c a ->
  a <> b -> b <> c -> c <> a -> False.
Proof.
  intros [fuel [seen [anc [seen' H]]]] Hab Hac Hbc Hcb Hba Hca Nab Nbc Nca.
  assert (Hgo : forall x y, al_adj al a x -> al_adj al x y -> al_adj al y a ->
                  a <> x -> x <> y -> y <> a ->
                  Analysis.not_parent x anc = true -> False).
  { intros x y Hax Hxy Hya Nax Nxy Nya Hnp.
    apply dfs_None_inv in H.
    destruct H as [f1 [row [-> [Ha [Hrow Hn]]]]].
    destruct (Hn x) as [s1 [s1' H1]]; [now apply (al_adj_keys al a x row) | exact Hnp|].
    apply dfs_None_inv in H1.
    destruct H1 as [f2 [rowx [-> [Hx [Hrowx Hnx]]]]].
    destruct (Hnx y) as [s2 [s2' H2]];
      [now apply (al_adj_keys al x y rowx) | simpl; apply negb_true_iff, Z.eqb_neq; congruence|].
    apply dfs_None_inv in H2.
    destruct H2 as [f3 [rowy [-> [Hy [Hrowy Hny]]]]].
    destruct (Hny a) as [s3 [s3' H3]];
      [now apply (al_adj_keys al y a rowy) | simpl; apply negb_true_iff, Z.eqb_neq; congruence|].
    apply dfs_None_inv in H3.
    destruct H3 as [f4 [rowa [_ [Ha' _]]]]. apply Ha'. simpl. tauto. }
  destruct (Analysis.not_parent b anc) eqn:Eb.
  - exact (Hgo b c Hab Hbc Hca Nab Nbc Nca Eb).
  - apply (Hgo c b Hac Hcb Hba); auto.
    destruct anc as [|p rest]; [reflexivity|]. simpl in *.
    apply negb_false_iff, Z.eqb_eq in Eb. subst p.
    apply negb_true_iff, Z.eqb_neq. congruence.
Qed.


Lemma simple_no_loop (es : list edge) (u v : Z) :
  simple es -> adjacent es u v -> u <> v.
Proof.
  intros Hs [e [Hin Hj]]. induction es as [|[[a b] w] es IH]; [destruct Hin|].
  simpl in Hs. destruct Hs as [Hab [_ Hs]].
  destruct Hin as [<-|Hin]; [|auto].
  simpl in Hj. apply orb_true_iff in Hj.
  rewrite !andb_true_iff, !Z.eqb_eq in Hj. intros ->. intuition congruence.
Qed.

Lemma chain_impl (adj1 adj2 : Z -> Z -> Prop) (l : list Z) :
  (forall x y, adj1 x y -> adj2 x y) -> chain adj1 l -> chain adj2 l.
Proof.
  intros H. induction l as [|x [|y l] IH]; simpl; auto.
  intros [H1 H2]. split; [auto | apply IH; exact H2].
Qed.

Lemma al_adj_adjacent (g : graph_data) (al : adjacency) :
  (forall u v, lookup2 al u v = edge_weight (edges g) u v) ->
  forall u v, al_adj al u v <-> adjacent (edges g) u v.
Proof.
  intros Hl u v. unfold al_adj. rewrite Hl. apply edge_weight_adjacent.
Qed.

Lemma adjacent_declared (g : graph_data) (u v : Z) :
  well_formed g -> adjacent (edges g) u v ->
  In u (vertices g) /\ In v (vertices g).
Proof.
  intros [_ Hin] [[[a b] w] [He Hj]]. destruct (Hin a b w He) as [Ha Hb].
  simpl in Hj. apply orb_true_iff in Hj.
  rewrite !andb_true_iff, !Z.eqb_eq in Hj.
  destruct Hj as [[<- <-]|[<- <-]]; auto.
Qed.

(** What [has_cycle] returns on a well-formed description with weights
    within the range of doubles and fewer vertices than frames: [False], after
    every declared vertex was explored without a cycle, or a closed walk of
    the graph. *)
Lemma has_cycle_spec (frames : nat) (g : graph_data) (root : option Z) :
  well_formed g -> finite_weights g ->
  (length (vertices g) < frames)%nat ->
  exists al d,
    Analysis.build_AL g = Ok al /\
    (forall u v, al_adj al u v <-> adjacent (edges g) u v) /\
    Analysis.analyze_graph frames "has_cycle" root g
    = Ok {| type := "has_cycle"; data := d |} /\
    ((d = DBool false /\ forall x, In x (vertices g) -> explored al x) \/
     (exists cycle, d = DCycle cycle /\
        closed_walk (adjacent (edges g)) cycle /\
        ((forall u, ~ adjacent (edges g) u u) -> (4 <= length cycle)%nat))).
Proof.
  intros Hwf Hfin Hframes.
  destruct (build_AL_adj g Hwf Hfin) as [al [Hal [Hcl [Hk [Hsize Hadj]]]]].
  destruct (has_cycle_roots_spec frames al Hcl) with (roots := vertices g)
    (seen := @nil Z) as [d [Hd Hres]].
  - now rewrite Hsize.
  - intros x Hx. now apply Hk.
  - intros x [].
  - exists al, d. split; [exact Hal|]. split; [exact Hadj|]. split.
    + rewrite analyze_has_cycle, Hal. cbn [bind]. unfold Analysis.has_cycle.
      now rewrite Hd.
    + destruct Hres as [Hres|[cycle [-> [Hcw Hlen]]]]; [now left|].
      right. exists cycle. split; [reflexivity|]. split.
      * destruct Hcw as [c [mid [-> [Hnd Hch]]]]. exists c, mid.
        split; [reflexivity|]. split; [exact Hnd|].
        eapply chain_impl; [|exact Hch]. intros x y Hxy. simpl in Hxy.
        apply adjacent_sym. now apply Hadj.
      * intros Hloop. apply Hlen. intros u Hu. apply (Hloop u). now apply Hadj.
Qed.

(** C4.  On a well-formed simple description in which three vertices are
    pairwise adjacent, whose weights are within the range of doubles and
    which has fewer vertices than the interpreter allows nested calls,
    [has_cycle] returns a vertex sequence (not [False]) whose first and last
    elements are equal and whose length is at least 4; the sequence is a
    closed walk of the graph. *)
Theorem has_cycle_on_triangle :
  forall (frames : nat) (g : graph_data) (root : option Z) (a b c : Z),
    well_formed g -> simple (edges g) ->
    finite_weights g ->
    (length (vertices g) < frames)%nat ->
    adjacent (edges g) a b -> adjacent (edges g) b c -> adjacent (edges g) c a ->
    exists cycle first mid,
      Analysis.analyze_graph frames "has_cycle" root g
      = Ok {| type := "has_cycle"; data := DCycle cycle |} /\
      cycle = first :: mid ++ [first] /\
      (4 <= length cycle)%nat /\
      chain (adjacent (edges g)) cycle.
Proof.
  intros frames g root a b c Hwf Hs Hfin Hframes Hab Hbc Hca.
  destruct (has_cycle_spec frames g root Hwf Hfin Hframes)
    as [al [d [Hal [Hadj [Hres Hd]]]]].
  destruct Hd as [[-> Hall]|[cycle [-> [Hcw Hlen]]]].
  - exfalso. destruct (adjacent_declared g a b Hwf Hab) as [Ha _].
    apply (explored_no_triangle al a b c (Hall a Ha)); try apply Hadj;
      auto using adjacent_sym.
    + now apply (simple_no_loop (edges g)).
    + now apply (simple_no_loop (edges g)).
    + now apply (simple_no_loop (edges g)).
  - destruct Hcw as [first [mid [Hc [Hnd Hch]]]].
    exists cycle, first, mid. repeat split; auto.
    apply Hlen. intros u Hu. now apply (simple_no_loop (edges g) u u Hs Hu).
Qed.

Lemma has_cycle_on_triangle_witness :
  exists cycle first mid,
    Analysis.analyze_graph 1000 "has_cycle" None
      {| vertices := [0; 1; 2]; edges := [(0, 1, 1); (1, 2, 2); (0, 2, 10)] |}
    = Ok {| type := "has_cycle"; data := DCycle cycle |} /\
    cycle = first :: mid ++ [first] /\
    (4 <= length cycle)%nat /\
    chain (adjacent [(0, 1, 1); (1, 2, 2); (0, 2, 10)]) cycle.
Proof.
  apply (has_cycle_on_triangle 1000%nat
           {| vertices := [0; 1; 2]; edges := [(0, 1, 1); (1, 2, 2); (0, 2, 10)] |}
           None 0 1 2).
  - split.
    + simpl. repeat constructor; simpl; intuition lia.
    + simpl. intros a b w H.
      repeat (destruct H as [H|H]; [injection H as <- <- <-; intuition|]).
      destruct H.
  - simpl. repeat split; try lia; intros e H;
      repeat (destruct H as [H|H]; [subst e; reflexivity|]); destruct H.
  - intros a b w H. simpl in H.
    repeat (destruct H as [H|H]; [injection H as <- <- <-; reflexivity|]).
    destruct H.
  - simpl. lia.
  - exists (0, 1, 1). simpl. auto.
  - exists (1, 2, 2). simpl. auto.
  - exists (0, 2, 10). simpl. auto.
Defined.


(** ** Generated forests have no cycle *)

Lemma NoDup_map_inj {A B : Type} (f : A -> B) (l : list A) (a b : A) :
  NoDup (map f l) -> In a l -> In b l -> f a = f b -> a = b.
Proof.
  induction l as [|x l IH]; simpl; [tauto|].
  intros Hnd Ha Hb Hf. inversion Hnd as [|? ? Hx Hl]; subst.
  destruct Ha as [->|Ha], Hb as [->|Hb]; auto.
  - exfalso. apply Hx. rewrite Hf. now apply in_map.
  - exfalso. apply Hx. rewrite <- Hf. now apply in_map.
Qed.

Lemma forest_one_parent (V : Z) (es : list edge) :
  forest_below V es ->
  one_parent (adjacent es) /\ forall u, ~ adjacent es u u.
Proof.
  intros [Hnd Hall]. rewrite Forall_forall in Hall.
  assert (Hup : forall m x, adjacent es m x -> x < m ->
                            exists w, In (x, m, w) es).
  { intros m x [[[a b] w] [Hin Hj]] Hlt. pose proof (Hall _ Hin) as Ho.
    simpl in Ho, Hj. apply orb_true_iff in Hj.
    rewrite !andb_true_iff, !Z.eqb_eq in Hj.
    destruct Hj as [[-> ->]|[-> ->]]; [lia | eauto]. }
  split.
  - intros m x y Hx Hy Hxm Hym.
    destruct (Hup m x Hx Hxm) as [w Hw]. destruct (Hup m y Hy Hym) as [w' Hw'].
    assert (Heq : (x, m, w) = (y, m, w'))
      by (eapply (NoDup_map_inj edge_end); eauto).
    congruence.
  - intros u [[[a b] w] [Hin Hj]]. pose proof (Hall _ Hin) as Ho.
    simpl in Ho, Hj. apply orb_true_iff in Hj.
    rewrite !andb_true_iff, !Z.eqb_eq in Hj. lia.
Qed.

Section Climb.
Variable adj : Z -> Z -> Prop.
Hypothesis adj_sym : forall x y, adj x y -> adj y x.
Hypothesis adj_irrefl : forall x, ~ adj x x.
Hypothesis adj_parent : one_parent adj.

(** Once a walk without U-turn steps up, it keeps climbing. *)
Lemma climb (l : list Z) :
  forall y0 e,
    chain adj (y0 :: l ++ [e]) -> no_uturn (y0 :: l ++ [e]) ->
    y0 < hd e l -> y0 < e.
Proof.
  induction l as [|y1 l IH]; intros y0 e Hch Hnu Hlt; simpl in *; [exact Hlt|].
  destruct Hch as [H01 Hch].
  apply Z.lt_trans with y1; [exact Hlt|]. apply IH; [exact Hch | |].
  - destruct (l ++ [e]) eqn:E; [exact I|]. tauto.
  - assert (Hy2 : exists y2 rest, l ++ [e] = y2 :: rest /\ hd e l = y2).
    { destruct l as [|y2 l]; simpl; eauto. }
    destruct Hy2 as [y2 [rest [E ->]]]. rewrite E in Hch, Hnu.
    simpl in Hch. destruct Hch as [H12 _]. destruct Hnu as [Hne _].
    destruct (Z.lt_trichotomy y1 y2) as [Hlt'|[Heq|Hgt]]; [exact Hlt'| |].
    + subst y2. exfalso. exact (adj_irrefl _ H12).
    + exfalso. apply Hne. apply (adj_parent y1); auto.
Qed.

Lemma chain_snoc2 (l : list Z) (x y : Z) :
  chain adj (l ++ [x]) -> adj x y -> chain adj (l ++ [x; y]).
Proof.
  induction l as [|a [|b l] IH]; simpl; intros H Hxy.
  - auto.
  - destruct H as [H _]. auto.
  - destruct H as [H1 H2]. split; [exact H1|]. apply IH; assumption.
Qed.

Lemma chain_rev (l : list Z) : chain adj l -> chain adj (rev l).
Proof.
  induction l as [|x [|y l] IH]; intros H; try exact I.
  destruct H as [Hxy H]. specialize (IH H).
  change (rev (x :: y :: l)) with ((rev l ++ [y]) ++ [x]).
  rewrite <- app_assoc. simpl. apply chain_snoc2; [exact IH | auto].
Qed.

Lemma NoDup_no_uturn (l : list Z) : NoDup l -> no_uturn l.
Proof.
  induction l as [|x [|y [|z l]] IH]; intros H; simpl; auto.
  inversion H as [|? ? Hx Hl]; subst. split.
  - intros ->. apply Hx. simpl. tauto.
  - apply IH. exact Hl.
Qed.

Lemma cycle_no_uturn (c : Z) (mid : list Z) :
  NoDup (mid ++ [c]) -> (2 <= length mid)%nat -> no_uturn (c :: mid ++ [c]).
Proof.
  intros Hnd Hlen. destruct mid as [|a0 [|a1 mid]]; simpl in Hlen; try lia.
  simpl. split.
  - intros ->. apply NoDup_remove_2 with (l := a0 :: a1 :: mid) (l' := []) in Hnd.
    apply Hnd. rewrite app_nil_r. simpl. tauto.
  - apply (NoDup_no_uturn (a0 :: a1 :: mid ++ [c])). exact Hnd.
Qed.

(** No closed walk over three or more distinct vertices. *)
Lemma no_cycle (cycle : list Z) :
  closed_walk adj cycle -> (4 <= length cycle)%nat -> False.
Proof.
  intros [c [mid [-> [Hnd Hch]]]] Hlen.
  simpl in Hlen. rewrite length_app in Hlen. simpl in Hlen.
  assert (Hmid : (2 <= length mid)%nat) by lia.
  assert (Hdown : forall m, NoDup (m ++ [c]) -> (2 <= length m)%nat ->
                    chain adj (c :: m ++ [c]) ->
                    adj c (hd c m) /\ hd c m < c /\ In (hd c m) m).
  { intros m Hn Hl Hc.
    destruct m as [|a0 m]; [simpl in Hl; lia|]. simpl.
    pose proof Hc as [Hca _].
    split; [exact Hca|]. split; [|now left].
    destruct (Z.lt_trichotomy a0 c) as [H|[H|H]]; [exact H| |].
    - subst a0. exfalso. exact (adj_irrefl _ Hca).
    - exfalso. apply (Z.lt_irrefl c).
      apply (climb (a0 :: m) c c Hc); [|exact H].
      now apply cycle_no_uturn. }
  destruct (Hdown mid Hnd Hmid Hch) as [Ha [Hlt Hin]].
  assert (Hnd' : NoDup (rev mid ++ [c])).
  { apply NoDup_rev in Hnd. rewrite rev_app_distr in Hnd. simpl in Hnd.
    inversion Hnd; subst. apply NoDup_app; [assumption | repeat constructor; simpl; tauto|].
    intros x Hx [<-|[]]. tauto. }
  assert (Hch' : chain adj (c :: rev mid ++ [c])).
  { apply chain_rev in Hch. simpl in Hch. rewrite rev_app_distr in Hch.
    simpl in Hch. exact Hch. }
  destruct (Hdown (rev mid) Hnd') as [Hz [Hzlt Hzin]]; [now rewrite length_rev | exact Hch'|].
  assert (Heq : hd c mid = hd c (rev mid)) by (apply (adj_parent c); auto).
  destruct mid as [|a0 [|a1 mid]]; simpl in Hmid; try lia.
  simpl in Heq. apply NoDup_app_remove_r in Hnd. inversion Hnd as [|? ? Ha0 _]; subst.
  apply Ha0. destruct (rev mid ++ [a1]) as [|z zs] eqn:E.
  - destruct (rev mid); discriminate.
  - simpl in Heq. subst z.
    assert (Hin' : In a0 (rev mid ++ [a1])) by (rewrite E; now left).
    apply in_app_or in Hin'.
    destruct Hin' as [Hin'|[<-|[]]]; [right; now apply in_rev | now left].
Qed.

End Climb.


Lemma ordered_well_formed (g : graph_data) (V : Z) :
  vertices g = range 0 V -> Forall (ordered_below V) (edges g) -> well_formed g.
Proof.
  intros HV HF. split; [rewrite HV; apply NoDup_range|].
  intros a b w Hin. rewrite Forall_forall in HF. apply HF in Hin.
  simpl in Hin. rewrite HV, !In_range. lia.
Qed.

Lemma forest_has_no_cycle (frames : nat) (g : graph_data) (V : Z)
    (root : option Z) :
  vertices g = range 0 V ->
  forest_below V (edges g) \/ edges g = [] ->
  finite_weights g ->
  (length (vertices g) < frames)%nat ->
  Analysis.analyze_graph frames "has_cycle" root g
  = Ok {| type := "has_cycle"; data := DBool false |}.
Proof.
  intros HV Hf Hfin Hframes.
  assert (Hf' : forest_below V (edges g)).
  { destruct Hf as [Hf|Hf]; [exact Hf|]. rewrite Hf. split; constructor. }
  assert (Hwf : well_formed g) by (apply (ordered_well_formed g V HV), Hf').
  destruct (has_cycle_spec frames g root Hwf Hfin Hframes)
    as [al [d [_ [_ [Hres Hd]]]]].
  destruct Hd as [[-> _]|[cycle [-> [Hcw Hlen]]]]; [exact Hres|].
  exfalso. destruct (forest_one_parent V (edges g) Hf') as [Hpar Hirr].
  apply (no_cycle (adjacent (edges g))) with (cycle := cycle); auto.
  apply adjacent_sym.
Qed.


(** ** Priority queues *)

Section HeapFacts.
Context {T : Type}.
Variable leb : T -> T -> bool.
Hypothesis leb_refl : forall x, leb x x = true.
Hypothesis leb_total : forall x y, leb x y = false -> leb y x = true.
Hypothesis leb_trans :
  forall x y z, leb x y = true -> leb y z = true -> leb x z = true.

Lemma pop_from_spec (l : list T) :
  forall x m r,
    Heap.pop_from leb x l = (m, r) ->
    leb m x = true /\
    (forall y, In y r -> leb m y = true) /\
    (forall y, In y (x :: l) <-> y = m \/ In y r) /\
    length r = length l.
Proof.
  induction l as [|y l IH]; intros x m r H; simpl in H.
  - injection H as <- <-. repeat split; auto; simpl; intuition.
  - destruct (leb x y) eqn:E.
    + destruct (Heap.pop_from leb x l) as [m' r'] eqn:P.
      injection H as <- <-.
      destruct (IH _ _ _ P) as [H1 [H2 [H3 H4]]].
      split; [exact H1|]. split; [|split].
      * intros z [<-|Hz]; [eapply leb_trans; eauto | auto].
      * intros z. specialize (H3 z). simpl in *. tauto.
      * simpl. now rewrite H4.
    + destruct (Heap.pop_from leb y l) as [m' r'] eqn:P.
      injection H as <- <-.
      destruct (IH _ _ _ P) as [H1 [H2 [H3 H4]]].
      apply leb_total in E.
      split; [eapply leb_trans; eauto|]. split; [|split].
      * intros z [<-|Hz]; [eapply leb_trans; eauto | auto].
      * intros z. specialize (H3 z). simpl in *. tauto.
      * simpl. now rewrite H4.
Qed.

Lemma heappop_spec (h : list T) :
  match Heap.heappop leb h with
  | None => h = []
  | Some (m, r) =>
      (forall y, In y r -> leb m y = true) /\
      (forall y, In y h <-> y = m \/ In y r) /\
      length h = S (length r)
  end.
Proof.
  destruct h as [|x l]; simpl; [reflexivity|].
  destruct (Heap.pop_from leb x l) as [m r] eqn:P.
  destruct (pop_from_spec l x m r P) as [_ [H2 [H3 H4]]].
  split; [exact H2|]. split; [exact H3|]. now rewrite H4.
Qed.

End HeapFacts.

Lemma leb2_refl (x : Z * Z) : Heap.leb2 x x = true.
Proof.
  destruct x as [a b]. unfold Heap.leb2.
  rewrite Z.eqb_refl, Z.leb_refl. simpl. apply orb_true_r.
Qed.

Lemma leb2_total (x y : Z * Z) : Heap.leb2 x y = false -> Heap.leb2 y x = true.
Proof.
  destruct x as [a b], y as [c d]. unfold Heap.leb2.
  rewrite !orb_false_iff, !orb_true_iff, !andb_false_iff, !andb_true_iff.
  rewrite !Z.ltb_lt, !Z.ltb_ge, !Z.eqb_eq, !Z.eqb_neq, !Z.leb_le, !Z.leb_gt. lia.
Qed.

Lemma leb2_trans (x y z : Z * Z) :
  Heap.leb2 x y = true -> Heap.leb2 y z = true -> Heap.leb2 x z = true.
Proof.
  destruct x as [a b], y as [c d], z as [e f]. unfold Heap.leb2.
  rewrite !orb_true_iff, !andb_true_iff.
  rewrite !Z.ltb_lt, !Z.eqb_eq, !Z.leb_le. lia.
Qed.

Lemma leb2_fst (x y : Z * Z) : Heap.leb2 x y = true -> fst x <= fst y.
Proof.
  destruct x as [a b], y as [c d]. unfold Heap.leb2.
  rewrite !orb_true_iff, !andb_true_iff.
  rewrite !Z.ltb_lt, !Z.eqb_eq, !Z.leb_le. simpl. lia.
Qed.

Lemma leb3_refl (x : Z * Z * Z) : Heap.leb3 x x = true.
Proof.
  destruct x as [[a b] c]. unfold Heap.leb3.
  rewrite !Z.eqb_refl, Z.leb_refl. simpl. rewrite !orb_true_r. reflexivity.
Qed.

Lemma leb3_total (x y : Z * Z * Z) :
  Heap.leb3 x y = false -> Heap.leb3 y x = true.
Proof.
  destruct x as [[a b] c], y as [[d e] f]. unfold Heap.leb3.
  rewrite !orb_false_iff, !orb_true_iff, !andb_false_iff, !andb_true_iff,
    !orb_false_iff, !orb_true_iff, !andb_false_iff, !andb_true_iff.
  rewrite !Z.ltb_lt, !Z.ltb_ge, !Z.eqb_eq, !Z.eqb_neq, !Z.leb_le, !Z.leb_gt. lia.
Qed.

Lemma leb3_trans (x y z : Z * Z * Z) :
  Heap.leb3 x y = true -> Heap.leb3 y z = true -> Heap.leb3 x z = true.
Proof.
  destruct x as [[a b] c], y as [[d e] f], z as [[g h] i]. unfold Heap.leb3.
  rewrite !orb_true_iff, !andb_true_iff, !orb_true_iff, !andb_true_iff.
  rewrite !Z.ltb_lt, !Z.eqb_eq, !Z.leb_le. lia.
Qed.

Lemma leb3_fst (x y : Z * Z * Z) :
  Heap.leb3 x y = true -> fst (fst x) <= fst (fst y).
Proof.
  destruct x as [[a b] c], y as [[d e] f]. unfold Heap.leb3.
  rewrite !orb_true_iff, !andb_true_iff.
  rewrite !Z.ltb_lt, !Z.eqb_eq. simpl. lia.
Qed.


(** ** Dijkstra *)

Lemma pred_path_ext (pred pred' : dict (option Z)) (p : list Z) (v : Z) :
  (forall x, In x p -> dict_get pred' x = dict_get pred x) ->
  pred_path pred p v -> pred_path pred' p v.
Proof.
  intros Hext H. induction H as [r Hr|p u v Hp IH Hv].
  - constructor. rewrite Hext; [exact Hr | now left].
  - apply pp_step with u.
    + apply IH. intros x Hx. apply Hext. apply in_or_app. now left.
    + rewrite Hext; [exact Hv|]. apply in_or_app. right. now left.
Qed.

Section DijkstraInvariant.
Variable al : adjacency.
Variable es : list edge.
Variable root : Z.
Hypothesis al_closed : closed_AL al.
Hypothesis al_weights : forall u v, lookup2 al u v = edge_weight es u v.
Hypothesis nonneg : forall u v w, edge_weight es u v = Some w -> 0 <= w.

Lemma lookup2_key (u v w : Z) : lookup2 al u v = Some w -> In v (dict_keys al).
Proof.
  unfold lookup2. destruct (dict_get al u) as [row|] eqn:E; [|discriminate].
  intros H. destruct al_closed as [_ Hrows].
  destruct (Hrows _ _ E) as [_ Hsub]. apply Hsub.
  eapply dict_get_Some_keys; eauto.
Qed.

(** The assignment block of a relaxation keeps the invariant. *)
Lemma relax_update_inv (done : list Z) (st : Analysis.dijkstra_state)
    (cur dc dest w : Z) :
  dijkstra_inv al es root done st ->
  relaxing cur dc st ->
  lookup2 al cur dest = Some w ->
  (dict_get (Analysis.dist st) dest = None \/
   exists dd, dict_get (Analysis.dist st) dest = Some dd /\ w + dc < dd) ->
  let st' := {| Analysis.pred := dict_set (Analysis.pred st) dest (Some cur);
                Analysis.dist := dict_set (Analysis.dist st) dest (w + dc);
                Analysis.visited := Analysis.visited st;
                Analysis.pq := Heap.heappush (Analysis.pq st) (w + dc, dest) |} in
  dijkstra_inv al es root done st' /\ relaxing cur dc st'.
Proof.
  intros Hinv [Hcur [Hcv Hmax]] Hw Hcase st'.
  assert (Hw0 : 0 <= w) by (apply (nonneg cur dest); now rewrite <- al_weights).
  destruct (inv_path _ _ _ _ _ Hinv cur dc Hcur) as [Hdc [Hck [pc Hpc]]].
  assert (Hnv : ~ In dest (Analysis.visited st)).
  { intros Hv. pose proof (inv_visited _ _ _ _ _ Hinv dest Hv) as Hd.
    destruct (dict_get (Analysis.dist st) dest) as [dd|] eqn:E; [|congruence].
    specialize (Hmax dest dd Hv E).
    destruct Hcase as [C|[dd' [C Hlt]]]; [discriminate|].
    injection C as <-. lia. }
  assert (Hnc : dest <> cur) by (intros ->; tauto).
  assert (Hnr : dest <> root).
  { intros ->. pose proof (inv_root _ _ _ _ _ Hinv) as Hr.
    destruct Hcase as [C|[dd' [C Hlt]]]; [congruence|].
    rewrite Hr in C. injection C as <-. lia. }
  assert (Hother : forall v, v <> dest ->
            dict_get (Analysis.dist st') v = dict_get (Analysis.dist st) v /\
            dict_get (Analysis.pred st') v = dict_get (Analysis.pred st) v).
  { intros v Hv. simpl. now rewrite !dict_get_set_neq. }
  assert (Hmono : forall v, dict_get (Analysis.dist st) v <> None ->
                            dict_get (Analysis.dist st') v <> None).
  { intros v Hv. simpl. rewrite dict_get_set. destruct (v =? dest); congruence. }
  assert (Hkeep : forall p v, (forall x, In x p -> x = v \/ In x (Analysis.visited st)) ->
                    v <> dest -> pred_path (Analysis.pred st) p v ->
                    pred_path (Analysis.pred st') p v).
  { intros p v Hp Hv. apply pred_path_ext. intros x Hx.
    apply Hother. destruct (Hp x Hx) as [->|Hxv]; [exact Hv|].
    intros ->. tauto. }
  split; [constructor|].
  - destruct (Hother root) as [-> _]; [congruence|]. apply (inv_root _ _ _ _ _ Hinv).
  - intros v. simpl. rewrite !dict_get_set.
    destruct (v =? dest); [split; discriminate|]. apply (inv_keys _ _ _ _ _ Hinv).
  - intros v d Hd. simpl in Hd. rewrite dict_get_set in Hd.
    destruct (v =? dest) eqn:E.
    + apply Z.eqb_eq in E. subst v. injection Hd as <-.
      split; [lia|]. split; [now apply (lookup2_key cur dest w)|].
      destruct Hpc as [Hpp [Hwalk [Hnd Hvis]]].
      assert (Hpcv : forall x, In x pc -> In x (Analysis.visited st)).
      { intros x Hx. destruct (Hvis x Hx) as [->|Hx']; assumption. }
      exists (pc ++ [dest]). split; [|split; [|split]].
      * apply pp_step with cur; [apply Hkeep; auto|]. simpl. apply dict_get_set_eq.
      * rewrite Z.add_comm. econstructor; [exact Hwalk|]. now rewrite <- al_weights.
      * apply NoDup_app; [exact Hnd | repeat constructor; simpl; tauto|].
        intros x Hx [<-|[]]. auto.
      * intros x Hx. apply in_app_or in Hx. destruct Hx as [Hx|[<-|[]]]; auto.
    + apply Z.eqb_neq in E.
      destruct (inv_path _ _ _ _ _ Hinv v d Hd) as [H0 [Hk [p [Hpp [Hwalk [Hnd Hvis]]]]]].
      split; [exact H0|]. split; [exact Hk|]. exists p.
      split; [apply Hkeep; auto|]. split; [exact Hwalk|]. split; [exact Hnd|exact Hvis].
  - intros u Hu. apply Hmono. apply (inv_visited _ _ _ _ _ Hinv u Hu).
  - intros u du k x Hu Hdu Hin.
    assert (Hud : u <> dest) by (intros ->; tauto).
    destruct (Hother u Hud) as [Hdist _]. rewrite Hdist in Hdu.
    destruct Hin as [[= <- <-]|Hin].
    + specialize (Hmax u du Hu Hdu). lia.
    + apply (inv_settled _ _ _ _ _ Hinv u du k x); auto.
  - intros k x [[= <- <-]|Hin].
    + exists (w + dc). split; [simpl; apply dict_get_set_eq | lia].
    + destruct (inv_queue _ _ _ _ _ Hinv k x Hin) as [dx [Hdx Hle]].
      destruct (Z.eq_dec x dest) as [->|Hne].
      * exists (w + dc). split; [simpl; apply dict_get_set_eq|].
        destruct Hcase as [C|[dd [C Hlt]]]; [congruence|].
        rewrite Hdx in C. injection C as <-. lia.
      * exists dx. split; [|exact Hle]. destruct (Hother x Hne) as [-> _]. exact Hdx.
  - intros v d Hd Hv. simpl in Hd. rewrite dict_get_set in Hd.
    destruct (v =? dest) eqn:E.
    + apply Z.eqb_eq in E. subst v. injection Hd as <-. now left.
    + right. apply (inv_fringe _ _ _ _ _ Hinv v d Hd Hv).
  - intros u v Hu Hadj. apply Hmono. apply (inv_done _ _ _ _ _ Hinv u v Hu Hadj).
  - split; [|split].
    + destruct (Hother cur) as [-> _]; [congruence | exact Hcur].
    + exact Hcv.
    + intros u du Hu Hdu. assert (Hud : u <> dest) by (intros ->; tauto).
      destruct (Hother u Hud) as [Hdist _]. rewrite Hdist in Hdu. eauto.
Qed.


Lemma pending_degree_absent (l : adjacency) (done : list Z) (cur : Z) :
  ~ In cur (dict_keys l) ->
  pending_degree l (cur :: done) = pending_degree l done.
Proof.
  induction l as [|[k r] l IH]; simpl; [reflexivity|].
  intros H. rewrite IH by tauto.
  destruct (k =? cur) eqn:E; [apply Z.eqb_eq in E; subst; tauto|reflexivity].
Qed.

Lemma pending_degree_visit (l : adjacency) (done : list Z) (cur : Z) (row : dict Z) :
  NoDup (dict_keys l) -> dict_get l cur = Some row -> ~ In cur done ->
  (pending_degree l (cur :: done) + length row = pending_degree l done)%nat.
Proof.
  induction l as [|[k r] l IH]; simpl; [discriminate|].
  intros Hnd Hget Hcur. inversion Hnd as [|? ? Hk Hl]; subst.
  destruct (cur =? k) eqn:E.
  - apply Z.eqb_eq in E. subst k. injection Hget as ->.
    rewrite Z.eqb_refl. simpl. rewrite pending_degree_absent by assumption.
    apply mem_not_In in Hcur. rewrite Hcur. lia.
  - rewrite Z.eqb_sym, E. simpl. specialize (IH Hl Hget Hcur).
    destruct (mem k done); lia.
Qed.

Lemma good_path_visit (st st' : Analysis.dijkstra_state) (p : list Z) (v d : Z) :
  Analysis.pred st' = Analysis.pred st ->
  incl (Analysis.visited st) (Analysis.visited st') ->
  good_path es root st p v d -> good_path es root st' p v d.
Proof.
  intros Hp Hv [H1 [H2 [H3 H4]]]. split; [now rewrite Hp|].
  split; [exact H2|]. split; [exact H3|].
  intros x Hx. destruct (H4 x Hx); auto.
Qed.

Variable M : Z.
Hypothesis M_nonneg : 0 <= M.
Hypothesis bounded : forall u v w, edge_weight es u v = Some w -> w <= M.
Hypothesis sums_exact : Z.of_nat (length al) * M < 2 ^ 53.

(** The weight of a walk is bounded by its number of edges. *)
Lemma walk_bound (p : list Z) (v d : Z) :
  walk es root p v d -> 0 <= d <= (Z.of_nat (length p) - 1) * M.
Proof.
  induction 1 as [|p u d v w Hwalk IH Hw]; [simpl; lia|].
  pose proof (nonneg _ _ _ Hw). pose proof (bounded _ _ _ Hw).
  rewrite length_app. cbn [length]. nia.
Qed.

(** A recorded distance is the weight of a path without repetition, so the
    double that a relaxation computes from it is the exact sum. *)
Lemma dist_bound (done : list Z) (st : Analysis.dijkstra_state) (v d : Z) :
  dijkstra_inv al es root done st ->
  dict_get (Analysis.dist st) v = Some d ->
  0 <= d <= (Z.of_nat (length al) - 1) * M.
Proof.
  intros Hinv Hd.
  destruct (inv_path _ _ _ _ _ Hinv v d Hd) as [H0 [Hk [p [_ [Hwalk [Hnd Hvis]]]]]].
  assert (Hincl : incl p (dict_keys al)).
  { intros x Hx. destruct (Hvis x Hx) as [->|Hx']; [exact Hk|].
    pose proof (inv_visited _ _ _ _ _ Hinv x Hx') as Hdx.
    destruct (dict_get (Analysis.dist st) x) as [dx|] eqn:E; [|congruence].
    now destruct (inv_path _ _ _ _ _ Hinv x dx E) as [_ [Hkx _]]. }
  pose proof (NoDup_incl_length Hnd Hincl) as Hlen.
  unfold dict_keys in Hlen. rewrite length_map in Hlen.
  pose proof (walk_bound p v d Hwalk). nia.
Qed.

Lemma relax_exact (done : list Z) (st : Analysis.dijkstra_state)
    (cur dc dest w : Z) :
  dijkstra_inv al es root done st ->
  dict_get (Analysis.dist st) cur = Some dc ->
  lookup2 al cur dest = Some w ->
  fadd w dc = w + dc.
Proof.
  intros Hinv Hcur Hw. rewrite al_weights in Hw.
  pose proof (nonneg _ _ _ Hw). pose proof (bounded _ _ _ Hw).
  pose proof (dist_bound done st cur dc Hinv Hcur).
  apply fadd_small; nia.
Qed.

Lemma relax_inv (done : list Z) (st : Analysis.dijkstra_state)
    (cur dc dest w : Z) :
  dijkstra_inv al es root done st ->
  relaxing cur dc st ->
  lookup2 al cur dest = Some w ->
  exists st',
    Analysis.relax cur st (dest, w) = Ok st' /\
    dijkstra_inv al es root done st' /\
    relaxing cur dc st' /\
    Analysis.visited st' = Analysis.visited st /\
    (length (Analysis.pq st') <= S (length (Analysis.pq st)))%nat /\
    dict_get (Analysis.dist st') dest <> None /\
    (forall v, dict_get (Analysis.dist st) v <> None ->
               dict_get (Analysis.dist st') v <> None).
Proof.
  intros Hinv Hrel Hw. pose proof Hrel as [Hcur _].
  pose proof (relax_exact done st cur dc dest w Hinv Hcur Hw) as Hex.
  assert (Hupd : forall Hcase : dict_get (Analysis.dist st) dest = None \/
                   (exists dd, dict_get (Analysis.dist st) dest = Some dd /\ w + dc < dd),
            exists st',
              Analysis.relax_update cur dest w st = Ok st' /\
              dijkstra_inv al es root done st' /\
              relaxing cur dc st' /\
              Analysis.visited st' = Analysis.visited st /\
              (length (Analysis.pq st') <= S (length (Analysis.pq st)))%nat /\
              dict_get (Analysis.dist st') dest <> None /\
              (forall v, dict_get (Analysis.dist st) v <> None ->
                         dict_get (Analysis.dist st') v <> None)).
  { intros Hcase.
    destruct (relax_update_inv done st cur dc dest w Hinv Hrel Hw Hcase) as [H1 H2].
    unfold Analysis.relax_update, dict_at. rewrite Hcur. cbn [bind].
    cbv zeta. rewrite Hex.
    eexists. split; [reflexivity|]. split; [exact H1|]. split; [exact H2|].
    cbn [Analysis.visited Analysis.pq Analysis.dist Heap.heappush].
    split; [reflexivity|]. split; [simpl; lia|]. split.
    - rewrite dict_get_set_eq. discriminate.
    - intros v Hv. rewrite dict_get_set. destruct (v =? dest); congruence. }
  unfold Analysis.relax.
  destruct (dict_get (Analysis.dist st) dest) as [dd|] eqn:E.
  - unfold dict_at. rewrite Hcur. cbn [bind]. rewrite Hex.
    destruct (w + dc <? dd) eqn:Elt.
    + apply Z.ltb_lt in Elt. apply Hupd. right. eauto.
    + exists st. split; [reflexivity|]. split; [exact Hinv|].
      split; [exact Hrel|]. split; [reflexivity|]. split; [lia|].
      split; [congruence | auto].
  - apply Hupd. now left.
Qed.

Lemma relax_row (done : list Z) (cur dc : Z) (row : dict Z) :
  (forall d w, In (d, w) row -> lookup2 al cur d = Some w) ->
  forall st,
    dijkstra_inv al es root done st ->
    relaxing cur dc st ->
    exists st',
      for_each (Analysis.relax cur) row st = Ok st' /\
      dijkstra_inv al es root done st' /\
      relaxing cur dc st' /\
      Analysis.visited st' = Analysis.visited st /\
      (length (Analysis.pq st') <= length row + length (Analysis.pq st))%nat /\
      (forall d, In d (dict_keys row) -> dict_get (Analysis.dist st') d <> None) /\
      (forall v, dict_get (Analysis.dist st) v <> None ->
                 dict_get (Analysis.dist st') v <> None).
Proof.
  induction row as [|[d w] row IH]; intros Hrow st Hinv Hrel.
  - exists st. split; [reflexivity|]. split; [exact Hinv|].
    split; [exact Hrel|]. split; [reflexivity|]. split; [simpl; lia|].
    split; [intros d [] | auto].
  - destruct (relax_inv done st cur dc d w Hinv Hrel)
      as [st1 [H1 [Hinv1 [Hrel1 [Hv1 [Hq1 [Hd1 Hm1]]]]]]];
      [apply Hrow; now left|].
    destruct (IH (fun d' w' H => Hrow d' w' (or_intror H)) st1 Hinv1 Hrel1)
      as [st2 [H2 [Hinv2 [Hrel2 [Hv2 [Hq2 [Hd2 Hm2]]]]]]].
    exists st2. cbn [for_each]. rewrite H1. cbn [bind].
    split; [exact H2|]. split; [exact Hinv2|]. split; [exact Hrel2|].
    split; [congruence|]. split; [simpl; lia|]. split.
    + intros d' [<-|Hd']; [apply Hm2; exact Hd1 | auto].
    + auto.
Qed.

(** The main loop terminates within the fuel and keeps the invariant. *)
Lemma dijkstra_loop :
  forall (fuel : nat) (st : Analysis.dijkstra_state),
    dijkstra_inv al es root (Analysis.visited st) st ->
    (length (Analysis.pq st) + pending_degree al (Analysis.visited st)
     <= fuel)%nat ->
    exists st',
      Analysis.dijkstra fuel al st = Ok st' /\
      dijkstra_inv al es root (Analysis.visited st') st' /\
      Analysis.pq st' = [].
Proof.
  induction fuel as [|fuel IH]; intros st Hinv Hfuel;
    pose proof (heappop_spec Heap.leb2 leb2_refl leb2_total leb2_trans
                  (Analysis.pq st)) as Hpop;
    destruct (Heap.heappop Heap.leb2 (Analysis.pq st)) as [[[k cur] pq']|] eqn:Epop.
  - destruct Hpop as [_ [_ Hlen]]. lia.
  - exists st. simpl. rewrite Epop. auto.
  - destruct Hpop as [Hmin [Hmem Hlen]]. cbn [Analysis.dijkstra]. rewrite Epop.
    assert (Hin : In (k, cur) (Analysis.pq st)) by (apply Hmem; now left).
    destruct (mem cur (Analysis.visited st)) eqn:Ev.
    + apply mem_In in Ev. apply IH; cbn [Analysis.visited Analysis.pq]; [|lia].
      destruct Hinv as [A B C D E F G H].
      constructor; cbn [Analysis.visited Analysis.pq Analysis.dist Analysis.pred].
      * exact A.
      * exact B.
      * intros v d Hd. destruct (C v d Hd) as [C1 [C2 [p C3]]].
        split; [exact C1|]. split; [exact C2|]. exists p.
        eapply good_path_visit; [| |exact C3]; [reflexivity|apply incl_refl].
      * exact D.
      * intros u du k' x Hu Hdu Hx. apply (E u du k' x Hu Hdu). apply Hmem. now right.
      * intros k' x Hx. apply F. apply Hmem. now right.
      * intros v d Hd Hv. specialize (G v d Hd Hv). apply Hmem in G.
        destruct G as [[= <- <-]|G]; [tauto | exact G].
      * exact H.
    + apply mem_not_In in Ev.
      destruct (inv_queue _ _ _ _ _ Hinv k cur Hin) as [dc [Hdc Hle]].
      assert (Hk : k = dc).
      { pose proof (inv_fringe _ _ _ _ _ Hinv cur dc Hdc Ev) as Hf.
        apply Hmem in Hf. destruct Hf as [[= ->]|Hf]; [reflexivity|].
        apply Hmin, leb2_fst in Hf. simpl in Hf. lia. }
      subst k.
      destruct (inv_path _ _ _ _ _ Hinv cur dc Hdc) as [_ [Hkey _]].
      apply dict_get_keys in Hkey.
      destruct (dict_get al cur) as [row|] eqn:Erow; [|congruence].
      unfold dict_at. rewrite Erow. cbn [bind].
      set (st1 := {| Analysis.pred := Analysis.pred st;
                     Analysis.dist := Analysis.dist st;
                     Analysis.visited := cur :: Analysis.visited st;
                     Analysis.pq := pq' |}).
      assert (Hinv1 : dijkstra_inv al es root (Analysis.visited st) st1).
      { destruct Hinv as [A B C D E F G H].
        constructor; cbn [Analysis.visited Analysis.pq Analysis.dist Analysis.pred st1].
        - exact A.
        - exact B.
        - intros v d Hd. destruct (C v d Hd) as [C1 [C2 [p C3]]].
          split; [exact C1|]. split; [exact C2|]. exists p.
          eapply good_path_visit; [| |exact C3]; [reflexivity|].
          intros x Hx. now right.
        - intros u [<-|Hu]; [congruence | auto].
        - intros u du k' x [<-|Hu] Hdu Hx.
          + assert (du = dc) by congruence. subst du.
            apply Hmin, leb2_fst in Hx. exact Hx.
          + apply (E u du k' x Hu Hdu). apply Hmem. now right.
        - intros k' x Hx. apply F. apply Hmem. now right.
        - intros v d Hd Hv.
          assert (Hv' : ~ In v (Analysis.visited st)) by (intros Hc; apply Hv; now right).
          specialize (G v d Hd Hv'). apply Hmem in G.
          destruct G as [[= <- <-]|G]; [exfalso; apply Hv; now left | exact G].
        - exact H. }
      assert (Hrel1 : relaxing cur dc st1).
      { split; [exact Hdc|]. split; [now left|].
        intros u du [<-|Hu] Hdu; [simpl in Hdu; assert (du = dc) by congruence; lia|].
        apply (inv_settled _ _ _ _ _ Hinv u du dc cur Hu Hdu Hin). }
      destruct al_closed as [Hnd Hrows]. destruct (Hrows _ _ Erow) as [Hrnd _].
      destruct (relax_row (Analysis.visited st) cur dc row) with (st := st1)
        as [st2 [H2 [Hinv2 [Hrel2 [Hv2 [Hq2 [Hd2 Hm2]]]]]]]; auto.
      { intros d w Hdw. unfold lookup2. rewrite Erow. now apply In_dict_get. }
      rewrite H2. cbn [bind]. apply IH.
      * rewrite Hv2. destruct Hinv2 as [A B C D E F G H].
        constructor; try assumption.
        intros u v [<-|Hu] Hadj; [|eauto].
        apply Hd2. now apply (al_adj_keys al cur v row).
      * rewrite Hv2. simpl.
        pose proof (pending_degree_visit al (Analysis.visited st) cur row Hnd Erow Ev).
        simpl in Hq2. lia.
  - exists st. simpl. rewrite Epop. auto.
Qed.
End DijkstraInvariant.


Lemma pending_degree_nil (l : adjacency) :
  pending_degree l [] = Analysis.degree_sum l.
Proof.
  induction l as [|[k r] l IH]; simpl; [reflexivity|]. now rewrite IH.
Qed.

Lemma pred_path_keys (pred : dict (option Z)) (p : list Z) (v : Z) :
  pred_path pred p v -> incl p (dict_keys pred).
Proof.
  induction 1 as [r Hr|p u v Hp IH Hv].
  - intros x [<-|[]]. eapply dict_get_Some_keys; eauto.
  - intros x Hx. apply in_app_or in Hx. destruct Hx as [Hx|[<-|[]]]; [auto|].
    eapply dict_get_Some_keys; eauto.
Qed.

Lemma backtrace_pred_path (pred : dict (option Z)) (p : list Z) (v : Z) :
  pred_path pred p v ->
  forall (fuel : nat) (acc : list Z),
    (length p <= fuel)%nat ->
    Analysis.backtrace fuel pred (Some v) acc = Ok (p ++ acc).
Proof.
  induction 1 as [r Hr|p u v Hp IH Hv]; intros fuel acc Hfuel.
  - destruct fuel as [|fuel]; [simpl in Hfuel; lia|].
    simpl. unfold dict_at. rewrite Hr. cbn [bind]. destruct fuel; reflexivity.
  - rewrite length_app in Hfuel. simpl in Hfuel.
    destruct fuel as [|fuel]; [lia|].
    simpl. unfold dict_at. rewrite Hv. cbn [bind].
    rewrite IH by lia. now rewrite <- app_assoc.
Qed.

Lemma path_weight_snoc (es : list edge) (p : list Z) (u v d w : Z) :
  p <> [] -> last p u = u ->
  path_weight es p = Some d -> edge_weight es u v = Some w ->
  path_weight es (p ++ [v]) = Some (d + w).
Proof.
  revert d. induction p as [|x [|y p] IH]; intros d Hne Hlast Hpw Hw.
  - congruence.
  - simpl in *. subst x. injection Hpw as <-. rewrite Hw. f_equal. lia.
  - change (path_weight es (x :: y :: p)) with
      (match edge_weight es x y, path_weight es (y :: p) with
       | Some w, Some d => Some (w + d) | _, _ => None end) in Hpw.
    change (path_weight es ((x :: y :: p) ++ [v])) with
      (match edge_weight es x y, path_weight es ((y :: p) ++ [v]) with
       | Some w, Some d => Some (w + d) | _, _ => None end).
    destruct (edge_weight es x y) as [w1|]; [|discriminate].
    destruct (path_weight es (y :: p)) as [d1|] eqn:E; [|discriminate].
    injection Hpw as <-.
    rewrite (IH d1); [f_equal; lia | discriminate | exact Hlast | reflexivity | exact Hw].
Qed.

Lemma path_weight_chain (es : list edge) (p : list Z) (d : Z) :
  path_weight es p = Some d -> chain (adjacent es) p.
Proof.
  revert d. induction p as [|x [|y p] IH]; intros d H; try exact I.
  change (path_weight es (x :: y :: p)) with
    (match edge_weight es x y, path_weight es (y :: p) with
     | Some w, Some d => Some (w + d) | _, _ => None end) in H.
  destruct (edge_weight es x y) as [w1|] eqn:E; [|discriminate].
  destruct (path_weight es (y :: p)) as [d1|] eqn:E1; [|discriminate].
  split; [apply edge_weight_adjacent; congruence | eapply IH; reflexivity].
Qed.

(** A walk starts at the root, ends at its target, steps along edges and
    accumulates their weights. *)
Lemma walk_spec (es : list edge) (r : Z) (p : list Z) (v d : Z) :
  walk es r p v d ->
  hd_error p = Some r /\ last p r = v /\
  chain (adjacent es) p /\ path_weight es p = Some d.
Proof.
  intros H.
  assert (H' : p <> [] /\ hd_error p = Some r /\ (forall x, last p x = v) /\
               path_weight es p = Some d).
  { induction H as [|p u d v w Hw IH He].
    - repeat split; auto. discriminate.
    - destruct IH as [Hne [Hhd [Hlast Hpw]]]. split; [|split; [|split]].
      + destruct p; discriminate.
      + destruct p; [congruence | exact Hhd].
      + intros x. apply last_last.
      + apply path_weight_snoc with u; auto. }
  destruct H' as [_ [H1 [H2 H3]]]. repeat split; auto.
  eapply path_weight_chain; eauto.
Qed.

Lemma walk_reach (es : list edge) (r : Z) (p : list Z) (v d : Z) :
  walk es r p v d -> reach (adjacent es) r v.
Proof.
  induction 1 as [|p u d v w Hw IH He]; [constructor|].
  apply reach_step with u; [exact IH|]. apply edge_weight_adjacent. congruence.
Qed.

Section DijkstraResult.
Variable al : adjacency.
Variable es : list edge.
Variable root : Z.
Hypothesis al_closed : closed_AL al.
Hypothesis al_weights : forall u v, lookup2 al u v = edge_weight es u v.
Hypothesis nonneg : forall u v w, edge_weight es u v = Some w -> 0 <= w.
Variable M : Z.
Hypothesis M_nonneg : 0 <= M.
Hypothesis bounded : forall u v w, edge_weight es u v = Some w -> w <= M.
Hypothesis sums_exact : Z.of_nat (length al) * M < 2 ^ 53.
Hypothesis root_key : In root (dict_keys al).

Lemma dijkstra_initial :
  dijkstra_inv al es root []
    {| Analysis.pred := [(root, None)]; Analysis.dist := [(root, 0)];
       Analysis.visited := []; Analysis.pq := [(0, root)] |}.
Proof.
  constructor; cbn [Analysis.pred Analysis.dist Analysis.visited Analysis.pq].
  - simpl. now rewrite Z.eqb_refl.
  - intros v. simpl. destruct (v =? root); split; congruence.
  - intros v d. simpl. destruct (v =? root) eqn:E; [|discriminate].
    apply Z.eqb_eq in E. subst v. intros [= <-].
    split; [lia|]. split; [exact root_key|]. exists [root].
    split; [|split; [|split]].
    + constructor. simpl. now rewrite Z.eqb_refl.
    + constructor.
    + repeat constructor. simpl. tauto.
    + intros x [<-|[]]. now left.
  - intros u [].
  - intros u du k x [].
  - intros k x [[= <- <-]|[]]. exists 0. simpl. rewrite Z.eqb_refl. split; [reflexivity|lia].
  - intros v d. simpl. destruct (v =? root) eqn:E; [|discriminate].
    apply Z.eqb_eq in E. subst v. intros [= <-] _. now left.
  - intros u v [].
Qed.

(** Dijkstra's loop runs to completion; afterwards the root has distance 0,
    [dist] and [pred] have the same keys, which are the vertices reachable
    from the root, and the predecessor chain of each of them is a walk from
    the root of total weight its distance. *)
Lemma dijkstra_run :
  exists st,
    Analysis.dijkstra (Analysis.dijkstra_fuel al) al
      {| Analysis.pred := [(root, None)]; Analysis.dist := [(root, 0)];
         Analysis.visited := []; Analysis.pq := [(0, root)] |} = Ok st /\
    dict_get (Analysis.dist st) root = Some 0 /\
    (forall v, dict_get (Analysis.pred st) v = None <->
               dict_get (Analysis.dist st) v = None) /\
    (forall v d, dict_get (Analysis.dist st) v = Some d ->
       exists p,
         Analysis.backtrace (S (length (Analysis.pred st))) (Analysis.pred st)
           (Some v) [] = Ok p /\
         walk es root p v d) /\
    (forall v, dict_get (Analysis.dist st) v <> None <->
               reach (adjacent es) root v).
Proof.
  destruct (dijkstra_loop al es root al_closed al_weights nonneg
              M M_nonneg bounded sums_exact
              (Analysis.dijkstra_fuel al)
              {| Analysis.pred := [(root, None)]; Analysis.dist := [(root, 0)];
                 Analysis.visited := []; Analysis.pq := [(0, root)] |}
              dijkstra_initial)
    as [st [Hrun [Hinv Hpq]]].
  { cbn [Analysis.pq Analysis.visited]. rewrite pending_degree_nil.
    unfold Analysis.dijkstra_fuel. simpl. lia. }
  exists st. split; [exact Hrun|]. destruct Hinv as [A B C D E F G H].
  split; [exact A|]. split; [exact B|].
  assert (Hvis : forall v, dict_get (Analysis.dist st) v <> None ->
                           In v (Analysis.visited st)).
  { intros v Hv. destruct (dict_get (Analysis.dist st) v) as [d|] eqn:Ed; [|congruence].
    destruct (in_dec Z.eq_dec v (Analysis.visited st)) as [Hin|Hout]; [exact Hin|].
    specialize (G v d Ed Hout). rewrite Hpq in G. destruct G. }
  split.
  - intros v d Hd. destruct (C v d Hd) as [_ [_ [p [Hpp [Hw [Hnd _]]]]]].
    exists p. split; [|exact Hw].
    pose proof (NoDup_incl_length Hnd (pred_path_keys _ _ _ Hpp)) as Hlen.
    unfold dict_keys in Hlen. rewrite length_map in Hlen.
    rewrite (backtrace_pred_path _ _ _ Hpp) by lia. now rewrite app_nil_r.
  - intros v. split.
    + intros Hv. destruct (dict_get (Analysis.dist st) v) as [d|] eqn:Ed; [|congruence].
      destruct (C v d Ed) as [_ [_ [p [_ [Hw _]]]]]. eapply walk_reach; eauto.
    + induction 1 as [|u v Hr IH Hadj]; [congruence|].
      apply (H u v); [now apply Hvis|].
      unfold al_adj. rewrite al_weights. now apply edge_weight_adjacent.
Qed.
End DijkstraResult.


Lemma fill_loop {V : Type} (body : dict V -> Z -> result (dict V))
    (f : Z -> V) (vs : list Z) :
  (forall sp v, In v vs -> body sp v = Ok (dict_set sp v (f v))) ->
  forall sp0, exists sp,
    for_each body vs sp0 = Ok sp /\
    (forall v, In v vs -> dict_get sp v = Some (f v)) /\
    (forall v, ~ In v vs -> dict_get sp v = dict_get sp0 v).
Proof.
  induction vs as [|v vs IH]; intros Hbody sp0.
  - exists sp0. split; [reflexivity|]. split; [intros v [] | reflexivity].
  - destruct (IH (fun sp v' H => Hbody sp v' (or_intror H)) (dict_set sp0 v (f v)))
      as [sp [H1 [H2 H3]]].
    exists sp. cbn [for_each]. rewrite Hbody by now left. cbn [bind].
    split; [exact H1|]. split.
    + intros v' [<-|Hv']; [|auto].
      destruct (in_dec Z.eq_dec v vs) as [Hin|Hout]; [auto|].
      rewrite H3 by assumption. apply dict_get_set_eq.
    + intros v' Hv'. rewrite H3 by (intros C; apply Hv'; now right).
      apply dict_get_set_neq. intros ->. apply Hv'. now left.
Qed.

Lemma collect_distance_loop (dist : dict Z) (vs : list Z) :
  NoDup vs ->
  forall sp0,
    (forall v, In v vs -> dict_get sp0 v <> None) ->
    exists sp,
      for_each (Analysis.collect_distance dist) vs sp0 = Ok sp /\
      (forall v e, In v vs -> dict_get sp0 v = Some e ->
         dict_get sp v = Some (match dict_get dist v with
                               | Some d => Entry d e
                               | None => Entry (-1) PyNone
                               end)) /\
      (forall v, ~ In v vs -> dict_get sp v = dict_get sp0 v).
Proof.
  induction 1 as [|v vs Hv Hnd IH]; intros sp0 Hsp0.
  - exists sp0. split; [reflexivity|]. split; [intros v e [] | reflexivity].
  - destruct (dict_get sp0 v) as [e|] eqn:Ee;
      [|exfalso; apply (Hsp0 v); [now left | exact Ee]].
    set (new := match dict_get dist v with
                | Some d => Entry d e
                | None => Entry (-1) PyNone
                end).
    assert (Hstep : Analysis.collect_distance dist sp0 v = Ok (dict_set sp0 v new)).
    { unfold Analysis.collect_distance, new, dict_at.
      destruct (dict_get dist v); [rewrite Ee|]; reflexivity. }
    destruct (IH (dict_set sp0 v new)) as [sp [H1 [H2 H3]]].
    { intros v' Hv'. rewrite dict_get_set. destruct (v' =? v); [discriminate|].
      apply Hsp0. now right. }
    exists sp. cbn [for_each]. rewrite Hstep. cbn [bind].
    split; [exact H1|]. split.
    + intros v' e' [<-|Hv'] He'.
      * rewrite H3 by assumption. rewrite dict_get_set_eq.
        assert (e' = e) by congruence. now subst e'.
      * apply H2; [exact Hv'|]. rewrite dict_get_set_neq; [exact He'|].
        intros ->. tauto.
    + intros v' Hv'. rewrite H3 by (intros C; apply Hv'; now right).
      apply dict_get_set_neq. intros ->. apply Hv'. now left.
Qed.

(** Integer weights between 0 and [M] on a description whose vertex count
    times [M] is below 2^53 are doubles, and so is every sum of weights
    along a path without repetition. *)
Lemma bounded_weights (g : graph_data) (M : Z) :
  (forall a b w, In (a, b, w) (edges g) -> 0 <= w <= M) ->
  Z.of_nat (length (vertices g)) * M < 2 ^ 53 ->
  vertices g <> [] ->
  exact_weights g /\
  (forall u v w, edge_weight (edges g) u v = Some w -> 0 <= w) /\
  (forall u v w, edge_weight (edges g) u v = Some w -> w <= Z.max 0 M) /\
  Z.of_nat (length (vertices g)) * Z.max 0 M < 2 ^ 53.
Proof.
  intros Hw Hsmall Hne.
  assert (Hlen : 1 <= Z.of_nat (length (vertices g))).
  { destruct (vertices g); [congruence | cbn [length]; lia]. }
  assert (Hin : forall u v w, edge_weight (edges g) u v = Some w -> 0 <= w <= M).
  { intros u v w H. apply edge_weight_In in H. destruct H as [a [b [H _]]]. eauto. }
  split; [|split; [|split]].
  - apply small_exact. intros a b w H. specialize (Hw a b w H). nia.
  - intros u v w H. now apply Hin in H.
  - intros u v w H. apply Hin in H. lia.
  - destruct (Z.max_spec 0 M) as [[_ ->]|[_ ->]]; [exact Hsmall | lia].
Qed.

(** The outcome of [shortest_paths] on such a description. *)
Lemma shortest_paths_walks_bounded (frames : nat) (g : graph_data) (root M : Z) :
  well_formed g ->
  (forall a b w, In (a, b, w) (edges g) -> 0 <= w <= M) ->
  Z.of_nat (length (vertices g)) * M < 2 ^ 53 ->
  In root (vertices g) ->
  exists paths : dict path_entry,
    Analysis.analyze_graph frames "shortest_paths" (Some root) g
    = Ok {| type := "shortest_paths"; data := DPaths root paths |} /\
    (exists p, dict_get paths root = Some (Entry 0 (Path p))) /\
    forall v, In v (vertices g) ->
      (reachable g root v /\
       exists d p,
         dict_get paths v = Some (Entry d (Path p)) /\
         hd_error p = Some root /\ last p root = v /\
         chain (adjacent (edges g)) p /\
         path_weight (edges g) p = Some d) \/
      (~ reachable g root v /\
       dict_get paths v = Some (Entry (-1) PyNone)).
Proof.
  intros Hwf Hw Hsmall Hroot.
  destruct (bounded_weights g M Hw Hsmall) as [Hex [Hnn' [Hle Hsmall']]].
  { intros E. rewrite E in Hroot. destruct Hroot. }
  destruct (build_AL_spec g Hwf Hex) as [al [Hal [Hcl [Hk [Hsize Hl]]]]].
  rewrite <- Hsize in Hsmall'.
  destruct (dijkstra_run al (edges g) root Hcl Hl Hnn' (Z.max 0 M)
              (Z.le_max_l 0 M) Hle Hsmall')
    as [st [Hrun [H0 [Hkeys [Hpath Hreach]]]]];
    [now apply Hk|].
  set (bt := fun v => Analysis.backtrace (S (length (Analysis.pred st)))
                        (Analysis.pred st) (Some v) []).
  set (f := fun v => if dict_mem (Analysis.pred st) v
                     then match bt v with Ok p => Path p | _ => Path [] end
                     else Path []).
  assert (Hf : forall v d, dict_get (Analysis.dist st) v = Some d ->
                 exists p, f v = Path p /\ walk (edges g) root p v d).
  { intros v d Hd. destruct (Hpath v d Hd) as [p [Hp Hwk]]. exists p.
    split; [|exact Hwk]. unfold f, dict_mem, bt.
    destruct (dict_get (Analysis.pred st) v) eqn:E.
    - now rewrite Hp.
    - apply Hkeys in E. congruence. }
  destruct (fill_loop (Analysis.collect_path (Analysis.pred st)) f (vertices g))
    with (sp0 := @nil (Z * path_entry)) as [sp [Hsp [Hspv _]]].
  { intros sp0 v Hv. unfold Analysis.collect_path, f.
    destruct (dict_mem (Analysis.pred st) v) eqn:E; [|reflexivity].
    unfold dict_mem in E.
    destruct (dict_get (Analysis.dist st) v) as [d|] eqn:Ed.
    - destruct (Hpath v d Ed) as [p [Hp _]]. unfold bt. now rewrite Hp.
    - apply Hkeys in Ed. rewrite Ed in E. discriminate. }
  destruct Hwf as [Hnd Hedges].
  destruct (collect_distance_loop (Analysis.dist st) (vertices g) Hnd sp)
    as [sp' [Hsp' [Hsp'v _]]].
  { intros v Hv. rewrite Hspv by assumption. discriminate. }
  exists sp'. split; [|split].
  - rewrite analyze_shortest_paths, Hal. cbn [bind].
    unfold Analysis.shortest_paths. rewrite Hrun. cbn [bind].
    rewrite Hsp. cbn [bind]. rewrite Hsp'. reflexivity.
  - destruct (Hf root 0 H0) as [p [Hp _]]. exists p.
    rewrite (Hsp'v root (f root) Hroot (Hspv root Hroot)), H0, Hp. reflexivity.
  - intros v Hv. rewrite (Hsp'v v (f v) Hv (Hspv v Hv)).
    destruct (dict_get (Analysis.dist st) v) as [d|] eqn:Ed.
    + left. split; [apply Hreach; congruence|].
      destruct (Hf v d Ed) as [p [Hp Hwk]]. exists d, p. rewrite Hp.
      split; [reflexivity|]. now apply walk_spec.
    + right. split; [|reflexivity]. intros Hr. apply Hreach in Hr. congruence.
Qed.

(** C1.  On a well-formed description with integer weights between 0 and
    [M], where the number of vertices times [M] is below 2^53, and with a
    declared root, [shortest_paths] returns a result in which the root has
    distance 0; every declared vertex reachable from the root is reported
    with a distance and a path that starts at the root, ends at the vertex,
    steps along edges of the graph and has the distance as accumulated
    weight; every declared vertex not reachable from the root is reported as
    [[-1, None]]. *)
Theorem shortest_paths_walks :
  forall (frames : nat) (g : graph_data) (root M : Z),
    well_formed g ->
    (forall a b w, In (a, b, w) (edges g) -> 0 <= w <= M) ->
    Z.of_nat (length (vertices g)) * M < 2 ^ 53 ->
    In root (vertices g) ->
    exists paths : dict path_entry,
      Analysis.analyze_graph frames "shortest_paths" (Some root) g
      = Ok {| type := "shortest_paths"; data := DPaths root paths |} /\
      (exists p, dict_get paths root = Some (Entry 0 (Path p))) /\
      forall v, In v (vertices g) ->
        (reachable g root v /\
         exists d p,
           dict_get paths v = Some (Entry d (Path p)) /\
           hd_error p = Some root /\ last p root = v /\
           chain (adjacent (edges g)) p /\
           path_weight (edges g) p = Some d) \/
        (~ reachable g root v /\
         dict_get paths v = Some (Entry (-1) PyNone)).
Proof.
  intros frames g root M. apply shortest_paths_walks_bounded.
Qed.

Lemma shortest_paths_walks_witness :
  exists paths : dict path_entry,
    Analysis.analyze_graph 1000 "shortest_paths" (Some 0)
      {| vertices := [0; 1; 2]; edges := [(0, 1, 1); (1, 2, 2); (0, 2, 10)] |}
    = Ok {| type := "shortest_paths"; data := DPaths 0 paths |} /\
    (exists p, dict_get paths 0 = Some (Entry 0 (Path p))) /\
    forall v, In v [0; 1; 2] ->
      (reachable {| vertices := [0; 1; 2];
                    edges := [(0, 1, 1); (1, 2, 2); (0, 2, 10)] |} 0 v /\
       exists d p,
         dict_get paths v = Some (Entry d (Path p)) /\
         hd_error p = Some 0 /\ last p 0 = v /\
         chain (adjacent [(0, 1, 1); (1, 2, 2); (0, 2, 10)]) p /\
         path_weight [(0, 1, 1); (1, 2, 2); (0, 2, 10)] p = Some d) \/
      (~ reachable {| vertices := [0; 1; 2];
                      edges := [(0, 1, 1); (1, 2, 2); (0, 2, 10)] |} 0 v /\
       dict_get paths v = Some (Entry (-1) PyNone)).
Proof.
  apply (shortest_paths_walks 1000%nat
           {| vertices := [0; 1; 2]; edges := [(0, 1, 1); (1, 2, 2); (0, 2, 10)] |}
           0 10).
  - split.
    + simpl. repeat constructor; simpl; intuition lia.
    + simpl. intros a b w H.
      repeat (destruct H as [H|H]; [injection H as <- <- <-; intuition|]).
      destruct H.
  - simpl. intros a b w H.
    repeat (destruct H as [H|H]; [injection H as <- <- <-; lia|]).
    destruct H.
  - simpl. lia.
  - simpl. auto.
Defined.

(** C1 as stated fails.  On vertices 0, 1, 2 with the edges (0, 1, 2^53)
    and (1, 2, 3) and root 0, a well-formed description with non-negative
    weights, vertex 2 is reported reachable by the path 0, 1, 2 at distance
    2^53 + 4, while the accumulated weight of that path is 2^53 + 3: the
    double sum of 2^53 and 3 is rounded.  On vertices 0, 1 with the edge
    (0, 1, 2^1024) no result is returned: the conversion of the weight
    raises [OverflowError]. *)
Lemma shortest_paths_rounded_distance :
  (well_formed {| vertices := [0; 1; 2];
                  edges := [(0, 1, 2 ^ 53); (1, 2, 3)] |} /\
   0 <= 2 ^ 53 /\ 0 <= 3 /\
   exists paths : dict path_entry,
     Analysis.analyze_graph 1000 "shortest_paths" (Some 0)
       {| vertices := [0; 1; 2]; edges := [(0, 1, 2 ^ 53); (1, 2, 3)] |}
     = Ok {| type := "shortest_paths"; data := DPaths 0 paths |} /\
     dict_get paths 2 = Some (Entry (2 ^ 53 + 4) (Path [0; 1; 2])) /\
     path_weight [(0, 1, 2 ^ 53); (1, 2, 3)] [0; 1; 2] = Some (2 ^ 53 + 3)) /\
  (well_formed {| vertices := [0; 1]; edges := [(0, 1, 2 ^ 1024)] |} /\
   0 <= 2 ^ 1024 /\
   Analysis.analyze_graph 1000 "shortest_paths" (Some 0)
     {| vertices := [0; 1]; edges := [(0, 1, 2 ^ 1024)] |}
   = Raise OverflowError).
Proof.
  split.
  - split; [|split; [|split]].
    + split.
      * simpl. repeat constructor; simpl; intuition lia.
      * simpl. intros a b w H.
        repeat (destruct H as [H|H]; [injection H as <- <- <-; intuition|]).
        destruct H.
    + apply Z.pow_nonneg. lia.
    + lia.
    + eexists. split; [vm_compute; reflexivity|]. split; vm_compute; reflexivity.
  - split; [|split].
    + split.
      * simpl. repeat constructor; simpl; intuition lia.
      * simpl. intros a b w [H|[]]. injection H as <- <- <-. intuition.
    + apply Z.pow_nonneg. lia.
    + vm_compute. reflexivity.
Qed.


(** ** Walks, routes and spanning trees *)

Lemma reach_trans (adj : Z -> Z -> Prop) (a b c : Z) :
  reach adj a b -> reach adj b c -> reach adj a c.
Proof.
  intros Hab Hbc. induction Hbc; [exact Hab | econstructor; eauto].
Qed.

Lemma reach_one (adj : Z -> Z -> Prop) (a b : Z) : adj a b -> reach adj a b.
Proof. intros H. apply reach_step with a; [constructor | exact H]. Qed.

Lemma reach_sym (adj : Z -> Z -> Prop) (a b : Z) :
  (forall x y, adj x y -> adj y x) -> reach adj a b -> reach adj b a.
Proof.
  intros Hs H. induction H as [|u v H IH Huv]; [constructor|].
  apply reach_trans with u; [|exact IH]. apply reach_one. auto.
Qed.

Lemma route_reach (adj : Z -> Z -> Prop) (u : Z) (l : list Z) (v : Z) :
  route adj u l v -> reach adj u v.
Proof.
  induction 1 as [u|u x l v Hux _ IH]; [constructor|].
  apply reach_trans with x; [apply reach_one; exact Hux | exact IH].
Qed.

Lemma route_snoc (adj : Z -> Z -> Prop) (u : Z) (l : list Z) (v w : Z) :
  route adj u l v -> adj v w -> route adj u (l ++ [w]) w.
Proof.
  induction 1 as [u|u x l v Hux _ IH]; intros Hvw; simpl.
  - constructor; [exact Hvw | constructor].
  - constructor; [exact Hux | apply IH; exact Hvw].
Qed.

Lemma route_split (adj : Z -> Z -> Prop) (l1 : list Z) :
  forall u x l2 v,
    route adj u (l1 ++ x :: l2) v ->
    route adj u (l1 ++ [x]) x /\ route adj x l2 v.
Proof.
  induction l1 as [|a l1 IH]; intros u x l2 v H; simpl in *.
  - inversion H; subst. split; [constructor; [assumption | constructor] | assumption].
  - inversion H; subst. destruct (IH _ _ _ _ H5) as [H1 H2].
    split; [constructor; assumption | assumption].
Qed.

Lemma route_impl (adj1 adj2 : Z -> Z -> Prop) (u : Z) (l : list Z) (v : Z) :
  (forall a b, (a = u \/ In a l) -> In b l -> adj1 a b -> adj2 a b) ->
  route adj1 u l v -> route adj2 u l v.
Proof.
  intros H R. induction R as [u|u x l v Hux R IH]; [constructor|].
  constructor.
  - apply H; [now left | now left | exact Hux].
  - apply IH. intros a b Ha Hb. apply H; [right|right; exact Hb].
    destruct Ha as [->|Ha]; [now left | now right].
Qed.

(** Between reachable vertices there is a route without repeated vertex. *)
Lemma reach_simple_route (adj : Z -> Z -> Prop) (u v : Z) :
  reach adj u v -> exists l, route adj u l v /\ NoDup (u :: l).
Proof.
  induction 1 as [|w v Hr [l [Hl Hnd]] Hwv].
  - exists []. split; [constructor | repeat constructor; simpl; tauto].
  - destruct (Z.eq_dec v u) as [->|Hvu].
    + exists []. split; [constructor | repeat constructor; simpl; tauto].
    + destruct (in_dec Z.eq_dec v l) as [Hin|Hout].
      * apply in_split in Hin. destruct Hin as [l1 [l2 ->]].
        exists (l1 ++ [v]). split; [apply (route_split adj l1 u v l2 w Hl)|].
        replace (u :: l1 ++ v :: l2) with ((u :: l1 ++ [v]) ++ l2) in Hnd
          by (simpl; now rewrite <- app_assoc).
        now apply NoDup_app_remove_r in Hnd.
      * exists (l ++ [v]). split; [eapply route_snoc; eauto|].
        change (u :: l ++ [v]) with ((u :: l) ++ [v]).
        apply NoDup_app; [exact Hnd | repeat constructor; simpl; tauto|].
        intros x Hx [<-|[]]. destruct Hx as [->|Hx]; [congruence | tauto].
Qed.

(** A route that leaves the vertex set [S] crosses its boundary: up to the
    crossing it stays in [S]. *)
Lemma route_first_crossing (adj : Z -> Z -> Prop) (S : list Z)
    (u : Z) (l : list Z) (v : Z) :
  route adj u l v -> In u S -> ~ In v S ->
  exists l1 x y l2,
    l = l1 ++ y :: l2 /\
    route adj u l1 x /\ (forall a, a = u \/ In a l1 -> In a S) /\
    adj x y /\ In x S /\ ~ In y S /\ route adj y l2 v.
Proof.
  induction 1 as [u|u x l v Hux R IH]; intros Hu Hv; [tauto|].
  destruct (in_dec Z.eq_dec x S) as [Hx|Hx].
  - destruct (IH Hx Hv) as [l1 [a [b [l2 [-> [R1 [HS [Hab [Ha [Hb R2]]]]]]]]]].
    exists (x :: l1), a, b, l2. split; [reflexivity|].
    split; [constructor; assumption|]. split.
    + intros c [->|[->|Hc]]; auto.
    + auto.
  - exists [], u, x, l. split; [reflexivity|]. split; [constructor|]. split.
    + intros a [->|[]]. exact Hu.
    + auto.
Qed.

Lemma joins_ends (e : edge) (u v : Z) :
  joins e u v = true <-> endpoints e = (Z.min u v, Z.max u v).
Proof.
  destruct e as [[a b] w]. simpl.
  rewrite orb_true_iff, !andb_true_iff, !Z.eqb_eq. split.
  - intros [[-> ->]|[-> ->]]; [reflexivity|]. f_equal; lia.
  - intros [= H1 H2]. lia.
Qed.

Lemma joins_same (e : edge) (a b x y : Z) :
  joins e a b = true -> joins e x y = true ->
  (a = x /\ b = y) \/ (a = y /\ b = x).
Proof.
  destruct e as [[p q] w]. simpl.
  rewrite !orb_true_iff, !andb_true_iff, !Z.eqb_eq. lia.
Qed.

Lemma In_remove_edge (x y : Z) (T : list edge) (e : edge) :
  In e (remove_edge x y T) <-> In e T /\ joins e x y = false.
Proof.
  unfold remove_edge. rewrite filter_In, negb_true_iff. reflexivity.
Qed.

Lemma adjacent_dec (T : list edge) (u v : Z) :
  {adjacent T u v} + {~ adjacent T u v}.
Proof.
  destruct (existsb (fun e => joins e u v) T) eqn:E.
  - left. apply existsb_exists in E. exact E.
  - right. intros [e [Hin Hj]].
    assert (existsb (fun e => joins e u v) T = true)
      by (apply existsb_exists; eauto).
    congruence.
Qed.


Lemma route_end (adj : Z -> Z -> Prop) (u : Z) (l : list Z) (v : Z) :
  route adj u l v -> v = u \/ In v l.
Proof.
  induction 1 as [u|u x l v _ _ IH]; [now left|].
  right. destruct IH as [->|IH]; [now left | now right].
Qed.

Lemma reach_lift (adj1 adj2 : Z -> Z -> Prop) (a b : Z) :
  (forall x y, adj1 x y -> reach adj2 x y) -> reach adj1 a b -> reach adj2 a b.
Proof.
  intros H. induction 1 as [|u v _ IH Huv]; [constructor|].
  apply reach_trans with u; [exact IH | auto].
Qed.

Lemma filter_keeps_distinct {X Y : Type} (key : X -> Y) (keep : X -> bool)
    (xs : list X) (Hnd : NoDup (map key xs)) :
  NoDup (map key (filter keep xs)).
Proof.
  induction xs as [|x xs IH]; simpl in *; [exact Hnd|].
  inversion Hnd as [|? ? Hx Hl]; subst.
  destruct (keep x); simpl; [|auto]. constructor; [|auto].
  intros C. apply Hx. apply in_map_iff in C. destruct C as [y [Hy Hin]].
  apply filter_In in Hin. apply in_map_iff. exists y. tauto.
Qed.

Lemma filter_all {A : Type} (p : A -> bool) (l : list A) :
  (forall x, In x l -> p x = true) -> filter p l = l.
Proof.
  induction l as [|x l IH]; simpl; [auto|]. intros H.
  rewrite (H x) by now left. f_equal. apply IH. auto.
Qed.

Lemma NoDup_app_apart {A : Type} (l1 l2 : list A) :
  NoDup (l1 ++ l2) -> forall a, In a l1 -> ~ In a l2.
Proof.
  induction l1 as [|x l1 IH]; simpl; [tauto|].
  intros H a [->|Ha] Ha2; inversion H as [|? ? Hx Hl]; subst.
  - apply Hx. apply in_or_app. now right.
  - exact (IH Hl a Ha Ha2).
Qed.

Lemma remove_edge_size (x y : Z) (T : list edge) (f : edge) :
  NoDup (map endpoints T) -> In f T -> joins f x y = true ->
  S (length (remove_edge x y T)) = length T /\
  total_weight (remove_edge x y T) + snd f = total_weight T.
Proof.
  induction T as [|e T IH]; intros Hnd Hin Hj; [destruct Hin|].
  simpl in Hnd. inversion Hnd as [|? ? He HT]; subst.
  unfold remove_edge. simpl. destruct (joins e x y) eqn:E; simpl.
  - assert (Hrest : forall e', In e' T -> negb (joins e' x y) = true).
    { intros e' He'. apply negb_true_iff.
      destruct (joins e' x y) eqn:E'; [|reflexivity].
      exfalso. apply He. apply joins_ends in E, E'. rewrite E, <- E'.
      now apply in_map. }
    rewrite (filter_all _ T Hrest).
    destruct Hin as [->|Hin].
    + split; [reflexivity | lia].
    + apply Hrest in Hin. rewrite Hj in Hin. discriminate.
  - destruct Hin as [->|Hin]; [congruence|].
    destruct (IH HT Hin Hj) as [H1 H2]. unfold remove_edge in H1, H2.
    split; [now rewrite H1 | lia].
Qed.

(** Exchange: a spanning edge set that misses the edge [(u, v)] leaving the
    vertex set [S] contains another edge leaving [S]; swapping the two keeps
    the set spanning, of the same size, and keeps its edges inside [S]. *)
Lemma exchange (T : list edge) (vs S : list Z) (u v w : Z) :
  NoDup (map endpoints T) -> spans T vs ->
  In u vs -> In v vs -> In u S -> ~ In v S -> ~ adjacent T u v ->
  exists x y fw,
    In x S /\ ~ In y S /\ (In (x, y, fw) T \/ In (y, x, fw) T) /\
    let T2 := (u, v, w) :: remove_edge x y T in
    NoDup (map endpoints T2) /\ spans T2 vs /\ length T2 = length T /\
    total_weight T2 = total_weight T - fw + w /\
    (forall a b, In a S -> In b S -> adjacent T a b -> adjacent T2 a b).
Proof.
  intros Hnd Hsp Huvs Hvvs HuS HvS Hnadj.
  destruct (reach_simple_route _ u v (Hsp u v Huvs Hvvs)) as [l [Hl Hsimple]].
  destruct (route_first_crossing _ S u l v Hl HuS HvS)
    as [l1 [x [y [l2 [-> [R1 [HS1 [[f [Hf Hfj]] [Hx [Hy R2]]]]]]]]]].
  destruct f as [[fa fb] fw].
  exists x, y, fw. split; [exact Hx|]. split; [exact Hy|]. split.
  { simpl in Hfj. apply orb_true_iff in Hfj.
    rewrite !andb_true_iff, !Z.eqb_eq in Hfj.
    destruct Hfj as [[-> ->]|[-> ->]]; auto. }
  intros T2.
  assert (Hkeep : forall a b, adjacent T a b ->
            (a <> y /\ b <> y) \/ (a <> x /\ b <> x) \/
            ~ ((a = x /\ b = y) \/ (a = y /\ b = x)) -> adjacent T2 a b).
  { intros a b [e [He Hej]] Hab. exists e. split; [|exact Hej].
    right. apply In_remove_edge. split; [exact He|].
    destruct (joins e x y) eqn:E; [|reflexivity]. exfalso.
    destruct (joins_same e a b x y Hej E); tauto. }
  assert (Hxl : x = u \/ In x l1) by (eapply route_end; eauto).
  assert (Hxout : ~ In x (y :: l2)).
  { intros C. change (u :: l1 ++ y :: l2) with ((u :: l1) ++ (y :: l2)) in Hsimple.
    apply (NoDup_app_apart _ _ Hsimple x); [|exact C].
    destruct Hxl as [->|Hxl]; [now left | now right]. }
  assert (Hsym : forall a b, adjacent T2 a b -> adjacent T2 b a)
    by (intros a b; apply adjacent_sym).
  assert (Hxy : reach (adjacent T2) x y).
  { apply reach_trans with u.
    - apply reach_sym; [exact Hsym|]. apply route_reach with l1.
      eapply route_impl; [|exact R1].
      intros a b Ha Hb Hab. apply Hkeep; [exact Hab|]. left.
      split; intros ->; apply Hy; apply HS1; auto.
    - apply reach_trans with v.
      + apply reach_one. exists (u, v, w). split; [now left|].
        simpl. now rewrite !Z.eqb_refl.
      + apply reach_sym; [exact Hsym|]. apply route_reach with l2.
        eapply route_impl; [|exact R2].
        intros a b Ha Hb Hab. apply Hkeep; [exact Hab|]. right. left.
        split; intros ->; apply Hxout.
        * destruct Ha as [->|Ha]; [now left | now right].
        * now right. }
  split; [|split; [|split; [|split]]].
  - subst T2. simpl. constructor.
    + intros C. apply Hnadj. apply in_map_iff in C.
      destruct C as [e [He Hin]]. apply In_remove_edge in Hin.
      exists e. split; [tauto|]. apply joins_ends. exact He.
    + apply filter_keeps_distinct. exact Hnd.
  - intros a b Ha Hb. apply reach_lift with (adj1 := adjacent T); [|auto].
    intros p q Hpq.
    assert (Hc : (p = x /\ q = y) \/ (p = y /\ q = x) \/
                 ~ ((p = x /\ q = y) \/ (p = y /\ q = x))) by lia.
    destruct Hc as [[-> ->]|[[-> ->]|Hc]].
    + exact Hxy.
    + apply reach_sym; [exact Hsym | exact Hxy].
    + apply reach_one, Hkeep; [exact Hpq | tauto].
  - subst T2. simpl.
    destruct (remove_edge_size x y T (fa, fb, fw) Hnd Hf Hfj) as [H1 _]. exact H1.
  - subst T2. unfold total_weight at 1. simpl. fold (total_weight (remove_edge x y T)).
    destruct (remove_edge_size x y T (fa, fb, fw) Hnd Hf Hfj) as [_ H2].
    simpl in H2. lia.
  - intros a b Ha Hb Hab. apply Hkeep; [exact Hab|]. left.
    split; intros ->; tauto.
Qed.

Lemma sumZ_perm (l l' : list Z) : Permutation l l' -> sumZ l = sumZ l'.
Proof.
  induction 1; simpl; try lia.
Qed.

Lemma total_by_endpoints (es T : list edge) :
  (forall u v w, In (u, v, w) T -> edge_weight es u v = Some w) ->
  total_weight T = sumZ (map (pair_weight es) (map endpoints T)).
Proof.
  induction T as [|[[u v] w] T IH]; intros H; [reflexivity|].
  simpl. rewrite <- IH by (intros; apply H; now right). f_equal.
  unfold pair_weight. simpl.
  assert (Hw : edge_weight es u v = Some w) by (apply H; now left).
  destruct (Z.le_gt_cases u v).
  - rewrite Z.min_l, Z.max_r by lia. now rewrite Hw.
  - rewrite Z.min_r, Z.max_l by lia. now rewrite edge_weight_sym, Hw.
Qed.

(** Two edge sets of the graph, one contained in the other and not smaller,
    have the same total weight. *)
Lemma same_edges_same_weight (es E T : list edge) :
  (forall u v w, In (u, v, w) E -> edge_weight es u v = Some w) ->
  (forall u v w, In (u, v, w) T -> edge_weight es u v = Some w) ->
  NoDup (map endpoints E) ->
  (length T <= length E)%nat ->
  (forall u v w, In (u, v, w) E -> adjacent T u v) ->
  total_weight E = total_weight T /\
  (forall a b, adjacent T a b -> adjacent E a b).
Proof.
  intros HE HT Hnd Hlen Hsub.
  assert (Hperm : Permutation (map endpoints E) (map endpoints T)).
  { apply NoDup_Permutation_bis; [exact Hnd | now rewrite !length_map|].
    intros p Hp. apply in_map_iff in Hp. destruct Hp as [[[u v] w] [<- Hin]].
    destruct (Hsub u v w Hin) as [e [He Hj]]. apply joins_ends in Hj.
    simpl. rewrite <- Hj. now apply in_map. }
  split.
  - rewrite (total_by_endpoints es E HE), (total_by_endpoints es T HT).
    apply sumZ_perm. now apply Permutation_map.
  - intros a b [e [He Hj]]. apply joins_ends in Hj.
    assert (Hin : In (Z.min a b, Z.max a b) (map endpoints E)).
    { apply (Permutation_in _ (Permutation_sym Hperm)). rewrite <- Hj.
      now apply in_map. }
    apply in_map_iff in Hin. destruct Hin as [e' [He' Hin']].
    exists e'. split; [exact Hin'|]. now apply joins_ends.
Qed.


(** ** Prim *)

Lemma push_fringe_loop (from : Z) (S : list Z) (row : dict Z) :
  forall pq, exists pq',
    for_each (Analysis.push_fringe from S) row pq = Ok pq' /\
    (forall t, In t pq' <->
               In t pq \/
               exists d w, t = (w, from, d) /\ In (d, w) row /\ ~ In d S) /\
    (length pq' <= length row + length pq)%nat.
Proof.
  induction row as [|[d w] row IH]; intros pq.
  - exists pq. split; [reflexivity|]. split; [|simpl; lia].
    intros t. split; [auto|]. intros [H|[d [w [_ [[] _]]]]]. exact H.
  - cbn [for_each Analysis.push_fringe]. destruct (mem d S) eqn:E; cbn [bind].
    + apply mem_In in E. destruct (IH pq) as [pq' [H1 [H2 H3]]].
      exists pq'. split; [exact H1|]. split; [|simpl; lia].
      intros t. rewrite H2. split.
      * intros [H|[d' [w' [Ht [Hin Hd]]]]]; [now left|].
        right. exists d', w'. split; [exact Ht|]. split; [now right | exact Hd].
      * intros [H|[d' [w' [Ht [[[= <- <-]|Hin] Hd]]]]]; [now left | tauto|].
        right. exists d', w'. auto.
    + apply mem_not_In in E.
      destruct (IH (Heap.heappush pq (w, from, d))) as [pq' [H1 [H2 H3]]].
      exists pq'. split; [exact H1|]. split; [|simpl in *; lia].
      intros t. rewrite H2. unfold Heap.heappush. simpl. split.
      * intros [[<-|H]|[d' [w' [Ht [Hin Hd]]]]].
        -- right. exists d, w. auto.
        -- now left.
        -- right. exists d', w'. auto.
      * intros [H|[d' [w' [Ht [[[= <- <-]|Hin] Hd]]]]].
        -- left. now right.
        -- left. left. now symmetry.
        -- right. exists d', w'. auto.
Qed.

Lemma push_root_loop (root : Z) (row : dict Z) :
  forall pq, exists pq',
    for_each (Analysis.push_root root) row pq = Ok pq' /\
    (forall t, In t pq' <->
               In t pq \/ exists d w, t = (w, root, d) /\ In (d, w) row) /\
    length pq' = (length row + length pq)%nat.
Proof.
  induction row as [|[d w] row IH]; intros pq.
  - exists pq. split; [reflexivity|]. split; [|reflexivity].
    intros t. split; [auto|]. intros [H|[d [w [_ []]]]]. exact H.
  - cbn [for_each Analysis.push_root bind].
    destruct (IH (Heap.heappush pq (w, root, d))) as [pq' [H1 [H2 H3]]].
    exists pq'. split; [exact H1|]. split; [|simpl in *; lia].
    intros t. rewrite H2. unfold Heap.heappush. simpl. split.
    + intros [[<-|H]|[d' [w' [Ht Hin]]]].
      * right. exists d, w. auto.
      * now left.
      * right. exists d', w'. auto.
    + intros [H|[d' [w' [Ht [[= <- <-]|Hin]]]]].
      * left. now right.
      * left. left. now symmetry.
      * right. exists d', w'. auto.
Qed.

Lemma pending_degree_ext (l : adjacency) (d1 d2 : list Z) :
  (forall x, In x d1 <-> In x d2) ->
  pending_degree l d1 = pending_degree l d2.
Proof.
  intros H. induction l as [|[k r] l IH]; simpl; [reflexivity|].
  rewrite IH. destruct (mem k d1) eqn:E1, (mem k d2) eqn:E2; try reflexivity.
  - apply mem_In, H, mem_In in E1. congruence.
  - apply mem_In, H, mem_In in E2. congruence.
Qed.


Section PrimInvariant.
Variable g : graph_data.
Variable al : adjacency.
Variable root : Z.
Hypothesis al_closed : closed_AL al.
Hypothesis al_weights : forall u v, lookup2 al u v = edge_weight (edges g) u v.
Hypothesis al_keys : forall v, In v (dict_keys al) <-> In v (vertices g).

(** Popping a stale candidate keeps the invariant. *)
Lemma prim_skip (mst_edges : list (Z * Z * Z)) (mst_vertices : list Z)
    (pq pq' : list (Z * Z * Z)) (w u v : Z) :
  prim_inv g al root mst_edges mst_vertices pq ->
  (forall t, In t pq <-> t = (w, u, v) \/ In t pq') ->
  In v mst_vertices ->
  prim_inv g al root mst_edges mst_vertices pq'.
Proof.
  intros [A B C D E F G H I J] Hmem Hv. constructor; try assumption.
  - intros w' u' v' Hin. apply H. apply Hmem. now right.
  - intros u' v' w' Hu' Hv' Hl. specialize (I u' v' w' Hu' Hv' Hl).
    apply Hmem in I. destruct I as [[= -> -> ->]|I]; [tauto | exact I].
Qed.

(** Choosing the lightest candidate that leaves the tree keeps the
    invariant. *)
Lemma prim_grow (mst_edges : list (Z * Z * Z)) (mst_vertices : list Z)
    (pq pq' pq'' : list (Z * Z * Z)) (w u v : Z) (row : dict Z) :
  prim_inv g al root mst_edges mst_vertices pq ->
  (forall t, In t pq' -> Heap.leb3 (w, u, v) t = true) ->
  (forall t, In t pq <-> t = (w, u, v) \/ In t pq') ->
  ~ In v mst_vertices ->
  dict_get al v = Some row ->
  (forall t, In t pq'' <->
             In t pq' \/
             exists d wd, t = (wd, v, d) /\ In (d, wd) row /\
                          ~ In d (mst_vertices ++ [v])) ->
  prim_inv g al root (mst_edges ++ [(w, u, v)]) (mst_vertices ++ [v]) pq''.
Proof.
  intros [A B C D E F G H I J] Hmin Hmem Hv Hrow Hpq''.
  assert (Hcur : In (w, u, v) pq) by (apply Hmem; now left).
  destruct (H w u v Hcur) as [Hw Hu].
  assert (Hvk : In v (dict_keys al)) by (eapply dict_get_Some_keys; eauto).
  assert (Hgw : edge_weight (edges g) u v = Some w) by now rewrite <- al_weights.
  assert (Hin' : forall x, In x (mst_vertices ++ [v]) <-> In x mst_vertices \/ x = v).
  { intros x. rewrite in_app_iff. simpl. intuition. }
  constructor.
  - apply NoDup_app; [exact A | repeat constructor; simpl; tauto|].
    intros x Hx [<-|[]]. tauto.
  - intros x Hx. apply Hin' in Hx. destruct Hx as [Hx| ->]; auto.
  - apply Hin'. now left.
  - intros x Hx. rewrite map_app. simpl. apply Hin' in Hx.
    assert (Hmono : forall a b, adjacent (map to_edge mst_edges) a b ->
                      adjacent (map to_edge mst_edges ++ [(u, v, w)]) a b).
    { intros a b [e [He Hj]]. exists e. split; [apply in_or_app; now left | exact Hj]. }
    destruct Hx as [Hx| ->].
    + eapply reach_ext; [exact Hmono | auto].
    + apply reach_step with u; [eapply reach_ext; [exact Hmono | auto]|].
      exists (u, v, w). split; [apply in_or_app; right; now left|].
      simpl. now rewrite !Z.eqb_refl.
  - intros w' u' v' Hin. apply in_app_or in Hin. rewrite !Hin'.
    destruct Hin as [Hin|[[= <- <- <-]|[]]].
    + destruct (E w' u' v' Hin) as [E1 [E2 E3]]. auto.
    + auto.
  - rewrite !map_app. simpl. apply NoDup_app; [exact F | repeat constructor; simpl; tauto|].
    intros p Hp [<-|[]]. apply in_map_iff in Hp. destruct Hp as [e [He Hin]].
    apply in_map_iff in Hin. destruct Hin as [[[w' u'] v'] [<- Hin]].
    destruct (E w' u' v' Hin) as [_ [E2 E3]]. simpl in He.
    injection He as H1 H2. apply Hv.
    destruct (Z.eq_dec v u') as [->|N1]; [exact E2|].
    destruct (Z.eq_dec v v') as [->|N2]; [exact E3|]. lia.
  - rewrite !length_app. simpl. lia.
  - intros w' u' v' Hin. apply Hpq'' in Hin. rewrite Hin'.
    destruct Hin as [Hin|[d [wd [[= -> -> ->] [Hd _]]]]].
    + destruct (H w' u' v') as [H1 H2]; [apply Hmem; now right | auto].
    + split; [|now right]. unfold lookup2. rewrite Hrow.
      apply In_dict_get; [|exact Hd]. destruct al_closed as [_ Hrows].
      apply (Hrows _ _ Hrow).
  - intros a b wb Ha Hb Hl. apply Hpq''. apply Hin' in Ha.
    assert (Hb' : ~ In b mst_vertices) by (intros Hc; apply Hb, Hin'; now left).
    destruct Ha as [Ha| ->].
    + left. specialize (I a b wb Ha Hb' Hl). apply Hmem in I.
      destruct I as [[= -> -> ->]|I]; [|exact I].
      exfalso. apply Hb, Hin'. now right.
    + right. exists b, wb. split; [reflexivity|]. split; [|exact Hb].
      unfold lookup2 in Hl. rewrite Hrow in Hl. now apply dict_get_In.
  - intros T HT. destruct (J T HT) as [T1 [HT1 [Hle Hsub]]].
    destruct (adjacent_dec T1 u v) as [Hadj|Hnadj].
    + exists T1. split; [exact HT1|]. split; [exact Hle|].
      intros w' u' v' Hin. apply in_app_or in Hin.
      destruct Hin as [Hin|[[= <- <- <-]|[]]]; eauto.
    + destruct HT1 as [Hg1 [Hnd1 [Hsp1 Hlen1]]].
      destruct (exchange T1 (vertices g) mst_vertices u v w Hnd1 Hsp1)
        as [x [y [fw [Hx [Hy [Hf [Hnd2 [Hsp2 [Hlen2 [Htot Hkeep]]]]]]]]]]; auto.
      { apply al_keys. auto. }
      { apply al_keys. exact Hvk. }
      exists ((u, v, w) :: remove_edge x y T1).
      split; [split; [|split; [|split]]|split].
      * intros a b c [[= <- <- <-]|Hin]; [exact Hgw|].
        apply In_remove_edge in Hin. apply Hg1. tauto.
      * exact Hnd2.
      * exact Hsp2.
      * exact (eq_trans (f_equal S Hlen2) Hlen1).
      * assert (Hfw : lookup2 al x y = Some fw).
        { rewrite al_weights. destruct Hf as [Hf|Hf]; [now apply Hg1|].
          rewrite edge_weight_sym. now apply Hg1. }
        specialize (I x y fw Hx Hy Hfw). apply Hmem in I.
        assert (w <= fw).
        { destruct I as [[= -> _ _]|I]; [lia|].
          apply Hmin, leb3_fst in I. exact I. }
        lia.
      * intros w' u' v' Hin. apply in_app_or in Hin.
        destruct Hin as [Hin|[[= <- <- <-]|[]]].
        -- destruct (E w' u' v' Hin) as [_ [E2 E3]]. apply Hkeep; eauto.
        -- exists (u, v, w). split; [now left|]. simpl. now rewrite !Z.eqb_refl.
Qed.

(** Prim's loop terminates within the fuel and keeps the invariant. *)
Lemma prim_loop :
  forall (fuel : nat) (mst_edges : list (Z * Z * Z)) (mst_vertices : list Z)
         (pq : list (Z * Z * Z)),
    prim_inv g al root mst_edges mst_vertices pq ->
    (length pq + pending_degree al mst_vertices <= fuel)%nat ->
    exists mst_edges' mst_vertices',
      Analysis.prim fuel al mst_edges mst_vertices pq = Ok mst_edges' /\
      prim_inv g al root mst_edges' mst_vertices' [].
Proof.
  induction fuel as [|fuel IH]; intros mst_edges mst_vertices pq Hinv Hfuel;
    pose proof (heappop_spec Heap.leb3 leb3_refl leb3_total leb3_trans pq) as Hpop;
    destruct (Heap.heappop Heap.leb3 pq) as [[[[w u] v] pq']|] eqn:Epop.
  - destruct Hpop as [_ [_ Hlen]]. lia.
  - subst pq. exists mst_edges, mst_vertices. simpl. auto.
  - destruct Hpop as [Hmin [Hmem Hlen]]. cbn [Analysis.prim]. rewrite Epop.
    assert (Hcur : In (w, u, v) pq) by (apply Hmem; now left).
    destruct (pq_graph _ _ _ _ _ _ Hinv w u v Hcur) as [Hw Hu].
    pose proof Hu as Hu'. apply mem_In in Hu'. rewrite Hu'. cbn [andb].
    destruct (mem v mst_vertices) eqn:Ev.
    + apply mem_In in Ev. apply IH; [|lia].
      eapply prim_skip; eauto.
    + apply mem_not_In in Ev.
      assert (Hvk : In v (dict_keys al))
        by (eapply (lookup2_key al al_closed); eauto).
      apply dict_get_keys in Hvk.
      destruct (dict_get al v) as [row|] eqn:Erow; [|congruence].
      unfold dict_at. rewrite Erow. cbn [bind].
      destruct (push_fringe_loop v (mst_vertices ++ [v]) row pq')
        as [pq'' [Hpush [Hpq'' Hlen'']]].
      rewrite Hpush. cbn [bind]. apply IH.
      * eapply prim_grow; eauto.
      * destruct al_closed as [Hnd _].
        pose proof (pending_degree_visit al mst_vertices v row Hnd Erow Ev) as Hpd.
        rewrite (pending_degree_ext al (mst_vertices ++ [v]) (v :: mst_vertices)).
        -- lia.
        -- intros x. rewrite in_app_iff. simpl. tauto.
  - subst pq. exists mst_edges, mst_vertices. simpl. auto.
Qed.
End PrimInvariant.


Section PrimResult.
Variable g : graph_data.
Variable al : adjacency.
Variable root : Z.
Hypothesis g_wf : well_formed g.
Hypothesis al_closed : closed_AL al.
Hypothesis al_weights : forall u v, lookup2 al u v = edge_weight (edges g) u v.
Hypothesis al_keys : forall v, In v (dict_keys al) <-> In v (vertices g).
Hypothesis root_declared : In root (vertices g).

Lemma prim_initial (row : dict Z) (pq : list (Z * Z * Z)) :
  dict_get al root = Some row ->
  (forall t, In t pq <-> exists d w, t = (w, root, d) /\ In (d, w) row) ->
  prim_inv g al root [] [root] pq.
Proof.
  intros Hrow Hpq. destruct al_closed as [_ Hrows].
  destruct (Hrows _ _ Hrow) as [Hrnd _]. constructor.
  - repeat constructor. simpl. tauto.
  - intros x [<-|[]]. now apply al_keys.
  - now left.
  - intros x [<-|[]]. constructor.
  - intros w u v [].
  - constructor.
  - reflexivity.
  - intros w u v Hin. apply Hpq in Hin.
    destruct Hin as [d [w' [[= -> -> ->] Hd]]]. split; [|now left].
    unfold lookup2. rewrite Hrow. now apply In_dict_get.
  - intros u v w [<-|[]] _ Hl. apply Hpq. exists v, w. split; [reflexivity|].
    unfold lookup2 in Hl. rewrite Hrow in Hl. now apply dict_get_In.
  - intros T HT. exists T. split; [exact HT|]. split; [lia|]. intros w u v [].
Qed.

(** On a connected graph Prim's algorithm returns a spanning tree that is
    not heavier than any spanning tree. *)
Lemma prim_run :
  (forall v, In v (vertices g) -> reachable g root v) ->
  exists row pq mst_edges,
    dict_get al root = Some row /\
    for_each (Analysis.push_root root) row [] = Ok pq /\
    Analysis.prim (Analysis.prim_fuel al) al [] [root] pq = Ok mst_edges /\
    spanning_tree g (map to_edge mst_edges) /\
    forall T, spanning_tree g T ->
              total_weight (map to_edge mst_edges) <= total_weight T.
Proof.
  intros Hconn.
  assert (Hrk : In root (dict_keys al)) by now apply al_keys.
  apply dict_get_keys in Hrk.
  destruct (dict_get al root) as [row|] eqn:Erow; [|congruence].
  destruct (push_root_loop root row []) as [pq [Hpush [Hpq Hlen]]].
  assert (Hinit : prim_inv g al root [] [root] pq).
  { apply (prim_initial row); [exact Erow|]. intros t. rewrite Hpq.
    simpl. tauto. }
  destruct (prim_loop g al root al_closed al_weights al_keys
              (Analysis.prim_fuel al) [] [root] pq Hinit)
    as [es [S' [Hrun Hinv]]].
  { destruct al_closed as [Hnd _].
    pose proof (pending_degree_visit al [] root row Hnd Erow (fun H => H)) as Hpd.
    rewrite pending_degree_nil in Hpd. unfold Analysis.prim_fuel.
    simpl in Hlen. lia. }
  exists row, pq, es. split; [reflexivity|]. split; [exact Hpush|].
  split; [exact Hrun|].
  destruct Hinv as [A B C D E F G H I J].
  assert (Hall : forall v, In v (vertices g) -> In v S').
  { intros v Hv. destruct (in_dec Z.eq_dec v S') as [Hin|Hout]; [exact Hin|].
    exfalso. destruct (reach_simple_route _ root v (Hconn v Hv)) as [l [Hl _]].
    destruct (route_first_crossing _ S' root l v Hl C Hout)
      as [l1 [x [y [l2 [_ [_ [_ [Hxy [Hx [Hy _]]]]]]]]]].
    apply edge_weight_adjacent in Hxy.
    destruct (edge_weight (edges g) x y) as [w|] eqn:Ew; [|congruence].
    rewrite <- al_weights in Ew. exact (I x y w Hx Hy Ew). }
  destruct g_wf as [Hvnd _].
  assert (Hlen' : length S' = length (vertices g)).
  { apply Nat.le_antisymm; apply NoDup_incl_length; auto.
    intros x Hx. apply al_keys. auto. }
  assert (Htree : spanning_tree g (map to_edge es)).
  { split; [|split; [exact F|split]].
    - intros u v w Hin. apply in_map_iff in Hin.
      destruct Hin as [[[w' u'] v'] [[= <- <- <-] Hin]]. apply (E _ _ _ Hin).
    - intros a b Ha Hb. apply reach_trans with root.
      + apply reach_sym; [intros p q; apply adjacent_sym | auto].
      + auto.
    - rewrite length_map. lia. }
  split; [exact Htree|].
  intros T HT. destruct (J T HT) as [T' [HT' [Hle Hsub]]].
  destruct Htree as [Hg [Hnd [_ Hl]]]. destruct HT' as [Hg' [_ [_ Hl']]].
  destruct (same_edges_same_weight (edges g) (map to_edge es) T' Hg Hg' Hnd)
    as [Heq _].
  - lia.
  - intros u v w Hin. apply in_map_iff in Hin.
    destruct Hin as [[[w' u'] v'] [[= <- <- <-] Hin]]. eauto.
  - lia.
Qed.
End PrimResult.

(** C2 (as amended).  On a well-formed description with at least one
    declared vertex and integer weights that are doubles, [mst] returns a
    result: when the graph is connected, a sequence of exactly V-1 edges that
    is a spanning tree and whose total weight is at most the total weight of
    every spanning tree of the graph; when the graph is not connected,
    [False].  An edge of the graph carries the weight that the adjacency
    model holds for its endpoints. *)
Theorem mst_minimum_spanning_tree :
  forall (frames : nat) (g : graph_data) (root : option Z) (v0 : Z)
         (vs : list Z),
    well_formed g ->
    exact_weights g ->
    vertices g = v0 :: vs ->
    (connected g /\
     exists true_edges,
       Analysis.analyze_graph frames "mst" root g
       = Ok {| type := "mst"; data := DEdges true_edges |} /\
       Z.of_nat (length true_edges) = Z.of_nat (length (vertices g)) - 1 /\
       spanning_tree g true_edges /\
       forall T, spanning_tree g T ->
                 total_weight true_edges <= total_weight T) \/
    (~ connected g /\
     Analysis.analyze_graph frames "mst" root g
     = Ok {| type := "mst"; data := DBool false |}).
Proof.
  intros frames g root v0 vs Hwf Hex Hvs.
  pose proof (exact_finite g Hex) as Hfin.
  destruct (build_AL_spec g Hwf Hex) as [al [Hal [Hcl [Hk [_ Hl]]]]].
  assert (H0 : In v0 (vertices g)) by (rewrite Hvs; now left).
  destruct (bfs_reachable g al v0 Hwf Hfin Hal H0) as [R [HR Hiff]].
  assert (Hrun : Analysis.analyze_graph frames "mst" root g
                 = bind (Ok v0) (fun r =>
                   bind (Ok R) (fun reached =>
                     if negb (Analysis.all_reached (vertices g) reached)
                     then Ok {| type := "mst"; data := DBool false |}
                     else
                       bind (dict_at al r) (fun row =>
                       bind (for_each (Analysis.push_root r) row []) (fun pq =>
                       bind (Analysis.prim (Analysis.prim_fuel al) al [] [r] pq)
                         (fun mst_edges =>
                            Ok {| type := "mst";
                                  data := DEdges (map to_edge mst_edges) |})))))).
  { rewrite analyze_mst, Hal. cbn [bind]. unfold Analysis.mst, Analysis.first_vertex.
    rewrite Hvs at 1. cbn [bind]. rewrite HR. reflexivity. }
  cbn [bind] in Hrun.
  destruct (Analysis.all_reached (vertices g) R) eqn:Eall; cbn [negb] in Hrun.
  - left. rewrite all_reached_spec in Eall.
    assert (Hconn : forall v, In v (vertices g) -> reachable g v0 v)
      by (intros v Hv; apply Hiff; auto).
    split.
    { intros a b Ha Hb. apply reach_trans with v0; [|exact (Hconn b Hb)].
      apply reach_sym; [intros p q; apply adjacent_sym | exact (Hconn a Ha)]. }
    destruct (prim_run g al v0 Hwf Hcl Hl Hk H0 Hconn)
      as [row [pq [es [Hrow [Hpush [Hprim [Htree Hmin]]]]]]].
    exists (map to_edge es). split; [|split; [|split]]; auto.
    + rewrite Hrun. unfold dict_at. rewrite Hrow. cbn [bind].
      rewrite Hpush. cbn [bind]. rewrite Hprim. reflexivity.
    + destruct Htree as [_ [_ [_ Hlen]]]. lia.
  - right. split; [|exact Hrun].
    intros Hconn.
    assert (Analysis.all_reached (vertices g) R = true); [|congruence].
    apply all_reached_spec. intros v Hv. apply Hiff. now apply Hconn.
Qed.

Lemma mst_minimum_spanning_tree_witness :
  let g := {| vertices := [0; 1; 2; 3];
              edges := [(0, 1, 1); (1, 2, 2); (2, 3, 3); (3, 0, 4)] |} in
  (connected g /\
   exists true_edges,
     Analysis.analyze_graph 1000 "mst" None g
     = Ok {| type := "mst"; data := DEdges true_edges |} /\
     Z.of_nat (length true_edges) = Z.of_nat (length (vertices g)) - 1 /\
     spanning_tree g true_edges /\
     forall T, spanning_tree g T -> total_weight true_edges <= total_weight T) \/
  (~ connected g /\
   Analysis.analyze_graph 1000 "mst" None g
   = Ok {| type := "mst"; data := DBool false |}).
Proof.
  apply (mst_minimum_spanning_tree 1000%nat
           {| vertices := [0; 1; 2; 3];
              edges := [(0, 1, 1); (1, 2, 2); (2, 3, 3); (3, 0, 4)] |}
           None 0 [1; 2; 3]).
  - split.
    + simpl. repeat constructor; simpl; intuition lia.
    + simpl. intros a b w H.
      repeat (destruct H as [H|H]; [injection H as <- <- <-; intuition|]).
      destruct H.
  - intros a b w H. simpl in H.
    repeat (destruct H as [H|H]; [injection H as <- <- <-; reflexivity|]).
    destruct H.
  - reflexivity.
Defined.

(** C2 as stated fails in three ways.  The empty description is well formed
    and (vacuously) connected, but [mst] raises [IndexError] at [vertices[0]]
    instead of returning a sequence of edges or [False].  On vertices 0, 1
    with the edge (0, 1, 2^53 + 3), a well-formed connected description,
    [mst] returns the edge with the rounded weight 2^53 + 4, heavier than the
    spanning tree made of the listed edge.  On vertices 0, 1 with the pair
    listed twice, as (0, 1, 1) and then as (0, 1, 5), [mst] returns the edge
    with the last listed weight 5, heavier than the first listed edge, which
    alone spans the graph. *)
Lemma mst_empty_rounded_or_repeated :
  (well_formed {| vertices := []; edges := [] |} /\
   connected {| vertices := []; edges := [] |} /\
   Analysis.analyze_graph 1000 "mst" None {| vertices := []; edges := [] |}
   = Raise IndexError) /\
  (well_formed {| vertices := [0; 1]; edges := [(0, 1, 2 ^ 53 + 3)] |} /\
   connected {| vertices := [0; 1]; edges := [(0, 1, 2 ^ 53 + 3)] |} /\
   Analysis.analyze_graph 1000 "mst" None
     {| vertices := [0; 1]; edges := [(0, 1, 2 ^ 53 + 3)] |}
   = Ok {| type := "mst"; data := DEdges [(0, 1, 2 ^ 53 + 4)] |} /\
   spanning_tree {| vertices := [0; 1]; edges := [(0, 1, 2 ^ 53 + 3)] |}
     [(0, 1, 2 ^ 53 + 3)] /\
   total_weight [(0, 1, 2 ^ 53 + 3)] < total_weight [(0, 1, 2 ^ 53 + 4)]) /\
  (well_formed {| vertices := [0; 1]; edges := [(0, 1, 1); (0, 1, 5)] |} /\
   connected {| vertices := [0; 1]; edges := [(0, 1, 1); (0, 1, 5)] |} /\
   Analysis.analyze_graph 1000 "mst" None
     {| vertices := [0; 1]; edges := [(0, 1, 1); (0, 1, 5)] |}
   = Ok {| type := "mst"; data := DEdges [(0, 1, 5)] |} /\
   In (0, 1, 1) [(0, 1, 1); (0, 1, 5)] /\
   spans [(0, 1, 1)] [0; 1] /\
   total_weight [(0, 1, 1)] < total_weight [(0, 1, 5)]).
Proof.
  assert (Hwf : forall es, (forall a b w, In (a, b, w) es -> a = 0 /\ b = 1) ->
                  well_formed {| vertices := [0; 1]; edges := es |}).
  { intros es H. split.
    - simpl. repeat constructor; simpl; intuition lia.
    - simpl. intros a b w Hin. destruct (H a b w Hin) as [-> ->]. auto. }
  assert (Hsp : forall es w, In (0, 1, w) es ->
                  forall u v, In u [0; 1] -> In v [0; 1] -> reach (adjacent es) u v).
  { intros es w Hin u v Hu Hv.
    assert (H01 : adjacent es 0 1) by (exists (0, 1, w); split; [exact Hin | reflexivity]).
    assert (H10 : adjacent es 1 0) by (exists (0, 1, w); split; [exact Hin | reflexivity]).
    simpl in Hu, Hv.
    destruct Hu as [<-|[<-|[]]], Hv as [<-|[<-|[]]];
      try constructor; eapply reach_step; try constructor; assumption. }
  split; [|split].
  - split; [|split].
    + split; [constructor | intros a b w []].
    + intros u v [].
    + reflexivity.
  - split; [|split; [|split; [|split]]].
    + apply Hwf. intros a b w [[= <- <- <-]|[]]. auto.
    + refine (Hsp [(0, 1, 2 ^ 53 + 3)] (2 ^ 53 + 3) _). now left.
    + vm_compute. reflexivity.
    + split; [|split; [|split]].
      * intros u v w [[= <- <- <-]|[]]. vm_compute. reflexivity.
      * repeat constructor. simpl. tauto.
      * refine (Hsp [(0, 1, 2 ^ 53 + 3)] (2 ^ 53 + 3) _). now left.
      * reflexivity.
    + vm_compute. reflexivity.
  - split; [|split; [|split; [|split; [|split]]]].
    + apply Hwf. intros a b w [[= <- <- <-]|[[= <- <- <-]|[]]]; auto.
    + refine (Hsp [(0, 1, 1); (0, 1, 5)] 1 _). now left.
    + vm_compute. reflexivity.
    + now left.
    + refine (Hsp [(0, 1, 1)] 1 _). now left.
    + vm_compute. reflexivity.
Qed.



(** ** Supplements *)

(** In a description without parallel edges every listed edge carries the
    weight the graph gives to its endpoints. *)
Lemma simple_edge_weight (es : list edge) (u v w : Z) :
  simple es -> In (u, v, w) es -> edge_weight es u v = Some w.
Proof.
  induction es as [|[[a b] w0] es IH]; intros Hs Hin; [destruct Hin|].
  simpl in Hs. destruct Hs as [Hab [Hnone Hs]]. simpl.
  destruct Hin as [[= -> -> ->]|Hin].
  - destruct (edge_weight es u v) as [w'|] eqn:E.
    + exfalso. assert (Hadj : adjacent es u v)
        by (apply edge_weight_adjacent; congruence).
      destruct Hadj as [e [He Hj]]. rewrite (Hnone e He) in Hj. discriminate.
    + now rewrite !Z.eqb_refl.
  - now rewrite (IH Hs Hin).
Qed.

(** The fuel of the generator's loops suffices. *)
Lemma gbind_no_fuel {A B : Type} (m : Generator.gen A) (k : A -> Generator.gen B)
    (r : Generator.rng) :
  m r <> Fuel -> (forall a r1, m r = Ok (a, r1) -> k a r1 <> Fuel) ->
  Generator.gbind m k r <> Fuel.
Proof.
  unfold Generator.gbind. intros Hm Hk. destruct (m r) as [[a r1]|e|].
  - now apply Hk.
  - discriminate.
  - congruence.
Qed.

Lemma randint_no_fuel (a b : Z) (r : Generator.rng) :
  Generator.randint a b r <> Fuel.
Proof. unfold Generator.randint. destruct (b <? a); discriminate. Qed.

Lemma gen_for_no_fuel {A S : Type} (body : S -> A -> Generator.gen S)
    (xs : list A) :
  (forall s x r, body s x r <> Fuel) ->
  forall s r, Generator.gen_for body xs s r <> Fuel.
Proof.
  intros Hbody. induction xs as [|x xs IH]; intros s r; simpl.
  - discriminate.
  - apply gbind_no_fuel; auto.
Qed.

Lemma length_pop_at {A : Type} (i : Z) (l : list A) :
  0 <= i < Z.of_nat (length l) ->
  S (length (Generator.pop_at i l)) = length l.
Proof.
  intros Hi. unfold Generator.pop_at.
  rewrite length_app, length_firstn, length_skipn. lia.
Qed.

Lemma delete_down_no_fuel (n : Z) :
  forall (fuel : nat) (es : list edge) (r : Generator.rng),
    (length es < fuel)%nat -> Generator.delete_down fuel n es r <> Fuel.
Proof.
  induction fuel as [|fuel IH]; intros es r Hlen; [lia|].
  simpl. destruct (Generator.len es >? n); [|discriminate].
  apply gbind_no_fuel; [apply randint_no_fuel|].
  intros x r1 Hx. apply randint_Ok in Hx. unfold Generator.len in Hx.
  apply IH. pose proof (length_pop_at x es ltac:(lia)). lia.
Qed.

Lemma edge_eqb_refl (e : edge) : Generator.edge_eqb e e = true.
Proof.
  destruct e as [[a b] w]. simpl. now rewrite !Z.eqb_refl.
Qed.

Lemma length_remove_first (x : edge) (l : list edge) :
  In x l -> S (length (Generator.remove_first x l)) = length l.
Proof.
  induction l as [|y l IH]; simpl; [tauto|].
  intros Hin. destruct (Generator.edge_eqb y x) eqn:E; [reflexivity|].
  destruct Hin as [->|Hin]; [now rewrite edge_eqb_refl in E|].
  simpl. now rewrite IH.
Qed.

Lemma add_remaining_no_fuel (n : Z) :
  forall (fuel : nat) (es rem : list edge) (r : Generator.rng),
    (length rem < fuel)%nat -> Generator.add_remaining fuel n es rem r <> Fuel.
Proof.
  induction fuel as [|fuel IH]; intros es rem r Hlen; [lia|].
  simpl. destruct (Generator.len es <? n); [|discriminate].
  apply gbind_no_fuel; [apply randint_no_fuel|].
  intros x r1 Hx.
  destruct (nth_error rem (Z.to_nat x)) as [sel|] eqn:E; [|discriminate].
  apply IH. apply nth_error_In in E.
  pose proof (length_remove_first sel rem E). lia.
Qed.

Lemma default_no_fuel (n : Z) (d : Generator.gen Z) (r : Generator.rng) :
  d r <> Fuel -> Generator.default n d r <> Fuel.
Proof. unfold Generator.default. destruct (n =? -1); [auto | discriminate]. Qed.

Ltac no_fuel :=
  repeat first
    [ apply randint_no_fuel
    | apply default_no_fuel
    | apply delete_down_no_fuel; lia
    | apply add_remaining_no_fuel; lia
    | apply gen_for_no_fuel; intros
    | apply gbind_no_fuel; [|intros]
    | match goal with
      | |- (if ?c then _ else _) _ <> Fuel => destruct c
      | |- (match ?c with Some _ => _ | None => _ end) _ <> Fuel => destruct c
      | |- (let '(_, _) := ?c in _) _ <> Fuel => destruct c
      end
    | discriminate ].

(** [make_random_graph] never runs out of fuel: it returns a graph, an
    error record, or raises. *)
Lemma make_random_graph_no_fuel (ty : string) (nv ne : Z) (r : Generator.rng) :
  Generator.make_random_graph ty nv ne r <> Fuel.
Proof.
  unfold Generator.make_random_graph.
  repeat match goal with
         | |- context [String.eqb ty ?s] => destruct (String.eqb ty s)
         end.
  - unfold Generator.case_any, Generator.all_pairs, Generator.pairs_from. no_fuel.
  - unfold Generator.case_complete, Generator.all_pairs, Generator.pairs_from.
    no_fuel.
  - unfold Generator.case_connected, Generator.all_pairs, Generator.pairs_from,
      Generator.attach. no_fuel.
  - unfold Generator.case_acyclic, Generator.grow_spore. no_fuel.
  - unfold Generator.case_tree. no_fuel.
  - unfold Generator.case_bipartite, Generator.cross_pairs. no_fuel.
  - discriminate.
Qed.

(* ================================================================== *)
(** * Part IV.  Further properties of the engine                        *)
(* ================================================================== *)

(** ** The adjacency builder *)

Lemma add_vertices_keys (vs : list Z) :
  forall al : adjacency,
    NoDup (dict_keys al ++ vs) ->
    exists al', for_each Analysis.add_vertex vs al = Ok al' /\
                dict_keys al' = dict_keys al ++ vs.
Proof.
  induction vs as [|v vs IH]; intros al Hnd.
  - exists al. split; [reflexivity | now rewrite app_nil_r].
  - assert (Hv : ~ In v (dict_keys al)).
    { intros Hin. apply (NoDup_app_apart _ _ Hnd v Hin). now left. }
    destruct (IH (dict_set al v [])) as [al' [H1 H2]].
    + rewrite dict_set_keys_absent by assumption. now rewrite <- app_assoc.
    + exists al'. split; [exact H1|].
      rewrite H2, dict_set_keys_absent by assumption. now rewrite <- app_assoc.
Qed.

(** X1.  From a well-formed description whose weights are within the range
    of doubles [build_AL] returns an adjacency model whose keys are the
    declared vertices in declaration order, whose entry for two vertices is
    the double nearest to the weight of the last listed edge between them
    (none when no edge joins them), which is symmetric, and whose rows list
    no neighbour twice. *)
Theorem adjacency_model_of_description :
  forall g : graph_data,
    well_formed g ->
    finite_weights g ->
    exists al,
      Analysis.build_AL g = Ok al /\
      dict_keys al = vertices g /\
      (forall u v, lookup2 al u v
                   = option_map round53 (edge_weight (edges g) u v)) /\
      (forall u v, lookup2 al u v = lookup2 al v u) /\
      (forall u row, dict_get al u = Some row ->
         NoDup (dict_keys row) /\ incl (dict_keys row) (vertices g)).
Proof.
  intros g Hwf Hfin.
  destruct (build_AL_stored_spec g Hwf Hfin) as [al [Hal [Hcl [Hk [_ Hl]]]]].
  exists al. split; [exact Hal|].
  assert (Hkeys : dict_keys al = vertices g).
  { unfold Analysis.build_AL in Hal. destruct Hwf as [Hnd _].
    destruct (add_vertices_keys (vertices g) []) as [al0 [H0 Hk0]]; [exact Hnd|].
    rewrite H0 in Hal. cbn [bind] in Hal.
    rewrite (add_edges_stored (edges g) Hfin) in Hal.
    destruct (store_edges_spec _ _ _ Hal) as [Hsame _]. now rewrite Hsame, Hk0. }
  split; [exact Hkeys|]. split; [|split].
  - intros u v. rewrite Hl. apply edge_weight_stored.
  - intros u v. now rewrite !Hl, edge_weight_sym.
  - intros u row Hrow. destruct Hcl as [_ Hrows].
    destruct (Hrows u row Hrow) as [H1 H2]. split; [exact H1|].
    now rewrite <- Hkeys.
Qed.

Lemma adjacency_model_of_description_witness :
  exists al,
    Analysis.build_AL
      {| vertices := [0; 1; 2];
         edges := [(0, 1, 1); (1, 2, 2); (0, 2, 2 ^ 53 + 1)] |}
    = Ok al /\
    dict_keys al = [0; 1; 2] /\
    (forall u v,
       lookup2 al u v
       = option_map round53
           (edge_weight [(0, 1, 1); (1, 2, 2); (0, 2, 2 ^ 53 + 1)] u v)) /\
    (forall u v, lookup2 al u v = lookup2 al v u) /\
    (forall u row, dict_get al u = Some row ->
       NoDup (dict_keys row) /\ incl (dict_keys row) [0; 1; 2]).
Proof.
  apply (adjacency_model_of_description
           {| vertices := [0; 1; 2];
              edges := [(0, 1, 1); (1, 2, 2); (0, 2, 2 ^ 53 + 1)] |}).
  - split.
    + simpl. repeat constructor; simpl; intuition lia.
    + simpl. intros a b w H.
      repeat (destruct H as [H|H]; [injection H as <- <- <-; intuition|]).
      destruct H.
  - intros a b w H. simpl in H.
    repeat (destruct H as [H|H]; [injection H as <- <- <-; vm_compute; reflexivity|]).
    destruct H.
Defined.

Lemma add_edge_Ok_inv (al al' : adjacency) (a b w : Z) :
  Analysis.add_edge al (a, b, w) = Ok al' ->
  In a (dict_keys al) /\ In b (dict_keys al) /\ dict_keys al' = dict_keys al.
Proof.
  unfold Analysis.add_edge. intros H. apply bind_Ok in H.
  destruct H as [f [_ H]]. apply store_edge_spec in H. tauto.
Qed.

Lemma add_edges_Ok_inv (es : list edge) :
  forall al al' : adjacency,
    for_each Analysis.add_edge es al = Ok al' ->
    forall a b w, In (a, b, w) es -> In a (dict_keys al) /\ In b (dict_keys al).
Proof.
  induction es as [|[[a0 b0] w0] es IH]; intros al al' H a b w Hin;
    [destruct Hin|].
  cbn [for_each] in H. apply bind_Ok in H. destruct H as [al1 [H1 H]].
  apply add_edge_Ok_inv in H1. destruct H1 as [Ha [Hb Hk]].
  destruct Hin as [[= -> -> ->]|Hin]; [tauto|].
  rewrite <- Hk. exact (IH _ _ H a b w Hin).
Qed.

Lemma store_edge_outcome (al : adjacency) (e : edge) :
  Analysis.store_edge al e = Raise KeyError \/
  exists al', Analysis.store_edge al e = Ok al'.
Proof.
  destruct e as [[a b] w]. unfold Analysis.store_edge, dict_at.
  destruct (dict_get al a) as [rowA|]; cbn [bind]; [|now left].
  destruct (dict_get (dict_set al a (dict_set rowA b w)) b); cbn [bind];
    [right; eauto | now left].
Qed.

Lemma store_edges_undeclared (es : list edge) :
  forall al : adjacency,
    (exists a b w, In (a, b, w) es /\
                   (~ In a (dict_keys al) \/ ~ In b (dict_keys al))) ->
    for_each Analysis.store_edge es al = Raise KeyError.
Proof.
  induction es as [|e es IH]; intros al [a [b [w [Hin Hbad]]]]; [destruct Hin|].
  cbn [for_each]. destruct (store_edge_outcome al e) as [H|[al' H]]; rewrite H.
  - reflexivity.
  - cbn [bind]. destruct e as [[a0 b0] w0].
    destruct (store_edge_spec _ _ _ _ _ H) as [Ha [Hb [Hk _]]].
    apply IH. exists a, b, w. rewrite Hk. split; [|exact Hbad].
    destruct Hin as [[= -> -> ->]|Hin]; [tauto | exact Hin].
Qed.

(** X2.  When an edge of the description names an undeclared vertex,
    [analyze_graph] returns no result, whatever the requested type
    (recognised or not) and root: it raises while building the adjacency
    model, and the fault is [KeyError] when every weight is within the range
    of doubles. *)
Theorem malformed_description_raises :
  forall (frames : nat) (g : graph_data) (ty : string) (root : option Z)
         (a b w : Z),
    In (a, b, w) (edges g) ->
    ~ In a (vertices g) \/ ~ In b (vertices g) ->
    (forall r, Analysis.analyze_graph frames ty root g <> Ok r) /\
    (finite_weights g ->
     Analysis.analyze_graph frames ty root g = Raise KeyError).
Proof.
  intros frames g ty root a b w Hin Hbad.
  destruct (add_vertices_spec (vertices g) []) as [al0 [H0 [Hk0 _]]].
  assert (Hbad0 : ~ In a (dict_keys al0) \/ ~ In b (dict_keys al0)).
  { rewrite !Hk0. simpl. tauto. }
  split.
  - assert (Hbuild : forall al, Analysis.build_AL g <> Ok al).
    { intros al Hal. unfold Analysis.build_AL in Hal. rewrite H0 in Hal.
      cbn [bind] in Hal.
      destruct (add_edges_Ok_inv _ _ _ Hal a b w Hin). tauto. }
    intros r. unfold Analysis.analyze_graph.
    destruct (Analysis.build_AL g) as [al| |] eqn:E; cbn [bind];
      [exfalso; exact (Hbuild al eq_refl) | discriminate | discriminate].
  - intros Hfin.
    assert (Hbuild : Analysis.build_AL g = Raise KeyError).
    { unfold Analysis.build_AL. rewrite H0. cbn [bind].
      rewrite (add_edges_stored (edges g) Hfin).
      apply store_edges_undeclared.
      exists a, b, (round53 w). split; [|exact Hbad0].
      change (a, b, round53 w) with (stored_edge (a, b, w)). now apply in_map. }
    unfold Analysis.analyze_graph. now rewrite Hbuild.
Qed.

Lemma malformed_description_raises_witness :
  Analysis.analyze_graph 1000 "mst" None
    {| vertices := [0; 1]; edges := [(0, 1, 1); (1, 2, 5)] |}
  = Raise KeyError.
Proof.
  destruct (malformed_description_raises 1000%nat
              {| vertices := [0; 1]; edges := [(0, 1, 1); (1, 2, 5)] |}
              "mst" None 1 2 5) as [_ H].
  - simpl. auto.
  - right. simpl. intuition lia.
  - apply H. intros a b w Hin. simpl in Hin.
    repeat (destruct Hin as [Hin|Hin]; [injection Hin as <- <- <-; reflexivity|]).
    destruct Hin.
Defined.

(** An integer of magnitude 2^1024 or more has no nearest double. *)
Lemma round53_large (x : Z) :
  2 ^ 1024 <= Z.abs x -> 2 ^ 1024 <= Z.abs (round53 x).
Proof.
  intros H. unfold round53. cbv zeta.
  assert (Hpos : 0 < Z.abs x).
  { assert (0 < 2 ^ 1024) by (apply Z.pow_pos_nonneg; lia). lia. }
  assert (He : 1024 <= Z.log2 (Z.abs x)) by (apply Z.log2_le_pow2; lia).
  destruct (Z.log2 (Z.abs x) <? 53) eqn:E; [apply Z.ltb_lt in E; lia|].
  set (e := Z.log2 (Z.abs x)) in *. set (s := e - 52).
  assert (Hs : 0 < 2 ^ s) by (apply Z.pow_pos_nonneg; lia).
  assert (Hq : 2 ^ 52 <= Z.abs x / 2 ^ s).
  { apply Z.div_le_lower_bound; [exact Hs|].
    rewrite Z.mul_comm, <- Z.pow_add_r by lia.
    replace (52 + s) with e by (unfold s; lia).
    apply Z.log2_spec. exact Hpos. }
  set (q := Z.abs x / 2 ^ s) in *.
  assert (Hq' : 2 ^ 52 <= (if (2 ^ (s - 1) <? Z.abs x mod 2 ^ s)
                              || ((Z.abs x mod 2 ^ s =? 2 ^ (s - 1)) && Z.odd q)
                           then q + 1 else q)).
  { destruct ((2 ^ (s - 1) <? Z.abs x mod 2 ^ s)
              || ((Z.abs x mod 2 ^ s =? 2 ^ (s - 1)) && Z.odd q)); lia. }
  set (q' := if (2 ^ (s - 1) <? Z.abs x mod 2 ^ s)
                || ((Z.abs x mod 2 ^ s =? 2 ^ (s - 1)) && Z.odd q)
             then q + 1 else q) in *.
  assert (Hbig : 2 ^ 1024 <= q' * 2 ^ s).
  { apply Z.le_trans with (2 ^ 52 * 2 ^ s); [|nia].
    rewrite <- Z.pow_add_r by lia. apply Z.pow_le_mono_r; unfold s; lia. }
  assert (Hsgn : Z.abs (Z.sgn x) = 1).
  { destruct (Z.sgn_spec x) as [[_ ->]|[[H0 _]|[_ ->]]]; [reflexivity | | reflexivity].
    subst x. simpl in Hpos. lia. }
  rewrite Z.abs_mul, Hsgn, Z.mul_1_l. lia.
Qed.

Lemma float_of_int_large (w : Z) :
  2 ^ 1024 <= Z.abs w -> float_of_int w = Raise OverflowError.
Proof.
  intros H. apply round53_large in H. unfold float_of_int. cbv zeta.
  unfold float_inf.
  destruct (2 ^ 1024 <=? Z.abs (round53 w)) eqn:E; [reflexivity|].
  apply Z.leb_gt in E. lia.
Qed.

Lemma add_edges_overflow (es : list edge) :
  forall al : adjacency,
    (forall a b w, In (a, b, w) es ->
                   In a (dict_keys al) /\ In b (dict_keys al)) ->
    (exists a b w, In (a, b, w) es /\ 2 ^ 1024 <= Z.abs w) ->
    for_each Analysis.add_edge es al = Raise OverflowError.
Proof.
  induction es as [|[[a0 b0] w0] es IH]; intros al Hkeys [a [b [w [Hin Hbig]]]];
    [destruct Hin|].
  cbn [for_each]. unfold Analysis.add_edge at 1.
  destruct (float_of_int w0) as [f| |] eqn:Ef; cbn [bind].
  - destruct (Hkeys a0 b0 w0) as [Ha0 Hb0]; [now left|].
    destruct (store_edge_Ok al a0 b0 f Ha0 Hb0) as [al1 H1]. rewrite H1.
    cbn [bind]. destruct (store_edge_spec _ _ _ _ _ H1) as [_ [_ [Hk _]]].
    apply IH.
    + intros a' b' w' Hin'. rewrite Hk. apply (Hkeys a' b' w'). now right.
    + destruct Hin as [[= -> -> ->]|Hin]; [|eauto].
      rewrite (float_of_int_large w Hbig) in Ef. discriminate.
  - unfold float_of_int in Ef. cbv zeta in Ef.
    destruct (float_inf <=? Z.abs (round53 w0)); congruence.
  - unfold float_of_int in Ef. cbv zeta in Ef.
    destruct (float_inf <=? Z.abs (round53 w0)); discriminate.
Qed.

(** X15.  When every edge of the description joins declared vertices and
    some weight is an integer of magnitude 2^1024 or more, [analyze_graph]
    raises [OverflowError] while building the adjacency model, whatever the
    requested type (recognised or not) and root. *)
Theorem weight_beyond_doubles_raises :
  forall (frames : nat) (g : graph_data) (ty : string) (root : option Z)
         (a b w : Z),
    (forall a b w, In (a, b, w) (edges g) ->
                   In a (vertices g) /\ In b (vertices g)) ->
    In (a, b, w) (edges g) ->
    2 ^ 1024 <= Z.abs w ->
    Analysis.analyze_graph frames ty root g = Raise OverflowError.
Proof.
  intros frames g ty root a b w Hdecl Hin Hbig.
  assert (Hbuild : Analysis.build_AL g = Raise OverflowError).
  { unfold Analysis.build_AL.
    destruct (add_vertices_spec (vertices g) []) as [al0 [H0 [Hk0 _]]].
    rewrite H0. cbn [bind]. apply add_edges_overflow; [|eauto].
    intros a' b' w' Hin'. rewrite !Hk0. simpl.
    destruct (Hdecl a' b' w' Hin'). tauto. }
  unfold Analysis.analyze_graph. now rewrite Hbuild.
Qed.

Lemma weight_beyond_doubles_raises_witness :
  Analysis.analyze_graph 1000 "reachable_nodes" (Some 0)
    {| vertices := [0; 1]; edges := [(0, 1, - 2 ^ 1024)] |}
  = Raise OverflowError.
Proof.
  apply (weight_beyond_doubles_raises 1000%nat
           {| vertices := [0; 1]; edges := [(0, 1, - 2 ^ 1024)] |}
           "reachable_nodes" (Some 0) 0 1 (- 2 ^ 1024)).
  - simpl. intros a b w [H|[]]. injection H as <- <- <-. auto.
  - simpl. auto.
  - rewrite Z.abs_opp, Z.abs_eq; [lia | apply Z.pow_nonneg; lia].
Defined.

(** ** Rooted analyses *)

Lemma analyze_reachable_nodes (frames : nat) (root : Z) (g : graph_data) :
  Analysis.analyze_graph frames "reachable_nodes" (Some root) g
  = bind (Analysis.build_AL g) (Analysis.reachable_nodes root).
Proof. reflexivity. Qed.

Lemma add_edges_Ok_finite (es : list edge) :
  forall al al' : adjacency,
    for_each Analysis.add_edge es al = Ok al' ->
    forall a b w, In (a, b, w) es -> float_of_int w = Ok (round53 w).
Proof.
  induction es as [|[[a0 b0] w0] es IH]; intros al al' H a b w Hin;
    [destruct Hin|].
  cbn [for_each] in H. apply bind_Ok in H. destruct H as [al1 [H1 H]].
  destruct Hin as [[= -> -> ->]|Hin]; [|exact (IH _ _ H a b w Hin)].
  unfold Analysis.add_edge in H1. apply bind_Ok in H1.
  destruct H1 as [f [Hf _]]. unfold float_of_int in *. cbv zeta in *.
  now destruct (float_inf <=? Z.abs (round53 w)).
Qed.

(** The adjacency build returns only when every weight converts. *)
Lemma build_AL_Ok_finite (g : graph_data) (al : adjacency) :
  Analysis.build_AL g = Ok al -> finite_weights g.
Proof.
  unfold Analysis.build_AL. intros H. apply bind_Ok in H.
  destruct H as [al0 [_ H]]. exact (add_edges_Ok_finite _ _ _ H).
Qed.

Lemma undeclared_root_KeyError (frames : nat) (g : graph_data) (root : Z) :
  well_formed g ->
  finite_weights g ->
  ~ In root (vertices g) ->
  Analysis.analyze_graph frames "shortest_paths" (Some root) g
  = Raise KeyError /\
  Analysis.analyze_graph frames "reachable_nodes" (Some root) g
  = Raise KeyError.
Proof.
  intros Hwf Hfin Hroot.
  destruct (build_AL_adj g Hwf Hfin) as [al [Hal [_ [Hk _]]]].
  assert (Hnone : dict_get al root = None).
  { destruct (dict_get al root) eqn:E; [|reflexivity].
    exfalso. apply Hroot, Hk. eapply dict_get_Some_keys; eauto. }
  split.
  - rewrite analyze_shortest_paths, Hal. cbn [bind].
    unfold Analysis.shortest_paths, Analysis.dijkstra_fuel.
    cbn [Analysis.dijkstra Analysis.pq Heap.heappop Heap.pop_from
         Analysis.visited mem].
    unfold dict_at. now rewrite Hnone.
  - rewrite analyze_reachable_nodes, Hal. cbn [bind].
    unfold Analysis.reachable_nodes, Analysis.bfs_fuel. cbn [Analysis.bfs].
    unfold dict_at. now rewrite Hnone.
Qed.

(** X3.  On a well-formed description a root that is not declared makes
    the two rooted analyses return no result; when the weights are within
    the range of doubles they raise [KeyError] at the first
    [graph_AL[root]]. *)
Theorem undeclared_root_raises :
  forall (frames : nat) (g : graph_data) (root : Z),
    well_formed g ->
    ~ In root (vertices g) ->
    ((forall r, Analysis.analyze_graph frames "shortest_paths" (Some root) g
                <> Ok r) /\
     (forall r, Analysis.analyze_graph frames "reachable_nodes" (Some root) g
                <> Ok r)) /\
    (finite_weights g ->
     Analysis.analyze_graph frames "shortest_paths" (Some root) g
     = Raise KeyError /\
     Analysis.analyze_graph frames "reachable_nodes" (Some root) g
     = Raise KeyError).
Proof.
  intros frames g root Hwf Hroot.
  split; [|intros Hfin; now apply undeclared_root_KeyError].
  destruct (Analysis.build_AL g) as [al| |] eqn:Hal.
  - destruct (undeclared_root_KeyError frames g root Hwf
                (build_AL_Ok_finite g al Hal) Hroot) as [-> ->].
    split; discriminate.
  - rewrite analyze_shortest_paths, analyze_reachable_nodes, Hal.
    split; discriminate.
  - rewrite analyze_shortest_paths, analyze_reachable_nodes, Hal.
    split; discriminate.
Qed.

Lemma undeclared_root_raises_witness :
  Analysis.analyze_graph 1000 "shortest_paths" (Some 7)
    {| vertices := [0; 1]; edges := [(0, 1, 1)] |} = Raise KeyError /\
  Analysis.analyze_graph 1000 "reachable_nodes" (Some 7)
    {| vertices := [0; 1]; edges := [(0, 1, 1)] |} = Raise KeyError.
Proof.
  destruct (undeclared_root_raises 1000%nat
              {| vertices := [0; 1]; edges := [(0, 1, 1)] |} 7) as [_ H].
  - split.
    + simpl. repeat constructor; simpl; intuition lia.
    + simpl. intros a b w [H|[]]. injection H as <- <- <-. intuition.
  - simpl. intuition lia.
  - apply H. intros a b w [Hin|[]]. injection Hin as <- <- <-. reflexivity.
Defined.

Lemma bfs_NoDup (al : adjacency) :
  forall (fuel : nat) (reached queue R : list Z),
    NoDup reached -> Analysis.bfs fuel al reached queue = Ok R -> NoDup R.
Proof.
  induction fuel as [|fuel IH]; intros reached queue R Hnd H;
    destruct queue as [|cur queue]; simpl in H; try congruence;
    try (injection H as <-; exact Hnd).
  apply bind_Ok in H. destruct H as [row [_ H]].
  destruct (bfs_row_spec row reached queue) as [news [H1 [H2 [H3 _]]]].
  rewrite H1 in H. cbn [bind] in H. apply (IH _ _ _ ) in H; [exact H|].
  apply NoDup_app; [now apply NoDup_rev | exact Hnd|].
  intros x Hx Hx'. apply in_rev in Hx. destruct (H3 x Hx). auto.
Qed.

Lemma reachable_nodes_output (frames : nat) (g : graph_data) (root : Z) :
  well_formed g ->
  finite_weights g ->
  In root (vertices g) ->
  exists R,
    Analysis.analyze_graph frames "reachable_nodes" (Some root) g
    = Ok {| type := "reachable_nodes"; data := DReachable root R |} /\
    NoDup R /\
    forall v, In v R <-> reachable g root v.
Proof.
  intros Hwf Hfin Hroot.
  destruct (build_AL_adj g Hwf Hfin) as [al [Hal _]].
  destruct (bfs_reachable g al root Hwf Hfin Hal Hroot) as [R [HR Hiff]].
  exists R. split; [|split; [|exact Hiff]].
  - rewrite analyze_reachable_nodes, Hal. cbn [bind].
    unfold Analysis.reachable_nodes. now rewrite HR.
  - eapply bfs_NoDup; [|exact HR]. repeat constructor. simpl. tauto.
Qed.

(** X4.  On a well-formed description with a declared root and weights
    within the range of doubles, [reachable_nodes] returns the root and a
    duplicate-free list that holds exactly the vertices reachable from the
    root. *)
Theorem reachable_nodes_exact :
  forall (frames : nat) (g : graph_data) (root : Z),
    well_formed g ->
    finite_weights g ->
    In root (vertices g) ->
    exists R,
      Analysis.analyze_graph frames "reachable_nodes" (Some root) g
      = Ok {| type := "reachable_nodes"; data := DReachable root R |} /\
      NoDup R /\
      forall v, In v R <-> reachable g root v.
Proof. exact reachable_nodes_output. Qed.

Lemma reachable_nodes_exact_witness :
  exists R,
    Analysis.analyze_graph 1000 "reachable_nodes" (Some 0)
      {| vertices := [0; 1; 2]; edges := [(0, 1, 1)] |}
    = Ok {| type := "reachable_nodes"; data := DReachable 0 R |} /\
    NoDup R /\
    forall v, In v R <->
              reachable {| vertices := [0; 1; 2]; edges := [(0, 1, 1)] |} 0 v.
Proof.
  apply (reachable_nodes_exact 1000%nat
           {| vertices := [0; 1; 2]; edges := [(0, 1, 1)] |} 0).
  - split.
    + simpl. repeat constructor; simpl; intuition lia.
    + simpl. intros a b w [H|[]]. injection H as <- <- <-. intuition.
  - intros a b w [H|[]]. injection H as <- <- <-. reflexivity.
  - simpl. auto.
Defined.

(** ** Cycle detection decides acyclicity *)

Lemma last_cons_default (x d : Z) (l : list Z) : last (x :: l) d = last l x.
Proof.
  revert x d. induction l as [|y l IH]; intros x d; [reflexivity|].
  change (last (x :: y :: l) d) with (last (y :: l) d). now rewrite !IH.
Qed.

(** A call of [dfs] that returns without a cycle has followed every walk
    that leaves its vertex without turning back. *)
Lemma dfs_follows_walk (al : adjacency) :
  forall (l : list Z) (cur : Z) (anc : list Z) (fuel : nat) (s s' : list Z),
    Analysis.dfs fuel al s cur anc = Ok (s', None) ->
    chain (al_adj al) (cur :: l) ->
    no_uturn (cur :: l) ->
    match l with [] => True | x :: _ => Analysis.not_parent x anc = true end ->
    exists fuel' s1 s1' anc',
      Analysis.dfs fuel' al s1 (last l cur) anc' = Ok (s1', None) /\
      incl anc anc' /\ (l <> [] -> In cur anc').
Proof.
  induction l as [|x l IH]; intros cur anc fuel s s' H Hch Hnu Hnp.
  - exists fuel, s, s', anc. split; [exact H|]. split; [apply incl_refl | congruence].
  - apply dfs_None_inv in H. destruct H as [f1 [row [-> [Hcur [Hrow Hn]]]]].
    destruct Hch as [Hcx Hch].
    destruct (Hn x) as [s1 [s1' H1]];
      [now apply (al_adj_keys al cur x row) | exact Hnp|].
    destruct (IH x (cur :: anc) f1 s1 s1' H1 Hch) as [f2 [s2 [s2' [anc' [H2 [Hi _]]]]]].
    + destruct l as [|y l]; [exact I | apply Hnu].
    + destruct l as [|y l]; [exact I|]. destruct Hnu as [Hne _].
      simpl. apply negb_true_iff, Z.eqb_neq. congruence.
    + exists f2, s2, s2', anc'. rewrite last_cons_default.
      split; [exact H2|]. split.
      * intros z Hz. apply Hi. now right.
      * intros _. apply Hi. now left.
Qed.

(** An explored vertex lies on no cycle and carries no self-loop. *)
Lemma explored_not_on_cycle (al : adjacency) (c : Z) (mid : list Z) :
  (forall x y, al_adj al x y -> al_adj al y x) ->
  explored al c ->
  NoDup (mid ++ [c]) -> length mid <> 1%nat ->
  chain (al_adj al) (c :: mid ++ [c]) -> False.
Proof.
  intros Hsym [fuel [seen [anc [seen' H]]]] Hnd Hlen Hch.
  assert (Hgo : forall m, chain (al_adj al) (c :: m ++ [c]) ->
                  no_uturn (c :: m ++ [c]) ->
                  Analysis.not_parent (hd c m) anc = true -> False).
  { intros m Hc Hu Hnp.
    destruct (dfs_follows_walk al (m ++ [c]) c anc fuel seen seen' H Hc Hu)
      as [f [s1 [s1' [anc' [H1 [_ Hin]]]]]].
    - destruct m; exact Hnp.
    - rewrite last_last in H1. apply dfs_None_inv in H1.
      destruct H1 as [_ [_ [_ [Hout _]]]]. apply Hout, Hin.
      destruct m; discriminate. }
  assert (Hc : ~ In c anc).
  { apply dfs_None_inv in H. now destruct H as [_ [_ [_ [Hout _]]]]. }
  destruct mid as [|a0 [|a1 mid]]; [| simpl in Hlen; congruence |].
  - apply (Hgo []); [exact Hch | exact I|]. simpl.
    destruct anc as [|p rest]; [reflexivity|]. simpl.
    apply negb_true_iff, Z.eqb_neq. intros ->. apply Hc. now left.
  - destruct (Analysis.not_parent a0 anc) eqn:E.
    + apply (Hgo (a0 :: a1 :: mid)); [exact Hch | | exact E].
      apply cycle_no_uturn; [exact Hnd | simpl; lia].
    + assert (Hnd' : NoDup (rev (a0 :: a1 :: mid) ++ [c])).
      { apply NoDup_rev in Hnd. rewrite rev_app_distr in Hnd.
        change (rev [c] ++ rev (a0 :: a1 :: mid))
          with (c :: rev (a0 :: a1 :: mid)) in Hnd.
        inversion Hnd as [|? ? Hx Hl]; subst.
        apply NoDup_app; [exact Hl | repeat constructor; simpl; tauto|].
        intros x Hx' [<-|[]]. tauto. }
      apply (Hgo (rev (a0 :: a1 :: mid))).
      * apply (chain_rev (al_adj al) Hsym) in Hch.
        change (c :: (a0 :: a1 :: mid) ++ [c])
          with ([c] ++ ((a0 :: a1 :: mid) ++ [c])) in Hch.
        rewrite !rev_app_distr in Hch. exact Hch.
      * apply cycle_no_uturn; [exact Hnd' | rewrite length_rev; simpl; lia].
      * destruct anc as [|p rest]; [reflexivity|]. simpl in E.
        apply negb_false_iff, Z.eqb_eq in E. subst p.
        simpl. apply negb_true_iff, Z.eqb_neq.
        apply NoDup_app_remove_r in Hnd. inversion Hnd as [|? ? Ha0 _]; subst.
        destruct (rev mid ++ [a1]) as [|z zs] eqn:Ez;
          [destruct (rev mid); discriminate|].
        simpl. intros ->. apply Ha0.
        assert (Hin : In a0 (rev mid ++ [a1])) by (rewrite Ez; now left).
        apply in_app_or in Hin.
        destruct Hin as [Hin|[<-|[]]]; [right; now apply in_rev | now left].
Qed.

(** X5.  On a well-formed description without self-loops, with weights
    within the range of doubles and fewer vertices than the interpreter
    allows nested calls, [has_cycle] decides whether the graph has a cycle:
    it returns [False] when no closed walk over distinct vertices has four or
    more elements (three or more vertices), and otherwise such a closed walk
    of the graph. *)
Theorem has_cycle_decides_acyclicity :
  forall (frames : nat) (g : graph_data) (root : option Z),
    well_formed g ->
    finite_weights g ->
    (length (vertices g) < frames)%nat ->
    (forall u, ~ adjacent (edges g) u u) ->
    exists d,
      Analysis.analyze_graph frames "has_cycle" root g
      = Ok {| type := "has_cycle"; data := d |} /\
      ((d = DBool false /\
        forall cycle, closed_walk (adjacent (edges g)) cycle ->
                      (length cycle < 4)%nat) \/
       (exists cycle, d = DCycle cycle /\
          closed_walk (adjacent (edges g)) cycle /\ (4 <= length cycle)%nat)).
Proof.
  intros frames g root Hwf Hfin Hframes Hloop.
  destruct (has_cycle_spec frames g root Hwf Hfin Hframes)
    as [al [d [Hal [Hadj [Hres Hd]]]]].
  exists d. split; [exact Hres|].
  destruct Hd as [[-> Hall]|[cycle [-> [Hcw Hlen]]]].
  - left. split; [reflexivity|]. intros cycle [c [mid [-> [Hnd Hch]]]].
    destruct (Nat.lt_ge_cases (length (c :: mid ++ [c])) 4) as [Hlt|Hge];
      [exact Hlt|].
    exfalso. simpl in Hge. rewrite length_app in Hge. simpl in Hge.
    assert (Hc : In c (vertices g)).
    { destruct mid as [|a0 mid]; [simpl in Hge; lia|].
      destruct Hch as [Hca _].
      now destruct (adjacent_declared g c a0 Hwf Hca). }
    apply (explored_not_on_cycle al c mid).
    + intros x y Hxy. apply Hadj, adjacent_sym, Hadj, Hxy.
    + now apply Hall.
    + exact Hnd.
    + lia.
    + eapply chain_impl; [|exact Hch]. intros x y Hxy. now apply Hadj.
  - right. exists cycle. split; [reflexivity|]. split; [exact Hcw|].
    now apply Hlen.
Qed.

Lemma has_cycle_decides_acyclicity_witness :
  exists d,
    Analysis.analyze_graph 1000 "has_cycle" None
      {| vertices := [0; 1; 2; 3];
         edges := [(0, 1, 1); (1, 2, 2); (2, 3, 1); (3, 0, 4)] |}
    = Ok {| type := "has_cycle"; data := d |} /\
    ((d = DBool false /\
      forall cycle,
        closed_walk (adjacent [(0, 1, 1); (1, 2, 2); (2, 3, 1); (3, 0, 4)]) cycle ->
        (length cycle < 4)%nat) \/
     (exists cycle, d = DCycle cycle /\
        closed_walk (adjacent [(0, 1, 1); (1, 2, 2); (2, 3, 1); (3, 0, 4)]) cycle /\
        (4 <= length cycle)%nat)).
Proof.
  apply (has_cycle_decides_acyclicity 1000%nat
           {| vertices := [0; 1; 2; 3];
              edges := [(0, 1, 1); (1, 2, 2); (2, 3, 1); (3, 0, 4)] |} None).
  - split.
    + simpl. repeat constructor; simpl; intuition lia.
    + simpl. intros a b w H.
      repeat (destruct H as [H|H]; [injection H as <- <- <-; intuition|]).
      destruct H.
  - intros a b w H. simpl in H.
    repeat (destruct H as [H|H]; [injection H as <- <- <-; reflexivity|]).
    destruct H.
  - simpl. lia.
  - intros u [e [H Hj]]. simpl in H.
    repeat (destruct H as [H|H];
            [subst e; unfold joins in Hj; apply orb_true_iff in Hj;
             rewrite !andb_true_iff, !Z.eqb_eq in Hj; lia|]).
    destruct H.
Defined.

(** ** Dijkstra's distances are minimal *)

Section DijkstraMinimal.
Variable al : adjacency.
Variable es : list edge.
Variable root : Z.
Hypothesis al_closed : closed_AL al.
Hypothesis al_weights : forall u v, lookup2 al u v = edge_weight es u v.
Hypothesis nonneg : forall u v w, edge_weight es u v = Some w -> 0 <= w.
Variable M : Z.
Hypothesis M_nonneg : 0 <= M.
Hypothesis bounded : forall u v w, edge_weight es u v = Some w -> w <= M.
Hypothesis sums_exact : Z.of_nat (length al) * M < 2 ^ 53.

(** One relaxation keeps the relaxed edges relaxed and relaxes its own. *)
Lemma relax_relaxed (done : list Z) (st st' : Analysis.dijkstra_state)
    (cur dc dest w : Z) :
  dijkstra_inv al es root done st ->
  relaxing cur dc st ->
  lookup2 al cur dest = Some w ->
  incl done (Analysis.visited st) ->
  relaxed_edges al done (Analysis.dist st) ->
  Analysis.relax cur st (dest, w) = Ok st' ->
  relaxed_edges al done (Analysis.dist st') /\
  (exists dd, dict_get (Analysis.dist st') dest = Some dd /\ dd <= w + dc) /\
  lowers (Analysis.dist st) (Analysis.dist st').
Proof.
  intros Hinv [Hcur [Hcv Hmax]] Hw Hdone Hrel H.
  pose proof (relax_exact al es root al_weights nonneg M M_nonneg bounded
                sums_exact done st cur dc dest w Hinv Hcur Hw) as Hex.
  assert (Hw0 : 0 <= w) by (apply (nonneg cur dest); now rewrite <- al_weights).
  assert (Hsame : lowers (Analysis.dist st) (Analysis.dist st)).
  { intros v dv Hv. exists dv. split; [exact Hv | lia]. }
  assert (Hupd : dict_get (Analysis.dist st) dest = None \/
                 (exists dd, dict_get (Analysis.dist st) dest = Some dd /\
                             w + dc < dd) ->
                 Analysis.relax_update cur dest w st = Ok st' ->
                 relaxed_edges al done (Analysis.dist st') /\
                 (exists dd, dict_get (Analysis.dist st') dest = Some dd /\
                             dd <= w + dc) /\
                 lowers (Analysis.dist st) (Analysis.dist st')).
  { intros Hcase Hu. unfold Analysis.relax_update, dict_at in Hu.
    rewrite Hcur in Hu. cbn [bind] in Hu. cbv zeta in Hu. rewrite Hex in Hu.
    injection Hu as <-.
    cbn [Analysis.dist].
    assert (Hnv : ~ In dest (Analysis.visited st)).
    { intros Hv. pose proof (inv_visited _ _ _ _ _ Hinv dest Hv) as Hd.
      destruct (dict_get (Analysis.dist st) dest) as [dd|] eqn:E; [|congruence].
      specialize (Hmax dest dd Hv E).
      destruct Hcase as [C|[dd' [C Hlt]]]; [discriminate|].
      injection C as <-. lia. }
    split; [|split].
    - intros u v w' du Hu Hl Hdu.
      assert (Hud : u <> dest) by (intros ->; auto).
      rewrite dict_get_set_neq in Hdu by exact Hud.
      destruct (Hrel u v w' du Hu Hl Hdu) as [dv [Hdv Hle]].
      rewrite dict_get_set. destruct (v =? dest) eqn:E.
      + apply Z.eqb_eq in E. subst v. exists (w + dc). split; [reflexivity|].
        destruct Hcase as [C|[dd [C Hlt]]]; [congruence|].
        rewrite Hdv in C. injection C as <-. lia.
      + exists dv. split; [exact Hdv | exact Hle].
    - exists (w + dc). split; [apply dict_get_set_eq | lia].
    - intros v dv Hv. rewrite dict_get_set. destruct (v =? dest) eqn:E.
      + apply Z.eqb_eq in E. subst v. exists (w + dc). split; [reflexivity|].
        destruct Hcase as [C|[dd [C Hlt]]]; [congruence|].
        rewrite Hv in C. injection C as <-. lia.
      + exists dv. split; [exact Hv | lia]. }
  unfold Analysis.relax in H.
  destruct (dict_get (Analysis.dist st) dest) as [dd|] eqn:E.
  - unfold dict_at in H. rewrite Hcur in H. cbn [bind] in H. rewrite Hex in H.
    destruct (w + dc <? dd) eqn:Elt.
    + apply Z.ltb_lt in Elt. apply Hupd; [right; eauto | exact H].
    + apply Z.ltb_ge in Elt. injection H as <-.
      split; [exact Hrel|]. split; [|exact Hsame]. exists dd. split; [exact E | exact Elt].
  - apply Hupd; [now left | exact H].
Qed.

Lemma lowers_trans (d1 d2 d3 : dict Z) :
  lowers d1 d2 -> lowers d2 d3 -> lowers d1 d3.
Proof.
  intros H12 H23 v dv Hv. destruct (H12 v dv Hv) as [d' [H1 L1]].
  destruct (H23 v d' H1) as [d'' [H2 L2]]. exists d''. split; [exact H2 | lia].
Qed.

Lemma relax_row_relaxed (done : list Z) (cur dc : Z) (row : dict Z) :
  (forall d w, In (d, w) row -> lookup2 al cur d = Some w) ->
  forall st st',
    dijkstra_inv al es root done st ->
    relaxing cur dc st ->
    incl done (Analysis.visited st) ->
    relaxed_edges al done (Analysis.dist st) ->
    for_each (Analysis.relax cur) row st = Ok st' ->
    relaxed_edges al done (Analysis.dist st') /\
    (forall d w, In (d, w) row ->
       exists dd, dict_get (Analysis.dist st') d = Some dd /\ dd <= w + dc) /\
    lowers (Analysis.dist st) (Analysis.dist st').
Proof.
  induction row as [|[d w] row IH]; intros Hrow st st' Hinv Hrel Hdone Hre H.
  - injection H as <-. split; [exact Hre|]. split; [intros d w []|].
    intros v dv Hv. exists dv. split; [exact Hv | lia].
  - cbn [for_each] in H. apply bind_Ok in H. destruct H as [st1 [H1 H]].
    assert (Hdw : lookup2 al cur d = Some w) by (apply Hrow; now left).
    destruct (relax_inv al es root al_closed al_weights nonneg
                M M_nonneg bounded sums_exact done st cur dc d w Hinv Hrel Hdw)
      as [st1' [H1' [Hinv1 [Hrel1 [Hv1 _]]]]].
    assert (st1' = st1) by congruence. subst st1'.
    destruct (relax_relaxed done st st1 cur dc d w Hinv Hrel Hdw Hdone Hre H1)
      as [Hre1 [Hd1 Hlow1]].
    destruct (IH (fun d' w' Hin => Hrow d' w' (or_intror Hin)) st1 st' Hinv1 Hrel1)
      as [Hre' [Hrow' Hlow']]; [now rewrite Hv1 | exact Hre1 | exact H|].
    split; [exact Hre'|]. split; [|eapply lowers_trans; eauto].
    intros d' w' [[= <- <-]|Hin]; [|now apply Hrow'].
    destruct Hd1 as [dd [Hdd Hle]]. destruct (Hlow' d dd Hdd) as [dd' [Hdd' Hle']].
    exists dd'. split; [exact Hdd' | lia].
Qed.

(** The main loop relaxes every edge that leaves a visited vertex. *)
Lemma dijkstra_relaxed :
  forall (fuel : nat) (st st' : Analysis.dijkstra_state),
    dijkstra_inv al es root (Analysis.visited st) st ->
    relaxed_edges al (Analysis.visited st) (Analysis.dist st) ->
    Analysis.dijkstra fuel al st = Ok st' ->
    relaxed_edges al (Analysis.visited st') (Analysis.dist st').
Proof.
  induction fuel as [|fuel IH]; intros st st' Hinv Hre Hrun;
    pose proof (heappop_spec Heap.leb2 leb2_refl leb2_total leb2_trans
                  (Analysis.pq st)) as Hpop;
    cbn [Analysis.dijkstra] in Hrun;
    destruct (Heap.heappop Heap.leb2 (Analysis.pq st)) as [[[k cur] pq']|] eqn:Epop;
    try discriminate; try (injection Hrun as <-; exact Hre).
  destruct Hpop as [Hmin [Hmem Hlen]].
  assert (Hin : In (k, cur) (Analysis.pq st)) by (apply Hmem; now left).
  destruct (mem cur (Analysis.visited st)) eqn:Ev.
  - apply mem_In in Ev. apply IH in Hrun; [exact Hrun | | exact Hre].
    destruct Hinv as [A B C D E F G H].
    constructor; cbn [Analysis.visited Analysis.pq Analysis.dist Analysis.pred].
    + exact A.
    + exact B.
    + intros v d Hd. destruct (C v d Hd) as [C1 [C2 [p C3]]].
      split; [exact C1|]. split; [exact C2|]. exists p.
      eapply good_path_visit; [| |exact C3]; [reflexivity|apply incl_refl].
    + exact D.
    + intros u du k' x Hu Hdu Hx. apply (E u du k' x Hu Hdu). apply Hmem. now right.
    + intros k' x Hx. apply F. apply Hmem. now right.
    + intros v d Hd Hv. specialize (G v d Hd Hv). apply Hmem in G.
      destruct G as [[= <- <-]|G]; [tauto | exact G].
    + exact H.
  - apply mem_not_In in Ev.
    destruct (inv_queue _ _ _ _ _ Hinv k cur Hin) as [dc [Hdc Hle]].
    assert (Hk : k = dc).
    { pose proof (inv_fringe _ _ _ _ _ Hinv cur dc Hdc Ev) as Hf.
      apply Hmem in Hf. destruct Hf as [[= ->]|Hf]; [reflexivity|].
      apply Hmin, leb2_fst in Hf. simpl in Hf. lia. }
    subst k. apply bind_Ok in Hrun. destruct Hrun as [row [Erow Hrun]].
    apply dict_at_Ok in Erow.
    apply bind_Ok in Hrun. destruct Hrun as [st2 [H2 Hrun]].
    set (st1 := {| Analysis.pred := Analysis.pred st;
                   Analysis.dist := Analysis.dist st;
                   Analysis.visited := cur :: Analysis.visited st;
                   Analysis.pq := pq' |}) in *.
    assert (Hinv1 : dijkstra_inv al es root (Analysis.visited st) st1).
    { destruct Hinv as [A B C D E F G H].
      constructor; cbn [Analysis.visited Analysis.pq Analysis.dist Analysis.pred st1].
      - exact A.
      - exact B.
      - intros v d Hd. destruct (C v d Hd) as [C1 [C2 [p C3]]].
        split; [exact C1|]. split; [exact C2|]. exists p.
        eapply good_path_visit; [| |exact C3]; [reflexivity|].
        intros x Hx. now right.
      - intros u [<-|Hu]; [congruence | auto].
      - intros u du k' x [<-|Hu] Hdu Hx.
        + assert (du = dc) by congruence. subst du.
          apply Hmin, leb2_fst in Hx. exact Hx.
        + apply (E u du k' x Hu Hdu). apply Hmem. now right.
      - intros k' x Hx. apply F. apply Hmem. now right.
      - intros v d Hd Hv.
        assert (Hv' : ~ In v (Analysis.visited st)) by (intros Hc; apply Hv; now right).
        specialize (G v d Hd Hv'). apply Hmem in G.
        destruct G as [[= <- <-]|G]; [exfalso; apply Hv; now left | exact G].
      - exact H. }
    assert (Hrel1 : relaxing cur dc st1).
    { split; [exact Hdc|]. split; [now left|].
      intros u du [<-|Hu] Hdu; [simpl in Hdu; assert (du = dc) by congruence; lia|].
      apply (inv_settled _ _ _ _ _ Hinv u du dc cur Hu Hdu Hin). }
    destruct al_closed as [Hnd Hrows]. destruct (Hrows _ _ Erow) as [Hrnd _].
    assert (Hrow : forall d w, In (d, w) row -> lookup2 al cur d = Some w).
    { intros d w Hdw. unfold lookup2. rewrite Erow. now apply In_dict_get. }
    destruct (relax_row al es root al_closed al_weights nonneg
                M M_nonneg bounded sums_exact
                (Analysis.visited st) cur dc row Hrow st1 Hinv1 Hrel1)
      as [st2' [H2' [Hinv2 [Hrel2 [Hv2 [_ [Hd2 _]]]]]]].
    assert (st2' = st2) by congruence. subst st2'.
    destruct (relax_row_relaxed (Analysis.visited st) cur dc row Hrow st1 st2
                Hinv1 Hrel1) as [Hre2 [Hrow2 _]];
      [intros x Hx; now right | exact Hre | exact H2|].
    apply IH in Hrun; [exact Hrun | |]; rewrite Hv2; cbn [Analysis.visited st1].
    + destruct Hinv2 as [A B C D E F G H].
      constructor; try assumption.
      intros u v [<-|Hu] Hadj; [|eauto].
      apply Hd2. now apply (al_adj_keys al cur v row).
    + intros u v w du [<-|Hu] Hl Hdu; [|eauto].
      destruct Hrel2 as [Hc2 _]. assert (du = dc) by congruence. subst du.
      apply Hrow2. unfold lookup2 in Hl. rewrite Erow in Hl.
      now apply dict_get_In.
Qed.

Hypothesis root_key : In root (dict_keys al).

(** After the run no walk from the root is lighter than the distance of
    its end. *)
Lemma dijkstra_minimal :
  exists st,
    Analysis.dijkstra (Analysis.dijkstra_fuel al) al
      {| Analysis.pred := [(root, None)]; Analysis.dist := [(root, 0)];
         Analysis.visited := []; Analysis.pq := [(0, root)] |} = Ok st /\
    forall q v dq, walk es root q v dq ->
      exists dv, dict_get (Analysis.dist st) v = Some dv /\ dv <= dq.
Proof.
  pose proof (dijkstra_initial al es root root_key) as Hinit.
  destruct (dijkstra_loop al es root al_closed al_weights nonneg
              M M_nonneg bounded sums_exact
              (Analysis.dijkstra_fuel al)
              {| Analysis.pred := [(root, None)]; Analysis.dist := [(root, 0)];
                 Analysis.visited := []; Analysis.pq := [(0, root)] |}
              Hinit) as [st [Hrun [Hinv Hpq]]].
  { cbn [Analysis.pq Analysis.visited]. rewrite pending_degree_nil.
    unfold Analysis.dijkstra_fuel. simpl. lia. }
  exists st. split; [exact Hrun|].
  assert (Hre : relaxed_edges al (Analysis.visited st) (Analysis.dist st)).
  { apply (dijkstra_relaxed (Analysis.dijkstra_fuel al)
             {| Analysis.pred := [(root, None)]; Analysis.dist := [(root, 0)];
                Analysis.visited := []; Analysis.pq := [(0, root)] |} st);
      [exact Hinit | | exact Hrun].
    intros u v w du []. }
  assert (Hvis : forall v d, dict_get (Analysis.dist st) v = Some d ->
                             In v (Analysis.visited st)).
  { intros v d Hd.
    destruct (in_dec Z.eq_dec v (Analysis.visited st)) as [Hi|Ho]; [exact Hi|].
    pose proof (inv_fringe _ _ _ _ _ Hinv v d Hd Ho) as G.
    rewrite Hpq in G. destruct G. }
  induction 1 as [|p u d v w Hw IH He].
  - exists 0. split; [apply (inv_root _ _ _ _ _ Hinv) | lia].
  - destruct IH as [du [Hdu Hle]].
    destruct (Hre u v w du) as [dv [Hdv Hle']];
      [eapply Hvis; eauto | now rewrite al_weights | exact Hdu|].
    exists dv. split; [exact Hdv | lia].
Qed.
End DijkstraMinimal.

Lemma path_weight_unsnoc (es : list edge) (p : list Z) (x x0 d : Z) :
  p <> [] -> path_weight es (p ++ [x]) = Some d ->
  exists d' w, path_weight es p = Some d' /\
               edge_weight es (last p x0) x = Some w /\ d = d' + w.
Proof.
  revert d. induction p as [|a [|b p] IH]; intros d Hne H; [congruence| |].
  - simpl in H. destruct (edge_weight es a x) as [w|] eqn:E; [|discriminate].
    injection H as <-. exists 0, w. simpl. split; [reflexivity|]. split; [exact E | lia].
  - change (path_weight es ((a :: b :: p) ++ [x])) with
      (match edge_weight es a b, path_weight es ((b :: p) ++ [x]) with
       | Some w, Some d => Some (w + d) | _, _ => None end) in H.
    destruct (edge_weight es a b) as [w1|] eqn:E1; [|discriminate].
    destruct (path_weight es ((b :: p) ++ [x])) as [d1|] eqn:E2; [|discriminate].
    injection H as <-.
    destruct (IH d1) as [d' [w [Hp [Hw Hd]]]]; [discriminate | reflexivity|].
    exists (w1 + d'), w.
    change (path_weight es (a :: b :: p)) with
      (match edge_weight es a b, path_weight es (b :: p) with
       | Some w, Some d => Some (w + d) | _, _ => None end).
    rewrite E1, Hp. split; [reflexivity|]. split; [exact Hw | lia].
Qed.

(** A vertex sequence with an accumulated weight is a walk. *)
Lemma path_weight_walk (es : list edge) (r : Z) (q : list Z) :
  forall d, path_weight es (r :: q) = Some d ->
            walk es r (r :: q) (last q r) d.
Proof.
  induction q as [|x q IH] using rev_ind; intros d H.
  - simpl in H. injection H as <-. constructor.
  - rewrite app_comm_cons in H.
    destruct (path_weight_unsnoc es (r :: q) x r d) as [d' [w [Hp [Hw ->]]]];
      [discriminate | exact H|].
    rewrite last_cons_default in Hw. rewrite last_last, app_comm_cons.
    apply walk_step with (last q r); [now apply IH | exact Hw].
Qed.

(** What [shortest_paths] returns, in terms of the final state of the main
    loop: every declared vertex with a distance is reported with it and a
    path, every other one as [[-1, None]]. *)
Lemma shortest_paths_output (frames : nat) (g : graph_data) (root M : Z) :
  well_formed g ->
  (forall a b w, In (a, b, w) (edges g) -> 0 <= w <= M) ->
  Z.of_nat (length (vertices g)) * M < 2 ^ 53 ->
  In root (vertices g) ->
  exists (st : Analysis.dijkstra_state) (paths : dict path_entry),
    Analysis.analyze_graph frames "shortest_paths" (Some root) g
    = Ok {| type := "shortest_paths"; data := DPaths root paths |} /\
    (forall q v dq, walk (edges g) root q v dq ->
       exists dv, dict_get (Analysis.dist st) v = Some dv /\ dv <= dq) /\
    forall v, In v (vertices g) ->
      exists p, dict_get paths v
                = Some (match dict_get (Analysis.dist st) v with
                        | Some d => Entry d (Path p)
                        | None => Entry (-1) PyNone
                        end).
Proof.
  intros Hwf Hw Hsmall Hroot.
  destruct (bounded_weights g M Hw Hsmall) as [Hex [Hnn' [Hle Hsmall']]].
  { intros E. rewrite E in Hroot. destruct Hroot. }
  destruct (build_AL_spec g Hwf Hex) as [al [Hal [Hcl [Hk [Hsize Hl]]]]].
  rewrite <- Hsize in Hsmall'.
  assert (Hrk : In root (dict_keys al)) by now apply Hk.
  destruct (dijkstra_run al (edges g) root Hcl Hl Hnn' (Z.max 0 M)
              (Z.le_max_l 0 M) Hle Hsmall' Hrk)
    as [st [Hrun [_ [Hkeys [Hpath _]]]]].
  destruct (dijkstra_minimal al (edges g) root Hcl Hl Hnn' (Z.max 0 M)
              (Z.le_max_l 0 M) Hle Hsmall' Hrk)
    as [st' [Hrun' Hmin]].
  assert (st' = st) by congruence. subst st'.
  set (bt := fun v => Analysis.backtrace (S (length (Analysis.pred st)))
                        (Analysis.pred st) (Some v) []).
  set (f := fun v => if dict_mem (Analysis.pred st) v
                     then match bt v with Ok p => Path p | _ => Path [] end
                     else Path []).
  assert (Hf : forall v, exists p, f v = Path p).
  { intros v. unfold f. destruct (dict_mem (Analysis.pred st) v); [|eauto].
    destruct (bt v); eauto. }
  destruct (fill_loop (Analysis.collect_path (Analysis.pred st)) f (vertices g))
    with (sp0 := @nil (Z * path_entry)) as [sp [Hsp [Hspv _]]].
  { intros sp0 v Hv. unfold Analysis.collect_path, f.
    destruct (dict_mem (Analysis.pred st) v) eqn:E; [|reflexivity].
    unfold dict_mem in E.
    destruct (dict_get (Analysis.dist st) v) as [d|] eqn:Ed.
    - destruct (Hpath v d Ed) as [p [Hp _]]. unfold bt. now rewrite Hp.
    - apply Hkeys in Ed. rewrite Ed in E. discriminate. }
  destruct Hwf as [Hnd Hedges].
  destruct (collect_distance_loop (Analysis.dist st) (vertices g) Hnd sp)
    as [sp' [Hsp' [Hsp'v _]]].
  { intros v Hv. rewrite Hspv by assumption. discriminate. }
  exists st, sp'. split; [|split; [exact Hmin|]].
  - rewrite analyze_shortest_paths, Hal. cbn [bind].
    unfold Analysis.shortest_paths. rewrite Hrun. cbn [bind].
    rewrite Hsp. cbn [bind]. rewrite Hsp'. reflexivity.
  - intros v Hv. destruct (Hf v) as [p Hp]. exists p.
    rewrite (Hsp'v _ (f v) Hv (Hspv _ Hv)), Hp.
    now destruct (dict_get (Analysis.dist st) v).
Qed.

(** X6.  On a well-formed description with integer weights between 0 and
    [M], where the number of vertices times [M] is below 2^53, and with a
    declared root, the distance that [shortest_paths] reports for a vertex
    is at most the accumulated weight of every walk of the graph from the
    root to that vertex. *)
Theorem shortest_paths_minimal :
  forall (frames : nat) (g : graph_data) (root M : Z),
    well_formed g ->
    (forall a b w, In (a, b, w) (edges g) -> 0 <= w <= M) ->
    Z.of_nat (length (vertices g)) * M < 2 ^ 53 ->
    In root (vertices g) ->
    exists paths : dict path_entry,
      Analysis.analyze_graph frames "shortest_paths" (Some root) g
      = Ok {| type := "shortest_paths"; data := DPaths root paths |} /\
      forall v q dq,
        In v (vertices g) ->
        hd_error q = Some root -> last q root = v ->
        path_weight (edges g) q = Some dq ->
        exists d p, dict_get paths v = Some (Entry d (Path p)) /\ d <= dq.
Proof.
  intros frames g root M Hwf Hw Hsmall Hroot.
  destruct (shortest_paths_output frames g root M Hwf Hw Hsmall Hroot)
    as [st [paths [Hres [Hmin Hout]]]].
  exists paths. split; [exact Hres|].
  intros v q dq Hv Hhd Hlast Hpw.
  destruct q as [|r q]; [discriminate|]. injection Hhd as ->.
  rewrite last_cons_default in Hlast. subst v.
  destruct (Hmin _ _ _ (path_weight_walk (edges g) root q dq Hpw))
    as [dv [Hdv Hle]].
  destruct (Hout _ Hv) as [p Hp]. rewrite Hdv in Hp.
  exists dv, p. split; [exact Hp | exact Hle].
Qed.

Lemma shortest_paths_minimal_witness :
  exists paths : dict path_entry,
    Analysis.analyze_graph 1000 "shortest_paths" (Some 0)
      {| vertices := [0; 1; 2]; edges := [(0, 1, 1); (1, 2, 2); (0, 2, 10)] |}
    = Ok {| type := "shortest_paths"; data := DPaths 0 paths |} /\
    forall v q dq,
      In v [0; 1; 2] ->
      hd_error q = Some 0 -> last q 0 = v ->
      path_weight [(0, 1, 1); (1, 2, 2); (0, 2, 10)] q = Some dq ->
      exists d p, dict_get paths v = Some (Entry d (Path p)) /\ d <= dq.
Proof.
  apply (shortest_paths_minimal 1000%nat
           {| vertices := [0; 1; 2]; edges := [(0, 1, 1); (1, 2, 2); (0, 2, 10)] |}
           0 10).
  - split.
    + simpl. repeat constructor; simpl; intuition lia.
    + simpl. intros a b w H.
      repeat (destruct H as [H|H]; [injection H as <- <- <-; intuition|]).
      destruct H.
  - simpl. intros a b w H.
    repeat (destruct H as [H|H]; [injection H as <- <- <-; lia|]).
    destruct H.
  - simpl. lia.
  - simpl. auto.
Defined.

(** ** Connectivity test and spanning tree *)

Lemma reachable_stored (g : graph_data) (u v : Z) :
  reachable (stored g) u v <-> reachable g u v.
Proof.
  unfold reachable. split; apply reach_ext; intros a b; apply adjacent_stored.
Qed.

(** [is_connected] and [mst] run the same search from the first declared
    vertex; [mst] goes on to Prim's algorithm when every vertex was reached,
    and returns a spanning tree of the description as stored. *)
Lemma connectivity_outcomes (frames : nat) (g : graph_data) (root : option Z)
    (v0 : Z) (vs : list Z) :
  well_formed g ->
  finite_weights g ->
  vertices g = v0 :: vs ->
  exists R,
    (forall v, In v R <-> reachable g v0 v) /\
    Analysis.analyze_graph frames "is_connected" root g
    = Ok {| type := "is_connected";
            data := DBool (Analysis.all_reached (vertices g) R) |} /\
    if Analysis.all_reached (vertices g) R
    then exists true_edges,
           Analysis.analyze_graph frames "mst" root g
           = Ok {| type := "mst"; data := DEdges true_edges |} /\
           spanning_tree (stored g) true_edges
    else Analysis.analyze_graph frames "mst" root g
         = Ok {| type := "mst"; data := DBool false |}.
Proof.
  intros Hwf Hfin Hvs.
  destruct (build_AL_stored_spec g Hwf Hfin) as [al [Hal [Hcl [Hk [_ Hl]]]]].
  assert (H0 : In v0 (vertices g)) by (rewrite Hvs; now left).
  destruct (bfs_reachable g al v0 Hwf Hfin Hal H0) as [R [HR Hiff]].
  exists R. split; [exact Hiff|]. split.
  { rewrite analyze_is_connected, Hal. cbn [bind].
    unfold Analysis.is_connected, Analysis.first_vertex. rewrite Hvs at 1.
    cbn [bind]. rewrite HR. reflexivity. }
  assert (Hmst : Analysis.analyze_graph frames "mst" root g
                 = if negb (Analysis.all_reached (vertices g) R)
                   then Ok {| type := "mst"; data := DBool false |}
                   else
                     bind (dict_at al v0) (fun row =>
                     bind (for_each (Analysis.push_root v0) row []) (fun pq =>
                     bind (Analysis.prim (Analysis.prim_fuel al) al [] [v0] pq)
                       (fun mst_edges =>
                          Ok {| type := "mst";
                                data := DEdges (map to_edge mst_edges) |})))).
  { rewrite analyze_mst, Hal. cbn [bind].
    unfold Analysis.mst, Analysis.first_vertex.
    rewrite Hvs at 1. cbn [bind]. rewrite HR. reflexivity. }
  destruct (Analysis.all_reached (vertices g) R) eqn:Eall; cbn [negb] in Hmst;
    [|exact Hmst].
  rewrite all_reached_spec in Eall.
  assert (Hconn : forall v, In v (vertices (stored g)) ->
                            reachable (stored g) v0 v).
  { intros v Hv. apply reachable_stored, Hiff. auto. }
  destruct (prim_run (stored g) al v0 (well_formed_stored g Hwf) Hcl Hl Hk H0 Hconn)
    as [row [pq [es [Hrow [Hpush [Hprim [Htree _]]]]]]].
  exists (map to_edge es). split; [|exact Htree].
  rewrite Hmst. unfold dict_at. rewrite Hrow. cbn [bind].
  rewrite Hpush. cbn [bind]. rewrite Hprim. reflexivity.
Qed.

(** X7.  On a well-formed description with at least one declared vertex and
    weights within the range of doubles, [mst] and [is_connected] agree:
    either [is_connected] returns [True] and [mst] returns a list of V-1
    edges, or both return [False]. *)
Theorem mst_agrees_with_is_connected :
  forall (frames : nat) (g : graph_data) (root root' : option Z) (v0 : Z)
         (vs : list Z),
    well_formed g ->
    finite_weights g ->
    vertices g = v0 :: vs ->
    (Analysis.analyze_graph frames "is_connected" root g
     = Ok {| type := "is_connected"; data := DBool true |} /\
     exists true_edges,
       Analysis.analyze_graph frames "mst" root' g
       = Ok {| type := "mst"; data := DEdges true_edges |} /\
       S (length true_edges) = length (vertices g)) \/
    (Analysis.analyze_graph frames "is_connected" root g
     = Ok {| type := "is_connected"; data := DBool false |} /\
     Analysis.analyze_graph frames "mst" root' g
     = Ok {| type := "mst"; data := DBool false |}).
Proof.
  intros frames g root root' v0 vs Hwf Hfin Hvs.
  destruct (connectivity_outcomes frames g root v0 vs Hwf Hfin Hvs)
    as [R [_ [Hic _]]].
  destruct (connectivity_outcomes frames g root' v0 vs Hwf Hfin Hvs)
    as [R' [_ [Hic' Hmst]]].
  assert (Hb : Analysis.all_reached (vertices g) R
               = Analysis.all_reached (vertices g) R').
  { assert (E : Analysis.analyze_graph frames "is_connected" root g
                = Analysis.analyze_graph frames "is_connected" root' g)
      by reflexivity.
    rewrite Hic, Hic' in E. congruence. }
  rewrite Hb in Hic.
  destruct (Analysis.all_reached (vertices g) R').
  - left. split; [exact Hic|]. destruct Hmst as [es [Hes Htree]].
    exists es. split; [exact Hes|]. now destruct Htree as [_ [_ [_ Hlen]]].
  - right. split; [exact Hic | exact Hmst].
Qed.

Lemma mst_agrees_with_is_connected_witness :
  (Analysis.analyze_graph 1000 "is_connected" None
     {| vertices := [0; 1; 2]; edges := [(0, 1, 4)] |}
   = Ok {| type := "is_connected"; data := DBool true |} /\
   exists true_edges,
     Analysis.analyze_graph 1000 "mst" None
       {| vertices := [0; 1; 2]; edges := [(0, 1, 4)] |}
     = Ok {| type := "mst"; data := DEdges true_edges |} /\
     S (length true_edges) = length [0; 1; 2]) \/
  (Analysis.analyze_graph 1000 "is_connected" None
     {| vertices := [0; 1; 2]; edges := [(0, 1, 4)] |}
   = Ok {| type := "is_connected"; data := DBool false |} /\
   Analysis.analyze_graph 1000 "mst" None
     {| vertices := [0; 1; 2]; edges := [(0, 1, 4)] |}
   = Ok {| type := "mst"; data := DBool false |}).
Proof.
  apply (mst_agrees_with_is_connected 1000%nat
           {| vertices := [0; 1; 2]; edges := [(0, 1, 4)] |} None None 0 [1; 2]).
  - split.
    + simpl. repeat constructor; simpl; intuition lia.
    + simpl. intros a b w [H|[]]. injection H as <- <- <-. intuition.
  - intros a b w [H|[]]. injection H as <- <- <-. reflexivity.
  - reflexivity.
Defined.

(** ** The request validator and the engine *)

Lemma analyze_unknown_type (frames : nat) (ty : string) (root : option Z)
    (g : graph_data) :
  well_formed g ->
  finite_weights g ->
  existsb (String.eqb ty) StartAnalysis.analysis_types = false ->
  Analysis.analyze_graph frames ty root g
  = Raise (Exception ("analysis type " ++ ty ++ " is invalid")).
Proof.
  intros Hwf Hfin H. destruct (build_AL_adj g Hwf Hfin) as [al [Hal _]].
  unfold StartAnalysis.analysis_types in H. cbn [existsb] in H.
  rewrite !orb_false_iff in H.
  destruct H as [E1 [E2 [E3 [E4 [E5 _]]]]].
  unfold Analysis.analyze_graph. rewrite Hal. cbn [bind].
  now rewrite E1, E2, E3, E4, E5.
Qed.

(** X8.  On a well-formed description with at least one declared vertex,
    fewer vertices than the interpreter allows nested calls, and integer
    weights between 0 and [M], where the number of vertices times [M] is
    below 2^53, the validator of analysis requests accepts exactly the
    requests the engine answers: an accepted request makes [analyze_graph]
    return a result tagged with the requested type, a rejected one would make
    it raise. *)
Theorem validator_accepts_what_engine_answers :
  forall (frames : nat) (ty : string) (root : option Z) (g : graph_data)
         (M : Z),
    well_formed g ->
    vertices g <> [] ->
    (length (vertices g) < frames)%nat ->
    (forall a b w, In (a, b, w) (edges g) -> 0 <= w <= M) ->
    Z.of_nat (length (vertices g)) * M < 2 ^ 53 ->
    (StartAnalysis.validate_parameters ty root g = None ->
     exists d, Analysis.analyze_graph frames ty root g
               = Ok {| type := ty; data := d |}) /\
    (StartAnalysis.validate_parameters ty root g <> None ->
     exists e, Analysis.analyze_graph frames ty root g = Raise e).
Proof.
  intros frames ty root g M Hwf Hne Hframes Hw Hsmall.
  destruct (bounded_weights g M Hw Hsmall Hne) as [Hex _].
  pose proof (exact_finite g Hex) as Hfin.
  destruct (vertices g) as [|v0 vs] eqn:Hvs; [congruence|]. clear Hne.
  unfold StartAnalysis.validate_parameters.
  destruct (existsb (String.eqb ty) StartAnalysis.analysis_types) eqn:Ety;
    cbn [negb].
  2:{ split; [discriminate|]. intros _. eexists.
      now apply analyze_unknown_type. }
  unfold StartAnalysis.analysis_types in Ety. cbn [existsb] in Ety.
  rewrite !orb_true_iff, !String.eqb_eq in Ety.
  destruct (connectivity_outcomes frames g root v0 vs Hwf Hfin Hvs)
    as [R [_ [Hic Hmst]]].
  rewrite <- Hvs in Hframes, Hsmall.
  destruct Ety as [->|[->|[->|[->|[->|Hf]]]]]; [| | | | |discriminate];
    cbn [existsb String.eqb Ascii.eqb Bool.eqb orb andb
         StartAnalysis.rooted_types].
  - split; [intros _; eauto | congruence].
  - split; [intros _ | congruence].
    destruct (has_cycle_spec frames g root Hwf Hfin Hframes)
      as [al [d [_ [_ [Hres _]]]]]. eauto.
  - destruct root as [r|];
      [|split; [discriminate | intros _; exists KeyError]].
    + rewrite Hvs. destruct (mem r (v0 :: vs)) eqn:Er; cbn [negb].
      * apply mem_In in Er. rewrite <- Hvs in Er. split; [intros _ | congruence].
        destruct (shortest_paths_output frames g r M Hwf Hw Hsmall Er)
          as [st [paths [Hres _]]].
        eauto.
      * apply mem_not_In in Er. rewrite <- Hvs in Er.
        split; [discriminate | intros _].
        exists KeyError. apply (undeclared_root_KeyError frames g r Hwf Hfin Er).
    + destruct (build_AL_adj g Hwf Hfin) as [al [Hal _]].
      unfold Analysis.analyze_graph. rewrite Hal. reflexivity.
  - destruct root as [r|];
      [|split; [discriminate | intros _; exists KeyError]].
    + rewrite Hvs. destruct (mem r (v0 :: vs)) eqn:Er; cbn [negb].
      * apply mem_In in Er. rewrite <- Hvs in Er. split; [intros _ | congruence].
        destruct (reachable_nodes_output frames g r Hwf Hfin Er) as [R' [Hres _]].
        eauto.
      * apply mem_not_In in Er. rewrite <- Hvs in Er.
        split; [discriminate | intros _].
        exists KeyError. apply (undeclared_root_KeyError frames g r Hwf Hfin Er).
    + destruct (build_AL_adj g Hwf Hfin) as [al [Hal _]].
      unfold Analysis.analyze_graph. rewrite Hal. reflexivity.
  - split; [intros _ | congruence].
    rewrite Hvs in Hmst.
    destruct (Analysis.all_reached (v0 :: vs) R).
    + destruct Hmst as [es [Hes _]]. eauto.
    + eauto.
Qed.

Lemma validator_accepts_what_engine_answers_witness :
  exists d,
    Analysis.analyze_graph 1000 "reachable_nodes" (Some 1)
      {| vertices := [0; 1]; edges := [(0, 1, 1)] |}
    = Ok {| type := "reachable_nodes"; data := d |}.
Proof.
  refine (proj1 (validator_accepts_what_engine_answers 1000%nat
                   "reachable_nodes" (Some 1)
                   {| vertices := [0; 1]; edges := [(0, 1, 1)] |} 1 _ _ _ _ _) _).
  - split.
    + simpl. repeat constructor; simpl; intuition lia.
    + simpl. intros a b w [H|[]]. injection H as <- <- <-. intuition.
  - discriminate.
  - simpl. lia.
  - simpl. intros a b w [H|[]]. injection H as <- <- <-. lia.
  - simpl. lia.
  - reflexivity.
Defined.

(* ================================================================== *)
(** * Part V.  Further properties of the generator                      *)
(* ================================================================== *)

Ltac gsplit H a r1 H1 :=
  apply gbind_Ok in H; destruct H as (a & r1 & H1 & H).

(** ** The shape of the edge lists *)

Lemma weighted_loop_shape (s : Z) (xs : list Z) :
  forall (es es' : list edge) (r r' : Generator.rng),
    Generator.gen_for
      (fun edges end_ =>
         Generator.gbind (Generator.randint 1 100) (fun w =>
         Generator.ret (edges ++ [(s, end_, w)])))
      xs es r = Ok (es', r') ->
    exists new, es' = es ++ new /\ map fst new = map (pair s) xs /\
                Forall weight_ok new.
Proof.
  induction xs as [|x xs IH]; intros es es' r r' H; cbn [Generator.gen_for] in H.
  - apply ret_Ok in H. destruct H as [-> _]. exists [].
    rewrite app_nil_r. repeat split; constructor.
  - gsplit H es1 r1 H1. gsplit H1 w r2 Hw.
    apply ret_Ok in H1. destruct H1 as [-> ->]. apply randint_Ok in Hw.
    destruct (IH _ _ _ _ H) as [new [-> [Hm Hf]]].
    exists ((s, x, w) :: new). rewrite <- app_assoc. split; [reflexivity|].
    split; [simpl; now rewrite Hm|]. constructor; [exact Hw | exact Hf].
Qed.

Lemma nested_loop_shape (inner : Z -> list Z) (outer : list Z) :
  forall (es es' : list edge) (r r' : Generator.rng),
    Generator.gen_for
      (fun edges s =>
         Generator.gen_for
           (fun edges end_ =>
              Generator.gbind (Generator.randint 1 100) (fun w =>
              Generator.ret (edges ++ [(s, end_, w)])))
           (inner s) edges)
      outer es r = Ok (es', r') ->
    exists new, es' = es ++ new /\
                map fst new = flat_map (fun s => map (pair s) (inner s)) outer /\
                Forall weight_ok new.
Proof.
  induction outer as [|s outer IH]; intros es es' r r' H;
    cbn [Generator.gen_for] in H.
  - apply ret_Ok in H. destruct H as [-> _]. exists [].
    rewrite app_nil_r. repeat split; constructor.
  - gsplit H es1 r1 H1.
    destruct (weighted_loop_shape s (inner s) _ _ _ _ H1) as [new1 [-> [Hm1 Hf1]]].
    destruct (IH _ _ _ _ H) as [new [-> [Hm Hf]]].
    exists (new1 ++ new). rewrite <- app_assoc. split; [reflexivity|].
    split; [|now apply Forall_app].
    cbn [flat_map]. rewrite map_app. exact (f_equal2 (@app _) Hm1 Hm).
Qed.

(** [all_pairs] lists every pair once, in loop order, with a weight of
    1..100. *)
Lemma all_pairs_shape (V : Z) (es : list edge) (r r' : Generator.rng) :
  Generator.all_pairs V r = Ok (es, r') ->
  map fst es = pairs_of V /\ Forall weight_ok es.
Proof.
  intros H.
  destruct (nested_loop_shape (fun s => range (s + 1) V) (range 0 V) [] es r r' H)
    as [new [-> [Hm Hf]]].
  split; [exact Hm | exact Hf].
Qed.

Lemma cross_pairs_shape (gA gB : list Z) (es : list edge) (r r' : Generator.rng) :
  Generator.cross_pairs gA gB r = Ok (es, r') ->
  map fst es = cross_of gA gB /\ Forall weight_ok es.
Proof.
  intros H.
  destruct (nested_loop_shape (fun _ => gB) gA [] es r r' H)
    as [new [-> [Hm Hf]]].
  split; [exact Hm | exact Hf].
Qed.

Lemma In_pairs_of (V a b : Z) :
  In (a, b) (pairs_of V) <-> 0 <= a /\ a < b /\ b < V.
Proof.
  unfold pairs_of. rewrite in_flat_map. split.
  - intros [s [Hs Hin]]. apply in_map_iff in Hin.
    destruct Hin as [e [[= <- <-] He]]. rewrite In_range in Hs, He. lia.
  - intros H. exists a. rewrite In_range. split; [lia|].
    apply in_map. rewrite In_range. lia.
Qed.

Lemma NoDup_paired (inner : Z -> list Z) (outer : list Z) :
  NoDup outer -> (forall s, NoDup (inner s)) ->
  NoDup (flat_map (fun s => map (pair s) (inner s)) outer).
Proof.
  intros Ho Hi. induction Ho as [|s outer Hs Ho IH]; cbn [flat_map]; [constructor|].
  apply NoDup_app.
  - apply Injective_map_NoDup; [|apply Hi]. intros x y [= ->]. reflexivity.
  - exact IH.
  - intros [a b] Hin Hin'. apply in_map_iff in Hin.
    destruct Hin as [e [[= <- <-] _]]. apply in_flat_map in Hin'.
    destruct Hin' as [s' [Hs' Hin']]. apply in_map_iff in Hin'.
    destruct Hin' as [e' [[= <- <-] _]]. exact (Hs Hs').
Qed.

Lemma NoDup_pairs_of (V : Z) : NoDup (pairs_of V).
Proof.
  apply NoDup_paired; [apply NoDup_range|]. intros s. apply NoDup_range.
Qed.

Lemma NoDup_cross_of (gA gB : list Z) :
  NoDup gA -> NoDup gB -> NoDup (cross_of gA gB).
Proof. intros HA HB. now apply NoDup_paired. Qed.

(** Deleting one position keeps the remaining ends distinct. *)
Lemma NoDup_pop {A B : Type} (f : A -> B) (l : list A) :
  forall n : nat,
    NoDup (map f l) -> NoDup (map f (firstn n l ++ skipn (S n) l)).
Proof.
  induction l as [|x l IH]; intros n Hnd.
  - now destruct n.
  - inversion Hnd as [|? ? Hx Hl]; subst. destruct n as [|n].
    + exact Hl.
    + change (NoDup (f x :: map f (firstn n l ++ skipn (S n) l))).
      constructor; [|now apply IH].
      intros Hin. apply Hx. apply in_map_iff in Hin.
      destruct Hin as [y [Hy Hin]]. apply in_map_iff. exists y.
      split; [exact Hy|]. apply in_app_or in Hin. destruct Hin as [Hin|Hin].
      * rewrite <- (firstn_skipn n l). apply in_or_app. now left.
      * rewrite <- (firstn_skipn (S n) l). apply in_or_app. now right.
Qed.

Lemma delete_down_shape (n : Z) :
  forall (fuel : nat) (es es' : list edge) (r r' : Generator.rng),
    Generator.delete_down fuel n es r = Ok (es', r') ->
    (NoDup (map fst es) -> NoDup (map fst es')) /\
    (n <= Generator.len es -> Generator.len es' = n).
Proof.
  induction fuel as [|fuel IH]; intros es es' r r' H;
    cbn [Generator.delete_down] in H;
    destruct (Generator.len es >? n) eqn:E; try discriminate;
    rewrite Z.gtb_ltb in E;
    try (apply ret_Ok in H; destruct H as [-> _];
         apply Z.ltb_ge in E; split; [auto | lia]).
  gsplit H i r1 Hi. apply randint_Ok in Hi.
  apply Z.ltb_lt in E.
  destruct (IH _ _ _ _ H) as [Hnd Hlen]. split.
  - intros Hes. apply Hnd. unfold Generator.pop_at. now apply NoDup_pop.
  - intros _. apply Hlen.
    pose proof (length_pop_at i es) as Hp. unfold Generator.len in *. lia.
Qed.

Lemma ascending_distinct_simple (es : list edge) :
  Forall ascending es -> NoDup (map fst es) -> simple es.
Proof.
  induction es as [|[[a b] w] es IH]; intros Ha Hnd; [exact I|].
  inversion Ha as [|? ? Hab Ha']; subst.
  inversion Hnd as [|? ? Hout Hnd']; subst.
  unfold ascending in Hab. cbn [fst snd] in Hab. cbn [simple].
  split; [lia|]. split; [|now apply IH].
  intros [[a' b'] w'] Hin. rewrite Forall_forall in Ha'.
  pose proof (Ha' _ Hin) as Hab'. unfold ascending in Hab'. cbn [fst snd] in Hab'.
  unfold joins. apply orb_false_iff. split; apply andb_false_iff.
  - destruct (a' =? a) eqn:E1; [|now left]. right.
    apply Z.eqb_eq in E1. subst a'. apply Z.eqb_neq. intros ->.
    apply Hout. change (a, b) with (fst (a, b, w')). now apply in_map.
  - destruct (a' =? b) eqn:E1; [|now left]. right.
    apply Z.eqb_eq in E1. apply Z.eqb_neq. lia.
Qed.

Lemma edge_eqb_eq (e1 e2 : edge) : Generator.edge_eqb e1 e2 = true <-> e1 = e2.
Proof.
  destruct e1 as [[a1 b1] w1], e2 as [[a2 b2] w2]. unfold Generator.edge_eqb.
  rewrite !andb_true_iff, !Z.eqb_eq. split; [intros [[-> ->] ->] | intros [= -> -> ->]]; auto.
Qed.

(** [l.remove(x)] takes one occurrence of [x] out of [l]. *)
Lemma remove_first_perm (x : edge) (l : list edge) :
  In x l -> Permutation l (x :: Generator.remove_first x l).
Proof.
  induction l as [|y l IH]; intros Hin; [destruct Hin|].
  cbn [Generator.remove_first]. destruct (Generator.edge_eqb y x) eqn:E.
  - apply edge_eqb_eq in E. subst y. apply Permutation_refl.
  - destruct Hin as [->|Hin]; [now rewrite edge_eqb_refl in E|].
    eapply perm_trans; [apply perm_skip, IH, Hin | apply perm_swap].
Qed.

Lemma move_perm (es rem : list edge) (sel : edge) :
  In sel rem ->
  Permutation ((es ++ [sel]) ++ Generator.remove_first sel rem) (es ++ rem).
Proof.
  intros Hin. rewrite <- app_assoc. apply Permutation_app_head.
  symmetry. now apply remove_first_perm.
Qed.

(** One step of the spanning-tree phase of "connected": the edge between
    the new vertex and an earlier one moves from [remaining_edges] to
    [edges]. *)
Lemma attach_shape (es rem es' rem' : list edge) (i : Z)
    (r r' : Generator.rng) :
  Generator.attach (es, rem) i r = Ok ((es', rem'), r') ->
  exists p w, 0 <= p <= i - 1 /\ In (p, i, w) rem /\
              es' = es ++ [(p, i, w)] /\
              rem' = Generator.remove_first (p, i, w) rem.
Proof.
  unfold Generator.attach. intros H. gsplit H other r1 Ho.
  apply randint_Ok in Ho.
  destruct (Generator.find_edge other i rem) as [[[a b] w]|] eqn:E;
    [|discriminate].
  apply ret_Ok in H. destruct H as [[= -> ->] _].
  apply find_some in E. destruct E as [Hin Heq].
  apply andb_true_iff in Heq. rewrite !Z.eqb_eq in Heq. destruct Heq as [-> ->].
  exists other, w. auto.
Qed.

Lemma attach_loop_shape (V : Z) (all : list edge) (st : list edge * list edge)
    (r r' : Generator.rng) :
  1 <= V ->
  Generator.gen_for Generator.attach (range 1 V) ([], all) r = Ok (st, r') ->
  Permutation (fst st ++ snd st) all /\
  attached_below V (fst st) /\
  Generator.len (fst st) = V - 1.
Proof.
  intros HV H.
  apply (gen_for_range_inv
           (fun i (s : list edge * list edge) =>
              Permutation (fst s ++ snd s) all /\
              attached_below i (fst s) /\
              Generator.len (fst s) = i - 1)
           Generator.attach V) with (n := Z.to_nat (V - 1)) (a := 1)
           (s := ([], all)) (r := r) (r' := r'); auto.
  - intros i [es rem] r0 [es' rem'] r0' Hi [Hp [Ha Hl]] Hstep.
    cbn [fst snd] in *.
    destruct (attach_shape _ _ _ _ _ _ _ Hstep) as [p [w [Hpi [Hin [-> ->]]]]].
    split; [|split].
    + eapply perm_trans; [now apply move_perm | exact Hp].
    + intros j Hj. destruct (Z.eq_dec j i) as [->|Hne].
      * exists p, w. split; [lia|]. apply in_or_app. right. now left.
      * destruct (Ha j) as [p' [w' [Hp' Hin']]]; [lia|].
        exists p', w'. split; [exact Hp'|]. apply in_or_app. now left.
    + unfold Generator.len in *. rewrite length_app. simpl. lia.
  - cbn [fst snd]. split; [apply Permutation_refl|]. split; [|reflexivity].
    intros j Hj. lia.
Qed.

Lemma add_remaining_shape (n : Z) :
  forall (fuel : nat) (es rem es' : list edge) (r r' : Generator.rng),
    Generator.add_remaining fuel n es rem r = Ok (es', r') ->
    (exists rem', Permutation (es' ++ rem') (es ++ rem)) /\
    incl es es' /\
    (Generator.len es <= n -> Generator.len es' = n).
Proof.
  induction fuel as [|fuel IH]; intros es rem es' r r' H;
    cbn [Generator.add_remaining] in H;
    destruct (Generator.len es <? n) eqn:E; try discriminate;
    try (apply ret_Ok in H; destruct H as [-> _]; apply Z.ltb_ge in E;
         split; [exists rem; apply Permutation_refl|];
         split; [apply incl_refl | lia]).
  gsplit H i r1 Hi.
  destruct (nth_error rem (Z.to_nat i)) as [sel|] eqn:Es; [|discriminate].
  apply nth_error_In in Es. apply Z.ltb_lt in E.
  destruct (IH _ _ _ _ _ H) as [[rem' Hp] [Hi' Hl]]. split; [|split].
  - exists rem'. eapply perm_trans; [exact Hp | now apply move_perm].
  - intros e He. apply Hi'. apply in_or_app. now left.
  - intros _. apply Hl. unfold Generator.len in *. rewrite length_app. simpl. lia.
Qed.

(** The loop of the "tree" generator and of one spore of "acyclic":
    [for i in range(lo + 1, hi): edges.append([randint(lo, i - 1), i, randint(1, 100)])]. *)
Lemma grow_loop_shape (lo hi : Z) (es es' : list edge) (r r' : Generator.rng) :
  lo + 1 <= hi ->
  Generator.gen_for
    (fun edges i =>
       Generator.gbind (Generator.randint lo (i - 1)) (fun p =>
       Generator.gbind (Generator.randint 1 100) (fun w =>
       Generator.ret (edges ++ [(p, i, w)]))))
    (range (lo + 1) hi) es r = Ok (es', r') ->
  exists new, es' = es ++ new /\ Forall weight_ok new /\
              Generator.len new = hi - lo - 1 /\
              forall i, lo + 1 <= i < hi ->
                exists p w, lo <= p < i /\ In (p, i, w) new.
Proof.
  intros Hlo H.
  apply (gen_for_range_inv
           (fun i (s : list edge) =>
              exists new, s = es ++ new /\ Forall weight_ok new /\
                          Generator.len new = i - lo - 1 /\
                          forall j, lo + 1 <= j < i ->
                            exists p w, lo <= p < j /\ In (p, j, w) new)
           _ hi) with (n := Z.to_nat (hi - (lo + 1))) (a := lo + 1)
           (s := es) (r := r) (r' := r') in H; auto.
  - intros i s r0 s' r0' Hi [new [-> [Hw [Hl Ha]]]] Hstep.
    gsplit Hstep p r1 Hp. gsplit Hstep w r2 Hw'.
    apply ret_Ok in Hstep. destruct Hstep as [-> _].
    apply randint_Ok in Hp. apply randint_Ok in Hw'.
    exists (new ++ [(p, i, w)]). rewrite app_assoc. split; [reflexivity|].
    split; [apply Forall_snoc; [exact Hw | exact Hw']|]. split.
    + unfold Generator.len in *. rewrite length_app. simpl. lia.
    + intros j Hj. destruct (Z.eq_dec j i) as [->|Hne].
      * exists p, w. split; [lia|]. apply in_or_app. right. now left.
      * destruct (Ha j) as [p' [w' [Hp' Hin']]]; [lia|].
        exists p', w'. split; [exact Hp'|]. apply in_or_app. now left.
  - exists []. rewrite app_nil_r. split; [reflexivity|]. split; [constructor|].
    split; [unfold Generator.len; simpl; lia|]. intros j Hj. lia.
Qed.

Lemma grow_spore_shape (V sc k : Z) (es es' : list edge) (off off' : Z)
    (r r' : Generator.rng) :
  Generator.grow_spore V sc (es, off) k r = Ok ((es', off'), r') ->
  let size := if k <? V mod sc then V / sc + 1 else V / sc in
  off' = off + size /\
  exists new, es' = es ++ new /\ Forall weight_ok new /\
              (1 <= size -> Generator.len new = size - 1).
Proof.
  unfold Generator.grow_spore. cbv zeta. intros H.
  set (size := if k <? V mod sc then V / sc + 1 else V / sc) in *.
  gsplit H es1 r1 H1. apply ret_Ok in H. destruct H as [[= -> ->] _].
  split; [reflexivity|].
  destruct (Z.lt_ge_cases size 1) as [Hs|Hs].
  - apply gen_for_range_empty in H1; [|lia]. subst es1. exists [].
    rewrite app_nil_r. split; [reflexivity|]. split; [constructor | lia].
  - destruct (grow_loop_shape off (off + size) es es1 r r1) as [new [-> [Hw [Hl _]]]];
      [lia | exact H1|].
    exists new. split; [reflexivity|]. split; [exact Hw|]. intros _. lia.
Qed.

Lemma spores_shape (V sc : Z) (st : list edge * Z) (r r' : Generator.rng) :
  0 < sc ->
  Generator.gen_for (Generator.grow_spore V sc) (range 0 sc) ([], 0) r
  = Ok (st, r') ->
  Forall weight_ok (fst st) /\
  (sc <= V -> Generator.len (fst st) = V - sc).
Proof.
  intros Hsc H.
  apply (gen_for_range_inv
           (fun k (s : list edge * Z) =>
              0 <= k /\ Forall weight_ok (fst s) /\
              snd s = k * (V / sc) + Z.min k (V mod sc) /\
              (sc <= V -> Generator.len (fst s) = snd s - k))
           _ sc) with (n := Z.to_nat (sc - 0)) (a := 0)
           (s := ([], 0)) (r := r) (r' := r') in H; auto; [| |lia|].
  - destruct H as [_ [Hw [Hoff Hl]]]. split; [exact Hw|].
    intros Hle. rewrite (Hl Hle), Hoff.
    pose proof (Z.mod_pos_bound V sc Hsc) as Hm.
    pose proof (Z.div_mod V sc) as Hd. rewrite Z.min_r by lia. lia.
  - intros k [es off] r0 [es' off'] r0' Hk [Hk0 [Hw [Hoff Hl]]] Hstep.
    cbn [fst snd] in *.
    destruct (grow_spore_shape _ _ _ _ _ _ _ _ _ Hstep)
      as [Hoff' [new [-> [Hw' Hl']]]].
    pose proof (Z.mod_pos_bound V sc Hsc) as Hm.
    split; [lia|]. split; [now apply Forall_app|]. split.
    + rewrite Hoff', Hoff. destruct (k <? V mod sc) eqn:E;
        [apply Z.ltb_lt in E | apply Z.ltb_ge in E]; lia.
    + intros Hle. specialize (Hl Hle).
      assert (Hq : 1 <= V / sc) by (apply Z.div_le_lower_bound; lia).
      assert (Hsize : 1 <= (if k <? V mod sc then V / sc + 1 else V / sc))
        by (destruct (k <? V mod sc); lia).
      specialize (Hl' Hsize). unfold Generator.len in *.
      rewrite length_app. lia.
  - cbn [fst snd]. split; [lia|]. split; [constructor|].
    pose proof (Z.mod_pos_bound V sc Hsc) as Hm.
    split; [lia|]. intros _. reflexivity.
Qed.

(** ** Counting the pairs *)

Lemma range_app (a b c : Z) :
  a <= b -> b <= c -> range a c = range a b ++ range b c.
Proof.
  intros Hab Hbc. remember (Z.to_nat (b - a)) as n eqn:Hn.
  revert a Hab Hn. induction n as [|n IH]; intros a Hab Hn.
  - assert (a = b) by lia. subst a. now rewrite (range_empty b b) by lia.
  - rewrite (range_cons a c), (range_cons a b) by lia.
    rewrite (IH (a + 1)) by lia. reflexivity.
Qed.

Lemma filter_none {A : Type} (p : A -> bool) (l : list A) :
  (forall x, In x l -> p x = false) -> filter p l = [].
Proof.
  induction l as [|x l IH]; simpl; [auto|]. intros H.
  rewrite (H x) by now left. apply IH. auto.
Qed.

(** The two groups of the "bipartite" generator. *)
Lemma groups_of_range (h V : Z) :
  0 <= h -> h <= V ->
  filter (fun i => i <? h) (range 0 V) = range 0 h /\
  filter (fun i => negb (i <? h)) (range 0 V) = range h V.
Proof.
  intros H0 HV. rewrite (range_app 0 h V), !filter_app by lia. split.
  - rewrite filter_all, filter_none; [apply app_nil_r| |].
    + intros x Hx. apply In_range in Hx. apply Z.ltb_ge. lia.
    + intros x Hx. apply In_range in Hx. apply Z.ltb_lt. lia.
  - rewrite filter_none, filter_all; [reflexivity| |].
    + intros x Hx. apply In_range in Hx. apply negb_true_iff, Z.ltb_ge. lia.
    + intros x Hx. apply In_range in Hx. apply negb_false_iff, Z.ltb_lt. lia.
Qed.

Lemma length_paired (inner : Z -> list Z) (outer : list Z) (n : nat) :
  (forall s, In s outer -> length (inner s) = n) ->
  length (flat_map (fun s => map (pair s) (inner s)) outer)
  = (length outer * n)%nat.
Proof.
  induction outer as [|s outer IH]; intros H; [reflexivity|].
  cbn [flat_map]. rewrite length_app, length_map, (H s) by now left.
  rewrite IH by (intros s' Hs'; apply H; now right). reflexivity.
Qed.

Lemma length_pairs_from (V : Z) :
  forall (n : nat) (a : Z),
    Z.to_nat (V - a) = n -> a <= V ->
    2 * Z.of_nat (length (flat_map (fun s => map (pair s) (range (s + 1) V))
                                   (range a V)))
    = (V - a) * (V - a - 1).
Proof.
  induction n as [|n IH]; intros a Hn Ha.
  - assert (a = V) by lia. subst a. rewrite range_empty by lia. simpl. lia.
  - rewrite (range_cons a V) by lia. cbn [flat_map].
    rewrite length_app, length_map, length_range, Nat2Z.inj_add.
    specialize (IH (a + 1)). rewrite Z2Nat.id by lia.
    assert (E : 2 * Z.of_nat (length (flat_map
                   (fun s => map (pair s) (range (s + 1) V)) (range (a + 1) V)))
                = (V - (a + 1)) * (V - (a + 1) - 1)) by (apply IH; lia).
    nia.
Qed.

Lemma length_pairs_of (V : Z) :
  0 <= V -> Z.of_nat (length (pairs_of V)) = V * (V - 1) / 2.
Proof.
  intros HV. pose proof (length_pairs_from V (Z.to_nat (V - 0)) 0 eq_refl HV) as H.
  fold (pairs_of V) in H. apply Z.div_unique_exact; lia.
Qed.

Lemma length_cross_halves (V : Z) :
  0 <= V ->
  Z.of_nat (length (cross_of (filter (fun i => i <? V / 2) (range 0 V))
                             (filter (fun i => negb (i <? V / 2)) (range 0 V))))
  = V * V / 4.
Proof.
  intros HV.
  assert (Hh : 0 <= V / 2 <= V).
  { split; [apply Z.div_pos; lia | apply Z.div_le_upper_bound; lia]. }
  destruct (groups_of_range (V / 2) V) as [-> ->]; [lia | lia|].
  unfold cross_of.
  rewrite (length_paired (fun _ => range (V / 2) V) (range 0 (V / 2))
             (length (range (V / 2) V))) by reflexivity.
  rewrite !length_range, Nat2Z.inj_mul, !Z2Nat.id by lia.
  pose proof (Z.div_mod V 2) as Hd. pose proof (Z.mod_pos_bound V 2) as Hm.
  apply Z.div_unique with ((V mod 2) * (V mod 2)); nia.
Qed.

(** ** What the six branches establish *)

Lemma resolve_vertices (nv V : Z) (r r1 : Generator.rng) :
  Generator.default nv (Generator.randint 5 10) r = Ok (V, r1) ->
  (nv <> -1 -> V = nv) /\ (nv = -1 -> 5 <= V <= 10).
Proof.
  unfold Generator.default. destruct (nv =? -1) eqn:E; intros H.
  - apply Z.eqb_eq in E. apply randint_Ok in H. split; [congruence | auto].
  - apply Z.eqb_neq in E. apply ret_Ok in H. destruct H as [-> _].
    split; [auto | congruence].
Qed.

Lemma resolve_edges (ne E : Z) (d : Generator.gen Z) (r r1 : Generator.rng) :
  Generator.default ne d r = Ok (E, r1) -> ne <> -1 -> E = ne.
Proof.
  unfold Generator.default. destruct (ne =? -1) eqn:Eq; intros H Hne.
  - apply Z.eqb_eq in Eq. congruence.
  - apply ret_Ok in H. now destruct H as [-> _].
Qed.

Lemma ends_of_forest (V : Z) (es : list edge) :
  forest_below V es \/ es = [] -> NoDup (map fst es).
Proof.
  intros [[Hnd _]| ->]; [|constructor].
  apply (NoDup_map_inv snd). rewrite map_map. exact Hnd.
Qed.

Ltac illegal_case H :=
  apply ret_Ok in H; destruct H as [H _]; discriminate H.

Lemma case_any_shape (nv ne : Z) (g : graph_data) (r r' : Generator.rng) :
  Generator.case_any nv ne r = Ok (Graph g, r') ->
  exists V E, generated_as nv ne V E g.
Proof.
  unfold Generator.case_any. intros H.
  gsplit H V r1 HV. gsplit H E r2 HE.
  destruct (E >? V * (V - 1) / 2) eqn:Echk; [illegal_case H|].
  gsplit H pool r3 Hall. gsplit H es r4 Hdel.
  apply ret_Ok in H. destruct H as [[= ->] _].
  apply resolve_vertices in HV. destruct HV as [HV1 HV2].
  apply all_pairs_shape in Hall. destruct Hall as [Hm Hw].
  destruct (delete_down_shape _ _ _ _ _ _ Hdel) as [Hnd Hlen].
  exists V, E. unfold generated_as. cbn [vertices edges].
  split; [reflexivity|]. split; [exact HV1|]. split; [exact HV2|].
  split; [exact (resolve_edges _ _ _ _ _ HE)|]. split; [|split].
  - eapply Forall_incl; [eapply delete_down_sub; eauto | exact Hw].
  - apply Hnd. rewrite Hm. apply NoDup_pairs_of.
  - intros HV0 _. apply Hlen. unfold Generator.len. unfold edge in *.
    rewrite <- (length_map fst pool), Hm, length_pairs_of by lia.
    rewrite Z.gtb_ltb in Echk. apply Z.ltb_ge in Echk. exact Echk.
Qed.

Lemma case_complete_shape (nv ne : Z) (g : graph_data) (r r' : Generator.rng) :
  Generator.case_complete nv ne r = Ok (Graph g, r') ->
  exists V E, generated_as nv ne V E g /\
              map fst (edges g) = pairs_of V.
Proof.
  unfold Generator.case_complete. intros H.
  gsplit H V r1 HV. gsplit H E r2 HE.
  destruct (E =? V * (V - 1) / 2) eqn:Echk; cbn [negb] in H; [|illegal_case H].
  gsplit H pool r3 Hall.
  apply ret_Ok in H. destruct H as [[= ->] _].
  apply resolve_vertices in HV. destruct HV as [HV1 HV2].
  apply all_pairs_shape in Hall. destruct Hall as [Hm Hw].
  exists V, E. unfold generated_as. cbn [vertices edges].
  split; [|exact Hm].
  split; [reflexivity|]. split; [exact HV1|]. split; [exact HV2|].
  split; [exact (resolve_edges _ _ _ _ _ HE)|]. split; [exact Hw|]. split.
  - rewrite Hm. apply NoDup_pairs_of.
  - intros HV0 _. unfold edge in *.
    rewrite <- (length_map fst pool), Hm, length_pairs_of by lia.
    apply Z.eqb_eq in Echk. now rewrite Echk.
Qed.

Lemma attach_loop_perm (xs : list Z) (all : list edge)
    (st : list edge * list edge) (r r' : Generator.rng) :
  Generator.gen_for Generator.attach xs ([], all) r = Ok (st, r') ->
  Permutation (fst st ++ snd st) all.
Proof.
  apply gen_for_inv with
    (P := fun s : list edge * list edge => Permutation (fst s ++ snd s) all);
    [|apply Permutation_refl].
  intros [es rem] i r0 [es' rem'] r0' _ Hp Hstep. cbn [fst snd] in *.
  destruct (attach_shape _ _ _ _ _ _ _ Hstep) as [p [w [_ [Hin [-> ->]]]]].
  eapply perm_trans; [now apply move_perm | exact Hp].
Qed.

Lemma case_connected_shape (nv ne : Z) (g : graph_data) (r r' : Generator.rng) :
  Generator.case_connected nv ne r = Ok (Graph g, r') ->
  exists V E, generated_as nv ne V E g /\ attached_below V (edges g).
Proof.
  unfold Generator.case_connected. intros H.
  gsplit H V r1 HV. gsplit H E r2 HE.
  destruct ((E >? V * (V - 1) / 2) || (E <? V - 1)) eqn:Echk; [illegal_case H|].
  apply orb_false_iff in Echk. destruct Echk as [_ Elow]. apply Z.ltb_ge in Elow.
  gsplit H pool r3 Hall. gsplit H st r4 Htree. gsplit H es r5 Hadd.
  apply ret_Ok in H. destruct H as [[= ->] _].
  apply resolve_vertices in HV. destruct HV as [HV1 HV2].
  apply all_pairs_shape in Hall. destruct Hall as [Hm Hw].
  pose proof (attach_loop_perm _ _ _ _ _ Htree) as Hperm.
  destruct (add_remaining_shape _ _ _ _ _ _ _ Hadd) as [[rem' Hp] [Hincl Hlen]].
  assert (Hall : Permutation (es ++ rem') pool)
    by (eapply perm_trans; eauto).
  exists V, E. unfold generated_as. cbn [vertices edges]. split.
  - split; [reflexivity|]. split; [exact HV1|]. split; [exact HV2|].
    split; [exact (resolve_edges _ _ _ _ _ HE)|]. split; [|split].
    + rewrite Forall_forall in *. intros e He. apply Hw.
      apply (Permutation_in _ Hall). apply in_or_app. now left.
    + assert (Hnd : NoDup (map fst (es ++ rem'))).
      { apply (Permutation_NoDup (l := map fst pool)).
        - apply Permutation_map. now symmetry.
        - rewrite Hm. apply NoDup_pairs_of. }
      rewrite map_app in Hnd. now apply NoDup_app_remove_r in Hnd.
    + intros HV0 _. apply Hlen.
      destruct (attach_loop_shape V pool st r3 r4 HV0 Htree) as [_ [_ Hl]]. lia.
  - intros i Hi.
    destruct (attach_loop_shape V pool st r3 r4) as [_ [Ha _]]; [lia | exact Htree|].
    destruct (Ha i Hi) as [p [w [Hp' Hin]]]. exists p, w. auto.
Qed.

Lemma case_tree_shape (nv ne : Z) (g : graph_data) (r r' : Generator.rng) :
  Generator.case_tree nv ne r = Ok (Graph g, r') ->
  exists V E, generated_as nv ne V E g /\ attached_below V (edges g).
Proof.
  intros H. pose proof (case_tree_spec _ _ _ _ _ H) as [V' [HV' Hforest]].
  unfold Generator.case_tree in H.
  gsplit H V r1 HV. gsplit H E r2 HE.
  destruct (E =? V - 1) eqn:Echk; cbn [negb] in H; [|illegal_case H].
  apply Z.eqb_eq in Echk.
  gsplit H es r3 Hloop.
  apply ret_Ok in H. destruct H as [[= ->] _]. cbn [vertices edges] in *.
  apply resolve_vertices in HV. destruct HV as [HV1 HV2].
  assert (Hshape : Forall weight_ok es /\
                   (1 <= V -> Z.of_nat (length es) = V - 1) /\
                   attached_below V es).
  { destruct (Z.lt_ge_cases V 1) as [Hs|Hb].
    - apply gen_for_range_empty in Hloop; [|lia]. subst es.
      split; [constructor|]. split; [lia|]. intros i Hi. lia.
    - destruct (grow_loop_shape 0 V [] es r2 r3) as [new [-> [Hw [Hl Ha]]]];
        [lia | exact Hloop|].
      cbn [app]. split; [exact Hw|].
      split; [unfold Generator.len in Hl; unfold edge in *; lia|].
      intros i Hi. apply Ha. lia. }
  destruct Hshape as [Hw [Hl Ha]].
  exists V, E. unfold generated_as. cbn [vertices edges]. split; [|exact Ha].
  split; [reflexivity|]. split; [exact HV1|]. split; [exact HV2|].
  split; [exact (resolve_edges _ _ _ _ _ HE)|]. split; [exact Hw|]. split.
  - now apply (ends_of_forest V').
  - intros HV0 _. specialize (Hl HV0). unfold edge in *. lia.
Qed.

Lemma case_acyclic_shape (nv ne : Z) (g : graph_data) (r r' : Generator.rng) :
  Generator.case_acyclic nv ne r = Ok (Graph g, r') ->
  exists V E, generated_as nv ne V E g.
Proof.
  intros H. pose proof (case_acyclic_spec _ _ _ _ _ H) as [V' [HV' Hforest]].
  unfold Generator.case_acyclic in H.
  gsplit H V r1 HV. gsplit H E r2 HE.
  destruct (E >? V - 1) eqn:Echk; [illegal_case H|].
  rewrite Z.gtb_ltb in Echk. apply Z.ltb_ge in Echk.
  gsplit H st r3 Hloop.
  apply ret_Ok in H. destruct H as [[= ->] _]. cbn [vertices edges] in *.
  apply resolve_vertices in HV. destruct HV as [HV1 HV2].
  destruct (spores_shape V (V - E) st r2 r3) as [Hw Hl]; [lia | exact Hloop|].
  exists V, E. unfold generated_as. cbn [vertices edges].
  split; [reflexivity|]. split; [exact HV1|]. split; [exact HV2|].
  split; [exact (resolve_edges _ _ _ _ _ HE)|]. split; [exact Hw|]. split.
  - now apply (ends_of_forest V').
  - intros _ HE0. unfold Generator.len in Hl. unfold edge in *.
    rewrite Hl by lia. lia.
Qed.

Lemma case_bipartite_shape (nv ne : Z) (g : graph_data) (r r' : Generator.rng) :
  Generator.case_bipartite nv ne r = Ok (Graph g, r') ->
  exists V E, generated_as nv ne V E g.
Proof.
  unfold Generator.case_bipartite. intros H.
  gsplit H V r1 HV. gsplit H E r2 HE.
  destruct (E >? V * V / 4) eqn:Echk; [illegal_case H|].
  rewrite Z.gtb_ltb in Echk. apply Z.ltb_ge in Echk.
  gsplit H pool r3 Hall. gsplit H es r4 Hdel.
  apply ret_Ok in H. destruct H as [[= ->] _].
  apply resolve_vertices in HV. destruct HV as [HV1 HV2].
  apply cross_pairs_shape in Hall. destruct Hall as [Hm Hw].
  destruct (delete_down_shape _ _ _ _ _ _ Hdel) as [Hnd Hlen].
  exists V, E. unfold generated_as. cbn [vertices edges].
  split; [reflexivity|]. split; [exact HV1|]. split; [exact HV2|].
  split; [exact (resolve_edges _ _ _ _ _ HE)|]. split; [|split].
  - eapply Forall_incl; [eapply delete_down_sub; eauto | exact Hw].
  - apply Hnd. rewrite Hm.
    apply NoDup_cross_of; apply NoDup_filter, NoDup_range.
  - intros HV0 _. apply Hlen. unfold Generator.len. unfold edge in *.
    rewrite <- (length_map fst pool), Hm, length_cross_halves by lia.
    exact Echk.
Qed.

Lemma generated_shape (ty : string) (nv ne : Z) (g : graph_data)
    (r r' : Generator.rng) :
  Generator.make_random_graph ty nv ne r = Ok (Graph g, r') ->
  exists V E, generated_as nv ne V E g.
Proof.
  intros H. apply make_random_graph_cases in H.
  destruct H as [[_ H]|[[_ H]|[[_ H]|[[_ H]|[[_ H]|[_ H]]]]]].
  - now apply case_any_shape in H.
  - apply case_complete_shape in H. destruct H as [V [E [H _]]]. eauto.
  - apply case_connected_shape in H. destruct H as [V [E [H _]]]. eauto.
  - now apply case_acyclic_shape in H.
  - apply case_tree_shape in H. destruct H as [V [E [H _]]]. eauto.
  - now apply case_bipartite_shape in H.
Qed.

Lemma generated_ordered (ty : string) (nv ne : Z) (g : graph_data)
    (r r' : Generator.rng) :
  Generator.make_random_graph ty nv ne r = Ok (Graph g, r') ->
  exists V, vertices g = range 0 V /\ Forall (ordered_below V) (edges g).
Proof.
  intros H. apply make_random_graph_cases in H.
  destruct H as [[_ H]|[[_ H]|[[_ H]|[[_ H]|[[_ H]|[_ H]]]]]].
  - now apply case_any_spec in H.
  - now apply case_complete_spec in H.
  - now apply case_connected_spec in H.
  - apply case_acyclic_spec in H. destruct H as [V [HV [[_ HF]|HF]]]; [eauto|].
    exists V. split; [exact HV|]. rewrite HF. constructor.
  - apply case_tree_spec in H. destruct H as [V [HV [[_ HF]|HF]]]; [eauto|].
    exists V. split; [exact HV|]. rewrite HF. constructor.
  - apply case_bipartite_spec in H. destruct H as [V [HV HF]].
    exists V. split; [exact HV|]. apply Forall_forall. intros [[a b] w] Hin.
    specialize (HF a b w Hin). simpl. lia.
Qed.

(** X9.  Whatever the requested counts and the randomness source, a graph
    returned by the generator is a simple graph: its vertex ids are unique,
    every edge joins two declared vertices, runs from the smaller to the
    larger id (so no edge is a self-loop), no two edges join the same two
    vertices, and every weight lies in 1..100. *)
Theorem generated_graph_is_simple :
  forall (ty : string) (nv ne : Z) (r r' : Generator.rng) (g : graph_data),
    Generator.make_random_graph ty nv ne r = Ok (Graph g, r') ->
    well_formed g /\ simple (edges g) /\
    forall a b w, In (a, b, w) (edges g) -> a < b /\ 1 <= w <= 100.
Proof.
  intros ty nv ne r r' g H.
  destruct (generated_ordered _ _ _ _ _ _ H) as [V [HV Hord]].
  destruct (generated_shape _ _ _ _ _ _ H) as [V' [E [_ [_ [_ [_ [Hw [Hnd _]]]]]]]].
  assert (Hasc : Forall ascending (edges g)).
  { eapply Forall_impl; [|exact Hord]. intros [[a b] w] Hab.
    unfold ascending. simpl in *. lia. }
  split; [now apply (ordered_well_formed g V)|].
  split; [now apply ascending_distinct_simple|].
  intros a b w Hin. rewrite Forall_forall in Hasc, Hw.
  split; [exact (Hasc _ Hin) | exact (Hw _ Hin)].
Qed.

Lemma generated_graph_is_simple_witness :
  well_formed {| vertices := [0; 1; 2]; edges := [(0, 1, 1); (0, 2, 1)] |} /\
  simple [(0, 1, 1); (0, 2, 1)] /\
  forall a b w, In (a, b, w) [(0, 1, 1); (0, 2, 1)] -> a < b /\ 1 <= w <= 100.
Proof.
  apply (generated_graph_is_simple "tree" 3 2
           {| Generator.draws := fun _ => 0; Generator.pos := 0 |}
           {| Generator.draws := fun _ => 0; Generator.pos := 4 |}
           {| vertices := [0; 1; 2]; edges := [(0, 1, 1); (0, 2, 1)] |}).
  reflexivity.
Defined.

(** X10.  A graph that [generate] returns for a request has the requested
    numbers of vertices and of edges; when the number of vertices was left
    open, it has between 5 and 10 vertices. *)
Theorem generated_graph_has_requested_counts :
  forall (ty : string) (nv ne : Z) (r r' : Generator.rng) (g : graph_data),
    Generator.generate ty nv ne r = Ok (inl (Graph g), r') ->
    (nv <> -1 -> Z.of_nat (length (vertices g)) = nv) /\
    (nv = -1 -> 5 <= Z.of_nat (length (vertices g)) <= 10) /\
    (ne <> -1 -> Z.of_nat (length (edges g)) = ne).
Proof.
  intros ty nv ne r r' g H. unfold Generator.generate in H.
  destruct (Generator.validate_parameters ty nv ne) as [rej|] eqn:Eval.
  { apply ret_Ok in H. destruct H as [H _]. discriminate H. }
  gsplit H res r1 Hmake. apply ret_Ok in H. destruct H as [[= <-] ->].
  assert (Hnv : nv <> -1 -> 1 <= nv).
  { intros Hne. unfold Generator.validate_parameters in Eval.
    destruct (negb (existsb (String.eqb ty) Generator.graph_types));
      [discriminate|].
    destruct (nv =? -1) eqn:E1; [apply Z.eqb_eq in E1; congruence|].
    cbn [negb andb] in Eval. destruct (nv <=? 0) eqn:E2; [discriminate|].
    apply Z.leb_gt in E2. lia. }
  assert (Hne : ne <> -1 -> 0 <= ne /\ nv <> -1).
  { intros Hne. unfold Generator.validate_parameters in Eval.
    destruct (negb (existsb (String.eqb ty) Generator.graph_types));
      [discriminate|].
    destruct (negb (nv =? -1) && (nv <=? 0)); [discriminate|].
    destruct (ne =? -1) eqn:E1; [apply Z.eqb_eq in E1; congruence|].
    cbn [negb andb] in Eval. destruct (ne <? 0) eqn:E2; [discriminate|].
    destruct (nv =? -1) eqn:E3; [discriminate|].
    apply Z.ltb_ge in E2. apply Z.eqb_neq in E3. auto. }
  destruct (generated_shape _ _ _ _ _ _ Hmake)
    as [V [E [HV [HV1 [HV2 [HE [_ [_ Hlen]]]]]]]].
  assert (HV0 : 1 <= V).
  { destruct (Z.eq_dec nv (-1)) as [Heq|Hneq];
      [specialize (HV2 Heq); lia | rewrite (HV1 Hneq); auto]. }
  rewrite HV, length_range, Z2Nat.id by lia. replace (V - 0) with V by lia.
  split; [exact HV1|]. split; [exact HV2|].
  intros Hn. destruct (Hne Hn) as [Hn0 _]. specialize (HE Hn). subst E.
  now apply Hlen.
Qed.

Lemma generated_graph_has_requested_counts_witness :
  Z.of_nat (length [0; 1; 2]) = 3 /\
  Z.of_nat (length [(0, 1, 1); (0, 2, 1)]) = 2.
Proof.
  destruct (generated_graph_has_requested_counts "tree" 3 2
              {| Generator.draws := fun _ => 0; Generator.pos := 0 |}
              {| Generator.draws := fun _ => 0; Generator.pos := 4 |}
              {| vertices := [0; 1; 2]; edges := [(0, 1, 1); (0, 2, 1)] |}
              eq_refl) as [Hv [_ He]].
  split; [apply Hv | apply He]; discriminate.
Defined.

(** ** Generated connected graphs are connected *)

(** When every vertex from 1 on is attached to a smaller one, every vertex
    is reachable from vertex 0. *)
Lemma attached_reachable (V : Z) (g : graph_data) :
  attached_below V (edges g) ->
  forall v, 0 <= v < V -> reachable g 0 v.
Proof.
  intros Ha.
  assert (Hn : forall (n : nat) v, 0 <= v -> v < Z.of_nat n -> v < V ->
                                   reachable g 0 v).
  { induction n as [|n IH]; intros v H0 Hn HV; [lia|].
    destruct (Z.eq_dec v 0) as [->|Hne]; [constructor|].
    destruct (Ha v) as [p [w [Hp Hin]]]; [lia|].
    apply reach_step with p; [apply IH; lia|].
    exists (p, v, w). split; [exact Hin|]. unfold joins.
    now rewrite !Z.eqb_refl. }
  intros v Hv. apply (Hn (S (Z.to_nat v))); lia.
Qed.

Lemma complete_attached (V : Z) (es : list edge) :
  map fst es = pairs_of V -> attached_below V es.
Proof.
  intros Hm i Hi.
  assert (Hin : In (0, i) (map fst es)) by (rewrite Hm; apply In_pairs_of; lia).
  apply in_map_iff in Hin. destruct Hin as [[[a b] w] [[= -> ->] Hin]].
  exists 0, w. split; [lia | exact Hin].
Qed.

Lemma generated_attached (ty : string) (nv ne : Z) (g : graph_data)
    (r r' : Generator.rng) :
  ty = "connected"%string \/ ty = "tree"%string \/ ty = "complete"%string ->
  Generator.make_random_graph ty nv ne r = Ok (Graph g, r') ->
  exists V, vertices g = range 0 V /\ attached_below V (edges g).
Proof.
  intros [-> |[-> | ->]] H.
  - change (Generator.case_connected nv ne r = Ok (Graph g, r')) in H.
    apply case_connected_shape in H. destruct H as [V [E [[HV _] Ha]]]. eauto.
  - change (Generator.case_tree nv ne r = Ok (Graph g, r')) in H.
    apply case_tree_shape in H. destruct H as [V [E [[HV _] Ha]]]. eauto.
  - change (Generator.case_complete nv ne r = Ok (Graph g, r')) in H.
    apply case_complete_shape in H. destruct H as [V [E [[HV _] Hm]]].
    exists V. split; [exact HV | now apply complete_attached].
Qed.

(** The weights the generator draws are integers between 1 and 100, which
    are doubles. *)
Lemma generated_weights (ty : string) (nv ne : Z) (g : graph_data)
    (r r' : Generator.rng) :
  Generator.make_random_graph ty nv ne r = Ok (Graph g, r') ->
  exact_weights g.
Proof.
  intros H. destruct (generated_shape _ _ _ _ _ _ H) as [V [E Hg]].
  destruct Hg as [_ [_ [_ [_ [Hw _]]]]]. rewrite Forall_forall in Hw.
  apply small_exact. intros a b w Hin. specialize (Hw _ Hin).
  unfold weight_ok in Hw. cbn [snd] in Hw. lia.
Qed.

(** X11.  On a graph with at least one vertex that the generator returned
    for the type "connected", "tree" or "complete", [is_connected] returns
    [True] and [mst] returns a list of V-1 edges. *)
Theorem generated_connected_graph_is_connected :
  forall (frames : nat) (ty : string) (nv ne : Z) (r r' : Generator.rng)
         (g : graph_data) (root : option Z),
    ty = "connected"%string \/ ty = "tree"%string \/ ty = "complete"%string ->
    Generator.make_random_graph ty nv ne r = Ok (Graph g, r') ->
    vertices g <> [] ->
    Analysis.analyze_graph frames "is_connected" root g
    = Ok {| type := "is_connected"; data := DBool true |} /\
    exists true_edges,
      Analysis.analyze_graph frames "mst" root g
      = Ok {| type := "mst"; data := DEdges true_edges |} /\
      S (length true_edges) = length (vertices g).
Proof.
  intros frames ty nv ne r r' g root Hty H Hne.
  pose proof (exact_finite g (generated_weights _ _ _ _ _ _ H)) as Hfin.
  destruct (generated_ordered _ _ _ _ _ _ H) as [V' [HV' Hord]].
  pose proof (ordered_well_formed g V' HV' Hord) as Hwf.
  destruct (generated_attached ty nv ne g r r' Hty H) as [V [HV Ha]].
  assert (HV0 : 1 <= V).
  { destruct (Z.lt_ge_cases V 1) as [Hs|Hb]; [|exact Hb].
    rewrite HV, range_empty in Hne by lia. congruence. }
  assert (Hvs : vertices g = 0 :: range (0 + 1) V)
    by (rewrite HV; apply range_cons; lia).
  destruct (connectivity_outcomes frames g root 0 _ Hwf Hfin Hvs)
    as [R [HR [Hic Hmst]]].
  assert (Hall : Analysis.all_reached (vertices g) R = true).
  { apply all_reached_spec. intros v Hv. apply HR.
    apply (attached_reachable V g Ha). rewrite HV in Hv.
    now apply In_range in Hv. }
  rewrite Hall in Hic, Hmst. split; [exact Hic|].
  destruct Hmst as [es [Hes Htree]]. exists es. split; [exact Hes|].
  now destruct Htree as [_ [_ [_ Hlen]]].
Qed.

Lemma generated_connected_graph_is_connected_witness :
  Analysis.analyze_graph 1000 "is_connected" None
    {| vertices := [0; 1; 2]; edges := [(0, 1, 1); (0, 2, 1)] |}
  = Ok {| type := "is_connected"; data := DBool true |} /\
  exists true_edges,
    Analysis.analyze_graph 1000 "mst" None
      {| vertices := [0; 1; 2]; edges := [(0, 1, 1); (0, 2, 1)] |}
    = Ok {| type := "mst"; data := DEdges true_edges |} /\
    S (length true_edges) = length [0; 1; 2].
Proof.
  apply (generated_connected_graph_is_connected 1000%nat "tree" 3 2
           {| Generator.draws := fun _ => 0; Generator.pos := 0 |}
           {| Generator.draws := fun _ => 0; Generator.pos := 4 |}
           {| vertices := [0; 1; 2]; edges := [(0, 1, 1); (0, 2, 1)] |} None).
  - right. now left.
  - reflexivity.
  - discriminate.
Defined.

(** ** Requests with both counts are always answered *)

Lemma randint_total (a b : Z) (r : Generator.rng) :
  a <= b -> exists x r', Generator.randint a b r = Ok (x, r') /\ a <= x <= b.
Proof.
  intros Hab. unfold Generator.randint.
  destruct (b <? a) eqn:E; [apply Z.ltb_lt in E; lia|].
  eexists. eexists. split; [reflexivity|].
  pose proof (Z.mod_pos_bound (Generator.draws r (Generator.pos r)) (b - a + 1)).
  lia.
Qed.

Lemma gbind_run {A B : Type} (m : Generator.gen A) (k : A -> Generator.gen B)
    (r r1 : Generator.rng) (a : A) :
  m r = Ok (a, r1) -> Generator.gbind m k r = k a r1.
Proof. intros H. unfold Generator.gbind. now rewrite H. Qed.

(** A loop whose body succeeds under an invariant of the state and of the
    elements still to come runs to its end. *)
Lemma gen_for_total {A S : Type} (Inv : list A -> S -> Prop)
    (body : S -> A -> Generator.gen S) :
  (forall x xs s r, Inv (x :: xs) s ->
     exists s' r', body s x r = Ok (s', r') /\ Inv xs s') ->
  forall xs s r, Inv xs s ->
    exists s' r', Generator.gen_for body xs s r = Ok (s', r') /\ Inv [] s'.
Proof.
  intros Hbody. induction xs as [|x xs IH]; intros s r Hs.
  - exists s, r. split; [reflexivity | exact Hs].
  - destruct (Hbody x xs s r Hs) as [s1 [r1 [H1 Hs1]]].
    destruct (IH s1 r1 Hs1) as [s' [r' [H' Hs']]].
    exists s', r'. split; [|exact Hs'].
    cbn [Generator.gen_for]. now rewrite (gbind_run _ _ _ _ _ H1).
Qed.

Lemma weighted_loop_total (s : Z) (xs : list Z) (es : list edge)
    (r : Generator.rng) :
  exists es' r',
    Generator.gen_for
      (fun edges end_ =>
         Generator.gbind (Generator.randint 1 100) (fun w =>
         Generator.ret (edges ++ [(s, end_, w)])))
      xs es r = Ok (es', r').
Proof.
  destruct (gen_for_total (fun _ _ => True)
              (fun (edges : list edge) (end_ : Z) =>
                 Generator.gbind (Generator.randint 1 100) (fun w =>
                 Generator.ret (edges ++ [(s, end_, w)])))) with
    (xs := xs) (s := es) (r := r) as [es' [r' [H _]]]; [|exact I|eauto].
  intros x xs' s0 r0 _.
  destruct (randint_total 1 100 r0) as [w [r1 [Hw _]]]; [lia|].
  eexists. eexists. split; [|exact I].
  rewrite (gbind_run _ _ _ _ _ Hw). reflexivity.
Qed.

Lemma all_pairs_total (V : Z) (r : Generator.rng) :
  exists es r', Generator.all_pairs V r = Ok (es, r').
Proof.
  unfold Generator.all_pairs.
  destruct (gen_for_total (fun _ _ => True) (Generator.pairs_from V)) with
    (xs := range 0 V) (s := @nil edge) (r := r) as [es' [r' [H _]]];
    [|exact I|eauto].
  intros x xs' s0 r0 _.
  destruct (weighted_loop_total x (range (x + 1) V) s0 r0) as [es1 [r1 H1]].
  exists es1, r1. split; [exact H1 | exact I].
Qed.

Lemma cross_pairs_total (gA gB : list Z) (r : Generator.rng) :
  exists es r', Generator.cross_pairs gA gB r = Ok (es, r').
Proof.
  unfold Generator.cross_pairs.
  destruct (gen_for_total (fun _ _ => True)
              (fun (edges : list edge) (A : Z) =>
                 Generator.gen_for
                   (fun (edges : list edge) (B : Z) =>
                      Generator.gbind (Generator.randint 1 100) (fun w =>
                      Generator.ret (edges ++ [(A, B, w)])))
                   gB edges)) with
    (xs := gA) (s := @nil edge) (r := r) as [es' [r' [H _]]];
    [|exact I|eauto].
  intros x xs' s0 r0 _.
  destruct (weighted_loop_total x gB s0 r0) as [es1 [r1 H1]].
  exists es1, r1. split; [exact H1 | exact I].
Qed.

Lemma delete_down_total (n : Z) :
  0 <= n ->
  forall (fuel : nat) (es : list edge) (r : Generator.rng),
    (length es < fuel)%nat ->
    exists es' r', Generator.delete_down fuel n es r = Ok (es', r').
Proof.
  intros Hn. induction fuel as [|fuel IH]; intros es r Hlen; [lia|].
  cbn [Generator.delete_down]. destruct (Generator.len es >? n) eqn:E;
    [|eexists; eexists; reflexivity].
  rewrite Z.gtb_ltb in E. apply Z.ltb_lt in E. unfold Generator.len in E.
  destruct (randint_total 0 (Generator.len es - 1) r) as [i [r1 [Hi Hr]]];
    [unfold Generator.len; lia|].
  rewrite (gbind_run _ _ _ _ _ Hi). apply IH.
  pose proof (length_pop_at i es) as Hp. unfold Generator.len in Hr. lia.
Qed.

Lemma In_remove_first_other (x e : edge) (l : list edge) :
  In e l -> e <> x -> In e (Generator.remove_first x l).
Proof.
  induction l as [|y l IH]; intros Hin Hne; [destruct Hin|].
  cbn [Generator.remove_first]. destruct (Generator.edge_eqb y x) eqn:E.
  - apply edge_eqb_eq in E. subst y. destruct Hin as [->|Hin]; [congruence | exact Hin].
  - destruct Hin as [->|Hin]; [now left | right; auto].
Qed.

(** The spanning-tree phase of "connected" always finds the edge it
    selected: the edges towards the vertices still to be attached are all in
    [remaining_edges]. *)
Lemma attach_loop_total (xs : list Z) :
  forall (st : list edge * list edge) (r : Generator.rng),
    NoDup xs ->
    (forall j p, In j xs -> 1 <= j /\
                 (0 <= p < j -> exists w, In (p, j, w) (snd st))) ->
    exists st' r', Generator.gen_for Generator.attach xs st r = Ok (st', r').
Proof.
  intros st r Hnd Hst.
  destruct (gen_for_total
              (fun (ys : list Z) (s : list edge * list edge) =>
                 NoDup ys /\
                 forall j p, In j ys -> 1 <= j /\
                   (0 <= p < j -> exists w, In (p, j, w) (snd s)))
              Generator.attach) with (xs := xs) (s := st) (r := r)
    as [st' [r' [H _]]]; [|split; assumption|eauto].
  intros x ys [es rem] r0 [Hn Hp]. cbn [snd] in Hp.
  inversion Hn as [|? ? Hx Hys]; subst.
  destruct (Hp x 0 (or_introl eq_refl)) as [Hx1 _].
  destruct (randint_total 0 (x - 1) r0) as [other [r1 [Ho Hor]]]; [lia|].
  destruct (Hp x other (or_introl eq_refl)) as [_ Hex].
  destruct Hex as [w Hw]; [lia|].
  unfold Generator.attach. rewrite (gbind_run _ _ _ _ _ Ho).
  destruct (Generator.find_edge other x rem) as [sel|] eqn:E.
  - eexists. eexists. split; [reflexivity|]. split; [exact Hys|].
    cbn [snd]. intros j p Hj. destruct (Hp j p (or_intror Hj)) as [Hj1 Hjp].
    split; [exact Hj1|]. intros Hpj. destruct (Hjp Hpj) as [w' Hw'].
    exists w'. apply In_remove_first_other; [exact Hw'|].
    apply find_some in E. destruct E as [_ Hsel].
    destruct sel as [[a b] w0]. apply andb_true_iff in Hsel.
    rewrite !Z.eqb_eq in Hsel. destruct Hsel as [_ ->].
    intros [= _ -> _]. exact (Hx Hj).
  - exfalso. unfold Generator.find_edge in E.
    pose proof (find_none _ _ E (other, x, w) Hw) as Hf. cbn beta iota in Hf.
    now rewrite !Z.eqb_refl in Hf.
Qed.

Lemma add_remaining_total (n : Z) :
  forall (fuel : nat) (es rem : list edge) (r : Generator.rng),
    (length rem < fuel)%nat ->
    n <= Generator.len es + Generator.len rem ->
    exists es' r', Generator.add_remaining fuel n es rem r = Ok (es', r').
Proof.
  induction fuel as [|fuel IH]; intros es rem r Hlen Hn; [lia|].
  cbn [Generator.add_remaining]. destruct (Generator.len es <? n) eqn:E;
    [|eexists; eexists; reflexivity].
  apply Z.ltb_lt in E. unfold Generator.len in *.
  destruct (randint_total 0 (Z.of_nat (length rem) - 1) r) as [i [r1 [Hi Hr]]];
    [lia|].
  unfold Generator.len. rewrite (gbind_run _ _ _ _ _ Hi).
  destruct (nth_error rem (Z.to_nat i)) as [sel|] eqn:Es.
  - apply nth_error_In in Es. pose proof (length_remove_first sel rem Es) as Hl.
    apply IH; [lia|]. rewrite length_app. simpl. lia.
  - apply nth_error_None in Es. lia.
Qed.

Lemma grow_loop_total (lo : Z) (xs : list Z) (es : list edge)
    (r : Generator.rng) :
  (forall i, In i xs -> lo + 1 <= i) ->
  exists es' r',
    Generator.gen_for
      (fun edges i =>
         Generator.gbind (Generator.randint lo (i - 1)) (fun p =>
         Generator.gbind (Generator.randint 1 100) (fun w =>
         Generator.ret (edges ++ [(p, i, w)]))))
      xs es r = Ok (es', r').
Proof.
  intros Hxs.
  destruct (gen_for_total
              (fun (ys : list Z) (_ : list edge) =>
                 forall i, In i ys -> lo + 1 <= i)
              (fun (edges : list edge) (i : Z) =>
                 Generator.gbind (Generator.randint lo (i - 1)) (fun p =>
                 Generator.gbind (Generator.randint 1 100) (fun w =>
                 Generator.ret (edges ++ [(p, i, w)]))))) with
    (xs := xs) (s := es) (r := r) as [es' [r' [H _]]]; [|exact Hxs|eauto].
  intros x ys s0 r0 Hys.
  destruct (randint_total lo (x - 1) r0) as [p [r1 [Hp _]]];
    [specialize (Hys x (or_introl eq_refl)); lia|].
  destruct (randint_total 1 100 r1) as [w [r2 [Hw _]]]; [lia|].
  eexists. eexists. split.
  - rewrite (gbind_run _ _ _ _ _ Hp), (gbind_run _ _ _ _ _ Hw). reflexivity.
  - intros i Hi. apply Hys. now right.
Qed.

Lemma spores_total (V sc : Z) (xs : list Z) (st : list edge * Z)
    (r : Generator.rng) :
  exists st' r',
    Generator.gen_for (Generator.grow_spore V sc) xs st r = Ok (st', r').
Proof.
  destruct (gen_for_total (fun _ _ => True) (Generator.grow_spore V sc)) with
    (xs := xs) (s := st) (r := r) as [st' [r' [H _]]]; [|exact I|eauto].
  intros k ys [es off] r0 _. unfold Generator.grow_spore. cbv zeta.
  set (size := if k <? V mod sc then V / sc + 1 else V / sc).
  destruct (grow_loop_total off (range (off + 1) (off + size)) es r0)
    as [es1 [r1 H1]].
  { intros i Hi. apply In_range in Hi. lia. }
  eexists. eexists. split; [|exact I].
  rewrite (gbind_run _ _ _ _ _ H1). reflexivity.
Qed.

Lemma default_given (n : Z) (d : Generator.gen Z) (r : Generator.rng) :
  n <> -1 -> Generator.default n d r = Ok (n, r).
Proof.
  intros Hn. unfold Generator.default.
  destruct (n =? -1) eqn:E; [apply Z.eqb_eq in E; congruence | reflexivity].
Qed.

Ltac given_counts Hnv Hne :=
  rewrite (gbind_run _ _ _ _ _ (default_given _ _ _ Hnv)); cbv beta;
  rewrite (gbind_run _ _ _ _ _ (default_given _ _ _ Hne)); cbv beta.

Ltac answered := eexists; eexists; split; [reflexivity|]; eauto.

Lemma case_any_total (nv ne : Z) (r : Generator.rng) :
  nv <> -1 -> 0 <= ne ->
  exists res r', Generator.case_any nv ne r = Ok (res, r') /\
                 (res = Generator.illegal \/ exists g, res = Graph g).
Proof.
  intros Hnv Hne0. assert (Hne : ne <> -1) by lia.
  unfold Generator.case_any. given_counts Hnv Hne.
  destruct (ne >? nv * (nv - 1) / 2); [answered|].
  destruct (all_pairs_total nv r) as [pool [r1 H1]].
  rewrite (gbind_run _ _ _ _ _ H1). cbv beta.
  destruct (delete_down_total ne Hne0 (S (length pool)) pool r1) as [es [r2 H2]];
    [lia|].
  rewrite (gbind_run _ _ _ _ _ H2). answered.
Qed.

Lemma case_complete_total (nv ne : Z) (r : Generator.rng) :
  nv <> -1 -> ne <> -1 ->
  exists res r', Generator.case_complete nv ne r = Ok (res, r') /\
                 (res = Generator.illegal \/ exists g, res = Graph g).
Proof.
  intros Hnv Hne. unfold Generator.case_complete. given_counts Hnv Hne.
  destruct (negb (ne =? nv * (nv - 1) / 2)); [answered|].
  destruct (all_pairs_total nv r) as [pool [r1 H1]].
  rewrite (gbind_run _ _ _ _ _ H1). answered.
Qed.

Lemma case_connected_total (nv ne : Z) (r : Generator.rng) :
  0 <= nv -> ne <> -1 ->
  exists res r', Generator.case_connected nv ne r = Ok (res, r') /\
                 (res = Generator.illegal \/ exists g, res = Graph g).
Proof.
  intros Hnv0 Hne. assert (Hnv : nv <> -1) by lia.
  unfold Generator.case_connected. given_counts Hnv Hne.
  destruct ((ne >? nv * (nv - 1) / 2) || (ne <? nv - 1)) eqn:Echk; [answered|].
  apply orb_false_iff in Echk. destruct Echk as [Ehigh _].
  rewrite Z.gtb_ltb in Ehigh. apply Z.ltb_ge in Ehigh.
  destruct (all_pairs_total nv r) as [pool [r1 H1]].
  rewrite (gbind_run _ _ _ _ _ H1). cbv beta.
  apply all_pairs_shape in H1. destruct H1 as [Hm _].
  destruct (attach_loop_total (range 1 nv) ([], pool) r1) as [st [r2 H2]].
  { apply NoDup_range. }
  { intros j p Hj. apply In_range in Hj. split; [lia|]. intros Hp. cbn [snd].
    assert (Hin : In (p, j) (map fst pool))
      by (rewrite Hm; apply In_pairs_of; lia).
    apply in_map_iff in Hin. destruct Hin as [[[a b] w] [[= -> ->] Hin]].
    now exists w. }
  rewrite (gbind_run _ _ _ _ _ H2). cbv beta.
  pose proof (Permutation_length (attach_loop_perm _ _ _ _ _ H2)) as Hlen.
  rewrite length_app in Hlen.
  pose proof (length_pairs_of nv Hnv0) as Hp. rewrite <- Hm, length_map in Hp.
  destruct (add_remaining_total ne (S (length (snd st))) (fst st) (snd st) r2)
    as [es [r3 H3]]; [lia | unfold Generator.len; unfold edge in *; lia|].
  rewrite (gbind_run _ _ _ _ _ H3). answered.
Qed.

Lemma case_acyclic_total (nv ne : Z) (r : Generator.rng) :
  nv <> -1 -> ne <> -1 ->
  exists res r', Generator.case_acyclic nv ne r = Ok (res, r') /\
                 (res = Generator.illegal \/ exists g, res = Graph g).
Proof.
  intros Hnv Hne. unfold Generator.case_acyclic. given_counts Hnv Hne.
  destruct (ne >? nv - 1); [answered|].
  destruct (spores_total nv (nv - ne) (range 0 (nv - ne)) ([], 0) r)
    as [st [r1 H1]].
  rewrite (gbind_run _ _ _ _ _ H1). answered.
Qed.

Lemma case_tree_total (nv ne : Z) (r : Generator.rng) :
  nv <> -1 -> ne <> -1 ->
  exists res r', Generator.case_tree nv ne r = Ok (res, r') /\
                 (res = Generator.illegal \/ exists g, res = Graph g).
Proof.
  intros Hnv Hne. unfold Generator.case_tree. given_counts Hnv Hne.
  destruct (negb (ne =? nv - 1)); [answered|].
  destruct (grow_loop_total 0 (range 1 nv) [] r) as [es [r1 H1]].
  { intros i Hi. apply In_range in Hi. lia. }
  rewrite (gbind_run _ _ _ _ _ H1). answered.
Qed.

Lemma case_bipartite_total (nv ne : Z) (r : Generator.rng) :
  nv <> -1 -> 0 <= ne ->
  exists res r', Generator.case_bipartite nv ne r = Ok (res, r') /\
                 (res = Generator.illegal \/ exists g, res = Graph g).
Proof.
  intros Hnv Hne0. assert (Hne : ne <> -1) by lia.
  unfold Generator.case_bipartite. given_counts Hnv Hne.
  destruct (ne >? nv * nv / 4); [answered|]. cbv zeta.
  destruct (cross_pairs_total
              (filter (fun i => i <? nv / 2) (range 0 nv))
              (filter (fun i => negb (i <? nv / 2)) (range 0 nv)) r)
    as [pool [r1 H1]].
  rewrite (gbind_run _ _ _ _ _ H1). cbv beta.
  destruct (delete_down_total ne Hne0 (S (length pool)) pool r1) as [es [r2 H2]];
    [lia|].
  rewrite (gbind_run _ _ _ _ _ H2). answered.
Qed.

(** X12.  A request that gives both counts is always answered: whatever
    the type, the counts and the random draws, [generate] returns (it
    neither raises nor runs on), and what it returns is a rejection with
    status 400, the record "number of vertices and edges is illegal", or a
    graph. *)
Theorem requests_with_both_counts_are_answered :
  forall (ty : string) (nv ne : Z) (r : Generator.rng),
    nv <> -1 -> ne <> -1 ->
    exists out r',
      Generator.generate ty nv ne r = Ok (out, r') /\
      ((exists rej, out = inr rej /\ statusCode rej = 400) \/
       out = inl Generator.illegal \/
       exists g, out = inl (Graph g)).
Proof.
  intros ty nv ne r Hnv Hne. unfold Generator.generate.
  destruct (Generator.validate_parameters ty nv ne) as [rej|] eqn:Eval.
  { exists (inr rej), r. split; [reflexivity|]. left. exists rej.
    split; [reflexivity|]. unfold Generator.validate_parameters in Eval.
    repeat match type of Eval with
           | (if ?c then _ else _) = _ => destruct c
           end; try discriminate; now injection Eval as <-. }
  unfold Generator.validate_parameters in Eval.
  destruct (existsb (String.eqb ty) Generator.graph_types) eqn:Ety;
    cbn [negb] in Eval; [|discriminate].
  apply Z.eqb_neq in Hnv, Hne. rewrite Hnv, Hne in Eval. cbn [negb andb] in Eval.
  destruct (nv <=? 0) eqn:E1; [discriminate|]. apply Z.leb_gt in E1.
  destruct (ne <? 0) eqn:E2; [discriminate|]. apply Z.ltb_ge in E2.
  apply Z.eqb_neq in Hnv, Hne.
  assert (Hmake : exists res r',
             Generator.make_random_graph ty nv ne r = Ok (res, r') /\
             (res = Generator.illegal \/ exists g, res = Graph g)).
  { unfold Generator.graph_types in Ety. cbn [existsb] in Ety.
    rewrite !orb_true_iff, !String.eqb_eq in Ety.
    destruct Ety as [->|[->|[->|[->|[->|[->|Hf]]]]]]; [| | | | | |discriminate].
    - now apply case_any_total.
    - now apply case_complete_total.
    - apply case_connected_total; [lia | exact Hne].
    - now apply case_acyclic_total.
    - now apply case_tree_total.
    - now apply case_bipartite_total. }
  destruct Hmake as [res [r' [Hres Hkind]]].
  exists (inl res), r'. split.
  - now rewrite (gbind_run _ _ _ _ _ Hres).
  - destruct Hkind as [->|[g ->]]; [right; now left | right; right; eauto].
Qed.

Lemma requests_with_both_counts_are_answered_witness :
  exists out r',
    Generator.generate "connected" 4 9
      {| Generator.draws := fun _ => 0; Generator.pos := 0 |} = Ok (out, r') /\
    ((exists rej, out = inr rej /\ statusCode rej = 400) \/
     out = inl Generator.illegal \/
     exists g, out = inl (Graph g)).
Proof.
  apply (requests_with_both_counts_are_answered "connected" 4 9
           {| Generator.draws := fun _ => 0; Generator.pos := 0 |});
    discriminate.
Defined.

(** ** Complete graphs *)

(** X13.  In a graph returned for the type "complete" every two distinct
    declared vertices are joined by an edge, and the number of edges is
    V (V - 1) / 2 for its V vertices. *)
Theorem generated_complete_graph_is_complete :
  forall (nv ne : Z) (r r' : Generator.rng) (g : graph_data),
    Generator.make_random_graph "complete" nv ne r = Ok (Graph g, r') ->
    (forall a b, In a (vertices g) -> In b (vertices g) -> a <> b ->
                 adjacent (edges g) a b) /\
    2 * Z.of_nat (length (edges g))
    = Z.of_nat (length (vertices g)) * (Z.of_nat (length (vertices g)) - 1).
Proof.
  intros nv ne r r' g H.
  change (Generator.case_complete nv ne r = Ok (Graph g, r')) in H.
  apply case_complete_shape in H. destruct H as [V [E [[HV _] Hm]]].
  split.
  - intros a b Ha Hb Hab. rewrite HV, In_range in Ha, Hb.
    assert (Hpair : forall x y, 0 <= x -> x < y -> y < V ->
                                exists w, In (x, y, w) (edges g)).
    { intros x y H0 Hxy Hy.
      assert (Hin : In (x, y) (map fst (edges g)))
        by (rewrite Hm; apply In_pairs_of; lia).
      apply in_map_iff in Hin. destruct Hin as [[[x' y'] w] [[= -> ->] Hin]].
      now exists w. }
    destruct (Z.lt_ge_cases a b) as [Hlt|Hge].
    + destruct (Hpair a b) as [w Hw]; [lia | lia | lia|].
      exists (a, b, w). split; [exact Hw|]. unfold joins.
      now rewrite !Z.eqb_refl.
    + destruct (Hpair b a) as [w Hw]; [lia | lia | lia|].
      exists (b, a, w). split; [exact Hw|]. unfold joins.
      rewrite !Z.eqb_refl. apply orb_true_r.
  - unfold edge in *.
    rewrite <- (length_map fst (edges g)), Hm, HV, length_range.
    destruct (Z.lt_ge_cases V 0) as [Hneg|Hpos].
    + unfold pairs_of. rewrite range_empty by lia. simpl.
      replace (Z.to_nat (V - 0)) with O by lia. reflexivity.
    + pose proof (length_pairs_from V (Z.to_nat (V - 0)) 0 eq_refl Hpos) as Hl.
      fold (pairs_of V) in Hl. rewrite Hl, Z2Nat.id by lia. lia.
Qed.

Lemma generated_complete_graph_is_complete_witness :
  (forall a b, In a [0; 1; 2] -> In b [0; 1; 2] -> a <> b ->
               adjacent [(0, 1, 1); (0, 2, 1); (1, 2, 1)] a b) /\
  2 * Z.of_nat (length [(0, 1, 1); (0, 2, 1); (1, 2, 1)])
  = Z.of_nat (length [0; 1; 2]) * (Z.of_nat (length [0; 1; 2]) - 1).
Proof.
  apply (generated_complete_graph_is_complete 3 3
           {| Generator.draws := fun _ => 0; Generator.pos := 0 |}
           {| Generator.draws := fun _ => 0; Generator.pos := 3 |}
           {| vertices := [0; 1; 2];
              edges := [(0, 1, 1); (0, 2, 1); (1, 2, 1)] |}).
  reflexivity.
Defined.

(** ** Self-loops *)

(** X14.  On a well-formed description that lists a self-loop, with weights
    within the range of doubles and fewer vertices than the interpreter
    allows nested calls, [has_cycle] does not return [False]: it returns a
    closed walk of the graph. *)
Theorem self_loop_is_a_cycle :
  forall (frames : nat) (g : graph_data) (root : option Z) (a w : Z),
    well_formed g ->
    finite_weights g ->
    (length (vertices g) < frames)%nat ->
    In (a, a, w) (edges g) ->
    exists cycle,
      Analysis.analyze_graph frames "has_cycle" root g
      = Ok {| type := "has_cycle"; data := DCycle cycle |} /\
      closed_walk (adjacent (edges g)) cycle.
Proof.
  intros frames g root a w Hwf Hfin Hframes Hin.
  destruct (has_cycle_spec frames g root Hwf Hfin Hframes)
    as [al [d [Hal [Hadj [Hres Hd]]]]].
  destruct Hd as [[-> Hall]|[cycle [-> [Hcw _]]]]; [exfalso | eauto].
  assert (Ha : adjacent (edges g) a a).
  { exists (a, a, w). split; [exact Hin|]. unfold joins.
    now rewrite !Z.eqb_refl. }
  destruct (adjacent_declared g a a Hwf Ha) as [Hdecl _].
  apply (explored_not_on_cycle al a []).
  - intros x y Hxy. apply Hadj, adjacent_sym, Hadj, Hxy.
  - now apply Hall.
  - repeat constructor. simpl. tauto.
  - simpl. lia.
  - simpl. split; [now apply Hadj | exact I].
Qed.

Lemma self_loop_is_a_cycle_witness :
  exists cycle,
    Analysis.analyze_graph 1000 "has_cycle" None
      {| vertices := [0; 1]; edges := [(0, 1, 3); (1, 1, 2)] |}
    = Ok {| type := "has_cycle"; data := DCycle cycle |} /\
    closed_walk (adjacent [(0, 1, 3); (1, 1, 2)]) cycle.
Proof.
  apply (self_loop_is_a_cycle 1000%nat
           {| vertices := [0; 1]; edges := [(0, 1, 3); (1, 1, 2)] |} None 1 2).
  - split.
    + simpl. repeat constructor; simpl; intuition lia.
    + simpl. intros a b w H.
      repeat (destruct H as [H|H]; [injection H as <- <- <-; intuition|]).
      destruct H.
  - intros a b w H. simpl in H.
    repeat (destruct H as [H|H]; [injection H as <- <- <-; reflexivity|]).
    destruct H.
  - simpl. lia.
  - simpl. auto.
Defined.

(** ** Cycle detection on generated forests *)

(** C6.  Whatever the requested counts and the randomness source, on a
    graph description returned by the generator for the type "acyclic" or
    "tree" that has fewer vertices than the interpreter allows nested calls,
    [has_cycle] returns [False]. *)
Theorem generated_forest_no_cycle :
  forall (frames : nat) (ty : string) (nv ne : Z) (r r' : Generator.rng)
         (g : graph_data) (root : option Z),
    ty = "acyclic"%string \/ ty = "tree"%string ->
    Generator.make_random_graph ty nv ne r = Ok (Graph g, r') ->
    (length (vertices g) < frames)%nat ->
    Analysis.analyze_graph frames "has_cycle" root g
    = Ok {| type := "has_cycle"; data := DBool false |}.
Proof.
  intros frames ty nv ne r r' g root Hty H Hframes.
  pose proof (exact_finite g (generated_weights _ _ _ _ _ _ H)) as Hfin.
  destruct Hty as [-> | ->].
  - change (Generator.case_acyclic nv ne r = Ok (Graph g, r')) in H.
    apply case_acyclic_spec in H. destruct H as [V [HV Hf]].
    now apply (forest_has_no_cycle frames g V).
  - change (Generator.case_tree nv ne r = Ok (Graph g, r')) in H.
    apply case_tree_spec in H. destruct H as [V [HV Hf]].
    now apply (forest_has_no_cycle frames g V).
Qed.

Lemma generated_forest_no_cycle_witness :
  Analysis.analyze_graph 1000 "has_cycle" None
    {| vertices := [0; 1; 2; 3; 4];
       edges := [(0, 1, 1); (0, 2, 1); (3, 4, 1)] |}
  = Ok {| type := "has_cycle"; data := DBool false |}.
Proof.
  apply (generated_forest_no_cycle 1000%nat "acyclic" 5 3
           {| Generator.draws := fun _ => 0; Generator.pos := 0 |}
           {| Generator.draws := fun _ => 0; Generator.pos := 6 |}).
  - now left.
  - reflexivity.
  - simpl. lia.
Defined.

(** C6 as stated fails.  For the type "tree" with 1200 vertices, when each
    draw for a parent yields the vertex just before, the generator returns
    the chain 0 - 1 - ... - 1199; with 1000 nested calls allowed, [has_cycle]
    on that chain raises [RecursionError] instead of returning [False]. *)
Lemma generated_chain_exceeds_recursion :
  Generator.make_random_graph "tree" 1200 (-1)
    {| Generator.draws := fun n => Z.of_nat (n / 2); Generator.pos := 0 |}
  = Ok (Graph {| vertices := range 0 1200;
                 edges := map (fun i => (i - 1, i, 1 + (i - 1) mod 100))
                              (range 1 1200) |},
        {| Generator.draws := fun n => Z.of_nat (n / 2);
           Generator.pos := 2398 |}) /\
  Analysis.analyze_graph 1000 "has_cycle" None
    {| vertices := range 0 1200;
       edges := map (fun i => (i - 1, i, 1 + (i - 1) mod 100))
                    (range 1 1200) |}
  = Raise RecursionError.
Proof.
  split; vm_compute; reflexivity.
Qed.

(** ** Cycle detection beyond the limits of the interpreter *)

(** C4 as stated fails.  The chain 0 - 1 - ... - 1002 closed by the edge
    1000 - 1002 is a well-formed simple description in which 1000, 1001 and
    1002 are pairwise adjacent; with 1000 nested calls allowed, [has_cycle]
    raises [RecursionError] before the search reaches them.  The triangle
    0, 1, 2 with one weight 2^1024 is well formed and simple too, and on it
    the conversion of that weight raises [OverflowError]. *)
Lemma has_cycle_raises_on_triangle :
  (well_formed {| vertices := range 0 1003;
                  edges := map (fun i => (i, i + 1, 1)) (range 0 1002)
                           ++ [(1000, 1002, 1)] |} /\
   simple (map (fun i => (i, i + 1, 1)) (range 0 1002) ++ [(1000, 1002, 1)]) /\
   adjacent (map (fun i => (i, i + 1, 1)) (range 0 1002) ++ [(1000, 1002, 1)])
     1000 1001 /\
   adjacent (map (fun i => (i, i + 1, 1)) (range 0 1002) ++ [(1000, 1002, 1)])
     1001 1002 /\
   adjacent (map (fun i => (i, i + 1, 1)) (range 0 1002) ++ [(1000, 1002, 1)])
     1002 1000 /\
   Analysis.analyze_graph 1000 "has_cycle" None
     {| vertices := range 0 1003;
        edges := map (fun i => (i, i + 1, 1)) (range 0 1002)
                 ++ [(1000, 1002, 1)] |}
   = Raise RecursionError) /\
  (well_formed {| vertices := [0; 1; 2];
                  edges := [(0, 1, 1); (1, 2, 1); (0, 2, 2 ^ 1024)] |} /\
   simple [(0, 1, 1); (1, 2, 1); (0, 2, 2 ^ 1024)] /\
   adjacent [(0, 1, 1); (1, 2, 1); (0, 2, 2 ^ 1024)] 0 1 /\
   adjacent [(0, 1, 1); (1, 2, 1); (0, 2, 2 ^ 1024)] 1 2 /\
   adjacent [(0, 1, 1); (1, 2, 1); (0, 2, 2 ^ 1024)] 2 0 /\
   Analysis.analyze_graph 1000 "has_cycle" None
     {| vertices := [0; 1; 2];
        edges := [(0, 1, 1); (1, 2, 1); (0, 2, 2 ^ 1024)] |}
   = Raise OverflowError).
Proof.
  set (chain_edges := map (fun i => (i, i + 1, 1)) (range 0 1002)).
  assert (Hin : forall i, 0 <= i < 1002 -> In (i, i + 1, 1) chain_edges).
  { intros i Hi. unfold chain_edges. apply in_map_iff. exists i.
    split; [reflexivity | now apply In_range]. }
  assert (Hchain : forall e, In e chain_edges ->
                     exists i, e = (i, i + 1, 1) /\ 0 <= i < 1002).
  { intros e He. unfold chain_edges in He. apply in_map_iff in He.
    destruct He as [i [<- Hi]]. apply In_range in Hi. eauto. }
  split.
  - split; [|split; [|split; [|split; [|split]]]].
    + apply (ordered_well_formed _ 1003); [reflexivity|]. cbn [edges].
      apply Forall_app. split.
      * apply Forall_forall. intros e He.
        destruct (Hchain e He) as [i [-> Hi]]. simpl. lia.
      * repeat constructor; lia.
    + apply ascending_distinct_simple.
      * apply Forall_app. split.
        -- apply Forall_forall. intros e He.
           destruct (Hchain e He) as [i [-> Hi]]. unfold ascending. simpl. lia.
        -- repeat constructor.
      * rewrite map_app. apply NoDup_app.
        -- unfold chain_edges. rewrite map_map. cbn [fst].
           apply Injective_map_NoDup; [|apply NoDup_range].
           intros x y [= Hxy]. exact Hxy.
        -- repeat constructor. simpl. tauto.
        -- intros x Hx [<-|[]]. apply in_map_iff in Hx.
           destruct Hx as [e [Hf He]]. destruct (Hchain e He) as [i [-> Hi]].
           simpl in Hf. injection Hf as H1 H2. lia.
    + exists (1000, 1001, 1). split; [|reflexivity].
      apply in_or_app. left. apply (Hin 1000). lia.
    + exists (1001, 1002, 1). split; [|reflexivity].
      apply in_or_app. left. apply (Hin 1001). lia.
    + exists (1000, 1002, 1). split; [|reflexivity].
      apply in_or_app. right. now left.
    + vm_compute. reflexivity.
  - split; [|split; [|split; [|split; [|split]]]].
    + split.
      * simpl. repeat constructor; simpl; intuition lia.
      * simpl. intros a b w H.
        repeat (destruct H as [H|H]; [injection H as <- <- <-; intuition|]).
        destruct H.
    + simpl. repeat split; try lia; intros e H;
        repeat (destruct H as [H|H]; [subst e; reflexivity|]); destruct H.
    + exists (0, 1, 1). simpl. auto.
    + exists (1, 2, 1). simpl. auto.
    + exists (0, 2, 2 ^ 1024). split; [simpl; auto | reflexivity].
    + vm_compute. reflexivity.
Qed.
